(** * kivi scheduler: a shallow embedding of [src/scheduler/scheduler.js]

    The scheduler is a flag register, a clock, two task queues and two
    double-buffered [Frame] objects, driven by three flush routines that the
    host invokes.  JavaScript arrays are objects with identity, and several
    properties of the scheduler are about exactly that identity (which array
    a running task appends to while another one is being iterated), so the
    model keeps an explicit store of arrays addressed by location.

    Tasks are opaque: what a task does when it runs is given by a
    [behaviour] that may depend on the whole execution history and that
    yields the sequence of scheduler API calls the task makes.  A ghost
    trace records every task invocation (with the world the task saw on
    entry), every API call and every phase boundary. *)

From Stdlib Require Import ZArith Lia Sorted.
From stdpp Require Import base tactics option list.

Local Open Scope Z_scope.

(** ** Bit flags, as the JavaScript operators use them

    [f |= c], [f &= ~c] and [(f & c) !== 0].  The flag registers only ever
    hold unions of the small non-negative constants below, for which the
    32-bit JavaScript operators and the operations on [Z] agree. *)

Definition flag_set (f c : Z) : Z := Z.lor f c.
Definition flag_clear (f c : Z) : Z := Z.land f (Z.lnot c).
Definition flag_test (f c : Z) : bool := negb (Z.land f c =? 0).

Module SchedulerFlags.
Definition RUNNING : Z := 0x0100.
Definition MICROTASK_PENDING : Z := 0x0001.
Definition MACROTASK_PENDING : Z := 0x0002.
Definition FRAMETASK_PENDING : Z := 0x0008.
Definition MICROTASK_RUNNING : Z := 0x0010.
Definition MACROTASK_RUNNING : Z := 0x0020.
Definition FRAMETASK_RUNNING : Z := 0x0080.
End SchedulerFlags.

(** Modelled from the spec: [kivi.scheduler.FrameFlags] is declared in
    [frame.js], which is not among the sources.  The spec gives the bits
    WRITE, WRITE_PRIO, READ, AFTER and the derived
    [WRITE_ANY = WRITE | WRITE_PRIO]; all that is used of the values below is
    that the four bits are distinct. *)
Module FrameFlags.
Definition WRITE_PRIO : Z := 0x0001.
Definition WRITE : Z := 0x0002.
Definition READ : Z := 0x0004.
Definition AFTER : Z := 0x0008.
Definition WRITE_ANY : Z := Z.lor WRITE WRITE_PRIO.
End FrameFlags.

(** ** Data model *)

(** A location in the array store. *)
Definition loc := nat.

(** A schedulable unit: a [kivi.Component] instance (run through
    [update()]) or a plain function. *)
Inductive task :=
| Comp (c : nat)
| Fn (f : nat).

Global Instance task_eq_dec : EqDecision task.
Proof. solve_decision. Defined.

(** The two [Frame] objects the constructor creates. *)
Inductive fid := FrameA | FrameB.

Global Instance fid_eq_dec : EqDecision fid.
Proof. solve_decision. Defined.

(** Modelled from the spec: the [Frame] object of [frame.js] (not among the
    sources).  [writeTaskGroups] is the rank-indexed array whose slots are
    null or a group; the other three fields are null or an array. *)
Record Frame := mkFrame {
  frame_flags : Z;
  writeTaskGroups : list (option loc);
  writeTasks : option loc;
  readTasks : option loc;
  afterTasks : option loc
}.

(** The fields of [kivi.scheduler.Scheduler]. *)
Record Scheduler := mkScheduler {
  flags : Z;
  clock : Z;
  _microtasks : loc;
  _macrotasks : loc;
  _currentFrame : fid;
  _nextFrame : fid
}.

(** What the host has been asked for: the number of calls made so far to
    [window.requestAnimationFrame] and to the two [requestNextTick]s. *)
Record Host := mkHost {
  rafRequests : nat;
  microTicks : nat;
  macroTicks : nat
}.

Record World := mkWorld {
  sched : Scheduler;
  frameA : Frame;
  frameB : Frame;
  heap : list (list task);
  host : Host
}.

(** ** The ghost trace *)

Inductive frame_op :=
| FWrite (t : task)
| FWritePrio (t : task) (rank : nat)
| FRead (cb : task)
| FAfter (cb : task).

Inductive api :=
| ApiMicrotask (cb : task)
| ApiMacrotask (cb : task)
| ApiNextFrame
| ApiCurrentFrame
| ApiFrame (f : fid) (op : frame_op).

(** Phase boundaries of the flush routines. *)
Inductive phase := PhWave | PhWrite | PhRead | PhAfter.

(** The loop a task is run from. *)
Inductive slot :=
| InMicro
| InMacro
| InPrio (rank : nat)
| InWrite
| InRead
| InAfter.

Inductive event :=
| EvPhase (p : phase)
| EvRun (k : slot) (a : loc) (i : nat) (t : task) (w : World)
| EvApi (c : api).

Record State := mkState {
  world : World;
  trace : list event
}.

(** What a task does when it runs. *)
Inductive action :=
| ScheduleMicrotask (cb : task)
| ScheduleMacrotask (cb : task)
| OnNextFrame (ops : list frame_op)
| OnCurrentFrame (ops : list frame_op)
| OnFrame (f : fid) (ops : list frame_op)
| Throw.

Inductive outcome :=
| Done (s : State)
| Raised (s : State)
| OutOfFuel.

Definition obind (o : outcome) (k : State -> outcome) : outcome :=
  match o with
  | Done s => k s
  | Raised s => Raised s
  | OutOfFuel => OutOfFuel
  end.

Notation "'let*' x := e 'in' k" := (obind e (fun x => k))
  (at level 10, x name, e at level 200, k at level 200).

(** ** Field updates *)

Definition with_sched (w : World) (sc : Scheduler) : World :=
  mkWorld sc (frameA w) (frameB w) (heap w) (host w).
Definition with_heap (w : World) (h : list (list task)) : World :=
  mkWorld (sched w) (frameA w) (frameB w) h (host w).
Definition with_host (w : World) (h : Host) : World :=
  mkWorld (sched w) (frameA w) (frameB w) (heap w) h.

Definition frame_of (w : World) (f : fid) : Frame :=
  match f with FrameA => frameA w | FrameB => frameB w end.
Definition with_frame (w : World) (f : fid) (fr : Frame) : World :=
  match f with
  | FrameA => mkWorld (sched w) fr (frameB w) (heap w) (host w)
  | FrameB => mkWorld (sched w) (frameA w) fr (heap w) (host w)
  end.

Definition with_flags (sc : Scheduler) (f : Z) : Scheduler :=
  mkScheduler f (clock sc) (_microtasks sc) (_macrotasks sc) (_currentFrame sc) (_nextFrame sc).
Definition with_clock (sc : Scheduler) (c : Z) : Scheduler :=
  mkScheduler (flags sc) c (_microtasks sc) (_macrotasks sc) (_currentFrame sc) (_nextFrame sc).
Definition with_microtasks (sc : Scheduler) (a : loc) : Scheduler :=
  mkScheduler (flags sc) (clock sc) a (_macrotasks sc) (_currentFrame sc) (_nextFrame sc).
Definition with_macrotasks (sc : Scheduler) (a : loc) : Scheduler :=
  mkScheduler (flags sc) (clock sc) (_microtasks sc) a (_currentFrame sc) (_nextFrame sc).
Definition with_frames (sc : Scheduler) (cur nxt : fid) : Scheduler :=
  mkScheduler (flags sc) (clock sc) (_microtasks sc) (_macrotasks sc) cur nxt.

Definition with_frame_flags (fr : Frame) (f : Z) : Frame :=
  mkFrame f (writeTaskGroups fr) (writeTasks fr) (readTasks fr) (afterTasks fr).
Definition with_writeTaskGroups (fr : Frame) (g : list (option loc)) : Frame :=
  mkFrame (frame_flags fr) g (writeTasks fr) (readTasks fr) (afterTasks fr).
Definition with_writeTasks (fr : Frame) (a : option loc) : Frame :=
  mkFrame (frame_flags fr) (writeTaskGroups fr) a (readTasks fr) (afterTasks fr).
Definition with_readTasks (fr : Frame) (a : option loc) : Frame :=
  mkFrame (frame_flags fr) (writeTaskGroups fr) (writeTasks fr) a (afterTasks fr).
Definition with_afterTasks (fr : Frame) (a : option loc) : Frame :=
  mkFrame (frame_flags fr) (writeTaskGroups fr) (writeTasks fr) (readTasks fr) a.

Definition set_sched_flag (c : Z) (w : World) : World :=
  with_sched w (with_flags (sched w) (flag_set (flags (sched w)) c)).
Definition clear_sched_flag (c : Z) (w : World) : World :=
  with_sched w (with_flags (sched w) (flag_clear (flags (sched w)) c)).
Definition set_frame_flag (f : fid) (c : Z) (w : World) : World :=
  with_frame w f (with_frame_flags (frame_of w f) (flag_set (frame_flags (frame_of w f)) c)).
Definition clear_frame_flag (f : fid) (c : Z) (w : World) : World :=
  with_frame w f (with_frame_flags (frame_of w f) (flag_clear (frame_flags (frame_of w f)) c)).

(** ** Numbers

    A JavaScript number is an IEEE-754 double.  The clock only ever holds
    integers, and an integer is a double when its magnitude has at most 53
    significant bits.  [to_double z] is the double nearest to the integer
    [z], a tie going to the neighbour with the even significand: the value
    that an arithmetic operation whose exact result is [z] yields.  (Beyond
    the largest double the result would be Infinity; incrementing a double
    never gets there, since from 2^54 on adding one changes nothing.) *)
Definition to_double (z : Z) : Z :=
  let a := Z.abs z in
  if a <=? 2 ^ 53 then z
  else
    let e := Z.log2 a - 52 in
    let q := a / 2 ^ e in
    let r := a mod 2 ^ e in
    let h := 2 ^ (e - 1) in
    let m := if (r <? h) || ((r =? h) && Z.even q) then q else q + 1 in
    Z.sgn z * (m * 2 ^ e).

(** [x++] on a number that holds the integer [x]: the new value. *)
Definition js_incr (x : Z) : Z := to_double (x + 1).

(** [self.clock++] *)
Definition tick (w : World) : World :=
  with_sched w (with_clock (sched w) (js_incr (clock (sched w)))).

(** ** The array store *)

(** The elements of the array at [a].  The locations the fields hold are
    always locations of the store (see [wf] below); any other location reads
    as an empty array and is not written. *)
Definition array_at (w : World) (a : loc) : list task :=
  default [] (heap w !! a).

(** [[]]: a fresh empty array. *)
Definition alloc (w : World) : loc * World :=
  (length (heap w), with_heap w (heap w ++ [[]])).

(** [a.push(t)] *)
Definition push (a : loc) (t : task) (w : World) : World :=
  with_heap w (<[a := array_at w a ++ [t]]> (heap w)).

(** [self._microtasks = []] and [self._macrotasks = []] *)
Definition detach_microtasks (w : World) : World :=
  let '(a, w') := alloc w in with_sched w' (with_microtasks (sched w') a).
Definition detach_macrotasks (w : World) : World :=
  let '(a, w') := alloc w in with_sched w' (with_macrotasks (sched w') a).

(** [groups[i] = null], with [groups = frame.writeTaskGroups] *)
Definition null_group (f : fid) (i : nat) (w : World) : World :=
  with_frame w f (with_writeTaskGroups (frame_of w f)
                    (<[i := None]> (writeTaskGroups (frame_of w f)))).

(** [frame.readTasks = null] *)
Definition null_readTasks (f : fid) (w : World) : World :=
  with_frame w f (with_readTasks (frame_of w f) None).

Definition on_world (f : World -> World) (s : State) : State :=
  mkState (f (world s)) (trace s).
Definition log (e : event) (s : State) : State :=
  mkState (world s) (trace s ++ [e]).

(** ** The scheduling API *)

(** [Scheduler.prototype.scheduleMicrotask] *)
Definition scheduleMicrotask (cb : task) (w : World) : World :=
  let w1 :=
    if flag_test (flags (sched w)) SchedulerFlags.MICROTASK_PENDING then w
    else
      let w' := set_sched_flag SchedulerFlags.MICROTASK_PENDING w in
      with_host w' (mkHost (rafRequests (host w')) (S (microTicks (host w')))
                           (macroTicks (host w'))) in
  push (_microtasks (sched w1)) cb w1.

(** [Scheduler.prototype.scheduleMacrotask] *)
Definition scheduleMacrotask (cb : task) (w : World) : World :=
  let w1 :=
    if flag_test (flags (sched w)) SchedulerFlags.MACROTASK_PENDING then w
    else
      let w' := set_sched_flag SchedulerFlags.MACROTASK_PENDING w in
      with_host w' (mkHost (rafRequests (host w')) (microTicks (host w'))
                           (S (macroTicks (host w')))) in
  push (_macrotasks (sched w1)) cb w1.

(** [Scheduler.prototype.nextFrame] *)
Definition nextFrame (w : World) : fid * World :=
  let w1 :=
    if flag_test (flags (sched w)) SchedulerFlags.FRAMETASK_PENDING then w
    else
      let w' := set_sched_flag SchedulerFlags.FRAMETASK_PENDING w in
      with_host w' (mkHost (S (rafRequests (host w'))) (microTicks (host w'))
                           (macroTicks (host w'))) in
  (_nextFrame (sched w1), w1).

(** [Scheduler.prototype.currentFrame] *)
Definition currentFrame (w : World) : fid :=
  _currentFrame (sched w).

(** Modelled from the spec: the operations of [Frame] by which callers push
    work into one of its task groups ([frame.js] is not among the sources).
    Each sets the flag of its group and appends the task, creating the array
    when the field is null. *)
Definition frame_write (f : fid) (t : task) (w : World) : World :=
  let w1 := set_frame_flag f FrameFlags.WRITE w in
  match writeTasks (frame_of w1 f) with
  | Some a => push a t w1
  | None =>
      let '(a, w2) := alloc w1 in
      push a t (with_frame w2 f (with_writeTasks (frame_of w2 f) (Some a)))
  end.

(** Modelled from the spec: scheduling a read task. *)
Definition frame_read (f : fid) (t : task) (w : World) : World :=
  let w1 := set_frame_flag f FrameFlags.READ w in
  match readTasks (frame_of w1 f) with
  | Some a => push a t w1
  | None =>
      let '(a, w2) := alloc w1 in
      push a t (with_frame w2 f (with_readTasks (frame_of w2 f) (Some a)))
  end.

(** Modelled from the spec: scheduling an after-task. *)
Definition frame_after (f : fid) (t : task) (w : World) : World :=
  let w1 := set_frame_flag f FrameFlags.AFTER w in
  match afterTasks (frame_of w1 f) with
  | Some a => push a t w1
  | None =>
      let '(a, w2) := alloc w1 in
      push a t (with_frame w2 f (with_afterTasks (frame_of w2 f) (Some a)))
  end.

(** Modelled from the spec: scheduling a write task with a priority rank.
    The group array is extended with nulls up to the rank, and the task is
    appended to the group of its rank, which is created when the slot is
    null. *)
Definition extend_groups (g : list (option loc)) (rank : nat) : list (option loc) :=
  g ++ replicate (S rank - length g) None.

(** Modelled from the spec: see [extend_groups]. *)
Definition frame_write_prio (f : fid) (t : task) (rank : nat) (w : World) : World :=
  let w1 := set_frame_flag f FrameFlags.WRITE_PRIO w in
  let g := extend_groups (writeTaskGroups (frame_of w1 f)) rank in
  match g !! rank with
  | Some (Some a) =>
      push a t (with_frame w1 f (with_writeTaskGroups (frame_of w1 f) g))
  | _ =>
      let '(a, w2) := alloc w1 in
      push a t (with_frame w2 f
                  (with_writeTaskGroups (frame_of w2 f) (<[rank := Some a]> g)))
  end.

Definition frame_apply (f : fid) (op : frame_op) (w : World) : World :=
  match op with
  | FWrite t => frame_write f t w
  | FWritePrio t rank => frame_write_prio f t rank w
  | FRead cb => frame_read f cb w
  | FAfter cb => frame_after f cb w
  end.

Definition do_frame_op (f : fid) (op : frame_op) (s : State) : State :=
  log (EvApi (ApiFrame f op)) (on_world (frame_apply f op) s).

Definition do_frame_ops (f : fid) (ops : list frame_op) (s : State) : State :=
  foldl (fun s op => do_frame_op f op s) s ops.

(** One API call sequence of a task; [Throw] is handled by [run_actions]. *)
Definition do_action (a : action) (s : State) : State :=
  match a with
  | ScheduleMicrotask cb =>
      log (EvApi (ApiMicrotask cb)) (on_world (scheduleMicrotask cb) s)
  | ScheduleMacrotask cb =>
      log (EvApi (ApiMacrotask cb)) (on_world (scheduleMacrotask cb) s)
  | OnNextFrame ops =>
      let '(f, w) := nextFrame (world s) in
      do_frame_ops f ops (log (EvApi ApiNextFrame) (mkState w (trace s)))
  | OnCurrentFrame ops =>
      do_frame_ops (currentFrame (world s)) ops (log (EvApi ApiCurrentFrame) s)
  | OnFrame f ops => do_frame_ops f ops s
  | Throw => s
  end.

Fixpoint run_actions (acts : list action) (s : State) : outcome :=
  match acts with
  | [] => Done s
  | Throw :: _ => Raised s
  | a :: rest => run_actions rest (do_action a s)
  end.

(** ** The constructor *)

(** Modelled from the spec: [new kivi.scheduler.Frame()], a frame with no
    flag set and no task. *)
Definition empty_frame : Frame := mkFrame 0 [] None None None.

(** [new kivi.scheduler.Scheduler()]: the two queues are the arrays at
    locations 0 and 1. *)
Definition new_Scheduler : World :=
  mkWorld (mkScheduler 0 1 0%nat 1%nat FrameA FrameB)
          empty_frame empty_frame [[]; []] (mkHost 0 0 0).

Definition init : State := mkState new_Scheduler [].

Section Flush.

(** What running a task does: the API calls it makes, given everything that
    has happened so far. *)
Variable behaviour : task -> State -> list action.

(** Running task [t], element [i] of the array at [a], from loop [k]. *)
Definition invoke (k : slot) (a : loc) (i : nat) (t : task) (s : State) : outcome :=
  run_actions (behaviour t s) (log (EvRun k a i t (world s)) s).

(** [task()]: a direct call, a TypeError when the task is not a function. *)
Definition call (k : slot) (a : loc) (i : nat) (t : task) (s : State) : outcome :=
  match t with
  | Fn _ => invoke k a i t s
  | Comp _ => Raised s
  end.

(** [task.constructor === kivi.Component ? task.update() : task.call()];
    what [update()] does is the [behaviour] of the component. *)
Definition dispatch (k : slot) (a : loc) (i : nat) (t : task) (s : State) : outcome :=
  match t with
  | Comp _ => invoke k a i t s
  | Fn _ => invoke k a i t s
  end.

(** [for (i = i0; i < arr.length; i++) run(arr[i])] over the array at [a];
    the length is read again on every iteration. *)
Fixpoint for_each (fuel : nat) (run : loc -> nat -> task -> State -> outcome)
    (a : loc) (i : nat) (s : State) : outcome :=
  match fuel with
  | O => OutOfFuel
  | S fuel' =>
      match array_at (world s) a !! i with
      | None => Done s
      | Some t => let* s' := run a i t s in for_each fuel' run a (S i) s'
      end
  end.

(** *** The microtask flush *)

(** [while (tasks.length > 0) { ... }] *)
Fixpoint micro_waves (fuel : nat) (tasks : loc) (s : State) : outcome :=
  match fuel with
  | O => OutOfFuel
  | S fuel' =>
      if (0 <? length (array_at (world s) tasks))%nat then
        let s1 := on_world detach_microtasks (log (EvPhase PhWave) s) in
        let* s2 := for_each fuel' (call InMicro) tasks 0 s1 in
        micro_waves fuel' (_microtasks (sched (world s2))) s2
      else Done s
  end.

Definition _microtaskScheduler (fuel : nat) (s : State) : outcome :=
  let s0 := on_world (set_sched_flag SchedulerFlags.RUNNING) s in
  let* s1 := micro_waves fuel (_microtasks (sched (world s0))) s0 in
  Done (on_world
          (fun w => clear_sched_flag
                      (Z.lor SchedulerFlags.MICROTASK_PENDING SchedulerFlags.RUNNING)
                      (tick w)) s1).

(** *** The macrotask flush *)

Definition _macrotaskScheduler (fuel : nat) (s : State) : outcome :=
  let s0 := on_world (fun w => set_sched_flag SchedulerFlags.RUNNING
                                 (clear_sched_flag SchedulerFlags.MACROTASK_PENDING w)) s in
  let tasks := _macrotasks (sched (world s0)) in
  let* s1 := (if (0 <? length (array_at (world s0) tasks))%nat then
              for_each fuel (call InMacro) tasks 0 (on_world detach_macrotasks s0)
            else Done s0) in
  Done (on_world (fun w => clear_sched_flag SchedulerFlags.RUNNING (tick w)) s1).

(** *** The frame flush *)

(** [for (i = ...; i < groups.length; i++)] over [frame.writeTaskGroups]. *)
Fixpoint prio_groups (fuel : nat) (f : fid) (i : nat) (s : State) : outcome :=
  match fuel with
  | O => OutOfFuel
  | S fuel' =>
      match writeTaskGroups (frame_of (world s) f) !! i with
      | None => Done s
      | Some None => prio_groups fuel' f (S i) s
      | Some (Some group) =>
          let s1 := on_world (null_group f i) s in
          let* s2 := for_each fuel' (dispatch (InPrio i)) group 0 s1 in
          prio_groups fuel' f (S i) s2
      end
  end.

Definition write_prio (fuel : nat) (f : fid) (s : State) : outcome :=
  if flag_test (frame_flags (frame_of (world s) f)) FrameFlags.WRITE_PRIO then
    prio_groups fuel f 0 (on_world (clear_frame_flag f FrameFlags.WRITE_PRIO) s)
  else Done s.

Definition write_plain (fuel : nat) (f : fid) (s : State) : outcome :=
  if flag_test (frame_flags (frame_of (world s) f)) FrameFlags.WRITE then
    let s1 := on_world (clear_frame_flag f FrameFlags.WRITE) s in
    match writeTasks (frame_of (world s1) f) with
    | Some group => for_each fuel (dispatch InWrite) group 0 s1
    | None => Raised s1
    end
  else Done s.

(** [while ((frame.flags & WRITE_ANY) !== 0) { ... }] *)
Fixpoint write_while (fuel : nat) (f : fid) (s : State) : outcome :=
  match fuel with
  | O => OutOfFuel
  | S fuel' =>
      if flag_test (frame_flags (frame_of (world s) f)) FrameFlags.WRITE_ANY then
        let* s1 := write_prio fuel' f s in
        let* s2 := write_plain fuel' f s1 in
        write_while fuel' f s2
      else Done s
  end.

(** [while ((frame.flags & READ) !== 0) { ... }] *)
Fixpoint read_while (fuel : nat) (f : fid) (s : State) : outcome :=
  match fuel with
  | O => OutOfFuel
  | S fuel' =>
      if flag_test (frame_flags (frame_of (world s) f)) FrameFlags.READ then
        let s1 := on_world (clear_frame_flag f FrameFlags.READ) s in
        let group := readTasks (frame_of (world s1) f) in
        let s2 := on_world (null_readTasks f) s1 in
        match group with
        | Some g =>
            let* s3 := for_each fuel' (call InRead) g 0 s2 in
            read_while fuel' f s3
        | None => Raised s2
        end
      else Done s
  end.

(** [do { ... } while ((frame.flags & WRITE_ANY) !== 0)] *)
Fixpoint alternation (fuel : nat) (f : fid) (s : State) : outcome :=
  match fuel with
  | O => OutOfFuel
  | S fuel' =>
      let* s1 := write_while fuel' f (log (EvPhase PhWrite) s) in
      let* s2 := read_while fuel' f (log (EvPhase PhRead) s1) in
      if flag_test (frame_flags (frame_of (world s2) f)) FrameFlags.WRITE_ANY then
        alternation fuel' f s2
      else Done s2
  end.

(** [while ((frame.flags & AFTER) !== 0) { ... }] *)
Fixpoint after_while (fuel : nat) (f : fid) (s : State) : outcome :=
  match fuel with
  | O => OutOfFuel
  | S fuel' =>
      if flag_test (frame_flags (frame_of (world s) f)) FrameFlags.AFTER then
        let s1 := on_world (clear_frame_flag f FrameFlags.AFTER) s in
        match afterTasks (frame_of (world s1) f) with
        | Some group =>
            let* s2 := for_each fuel' (call InAfter) group 0 s1 in
            after_while fuel' f s2
        | None => Raised s1
        end
      else Done s
  end.

(** The bookkeeping before any task runs: clear FRAMETASK_PENDING, set
    RUNNING, swap the two frames. *)
Definition frame_begin (w : World) : World :=
  let w1 := set_sched_flag SchedulerFlags.RUNNING
              (clear_sched_flag SchedulerFlags.FRAMETASK_PENDING w) in
  let frame := _nextFrame (sched w1) in
  with_sched w1 (with_frames (sched w1) frame (_currentFrame (sched w1))).

Definition _handleAnimationFrame (fuel : nat) (s : State) : outcome :=
  let s0 := on_world frame_begin s in
  let frame := _currentFrame (sched (world s0)) in
  let* s1 := alternation fuel frame s0 in
  let* s2 := after_while fuel frame (log (EvPhase PhAfter) s1) in
  Done (on_world (fun w => clear_sched_flag SchedulerFlags.RUNNING (tick w)) s2).

End Flush.

(** * Properties *)

(** ** Counting with a number *)

(** Below 2^53 incrementing adds one; at 2^53 it changes nothing, 2^53 + 1
    being no double and the tie going to 2^53. *)
Lemma js_incr_exact (x : Z) : - 2 ^ 53 <= x < 2 ^ 53 -> js_incr x = x + 1.
Proof.
  intros H. unfold js_incr, to_double.
  destruct (Z.leb_spec (Z.abs (x + 1)) (2 ^ 53)) as [_|Hgt]; [reflexivity | lia].
Qed.

Lemma js_incr_limit : js_incr (2 ^ 53) = 2 ^ 53.
Proof. vm_compute. reflexivity. Qed.

(** Beyond 2^53 only every second integer is a double; a tie goes to the
    neighbour with an even significand. *)
Example to_double_rounds :
  to_double (2 ^ 53 + 1) = 2 ^ 53 /\
  to_double (2 ^ 53 + 2) = 2 ^ 53 + 2 /\
  to_double (2 ^ 53 + 3) = 2 ^ 53 + 4 /\
  to_double (- (2 ^ 53 + 1)) = - 2 ^ 53 /\
  to_double (2 ^ 54 + 2) = 2 ^ 54 /\
  to_double (2 ^ 54 + 3) = 2 ^ 54 + 4.
Proof. vm_compute. repeat split. Qed.

(** The values of a counter that starts at 1 and is only ever incremented. *)
Lemma js_incr_counter (x : Z) :
  1 <= x <= 2 ^ 53 ->
  x <= js_incr x <= 2 ^ 53 /\
  (x < 2 ^ 53 -> js_incr x = x + 1) /\
  (x = 2 ^ 53 -> js_incr x = x).
Proof.
  intros H. destruct (Z.eq_dec x (2 ^ 53)) as [->|Hne].
  - rewrite js_incr_limit. repeat split; lia.
  - rewrite js_incr_exact by lia. repeat split; lia.
Qed.

(** ** Flag arithmetic *)

Lemma flag_test_set (f c d : Z) :
  flag_test (flag_set f c) d = flag_test f d || flag_test c d.
Proof.
  unfold flag_test, flag_set. rewrite Z.land_lor_distr_l.
  destruct (Z.eqb_spec (Z.land f d) 0) as [E1|E1];
    destruct (Z.eqb_spec (Z.land c d) 0) as [E2|E2]; simpl;
    destruct (Z.eqb_spec (Z.lor (Z.land f d) (Z.land c d)) 0) as [E|E];
    try reflexivity; exfalso.
  - apply E. apply Z.lor_eq_0_iff. split; assumption.
  - apply Z.lor_eq_0_iff in E. tauto.
  - apply Z.lor_eq_0_iff in E. tauto.
  - apply Z.lor_eq_0_iff in E. tauto.
Qed.

Lemma flag_test_clear_in (f c d : Z) :
  Z.land c d = d -> flag_test (flag_clear f c) d = false.
Proof.
  intros H. unfold flag_test, flag_clear.
  rewrite <- Z.land_assoc.
  replace (Z.land (Z.lnot c) d) with 0; [rewrite Z.land_0_r; reflexivity|].
  rewrite <- H, Z.land_assoc, (Z.land_comm (Z.lnot c) c), Z.land_lnot_diag.
  reflexivity.
Qed.

Lemma flag_test_clear_other (f c d : Z) :
  Z.land c d = 0 -> flag_test (flag_clear f c) d = flag_test f d.
Proof.
  intros H. unfold flag_test, flag_clear.
  rewrite <- Z.land_assoc.
  replace (Z.land (Z.lnot c) d) with d; [reflexivity|].
  apply Z.bits_inj'. intros n Hn.
  rewrite Z.land_spec, Z.lnot_spec by assumption.
  assert (Hb : Z.testbit (Z.land c d) n = false) by (rewrite H; apply Z.bits_0).
  rewrite Z.land_spec in Hb.
  destruct (Z.testbit c n), (Z.testbit d n); simpl in *; congruence.
Qed.

(** ** Projections of the field updates *)

Lemma frame_of_with_frame (w : World) (f g : fid) (fr : Frame) :
  frame_of (with_frame w f fr) g = if decide (f = g) then fr else frame_of w g.
Proof. destruct f, g; reflexivity. Qed.

Lemma frame_of_with_frame_eq (w : World) (f : fid) (fr : Frame) :
  frame_of (with_frame w f fr) f = fr.
Proof. destruct f; reflexivity. Qed.

Lemma heap_with_frame (w : World) (f : fid) (fr : Frame) :
  heap (with_frame w f fr) = heap w.
Proof. destruct f; reflexivity. Qed.

Lemma sched_with_frame (w : World) (f : fid) (fr : Frame) :
  sched (with_frame w f fr) = sched w.
Proof. destruct f; reflexivity. Qed.

Lemma host_with_frame (w : World) (f : fid) (fr : Frame) :
  host (with_frame w f fr) = host w.
Proof. destruct f; reflexivity. Qed.

Lemma frame_of_with_heap (w : World) (h : list (list task)) (f : fid) :
  frame_of (with_heap w h) f = frame_of w f.
Proof. destruct f; reflexivity. Qed.

Lemma frame_of_with_sched (w : World) (sc : Scheduler) (f : fid) :
  frame_of (with_sched w sc) f = frame_of w f.
Proof. destruct f; reflexivity. Qed.

Lemma frame_of_with_host (w : World) (h : Host) (f : fid) :
  frame_of (with_host w h) f = frame_of w f.
Proof. destruct f; reflexivity. Qed.

Lemma array_at_push (w : World) (a b : loc) (t : task) :
  array_at (push a t w) b =
  if decide (a = b /\ (a < length (heap w))%nat) then array_at w a ++ [t]
  else array_at w b.
Proof.
  unfold push, array_at. simpl.
  destruct (decide (a = b /\ (a < length (heap w))%nat)) as [[-> Hlt]|Hn].
  - rewrite list_lookup_insert_eq by assumption. reflexivity.
  - destruct (decide (a = b)) as [->|Hne].
    + rewrite list_insert_ge by (apply Nat.nlt_ge; tauto). reflexivity.
    + rewrite list_lookup_insert_ne by assumption. reflexivity.
Qed.

Lemma length_heap_push (w : World) (a : loc) (t : task) :
  length (heap (push a t w)) = length (heap w).
Proof. unfold push. simpl. apply length_insert. Qed.

(** ** Which field refers to which array *)

(** The fields through which an array can be reached. *)
Inductive path :=
| PMicro
| PMacro
| PWrite (f : fid)
| PRead (f : fid)
| PAfter (f : fid)
| PGroup (f : fid) (rank : nat).

Global Instance path_eq_dec : EqDecision path.
Proof. solve_decision. Defined.

Definition loc_at (w : World) (p : path) : option loc :=
  match p with
  | PMicro => Some (_microtasks (sched w))
  | PMacro => Some (_macrotasks (sched w))
  | PWrite f => writeTasks (frame_of w f)
  | PRead f => readTasks (frame_of w f)
  | PAfter f => afterTasks (frame_of w f)
  | PGroup f rank => mjoin (writeTaskGroups (frame_of w f) !! rank)
  end.

(** The array at [a] is the live target of appends through some field. *)
Definition live (w : World) (a : loc) : Prop :=
  exists p, loc_at w p = Some a.

(** The array at [a] exists and no field refers to it. *)
Definition detached (w : World) (a : loc) : Prop :=
  (a < length (heap w))%nat /\ ~ live w a.

(** The tasks queued behind a field. *)
Definition contents (w : World) (p : path) : list task :=
  match loc_at w p with
  | Some a => array_at w a
  | None => []
  end.

(** Every field refers to an array of the store, and no two fields refer to
    the same array. *)
Record wf (w : World) : Prop := mk_wf {
  wf_valid : forall p a, loc_at w p = Some a -> (a < length (heap w))%nat;
  wf_inj : forall p q a, loc_at w p = Some a -> loc_at w q = Some a -> p = q
}.

(** What every operation respects: arrays are only created and appended
    to, an array no field refers to stays as it is, and a field only ever
    comes to refer to a new array. *)
Record extends (w w' : World) : Prop := mk_extends {
  ext_len : (length (heap w) <= length (heap w'))%nat;
  ext_grow : forall a, exists suf, array_at w' a = array_at w a ++ suf;
  ext_detached : forall a, detached w a -> array_at w' a = array_at w a;
  ext_fresh : forall p a,
    loc_at w' p = Some a -> loc_at w p = Some a \/ (length (heap w) <= a)%nat
}.

Lemma extends_refl (w : World) : extends w w.
Proof.
  split; auto.
  - intros a. exists []. symmetry. apply app_nil_r.
Qed.

Lemma detached_extends (w w' : World) (a : loc) :
  extends w w' -> detached w a -> detached w' a.
Proof.
  intros E [Hlt Hnl]. split.
  - pose proof (ext_len _ _ E). lia.
  - intros [p Hp]. destruct (ext_fresh _ _ E _ _ Hp) as [H|H].
    + apply Hnl. exists p. exact H.
    + lia.
Qed.

Lemma extends_trans (w1 w2 w3 : World) :
  extends w1 w2 -> extends w2 w3 -> extends w1 w3.
Proof.
  intros E1 E2. split.
  - pose proof (ext_len _ _ E1). pose proof (ext_len _ _ E2). lia.
  - intros a. destruct (ext_grow _ _ E1 a) as [s1 H1].
    destruct (ext_grow _ _ E2 a) as [s2 H2].
    exists (s1 ++ s2). rewrite H2, H1. symmetry. apply app_assoc.
  - intros a Hd. rewrite (ext_detached _ _ E2), (ext_detached _ _ E1); auto.
    eapply detached_extends; eauto.
  - intros p a Hp. destruct (ext_fresh _ _ E2 _ _ Hp) as [H|H].
    + apply (ext_fresh _ _ E1 _ _ H).
    + right. pose proof (ext_len _ _ E1). lia.
Qed.

(** *** Three kinds of elementary change *)

(** Nothing about arrays changes. *)
Definition inert (w w' : World) : Prop :=
  heap w' = heap w /\ forall q, loc_at w' q = loc_at w q.

(** Field [p] is set to [v]: null, or a fresh empty array. *)
Definition assigned (p : path) (v : option loc) (w w' : World) : Prop :=
  loc_at w' p = v /\
  (forall q, q <> p -> loc_at w' q = loc_at w q) /\
  ((v = None /\ heap w' = heap w) \/
   (v = Some (length (heap w)) /\ heap w' = heap w ++ [[]])).

(** Task [t] is appended to the array [a] that field [p] refers to. *)
Definition appended (a : loc) (t : task) (w w' : World) : Prop :=
  (forall q, loc_at w' q = loc_at w q) /\
  length (heap w') = length (heap w) /\
  (forall b, b <> a -> array_at w' b = array_at w b) /\
  ((a < length (heap w))%nat -> array_at w' a = array_at w a ++ [t]).

Lemma inert_refl (w : World) : inert w w.
Proof. split; auto. Qed.

Lemma inert_trans (w1 w2 w3 : World) : inert w1 w2 -> inert w2 w3 -> inert w1 w3.
Proof.
  intros [H1 L1] [H2 L2]. split; [congruence|].
  intros q. rewrite L2. apply L1.
Qed.

Lemma inert_array_at (w w' : World) (a : loc) : inert w w' -> array_at w' a = array_at w a.
Proof. intros [H _]. unfold array_at. rewrite H. reflexivity. Qed.

Lemma inert_contents (w w' : World) (p : path) : inert w w' -> contents w' p = contents w p.
Proof.
  intros I. unfold contents. rewrite (proj2 I p).
  destruct (loc_at w p); [apply inert_array_at; assumption | reflexivity].
Qed.

Lemma inert_wf (w w' : World) : inert w w' -> wf w -> wf w'.
Proof.
  intros [H L] [V I]. split.
  - intros p a. rewrite L, H. apply V.
  - intros p q a. rewrite !L. apply I.
Qed.

Lemma inert_extends (w w' : World) : inert w w' -> extends w w'.
Proof.
  intros I. pose proof I as [H L]. split.
  - rewrite H. lia.
  - intros a. exists []. rewrite app_nil_r. apply inert_array_at; assumption.
  - intros a _. apply inert_array_at; assumption.
  - intros p a. rewrite L. auto.
Qed.

Lemma array_at_alloc (w w' : World) (a : loc) :
  heap w' = heap w ++ [[]] -> array_at w' a = array_at w a.
Proof.
  intros H. unfold array_at. rewrite H.
  destruct (decide (a < length (heap w))%nat) as [Hlt|Hge].
  - rewrite lookup_app_l by assumption. reflexivity.
  - rewrite (lookup_ge_None_2 (heap w)) by lia.
    destruct (decide (a = length (heap w))) as [->|Hne].
    + rewrite list_lookup_middle by reflexivity. reflexivity.
    + rewrite lookup_ge_None_2; [reflexivity|]. rewrite length_app. simpl. lia.
Qed.

Lemma assigned_array_at (p : path) (v : option loc) (w w' : World) (a : loc) :
  assigned p v w w' -> array_at w' a = array_at w a.
Proof.
  intros (_ & _ & [[_ H]|[_ H]]).
  - unfold array_at. rewrite H. reflexivity.
  - apply array_at_alloc. assumption.
Qed.

Lemma assigned_len (p : path) (v : option loc) (w w' : World) :
  assigned p v w w' -> (length (heap w) <= length (heap w'))%nat.
Proof.
  intros (_ & _ & [[_ H]|[_ H]]); rewrite H; [lia|].
  rewrite length_app. simpl. lia.
Qed.

Lemma assigned_wf (p : path) (v : option loc) (w w' : World) :
  assigned p v w w' -> wf w -> wf w'.
Proof.
  intros A [V I]. pose proof (assigned_len _ _ _ _ A) as Hlen.
  destruct A as (Hp & Hq & Hv).
  assert (Hfresh : forall a, v = Some a -> length (heap w) = a /\
                                          (a < length (heap w'))%nat).
  { intros a Ha. destruct Hv as [[-> _]|[-> H]]; [discriminate|].
    injection Ha as <-. rewrite H, length_app. simpl. lia. }
  split.
  - intros q a Ha. destruct (decide (q = p)) as [->|Hne].
    + rewrite Hp in Ha. apply Hfresh in Ha. tauto.
    + rewrite Hq in Ha by assumption. apply V in Ha. lia.
  - intros q1 q2 a H1 H2.
    destruct (decide (q1 = p)) as [->|N1]; destruct (decide (q2 = p)) as [->|N2];
      try reflexivity.
    + rewrite Hp in H1. rewrite Hq in H2 by assumption.
      apply Hfresh in H1. apply V in H2. lia.
    + rewrite Hp in H2. rewrite Hq in H1 by assumption.
      apply Hfresh in H2. apply V in H1. lia.
    + rewrite Hq in H1, H2 by assumption. eapply I; eauto.
Qed.

Lemma assigned_extends (p : path) (v : option loc) (w w' : World) :
  assigned p v w w' -> extends w w'.
Proof.
  intros A. split.
  - eapply assigned_len; eauto.
  - intros a. exists []. rewrite app_nil_r. eapply assigned_array_at; eauto.
  - intros a _. eapply assigned_array_at; eauto.
  - intros q a Ha. destruct A as (Hp & Hq & Hv).
    destruct (decide (q = p)) as [->|Hne].
    + rewrite Hp in Ha. destruct Hv as [[-> _]|[-> _]]; [discriminate|].
      injection Ha as <-. right. lia.
    + left. rewrite <- Hq by assumption. exact Ha.
Qed.

(** The array a field referred to before it was reassigned is detached. *)
Lemma assigned_detaches (p : path) (v : option loc) (w w' : World) (a : loc) :
  assigned p v w w' -> wf w -> loc_at w p = Some a -> detached w' a.
Proof.
  intros A [V I] Ha. pose proof (assigned_len _ _ _ _ A) as Hlen.
  destruct A as (Hp & Hq & Hv). pose proof (V _ _ Ha) as Hlt.
  split; [lia|].
  intros [q Hq']. destruct (decide (q = p)) as [->|Hne].
  - rewrite Hp in Hq'. destruct Hv as [[-> _]|[-> _]]; [discriminate|].
    injection Hq' as <-. lia.
  - rewrite Hq in Hq' by assumption. apply Hne. eapply I; eauto.
Qed.

Lemma assigned_contents (p : path) (v : option loc) (w w' : World) (q : path) :
  assigned p v w w' -> wf w ->
  contents w' q = if decide (q = p) then [] else contents w q.
Proof.
  intros A W. unfold contents. destruct (decide (q = p)) as [->|Hne].
  - destruct A as (Hp & _ & Hv). rewrite Hp.
    destruct Hv as [[-> _]|[-> H]]; [reflexivity|].
    unfold array_at. rewrite H, list_lookup_middle by reflexivity. reflexivity.
  - rewrite (proj1 (proj2 A)) by assumption.
    destruct (loc_at w q); [|reflexivity]. eapply assigned_array_at; eauto.
Qed.

Lemma appended_wf (a : loc) (t : task) (w w' : World) :
  appended a t w w' -> wf w -> wf w'.
Proof.
  intros (L & Hlen & _) [V I]. split.
  - intros p x. rewrite L, Hlen. apply V.
  - intros p q x. rewrite !L. apply I.
Qed.

Lemma appended_extends (a : loc) (t : task) (w w' : World) :
  appended a t w w' -> live w a -> extends w w'.
Proof.
  intros (L & Hlen & Hother & Hsame) Hlive. split.
  - lia.
  - intros b. destruct (decide (b = a)) as [->|Hne].
    + destruct (decide (a < length (heap w))%nat) as [Hlt|Hge].
      * exists [t]. auto.
      * exists []. rewrite app_nil_r. unfold array_at.
        rewrite !lookup_ge_None_2 by lia. reflexivity.
    + exists []. rewrite app_nil_r. auto.
  - intros b [_ Hnl]. apply Hother. intros ->. auto.
  - intros p x. rewrite L. auto.
Qed.

Lemma appended_contents (a : loc) (t : task) (w w' : World) (p q : path) :
  appended a t w w' -> wf w -> loc_at w p = Some a ->
  contents w' q = if decide (q = p) then contents w p ++ [t] else contents w q.
Proof.
  intros (L & Hlen & Hother & Hsame) [V I] Hp. unfold contents.
  rewrite !L. destruct (decide (q = p)) as [->|Hne].
  - rewrite Hp. apply Hsame. eapply V; eauto.
  - destruct (loc_at w q) as [b|] eqn:Hq; [|reflexivity].
    apply Hother. intros ->. apply Hne. eapply I; eauto.
Qed.

Lemma push_appended (a : loc) (t : task) (w : World) : appended a t w (push a t w).
Proof.
  split; [|split; [|split]].
  - intros q. destruct q; simpl; rewrite ?frame_of_with_heap; reflexivity.
  - apply length_heap_push.
  - intros b Hne. rewrite array_at_push.
    destruct (decide (a = b /\ (a < length (heap w))%nat)) as [[-> _]|_];
      [congruence | reflexivity].
  - intros Hlt. rewrite array_at_push.
    destruct (decide (a = a /\ (a < length (heap w))%nat)) as [_|N];
      [reflexivity | tauto].
Qed.

(** *** The API calls as changes of the store *)

Definition api_effect (c : api) (w : World) : World :=
  match c with
  | ApiMicrotask cb => scheduleMicrotask cb w
  | ApiMacrotask cb => scheduleMacrotask cb w
  | ApiNextFrame => snd (nextFrame w)
  | ApiCurrentFrame => w
  | ApiFrame f op => frame_apply f op w
  end.

(** The field an API call appends through, and the task it appends. *)
Definition target (c : api) : option (path * task) :=
  match c with
  | ApiMicrotask cb => Some (PMicro, cb)
  | ApiMacrotask cb => Some (PMacro, cb)
  | ApiNextFrame => None
  | ApiCurrentFrame => None
  | ApiFrame f (FWrite t) => Some (PWrite f, t)
  | ApiFrame f (FWritePrio t rank) => Some (PGroup f rank, t)
  | ApiFrame f (FRead cb) => Some (PRead f, cb)
  | ApiFrame f (FAfter cb) => Some (PAfter f, cb)
  end.

(** An append through field [p], creating the array when the field is null. *)
Definition push_via (p : path) (t : task) (w w' : World) : Prop :=
  exists w1 w2 a,
    inert w w1 /\
    (w2 = w1 \/ (loc_at w1 p = None /\ assigned p (Some (length (heap w1))) w1 w2)) /\
    loc_at w2 p = Some a /\
    appended a t w2 w'.

Lemma push_via_wf (p : path) (t : task) (w w' : World) :
  push_via p t w w' -> wf w -> wf w'.
Proof.
  intros (w1 & w2 & a & I & [->|[_ A]] & _ & P) W.
  - eapply appended_wf; eauto using inert_wf.
  - eapply appended_wf; eauto using inert_wf, assigned_wf.
Qed.

Lemma push_via_extends (p : path) (t : task) (w w' : World) :
  push_via p t w w' -> extends w w'.
Proof.
  intros (w1 & w2 & a & I & H & Ha & P).
  assert (E2 : extends w2 w') by (eapply appended_extends; eauto; exists p; exact Ha).
  destruct H as [->|[_ A]].
  - eauto using extends_trans, inert_extends.
  - eauto using extends_trans, inert_extends, assigned_extends.
Qed.

Lemma push_via_persist (p : path) (t : task) (w w' : World) (q : path) (b : loc) :
  push_via p t w w' -> loc_at w q = Some b -> loc_at w' q = Some b.
Proof.
  intros (w1 & w2 & a & [_ L] & H & _ & (L' & _)) Hq.
  rewrite L'. destruct H as [->|[Hn (_ & Hother & _)]].
  - rewrite L. exact Hq.
  - rewrite Hother, L; [exact Hq|]. intros ->. rewrite L in Hn. congruence.
Qed.

Lemma push_via_contents (p : path) (t : task) (w w' : World) (q : path) :
  push_via p t w w' -> wf w ->
  contents w' q = if decide (q = p) then contents w p ++ [t] else contents w q.
Proof.
  intros (w1 & w2 & a & I & H & Ha & P) W.
  assert (W1 : wf w1) by eauto using inert_wf.
  destruct H as [->|[Hn A]].
  - rewrite (appended_contents _ _ _ _ p q P W1 Ha).
    rewrite !(inert_contents w w1) by assumption. reflexivity.
  - assert (W2 : wf w2) by eauto using assigned_wf.
    rewrite (appended_contents _ _ _ _ p q P W2 Ha).
    rewrite !(assigned_contents _ _ _ _ _ A W1).
    destruct (decide (q = p)) as [->|Hne].
    + destruct (decide (p = p)); [|congruence].
      rewrite <- (inert_contents w w1) by assumption.
      unfold contents. rewrite Hn. reflexivity.
    + apply inert_contents. assumption.
Qed.

Ltac solve_inert :=
  split;
  [ rewrite ?heap_with_frame; reflexivity
  | let q := fresh "q" in
    intros q; destruct q; simpl;
    rewrite ?frame_of_with_frame, ?frame_of_with_sched, ?frame_of_with_host,
            ?sched_with_frame;
    repeat case_decide; subst; reflexivity ].

Lemma inert_set_frame_flag (f : fid) (c : Z) (w : World) :
  inert w (set_frame_flag f c w).
Proof. unfold set_frame_flag. solve_inert. Qed.

Lemma inert_clear_frame_flag (f : fid) (c : Z) (w : World) :
  inert w (clear_frame_flag f c w).
Proof. unfold clear_frame_flag. solve_inert. Qed.

Lemma inert_set_sched_flag (c : Z) (w : World) : inert w (set_sched_flag c w).
Proof. unfold set_sched_flag. solve_inert. Qed.

Lemma inert_clear_sched_flag (c : Z) (w : World) : inert w (clear_sched_flag c w).
Proof. unfold clear_sched_flag. solve_inert. Qed.

Lemma inert_with_host (w : World) (h : Host) : inert w (with_host w h).
Proof. solve_inert. Qed.

Lemma inert_tick (w : World) : inert w (tick w).
Proof. unfold tick. solve_inert. Qed.

Lemma inert_with_frames (w : World) (cur nxt : fid) :
  inert w (with_sched w (with_frames (sched w) cur nxt)).
Proof. solve_inert. Qed.

Lemma inert_nextFrame (w : World) : inert w (snd (nextFrame w)).
Proof.
  unfold nextFrame. simpl.
  destruct (flag_test _ _); [apply inert_refl|].
  eapply inert_trans; [apply inert_set_sched_flag | apply inert_with_host].
Qed.

Lemma scheduleMicrotask_push_via (cb : task) (w : World) :
  push_via PMicro cb w (scheduleMicrotask cb w).
Proof.
  unfold scheduleMicrotask.
  set (w1 := if flag_test _ _ then w else _).
  exists w1, w1, (_microtasks (sched w1)).
  split; [|split; [left; reflexivity | split; [reflexivity | apply push_appended]]].
  subst w1. destruct (flag_test _ _); [apply inert_refl|].
  eapply inert_trans; [apply inert_set_sched_flag | apply inert_with_host].
Qed.

Lemma scheduleMacrotask_push_via (cb : task) (w : World) :
  push_via PMacro cb w (scheduleMacrotask cb w).
Proof.
  unfold scheduleMacrotask.
  set (w1 := if flag_test _ _ then w else _).
  exists w1, w1, (_macrotasks (sched w1)).
  split; [|split; [left; reflexivity | split; [reflexivity | apply push_appended]]].
  subst w1. destruct (flag_test _ _); [apply inert_refl|].
  eapply inert_trans; [apply inert_set_sched_flag | apply inert_with_host].
Qed.

(** Allocating an array and storing it in a null field of a frame. *)
Ltac solve_assigned_field :=
  split; [simpl; rewrite frame_of_with_frame_eq; reflexivity|];
  split;
  [ let q := fresh "q" in let Hq := fresh "Hq" in
    intros q Hq; destruct q; simpl;
    rewrite ?frame_of_with_frame, ?frame_of_with_heap, ?sched_with_frame;
    repeat case_decide; subst; try reflexivity; congruence
  | right; split; [reflexivity | rewrite heap_with_frame; reflexivity] ].

Lemma frame_write_push_via (f : fid) (t : task) (w : World) :
  push_via (PWrite f) t w (frame_write f t w).
Proof.
  unfold frame_write. set (w1 := set_frame_flag f FrameFlags.WRITE w).
  destruct (writeTasks (frame_of w1 f)) as [a|] eqn:Ha.
  - exists w1, w1, a.
    split; [apply inert_set_frame_flag|].
    split; [left; reflexivity | split; [exact Ha | apply push_appended]].
  - simpl.
    eexists w1, _, (length (heap w1)).
    split; [apply inert_set_frame_flag|].
    split; [right; split; [exact Ha|] | split; [| apply push_appended]].
    + solve_assigned_field.
    + simpl. rewrite frame_of_with_frame_eq. reflexivity.
Qed.

Lemma frame_read_push_via (f : fid) (t : task) (w : World) :
  push_via (PRead f) t w (frame_read f t w).
Proof.
  unfold frame_read. set (w1 := set_frame_flag f FrameFlags.READ w).
  destruct (readTasks (frame_of w1 f)) as [a|] eqn:Ha.
  - exists w1, w1, a.
    split; [apply inert_set_frame_flag|].
    split; [left; reflexivity | split; [exact Ha | apply push_appended]].
  - simpl.
    eexists w1, _, (length (heap w1)).
    split; [apply inert_set_frame_flag|].
    split; [right; split; [exact Ha|] | split; [| apply push_appended]].
    + solve_assigned_field.
    + simpl. rewrite frame_of_with_frame_eq. reflexivity.
Qed.

Lemma frame_after_push_via (f : fid) (t : task) (w : World) :
  push_via (PAfter f) t w (frame_after f t w).
Proof.
  unfold frame_after. set (w1 := set_frame_flag f FrameFlags.AFTER w).
  destruct (afterTasks (frame_of w1 f)) as [a|] eqn:Ha.
  - exists w1, w1, a.
    split; [apply inert_set_frame_flag|].
    split; [left; reflexivity | split; [exact Ha | apply push_appended]].
  - simpl.
    eexists w1, _, (length (heap w1)).
    split; [apply inert_set_frame_flag|].
    split; [right; split; [exact Ha|] | split; [| apply push_appended]].
    + solve_assigned_field.
    + simpl. rewrite frame_of_with_frame_eq. reflexivity.
Qed.

Lemma extend_groups_lookup (g : list (option loc)) (rank r : nat) :
  mjoin (extend_groups g rank !! r) = mjoin (g !! r).
Proof.
  unfold extend_groups.
  destruct (decide (r < length g)%nat) as [Hlt|Hge].
  - rewrite lookup_app_l by assumption. reflexivity.
  - rewrite lookup_app_r by lia.
    rewrite (lookup_ge_None_2 g) by lia. simpl.
    destruct (replicate _ _ !! _) as [x|] eqn:Hx; [|reflexivity].
    apply lookup_replicate in Hx. destruct Hx as [-> _]. reflexivity.
Qed.

Lemma extend_groups_length (g : list (option loc)) (rank : nat) :
  (rank < length (extend_groups g rank))%nat.
Proof. unfold extend_groups. rewrite length_app, length_replicate. lia. Qed.

Lemma frame_write_prio_push_via (f : fid) (t : task) (rank : nat) (w : World) :
  push_via (PGroup f rank) t w (frame_write_prio f t rank w).
Proof.
  unfold frame_write_prio.
  set (w1 := set_frame_flag f FrameFlags.WRITE_PRIO w).
  set (g := extend_groups (writeTaskGroups (frame_of w1 f)) rank).
  set (w1' := with_frame w1 f (with_writeTaskGroups (frame_of w1 f) g)).
  assert (I1 : inert w w1').
  { eapply inert_trans; [apply inert_set_frame_flag|]. subst w1'. split.
    - apply heap_with_frame.
    - intros q; destruct q; simpl;
        rewrite ?frame_of_with_frame, ?sched_with_frame;
        repeat case_decide; subst; try reflexivity.
      simpl. apply extend_groups_lookup. }
  assert (Hg : loc_at w1' (PGroup f rank) = mjoin (g !! rank)).
  { subst w1'. simpl. rewrite frame_of_with_frame_eq. reflexivity. }
  assert (Hcase : (exists a, g !! rank = Some (Some a)) \/
                  mjoin (g !! rank) = None).
  { destruct (g !! rank) as [[a|]|]; eauto. }
  destruct Hcase as [[a Ha]|Hn].
  - rewrite Ha. exists w1', w1', a.
    split; [exact I1|].
    split; [left; reflexivity|].
    split; [rewrite Hg, Ha; reflexivity | apply push_appended].
  - assert (Hlt : (rank < length g)%nat) by apply extend_groups_length.
    assert (Hh : heap w1' = heap w1) by apply heap_with_frame.
    set (a := length (heap w1)).
    set (w2 := with_heap w1 (heap w1 ++ [[]])).
    set (w2' := with_frame w2 f
                  (with_writeTaskGroups (frame_of w2 f) (<[rank:=Some a]> g))).
    assert (Heq : match g !! rank with
                  | Some (Some a) => push a t w1'
                  | _ => let '(a, w2) := alloc w1 in
                         push a t (with_frame w2 f
                           (with_writeTaskGroups (frame_of w2 f) (<[rank:=Some a]> g)))
                  end = push a t w2').
    { destruct (g !! rank) as [[b|]|]; [discriminate Hn | reflexivity | reflexivity]. }
    rewrite Heq.
    assert (Hp : loc_at w2' (PGroup f rank) = Some a).
    { subst w2'. simpl. rewrite frame_of_with_frame_eq. simpl.
      rewrite list_lookup_insert_eq by assumption. reflexivity. }
    exists w1', w2', a.
    split; [exact I1|].
    split; [right; split; [rewrite Hg; exact Hn|] | split; [exact Hp | apply push_appended]].
    unfold assigned. rewrite !Hh. fold a.
    split; [exact Hp|]. split.
    + intros q Hq. subst w2' w2 w1'. destruct q; simpl;
        rewrite ?frame_of_with_frame, ?frame_of_with_heap, ?sched_with_frame;
        repeat case_decide; subst; try reflexivity.
      simpl. rewrite list_lookup_insert_ne by congruence. reflexivity.
    + right. split; [reflexivity|]. subst w2'. rewrite heap_with_frame. reflexivity.
Qed.

(** An API call either changes nothing about arrays or appends through the
    field that is its target. *)
Lemma api_effect_cases (c : api) (w : World) :
  match target c with
  | Some (p, t) => push_via p t w (api_effect c w)
  | None => inert w (api_effect c w)
  end.
Proof.
  destruct c as [cb|cb| | |f [t|t rank|cb|cb]]; simpl.
  - apply scheduleMicrotask_push_via.
  - apply scheduleMacrotask_push_via.
  - apply inert_nextFrame.
  - apply inert_refl.
  - apply frame_write_push_via.
  - apply frame_write_prio_push_via.
  - apply frame_read_push_via.
  - apply frame_after_push_via.
Qed.

Lemma api_effect_wf (c : api) (w : World) : wf w -> wf (api_effect c w).
Proof.
  pose proof (api_effect_cases c w) as H.
  destruct (target c) as [[p t]|]; eauto using push_via_wf, inert_wf.
Qed.

Lemma api_effect_extends (c : api) (w : World) : extends w (api_effect c w).
Proof.
  pose proof (api_effect_cases c w) as H.
  destruct (target c) as [[p t]|]; eauto using push_via_extends, inert_extends.
Qed.

Lemma api_effect_persist (c : api) (w : World) (q : path) (b : loc) :
  loc_at w q = Some b -> loc_at (api_effect c w) q = Some b.
Proof.
  pose proof (api_effect_cases c w) as H.
  destruct (target c) as [[p t]|]; [eauto using push_via_persist|].
  intros Hq. rewrite (proj2 H). exact Hq.
Qed.

(** The tasks a sequence of API calls appends through field [p]. *)
Definition pushes (p : path) (cs : list api) : list task :=
  omap (fun c => match target c with
                 | Some (q, t) => if decide (q = p) then Some t else None
                 | None => None
                 end) cs.

Lemma api_effect_contents (c : api) (w : World) (q : path) :
  wf w -> contents (api_effect c w) q = contents w q ++ pushes q [c].
Proof.
  intros W. pose proof (api_effect_cases c w) as H. unfold pushes. simpl.
  destruct (target c) as [[p t]|].
  - rewrite (push_via_contents _ _ _ _ q H W).
    destruct (decide (q = p)) as [->|Hne].
    + destruct (decide (p = p)); [reflexivity | congruence].
    + destruct (decide (p = q)); [congruence|]. rewrite app_nil_r. reflexivity.
  - rewrite app_nil_r. apply inert_contents. assumption.
Qed.

Definition apply_apis (cs : list api) (w : World) : World :=
  foldl (fun w c => api_effect c w) w cs.

Lemma apply_apis_app (cs1 cs2 : list api) (w : World) :
  apply_apis (cs1 ++ cs2) w = apply_apis cs2 (apply_apis cs1 w).
Proof. apply foldl_app. Qed.

Lemma apply_apis_wf (cs : list api) (w : World) : wf w -> wf (apply_apis cs w).
Proof.
  revert w. induction cs as [|c cs IH]; intros w W; simpl; [assumption|].
  apply IH, api_effect_wf, W.
Qed.

Lemma apply_apis_extends (cs : list api) (w : World) : extends w (apply_apis cs w).
Proof.
  revert w. induction cs as [|c cs IH]; intros w; simpl; [apply extends_refl|].
  eapply extends_trans; [apply api_effect_extends | apply IH].
Qed.

Lemma apply_apis_persist (cs : list api) (w : World) (q : path) (b : loc) :
  loc_at w q = Some b -> loc_at (apply_apis cs w) q = Some b.
Proof.
  revert w. induction cs as [|c cs IH]; intros w H; simpl; [assumption|].
  apply IH, api_effect_persist, H.
Qed.

Lemma pushes_app (p : path) (cs1 cs2 : list api) :
  pushes p (cs1 ++ cs2) = pushes p cs1 ++ pushes p cs2.
Proof. apply omap_app. Qed.

Lemma apply_apis_contents (cs : list api) (w : World) (q : path) :
  wf w -> contents (apply_apis cs w) q = contents w q ++ pushes q cs.
Proof.
  revert w. induction cs as [|c cs IH]; intros w W.
  - simpl. rewrite app_nil_r. reflexivity.
  - change (apply_apis (c :: cs) w) with (apply_apis cs (api_effect c w)).
    rewrite IH by (apply api_effect_wf, W).
    rewrite api_effect_contents by assumption.
    change (c :: cs) with ([c] ++ cs). rewrite pushes_app, app_assoc. reflexivity.
Qed.

(** ** Reading the trace *)

Definition apis_of (d : list event) : list api :=
  omap (fun e => match e with EvApi c => Some c | _ => None end) d.

(** The invocations in a trace: loop, array, index and task. *)
Definition run_keys (d : list event) : list (slot * loc * nat * task) :=
  omap (fun e => match e with EvRun k a i t _ => Some (k, a, i, t) | _ => None end) d.

(** The tasks run in a trace, in order. *)
Definition ran (d : list event) : list task :=
  omap (fun e => match e with EvRun _ _ _ t _ => Some t | _ => None end) d.

(** The invocations of a loop [k] over the elements [l] of array [a],
    starting at index [i]. *)
Definition keys (k : slot) (a : loc) (i : nat) (l : list task)
  : list (slot * loc * nat * task) :=
  imap (fun j t => (k, a, (i + j)%nat, t)) l.

(** Every snapshot in the trace is the world obtained from [w] by the API
    calls logged before it. *)
Fixpoint snapshots_ok (w : World) (d : list event) : Prop :=
  match d with
  | [] => True
  | EvRun _ _ _ _ w' :: d' => w' = w /\ snapshots_ok w d'
  | EvApi c :: d' => snapshots_ok (api_effect c w) d'
  | EvPhase _ :: d' => snapshots_ok w d'
  end.

(** The events of one loop [k] over array [a]: invocations from that loop
    and the API calls they make. *)
Definition in_loop (k : slot) (a : loc) (e : event) : Prop :=
  match e with
  | EvRun k' a' _ _ _ => k' = k /\ a' = a
  | EvApi _ => True
  | EvPhase _ => False
  end.

Lemma apis_of_app (d1 d2 : list event) : apis_of (d1 ++ d2) = apis_of d1 ++ apis_of d2.
Proof. apply omap_app. Qed.

Lemma run_keys_app (d1 d2 : list event) : run_keys (d1 ++ d2) = run_keys d1 ++ run_keys d2.
Proof. apply omap_app. Qed.

Lemma apis_of_map (cs : list api) : apis_of (map EvApi cs) = cs.
Proof.
  induction cs as [|c cs IH]; [reflexivity|].
  change (apis_of (map EvApi (c :: cs))) with (c :: apis_of (map EvApi cs)).
  rewrite IH. reflexivity.
Qed.

Lemma run_keys_map (cs : list api) : run_keys (map EvApi cs) = [].
Proof. induction cs as [|c cs IH]; simpl; [reflexivity | exact IH]. Qed.

Lemma ran_run_keys (d : list event) : ran d = map snd (run_keys d).
Proof.
  induction d as [|e d IH]; [reflexivity|].
  destruct e; simpl; unfold ran, run_keys in *; simpl; rewrite ?IH; reflexivity.
Qed.

Lemma keys_cons (k : slot) (a : loc) (i : nat) (t : task) (l : list task) :
  keys k a i (t :: l) = (k, a, i, t) :: keys k a (S i) l.
Proof.
  unfold keys. simpl. rewrite Nat.add_0_r. f_equal.
  apply imap_ext. intros j x _. simpl. f_equal. f_equal. lia.
Qed.

Lemma map_snd_keys (k : slot) (a : loc) (i : nat) (l : list task) :
  map snd (keys k a i l) = l.
Proof.
  revert i. induction l as [|t l IH]; intros i; [reflexivity|].
  rewrite keys_cons. simpl. rewrite IH. reflexivity.
Qed.

Lemma snapshots_ok_app (w : World) (d1 d2 : list event) :
  snapshots_ok w (d1 ++ d2) <->
  snapshots_ok w d1 /\ snapshots_ok (apply_apis (apis_of d1) w) d2.
Proof.
  revert w. induction d1 as [|e d1 IH]; intros w; simpl.
  - tauto.
  - destruct e as [p|k a i t w'|c]; simpl.
    + apply IH.
    + rewrite IH. tauto.
    + apply IH.
Qed.

Lemma snapshots_ok_apis (w : World) (cs : list api) : snapshots_ok w (map EvApi cs).
Proof. revert w. induction cs as [|c cs IH]; intros w; simpl; auto. Qed.

Lemma Forall_in_loop_apis (k : slot) (a : loc) (cs : list api) :
  Forall (in_loop k a) (map EvApi cs).
Proof. induction cs; simpl; constructor; simpl; auto. Qed.

(** An invariant of the API calls holds in every snapshot. *)
Lemma snapshots_invariant (Q : World -> Prop) (w : World) (d : list event) :
  (forall c w0, Q w0 -> Q (api_effect c w0)) ->
  Q w -> snapshots_ok w d ->
  Forall (fun e => match e with EvRun _ _ _ _ w' => Q w' | _ => True end) d.
Proof.
  intros HQ. revert w. induction d as [|e d IH]; intros w Hw Hd; [constructor|].
  destruct e as [p|k a i t w'|c]; simpl in Hd; constructor; eauto.
  - destruct Hd as [-> _]. exact Hw.
  - destruct Hd as [-> Hd]. eauto.
Qed.

(** ** What a task invocation does *)

Lemma do_frame_ops_spec (f : fid) (ops : list frame_op) (s : State) :
  do_frame_ops f ops s =
  mkState (apply_apis (map (ApiFrame f) ops) (world s))
          (trace s ++ map EvApi (map (ApiFrame f) ops)).
Proof.
  unfold do_frame_ops. revert s. induction ops as [|op ops IH]; intros s; simpl.
  - rewrite app_nil_r. destruct s; reflexivity.
  - rewrite IH. simpl. rewrite <- app_assoc. reflexivity.
Qed.

Lemma do_action_spec (a : action) (s : State) :
  exists cs, do_action a s =
             mkState (apply_apis cs (world s)) (trace s ++ map EvApi cs).
Proof.
  destruct a as [cb|cb|ops|ops|f ops|]; simpl.
  - exists [ApiMicrotask cb]. reflexivity.
  - exists [ApiMacrotask cb]. reflexivity.
  - exists (ApiNextFrame :: map (ApiFrame (_nextFrame (sched (snd (nextFrame (world s)))))) ops).
    unfold nextFrame at 1. simpl. rewrite do_frame_ops_spec. simpl.
    rewrite <- app_assoc. reflexivity.
  - exists (ApiCurrentFrame :: map (ApiFrame (currentFrame (world s))) ops).
    rewrite do_frame_ops_spec. simpl. rewrite <- app_assoc. reflexivity.
  - exists (map (ApiFrame f) ops). apply do_frame_ops_spec.
  - exists []. simpl. rewrite app_nil_r. destruct s; reflexivity.
Qed.

Lemma run_actions_spec (acts : list action) (s : State) :
  exists cs s',
    (run_actions acts s = Done s' \/ run_actions acts s = Raised s') /\
    world s' = apply_apis cs (world s) /\
    trace s' = trace s ++ map EvApi cs.
Proof.
  revert s. induction acts as [|a acts IH]; intros s.
  - exists [], s. simpl. rewrite app_nil_r. auto.
  - destruct (do_action_spec a s) as [cs1 H1].
    destruct (IH (do_action a s)) as (cs2 & s' & Hr & Hw & Ht).
    assert (Hgo : exists cs s',
      (run_actions acts (do_action a s) = Done s' \/
       run_actions acts (do_action a s) = Raised s') /\
      world s' = apply_apis cs (world s) /\ trace s' = trace s ++ map EvApi cs).
    { exists (cs1 ++ cs2), s'. split; [exact Hr|].
      rewrite Hw, Ht, H1. simpl.
      rewrite apply_apis_app, map_app, app_assoc.
      split; reflexivity. }
    destruct a; try exact Hgo.
    exists [], s. simpl. rewrite app_nil_r. auto.
Qed.

(** ** The API calls and the scheduler's registers *)

Inductive domain := Microtask | Macrotask | Frametask.

Global Instance domain_eq_dec : EqDecision domain.
Proof. solve_decision. Defined.

Definition pending_bit (dm : domain) : Z :=
  match dm with
  | Microtask => SchedulerFlags.MICROTASK_PENDING
  | Macrotask => SchedulerFlags.MACROTASK_PENDING
  | Frametask => SchedulerFlags.FRAMETASK_PENDING
  end.

(** The host registrations made so far for a domain. *)
Definition requests (dm : domain) (w : World) : nat :=
  match dm with
  | Microtask => microTicks (host w)
  | Macrotask => macroTicks (host w)
  | Frametask => rafRequests (host w)
  end.

Definition pending (dm : domain) (w : World) : bool :=
  flag_test (flags (sched w)) (pending_bit dm).

(** The domain whose registration an API call arms when none is pending. *)
Definition arms (c : api) : option domain :=
  match c with
  | ApiMicrotask _ => Some Microtask
  | ApiMacrotask _ => Some Macrotask
  | ApiNextFrame => Some Frametask
  | ApiCurrentFrame => None
  | ApiFrame _ _ => None
  end.

Definition arm_bit (c : api) : Z :=
  match arms c with
  | Some dm => pending_bit dm
  | None => 0
  end.

(** The flag of a frame that an API call sets. *)
Definition frame_bit (c : api) (f : fid) : Z :=
  match c with
  | ApiFrame f' op =>
      if decide (f' = f) then
        match op with
        | FWrite _ => FrameFlags.WRITE
        | FWritePrio _ _ => FrameFlags.WRITE_PRIO
        | FRead _ => FrameFlags.READ
        | FAfter _ => FrameFlags.AFTER
        end
      else 0
  | _ => 0
  end.

Lemma flag_test_bit (f : Z) (k : Z) :
  0 <= k -> flag_test f (2 ^ k) = Z.testbit f k.
Proof.
  intros Hk. unfold flag_test.
  destruct (Z.testbit f k) eqn:Hb.
  - destruct (Z.eqb_spec (Z.land f (2 ^ k)) 0) as [E|E]; [|reflexivity].
    exfalso. assert (H : Z.testbit (Z.land f (2 ^ k)) k = false)
      by (rewrite E; apply Z.bits_0).
    rewrite Z.land_spec, Hb, Z.pow2_bits_true in H by assumption. discriminate.
  - replace (Z.land f (2 ^ k)) with 0; [reflexivity|].
    symmetry. apply Z.bits_inj'. intros n Hn.
    rewrite Z.land_spec, Z.bits_0.
    destruct (Z.eq_dec n k) as [->|Hne].
    + rewrite Hb. reflexivity.
    + rewrite Z.pow2_bits_false by congruence. apply andb_false_r.
Qed.

Lemma flag_set_absorb (f : Z) (k : Z) :
  0 <= k -> flag_test f (2 ^ k) = true -> flag_set f (2 ^ k) = f.
Proof.
  intros Hk H. rewrite flag_test_bit in H by assumption.
  unfold flag_set. apply Z.bits_inj'. intros n Hn.
  rewrite Z.lor_spec. destruct (Z.eq_dec n k) as [->|Hne].
  - rewrite H. reflexivity.
  - rewrite Z.pow2_bits_false by congruence. apply orb_false_r.
Qed.

Lemma pending_bit_pow2 (dm : domain) : exists k, 0 <= k /\ pending_bit dm = 2 ^ k.
Proof.
  destruct dm; [exists 0 | exists 1 | exists 3]; split; try lia; reflexivity.
Qed.

Lemma flag_set_pending_absorb (f : Z) (dm : domain) :
  flag_test f (pending_bit dm) = true -> flag_set f (pending_bit dm) = f.
Proof.
  destruct (pending_bit_pow2 dm) as (k & Hk & ->). apply flag_set_absorb, Hk.
Qed.

Lemma flag_set_0 (f : Z) : flag_set f 0 = f.
Proof. apply Z.lor_0_r. Qed.

Lemma with_flags_same (sc : Scheduler) : with_flags sc (flags sc) = sc.
Proof. destruct sc; reflexivity. Qed.

Lemma sched_push (a : loc) (t : task) (w : World) : sched (push a t w) = sched w.
Proof. reflexivity. Qed.

Lemma host_push (a : loc) (t : task) (w : World) : host (push a t w) = host w.
Proof. reflexivity. Qed.

Lemma frame_of_push (a : loc) (t : task) (w : World) (f : fid) :
  frame_of (push a t w) f = frame_of w f.
Proof. apply frame_of_with_heap. Qed.

Ltac simpl_world :=
  repeat (simpl;
          rewrite ?sched_with_frame, ?heap_with_frame, ?host_with_frame,
                  ?frame_of_with_frame_eq, ?frame_of_with_heap, ?frame_of_with_sched,
                  ?frame_of_with_host, ?frame_of_push, ?sched_push, ?host_push).

Lemma frame_apply_sched (f : fid) (op : frame_op) (w : World) :
  sched (frame_apply f op w) = sched w /\ host (frame_apply f op w) = host w.
Proof.
  destruct op as [t|t rank|cb|cb]; simpl;
    unfold frame_write, frame_write_prio, frame_read, frame_after, set_frame_flag.
  - destruct (writeTasks _); simpl_world; unfold set_frame_flag; simpl_world; auto.
  - destruct (_ !! rank) as [[a|]|]; simpl_world; auto.
  - destruct (readTasks _); simpl_world; auto.
  - destruct (afterTasks _); simpl_world; auto.
Qed.

(** An API call leaves the clock, the queues' identity and the two frame
    references alone and sets at most the PENDING bit of its domain. *)
Lemma api_effect_sched (c : api) (w : World) :
  sched (api_effect c w) =
  with_flags (sched w) (flag_set (flags (sched w)) (arm_bit c)).
Proof.
  destruct c as [cb|cb| | |f op]; unfold arm_bit; cbn [api_effect arms].
  - unfold scheduleMicrotask. rewrite sched_push.
    destruct (flag_test _ _) eqn:E; [|reflexivity].
    rewrite (flag_set_pending_absorb _ Microtask E). symmetry. apply with_flags_same.
  - unfold scheduleMacrotask. rewrite sched_push.
    destruct (flag_test _ _) eqn:E; [|reflexivity].
    rewrite (flag_set_pending_absorb _ Macrotask E). symmetry. apply with_flags_same.
  - unfold nextFrame. cbn [snd].
    destruct (flag_test _ _) eqn:E; [|reflexivity].
    rewrite (flag_set_pending_absorb _ Frametask E). symmetry. apply with_flags_same.
  - rewrite flag_set_0. symmetry. apply with_flags_same.
  - rewrite flag_set_0, with_flags_same. apply frame_apply_sched.
Qed.

Lemma api_effect_requests (c : api) (w : World) (dm : domain) :
  requests dm (api_effect c w) =
  (requests dm w +
   if decide (arms c = Some dm) then if pending dm w then 0 else 1 else 0)%nat.
Proof.
  unfold requests, pending.
  destruct c as [cb|cb| | |f op]; cbn [api_effect arms].
  - unfold scheduleMicrotask. rewrite host_push.
    destruct dm; simpl; destruct (flag_test _ _); simpl; lia.
  - unfold scheduleMacrotask. rewrite host_push.
    destruct dm; simpl; destruct (flag_test _ _); simpl; lia.
  - unfold nextFrame. cbn [snd].
    destruct dm; simpl; destruct (flag_test _ _); simpl; lia.
  - destruct dm; simpl; lia.
  - rewrite (proj2 (frame_apply_sched f op w)). destruct dm; simpl; lia.
Qed.

Lemma api_effect_frame_flags (c : api) (w : World) (f : fid) :
  frame_flags (frame_of (api_effect c w) f) =
  flag_set (frame_flags (frame_of w f)) (frame_bit c f).
Proof.
  destruct c as [cb|cb| | |f' op]; cbn [api_effect frame_bit]; rewrite ?flag_set_0.
  - unfold scheduleMicrotask. rewrite frame_of_push.
    destruct (flag_test _ _); [reflexivity|].
    rewrite frame_of_with_host. unfold set_sched_flag.
    apply f_equal, frame_of_with_sched.
  - unfold scheduleMacrotask. rewrite frame_of_push.
    destruct (flag_test _ _); [reflexivity|].
    rewrite frame_of_with_host. unfold set_sched_flag.
    apply f_equal, frame_of_with_sched.
  - unfold nextFrame. cbn [snd]. destruct (flag_test _ _); [reflexivity|].
    rewrite frame_of_with_host. unfold set_sched_flag.
    apply f_equal, frame_of_with_sched.
  - reflexivity.
  - assert (Hset : forall c0, frame_flags (frame_of (set_frame_flag f' c0 w) f) =
                   flag_set (frame_flags (frame_of w f)) (if decide (f' = f) then c0 else 0)).
    { intros c0. unfold set_frame_flag. rewrite frame_of_with_frame.
      destruct (decide (f' = f)) as [->|]; [reflexivity|].
      rewrite flag_set_0. reflexivity. }
    assert (Hkeep : forall w0 fr, frame_flags fr = frame_flags (frame_of w0 f') ->
              frame_flags (frame_of (with_frame w0 f' fr) f) = frame_flags (frame_of w0 f)).
    { intros w0 fr Hfr. rewrite frame_of_with_frame.
      destruct (decide (f' = f)) as [->|]; [exact Hfr | reflexivity]. }
    destruct op as [t|t rank|cb|cb]; cbn [frame_apply];
      unfold frame_write, frame_write_prio, frame_read, frame_after.
    + destruct (writeTasks _); cbn [alloc]; rewrite frame_of_push, ?Hkeep,
        ?frame_of_with_heap by (rewrite ?frame_of_with_heap; reflexivity);
        rewrite Hset; destruct (decide (f' = f)); reflexivity.
    + destruct (_ !! rank) as [[a|]|]; cbn [alloc]; rewrite frame_of_push, ?Hkeep,
        ?frame_of_with_heap by (rewrite ?frame_of_with_heap; reflexivity);
        rewrite Hset; destruct (decide (f' = f)); reflexivity.
    + destruct (readTasks _); cbn [alloc]; rewrite frame_of_push, ?Hkeep,
        ?frame_of_with_heap by (rewrite ?frame_of_with_heap; reflexivity);
        rewrite Hset; destruct (decide (f' = f)); reflexivity.
    + destruct (afterTasks _); cbn [alloc]; rewrite frame_of_push, ?Hkeep,
        ?frame_of_with_heap by (rewrite ?frame_of_with_heap; reflexivity);
        rewrite Hset; destruct (decide (f' = f)); reflexivity.
Qed.

Lemma api_effect_clock (c : api) (w : World) :
  clock (sched (api_effect c w)) = clock (sched w).
Proof. rewrite api_effect_sched. reflexivity. Qed.

Lemma api_effect_frames (c : api) (w : World) :
  _currentFrame (sched (api_effect c w)) = _currentFrame (sched w) /\
  _nextFrame (sched (api_effect c w)) = _nextFrame (sched w).
Proof. rewrite api_effect_sched. split; reflexivity. Qed.

Lemma api_effect_flags (c : api) (w : World) (d : Z) :
  flag_test (flags (sched (api_effect c w))) d =
  flag_test (flags (sched w)) d || flag_test (arm_bit c) d.
Proof. rewrite api_effect_sched. simpl. apply flag_test_set. Qed.

Lemma apply_apis_clock (cs : list api) (w : World) :
  clock (sched (apply_apis cs w)) = clock (sched w).
Proof.
  revert w. induction cs as [|c cs IH]; intros w; simpl; [reflexivity|].
  rewrite IH. apply api_effect_clock.
Qed.

Lemma apply_apis_frames (cs : list api) (w : World) :
  _currentFrame (sched (apply_apis cs w)) = _currentFrame (sched w) /\
  _nextFrame (sched (apply_apis cs w)) = _nextFrame (sched w).
Proof.
  revert w. induction cs as [|c cs IH]; intros w; simpl; [auto|].
  destruct (IH (api_effect c w)) as [-> ->]. apply api_effect_frames.
Qed.

(** The flags after a sequence of API calls: what was set, and the PENDING
    bits the calls armed. *)
Lemma apply_apis_flags (cs : list api) (w : World) (d : Z) :
  flag_test (flags (sched (apply_apis cs w))) d =
  flag_test (flags (sched w)) d || existsb (fun c => flag_test (arm_bit c) d) cs.
Proof.
  revert w. induction cs as [|c cs IH]; intros w; simpl.
  - rewrite orb_false_r. reflexivity.
  - rewrite IH, api_effect_flags, orb_assoc. reflexivity.
Qed.

Lemma apply_apis_frame_flags (cs : list api) (w : World) (f : fid) (d : Z) :
  flag_test (frame_flags (frame_of (apply_apis cs w) f)) d =
  flag_test (frame_flags (frame_of w f)) d ||
  existsb (fun c => flag_test (frame_bit c f) d) cs.
Proof.
  revert w. induction cs as [|c cs IH]; intros w; simpl.
  - rewrite orb_false_r. reflexivity.
  - rewrite IH, api_effect_frame_flags, flag_test_set, orb_assoc. reflexivity.
Qed.

(** Some call of the sequence arms domain [dm]. *)
Definition armed (dm : domain) (cs : list api) : bool :=
  existsb (fun c => bool_decide (arms c = Some dm)) cs.

Lemma flag_test_arm_bit (c : api) (dm : domain) :
  flag_test (arm_bit c) (pending_bit dm) = bool_decide (arms c = Some dm).
Proof.
  unfold arm_bit. destruct c as [cb|cb| | |f op]; destruct dm; reflexivity.
Qed.

Lemma apply_apis_pending (cs : list api) (w : World) (dm : domain) :
  pending dm (apply_apis cs w) = pending dm w || armed dm cs.
Proof.
  unfold pending, armed. rewrite apply_apis_flags. f_equal.
  induction cs as [|c cs IH]; simpl; [reflexivity|].
  rewrite IH, flag_test_arm_bit. reflexivity.
Qed.

(** However many calls arm a domain, the host is asked once, and only when
    no registration was pending. *)
Lemma apply_apis_requests (cs : list api) (w : World) (dm : domain) :
  requests dm (apply_apis cs w) =
  (requests dm w + if pending dm w then 0 else if armed dm cs then 1 else 0)%nat.
Proof.
  revert w. induction cs as [|c cs IH]; intros w.
  - simpl. destruct (pending dm w); lia.
  - change (apply_apis (c :: cs) w) with (apply_apis cs (api_effect c w)).
    rewrite IH, api_effect_requests.
    assert (Hp : pending dm (api_effect c w) =
                 pending dm w || bool_decide (arms c = Some dm)).
    { unfold pending. rewrite api_effect_flags, flag_test_arm_bit. reflexivity. }
    rewrite Hp. unfold armed. simpl.
    destruct (decide (arms c = Some dm)) as [E|E].
    + rewrite (bool_decide_eq_true_2 _ E). destruct (pending dm w); simpl; lia.
    + rewrite (bool_decide_eq_false_2 _ E). destruct (pending dm w); simpl; lia.
Qed.

(** A task was appended through the queue of a domain exactly when the
    domain was armed. *)
Lemma armed_pushes (cs : list api) :
  armed Microtask cs = negb (bool_decide (pushes PMicro cs = [])) /\
  armed Macrotask cs = negb (bool_decide (pushes PMacro cs = [])).
Proof.
  induction cs as [|c cs [IH1 IH2]]; [split; reflexivity|].
  unfold armed, pushes in *. simpl.
  destruct c as [cb|cb| | |f [t|t rank|cb|cb]]; simpl; rewrite ?IH1, ?IH2; auto.
Qed.

(** ** The loops *)

(** The state a flush ends in, when it ends. *)
Definition final (r : outcome) : option State :=
  match r with
  | Done s => Some s
  | Raised s => Some s
  | OutOfFuel => None
  end.

(** What running tasks from one loop amounts to: the run events and API
    calls [d] are appended to the trace, the world changes by exactly the
    API calls logged, and every snapshot is the world at that moment. *)
Record loop_run (k : slot) (a : loc) (s s' : State) (d : list event) : Prop :=
  mk_loop_run {
  lr_trace : trace s' = trace s ++ d;
  lr_world : world s' = apply_apis (apis_of d) (world s);
  lr_snap : snapshots_ok (world s) d;
  lr_loop : Forall (in_loop k a) d
}.

Lemma loop_run_nil (k : slot) (a : loc) (s : State) : loop_run k a s s [].
Proof. split; simpl; auto using app_nil_r. Qed.

Lemma loop_run_app (k : slot) (a : loc) (s1 s2 s3 : State) (d1 d2 : list event) :
  loop_run k a s1 s2 d1 -> loop_run k a s2 s3 d2 -> loop_run k a s1 s3 (d1 ++ d2).
Proof.
  intros [T1 W1 S1 L1] [T2 W2 S2 L2]. split.
  - rewrite T2, T1. symmetry. apply app_assoc.
  - rewrite W2, W1, apis_of_app, apply_apis_app. reflexivity.
  - apply snapshots_ok_app. rewrite <- W1. auto.
  - apply Forall_app. auto.
Qed.

Lemma loop_run_extends (k : slot) (a : loc) (s s' : State) (d : list event) :
  loop_run k a s s' d -> extends (world s) (world s').
Proof. intros [_ W _ _]. rewrite W. apply apply_apis_extends. Qed.

Lemma loop_run_wf (k : slot) (a : loc) (s s' : State) (d : list event) :
  loop_run k a s s' d -> wf (world s) -> wf (world s').
Proof. intros [_ W _ _]. rewrite W. apply apply_apis_wf. Qed.

Section Loops.

Variable behaviour : task -> State -> list action.

Lemma invoke_spec (k : slot) (a : loc) (i : nat) (t : task) (s : State) :
  exists cs s',
    (invoke behaviour k a i t s = Done s' \/ invoke behaviour k a i t s = Raised s') /\
    loop_run k a s s' (EvRun k a i t (world s) :: map EvApi cs).
Proof.
  unfold invoke.
  destruct (run_actions_spec (behaviour t s) (log (EvRun k a i t (world s)) s))
    as (cs & s' & Hr & Hw & Ht).
  exists cs, s'. split; [exact Hr|]. simpl in Hw, Ht. split.
  - rewrite Ht, <- app_assoc. reflexivity.
  - rewrite Hw. simpl. change (apis_of (EvRun k a i t (world s) :: map EvApi cs))
      with (apis_of (map EvApi cs)). rewrite apis_of_map. reflexivity.
  - simpl. split; [reflexivity | apply snapshots_ok_apis].
  - constructor; [simpl; auto | apply Forall_in_loop_apis].
Qed.

(** The two ways a loop runs its tasks. *)
Definition runner (k : slot) (run : loc -> nat -> task -> State -> outcome) : Prop :=
  forall a i t s, run a i t s = invoke behaviour k a i t s \/ run a i t s = Raised s.

Lemma runner_call (k : slot) : runner k (call behaviour k).
Proof. intros a i [c|f] s; simpl; auto. Qed.

Lemma runner_dispatch (k : slot) : runner k (dispatch behaviour k).
Proof. intros a i [c|f] s; simpl; auto. Qed.

Lemma runner_spec (k : slot) (run : loc -> nat -> task -> State -> outcome)
    (a : loc) (i : nat) (t : task) (s : State) :
  runner k run ->
  (exists s' cs, (run a i t s = Done s' \/ run a i t s = Raised s') /\
                 loop_run k a s s' (EvRun k a i t (world s) :: map EvApi cs)) \/
  run a i t s = Raised s.
Proof.
  intros R. destruct (R a i t s) as [-> | ->]; [|right; reflexivity].
  destruct (invoke_spec k a i t s) as (cs & s' & H & L). left. eauto.
Qed.

(** A [for] loop over the array at [a]: it runs, in index order, every
    element the array holds when the loop ends; when a task raises, it has
    run the elements up to that task. *)
Lemma for_each_spec (fuel : nat) (k : slot)
    (run : loc -> nat -> task -> State -> outcome) (a : loc) (i : nat) (s : State) :
  runner k run ->
  match for_each fuel run a i s with
  | Done s' =>
      exists d, loop_run k a s s' d /\
                run_keys d = keys k a i (drop i (array_at (world s') a))
  | Raised s' =>
      exists d n, loop_run k a s s' d /\
                  run_keys d = keys k a i (take n (drop i (array_at (world s') a)))
  | OutOfFuel => True
  end.
Proof.
  intros R. revert i s. induction fuel as [|fuel IH]; intros i s; simpl; [exact I|].
  destruct (array_at (world s) a !! i) as [t|] eqn:Ht.
  - assert (Hgrow : forall s' d, loop_run k a s s' d ->
                                 array_at (world s') a !! i = Some t).
    { intros s' d L.
      destruct (ext_grow _ _ (loop_run_extends _ _ _ _ _ L) a) as [suf Hsuf].
      rewrite Hsuf. apply lookup_app_l_Some. exact Ht. }
    destruct (runner_spec k run a i t s R) as [(s1 & cs & [->| ->] & L1)| ->]; simpl.
    + specialize (IH (S i) s1).
      destruct (for_each fuel run a (S i) s1) as [s'|s'|]; [| |exact I].
      * destruct IH as (d2 & L2 & K2).
        pose proof (loop_run_app _ _ _ _ _ _ _ L1 L2) as L.
        eexists. split; [exact L|].
        rewrite run_keys_app. simpl. rewrite run_keys_map. simpl. rewrite K2.
        rewrite (drop_S _ _ _ (Hgrow _ _ L)), keys_cons. reflexivity.
      * destruct IH as (d2 & n & L2 & K2).
        pose proof (loop_run_app _ _ _ _ _ _ _ L1 L2) as L.
        eexists _, (S n). split; [exact L|].
        rewrite run_keys_app. simpl. rewrite run_keys_map. simpl. rewrite K2.
        rewrite (drop_S _ _ _ (Hgrow _ _ L)). simpl. rewrite keys_cons. reflexivity.
    + eexists _, 1%nat. split; [exact L1|].
      simpl. rewrite run_keys_map.
      rewrite (drop_S _ _ _ (Hgrow _ _ L1)). simpl. rewrite take_0, keys_cons.
      reflexivity.
    + exists [], 0%nat. split; [apply loop_run_nil|]. rewrite take_0. reflexivity.
  - exists []. split; [apply loop_run_nil|].
    rewrite drop_ge; [reflexivity|]. apply lookup_ge_None. exact Ht.
Qed.

(** When the array is detached, what the loop runs is what the array held
    when the loop began; and the loop ends. *)
Lemma for_each_detached (fuel : nat) (k : slot)
    (run : loc -> nat -> task -> State -> outcome) (a : loc) (s s' : State) :
  runner k run -> detached (world s) a ->
  for_each fuel run a 0 s = Done s' ->
  exists d, loop_run k a s s' d /\
            run_keys d = keys k a 0 (array_at (world s) a) /\
            detached (world s') a /\
            array_at (world s') a = array_at (world s) a.
Proof.
  intros R D H. pose proof (for_each_spec fuel k run a 0 s R) as Hs.
  rewrite H in Hs. destruct Hs as (d & L & K).
  pose proof (loop_run_extends _ _ _ _ _ L) as E.
  exists d. rewrite drop_0, (ext_detached _ _ E a D) in K.
  split; [exact L|]. split; [exact K|].
  split; [eapply detached_extends; eauto | apply (ext_detached _ _ E a D)].
Qed.

End Loops.

(** ** What no task and no loop changes *)

(** The three PENDING bits. *)
Definition PENDING_MASK : Z :=
  Z.lor SchedulerFlags.MICROTASK_PENDING
        (Z.lor SchedulerFlags.MACROTASK_PENDING SchedulerFlags.FRAMETASK_PENDING).

Lemma arm_bit_masked (a : api) (c : Z) :
  Z.land PENDING_MASK c = 0 -> flag_test (arm_bit a) c = false.
Proof.
  intros H. unfold flag_test.
  replace (Z.land (arm_bit a) c) with 0; [reflexivity|].
  assert (Hm : Z.land (arm_bit a) PENDING_MASK = arm_bit a)
    by (destruct a as [cb|cb| | |f op]; reflexivity).
  rewrite <- Hm, <- Z.land_assoc, H, Z.land_0_r. reflexivity.
Qed.

Lemma existsb_arm_bit_masked (cs : list api) (c : Z) :
  Z.land PENDING_MASK c = 0 -> existsb (fun a => flag_test (arm_bit a) c) cs = false.
Proof.
  intros H. induction cs as [|a cs IH]; simpl; [reflexivity|].
  rewrite arm_bit_masked, IH by assumption. reflexivity.
Qed.

(** The clock and every flag other than the PENDING bits are those of [w0],
    and no flag of [w0] has been cleared. *)
Definition same_regs (w0 w : World) : Prop :=
  clock (sched w) = clock (sched w0) /\
  (forall c, Z.land PENDING_MASK c = 0 ->
             flag_test (flags (sched w)) c = flag_test (flags (sched w0)) c) /\
  (forall c, flag_test (flags (sched w0)) c = true ->
             flag_test (flags (sched w)) c = true).

Definition snap_regs (w0 : World) (e : event) : Prop :=
  match e with
  | EvRun _ _ _ _ w => same_regs w0 w
  | _ => True
  end.

Lemma same_regs_refl (w : World) : same_regs w w.
Proof. repeat split; auto. Qed.

Lemma same_regs_trans (w1 w2 w3 : World) :
  same_regs w1 w2 -> same_regs w2 w3 -> same_regs w1 w3.
Proof.
  intros (C1 & F1 & M1) (C2 & F2 & M2). repeat split.
  - congruence.
  - intros c Hc. rewrite F2, F1 by assumption. reflexivity.
  - auto.
Qed.

Lemma same_regs_api (c : api) (w : World) : same_regs w (api_effect c w).
Proof.
  repeat split.
  - apply api_effect_clock.
  - intros d Hd. rewrite api_effect_flags, arm_bit_masked by assumption.
    apply orb_false_r.
  - intros d Hd. rewrite api_effect_flags, Hd. reflexivity.
Qed.

Lemma snap_regs_weaken (w0 w1 : World) (d : list event) :
  same_regs w0 w1 -> Forall (snap_regs w1) d -> Forall (snap_regs w0) d.
Proof.
  intros H Hd. eapply Forall_impl; [exact Hd|].
  intros [p|k a i t w|c]; simpl; auto.
  apply same_regs_trans, H.
Qed.

(** A stretch of a flush: between [s] and [s'] the events [d] were logged,
    and the scheduler's registers changed only by the PENDING bits that the
    logged API calls armed. *)
Record quiet (s s' : State) (d : list event) : Prop := mk_quiet {
  q_trace : trace s' = trace s ++ d;
  q_clock : clock (sched (world s')) = clock (sched (world s));
  q_frames : _currentFrame (sched (world s')) = _currentFrame (sched (world s)) /\
             _nextFrame (sched (world s')) = _nextFrame (sched (world s));
  q_flags : forall c,
    flag_test (flags (sched (world s'))) c =
    flag_test (flags (sched (world s))) c ||
    existsb (fun a => flag_test (arm_bit a) c) (apis_of d);
  q_requests : forall dm,
    requests dm (world s') =
    (requests dm (world s) +
     if pending dm (world s) then 0 else if armed dm (apis_of d) then 1 else 0)%nat;
  q_snap : Forall (snap_regs (world s)) d;
  q_extends : extends (world s) (world s');
  q_wf : wf (world s) -> wf (world s')
}.

Lemma quiet_same_regs (s s' : State) (d : list event) :
  quiet s s' d -> same_regs (world s) (world s').
Proof.
  intros Q. repeat split.
  - apply (q_clock _ _ _ Q).
  - intros c Hc. rewrite (q_flags _ _ _ Q), existsb_arm_bit_masked by assumption.
    apply orb_false_r.
  - intros c Hc. rewrite (q_flags _ _ _ Q), Hc. reflexivity.
Qed.

Lemma armed_app (dm : domain) (cs1 cs2 : list api) :
  armed dm (cs1 ++ cs2) = armed dm cs1 || armed dm cs2.
Proof. apply existsb_app. Qed.

Lemma quiet_trans (s1 s2 s3 : State) (d1 d2 : list event) :
  quiet s1 s2 d1 -> quiet s2 s3 d2 -> quiet s1 s3 (d1 ++ d2).
Proof.
  intros Q1 Q2. split.
  - rewrite (q_trace _ _ _ Q2), (q_trace _ _ _ Q1). symmetry. apply app_assoc.
  - rewrite (q_clock _ _ _ Q2). apply (q_clock _ _ _ Q1).
  - destruct (q_frames _ _ _ Q2) as [-> ->]. apply (q_frames _ _ _ Q1).
  - intros c. rewrite (q_flags _ _ _ Q2), (q_flags _ _ _ Q1), apis_of_app, existsb_app.
    symmetry. apply orb_assoc.
  - intros dm. rewrite (q_requests _ _ _ Q2), (q_requests _ _ _ Q1).
    unfold pending at 2. rewrite (q_flags _ _ _ Q1), apis_of_app, armed_app.
    fold (pending dm (world s1)).
    replace (existsb (fun a => flag_test (arm_bit a) (pending_bit dm)) (apis_of d1))
      with (armed dm (apis_of d1)).
    2:{ unfold armed. induction (apis_of d1) as [|a l IH]; simpl; [reflexivity|].
        rewrite IH, flag_test_arm_bit. reflexivity. }
    destruct (pending dm (world s1)), (armed dm (apis_of d1)),
      (armed dm (apis_of d2)); simpl; lia.
  - apply Forall_app. split; [apply (q_snap _ _ _ Q1)|].
    eapply snap_regs_weaken; [eapply quiet_same_regs; eauto | apply (q_snap _ _ _ Q2)].
  - eapply extends_trans; [apply (q_extends _ _ _ Q1) | apply (q_extends _ _ _ Q2)].
  - intros W. apply (q_wf _ _ _ Q2), (q_wf _ _ _ Q1), W.
Qed.

Lemma quiet_refl (s : State) : quiet s s [].
Proof.
  split; simpl; auto using app_nil_r, extends_refl.
  - intros c. rewrite orb_false_r. reflexivity.
  - intros dm. destruct (pending dm (world s)); lia.
Qed.

(** Running tasks is quiet. *)
Lemma loop_run_quiet (k : slot) (a : loc) (s s' : State) (d : list event) :
  loop_run k a s s' d -> quiet s s' d.
Proof.
  intros [T W S L]. split; rewrite ?W.
  - exact T.
  - apply apply_apis_clock.
  - apply apply_apis_frames.
  - intros c. apply apply_apis_flags.
  - intros dm. apply apply_apis_requests.
  - eapply Forall_impl;
      [apply (snapshots_invariant (same_regs (world s)) (world s) d)|].
    + intros c w0 H0. eapply same_regs_trans; [exact H0 | apply same_regs_api].
    + apply same_regs_refl.
    + exact S.
    + intros [p|k' a' i t w|c]; simpl; auto.
  - apply apply_apis_extends.
  - apply apply_apis_wf.
Qed.

(** A step of the flush routine itself that touches neither the registers
    nor the host: a phase marker, or a change [g] of the frames or of the
    queues' arrays. *)
Lemma quiet_step (g : World -> World) (s : State) (d : list event) :
  clock (sched (g (world s))) = clock (sched (world s)) ->
  flags (sched (g (world s))) = flags (sched (world s)) ->
  _currentFrame (sched (g (world s))) = _currentFrame (sched (world s)) ->
  _nextFrame (sched (g (world s))) = _nextFrame (sched (world s)) ->
  host (g (world s)) = host (world s) ->
  extends (world s) (g (world s)) ->
  (wf (world s) -> wf (g (world s))) ->
  Forall (fun e => match e with EvPhase _ => True | _ => False end) d ->
  quiet s (mkState (g (world s)) (trace s ++ d)) d.
Proof.
  intros Hc Hf Hcur Hnxt Hh He Hw Hd.
  assert (Ha : apis_of d = []).
  { induction d as [|e d IH]; [reflexivity|].
    inversion Hd as [|? ? He0 Hd0]; subst. destruct e; try contradiction.
    simpl. apply IH. assumption. }
  split; simpl; auto.
  - intros c. rewrite Hf, Ha. simpl. rewrite orb_false_r. reflexivity.
  - intros dm. rewrite Ha. unfold requests, pending. rewrite Hh.
    simpl. destruct (flag_test _ _); destruct dm; lia.
  - eapply Forall_impl; [exact Hd|]. intros [p|k a i t w|c]; simpl; tauto.
Qed.

(** *** The detaching steps *)

Lemma detach_microtasks_assigned (w : World) :
  assigned PMicro (Some (length (heap w))) w (detach_microtasks w).
Proof.
  unfold detach_microtasks. simpl. split; [reflexivity|]. split.
  - intros q Hq. destruct q; simpl; rewrite ?frame_of_with_sched, ?frame_of_with_heap;
      try reflexivity; congruence.
  - right. split; reflexivity.
Qed.

Lemma detach_macrotasks_assigned (w : World) :
  assigned PMacro (Some (length (heap w))) w (detach_macrotasks w).
Proof.
  unfold detach_macrotasks. simpl. split; [reflexivity|]. split.
  - intros q Hq. destruct q; simpl; rewrite ?frame_of_with_sched, ?frame_of_with_heap;
      try reflexivity; congruence.
  - right. split; reflexivity.
Qed.

Lemma null_group_assigned (f : fid) (i : nat) (w : World) :
  assigned (PGroup f i) None w (null_group f i w).
Proof.
  unfold null_group. split; [|split].
  - simpl. rewrite frame_of_with_frame_eq. simpl.
    destruct (decide (i < length (writeTaskGroups (frame_of w f)))%nat).
    + rewrite list_lookup_insert_eq by assumption. reflexivity.
    + rewrite lookup_ge_None_2; [reflexivity|]. rewrite length_insert. lia.
  - intros q Hq. destruct q; simpl;
      rewrite ?frame_of_with_frame, ?sched_with_frame;
      repeat case_decide; subst; try reflexivity.
    simpl. rewrite list_lookup_insert_ne by congruence. reflexivity.
  - left. split; [reflexivity | apply heap_with_frame].
Qed.

Lemma null_readTasks_assigned (f : fid) (w : World) :
  assigned (PRead f) None w (null_readTasks f w).
Proof.
  unfold null_readTasks. split; [|split].
  - simpl. rewrite frame_of_with_frame_eq. reflexivity.
  - intros q Hq. destruct q; simpl;
      rewrite ?frame_of_with_frame, ?sched_with_frame;
      repeat case_decide; subst; try reflexivity; congruence.
  - left. split; [reflexivity | apply heap_with_frame].
Qed.

(** *** Every loop of the flush routines is quiet *)

Definition quietly (s : State) (r : outcome) : Prop :=
  forall s', final r = Some s' -> exists d, quiet s s' d.

Lemma quietly_done (s : State) : quietly s (Done s).
Proof. intros s' [= <-]. exists []. apply quiet_refl. Qed.

Lemma quietly_raised (s : State) : quietly s (Raised s).
Proof. intros s' [= <-]. exists []. apply quiet_refl. Qed.

Lemma quietly_bind (s : State) (m : outcome) (k : State -> outcome) :
  quietly s m -> (forall s1, m = Done s1 -> quietly s1 (k s1)) ->
  quietly s (obind m k).
Proof.
  intros Hm Hk s' Hf. destruct m as [s1|s1|]; simpl in Hf.
  - destruct (Hm s1 eq_refl) as [d1 Q1].
    destruct (Hk s1 eq_refl s' Hf) as [d2 Q2].
    exists (d1 ++ d2). eapply quiet_trans; eauto.
  - apply Hm. exact Hf.
  - discriminate.
Qed.

Lemma quietly_after (s s1 : State) (d : list event) (r : outcome) :
  quiet s s1 d -> quietly s1 r -> quietly s r.
Proof.
  intros Q H s' Hf. destruct (H s' Hf) as [d2 Q2].
  exists (d ++ d2). eapply quiet_trans; eauto.
Qed.

Lemma quiet_log (p : phase) (s : State) : quiet s (log (EvPhase p) s) [EvPhase p].
Proof.
  apply (quiet_step (fun w => w) s [EvPhase p]); auto using extends_refl.
Qed.

Lemma quiet_frame_step (g : World -> World) (s : State) :
  sched (g (world s)) = sched (world s) ->
  host (g (world s)) = host (world s) ->
  extends (world s) (g (world s)) ->
  (wf (world s) -> wf (g (world s))) ->
  quiet s (on_world g s) [].
Proof.
  intros Hs Hh He Hw.
  pose proof (quiet_step g s [] ) as H. simpl in H. rewrite app_nil_r in H.
  apply H; auto; rewrite Hs; reflexivity.
Qed.

Lemma quiet_clear_frame_flag (f : fid) (c : Z) (s : State) :
  quiet s (on_world (clear_frame_flag f c) s) [].
Proof.
  apply quiet_frame_step.
  - apply sched_with_frame.
  - apply host_with_frame.
  - apply inert_extends, inert_clear_frame_flag.
  - apply inert_wf, inert_clear_frame_flag.
Qed.

Lemma quiet_null_group (f : fid) (i : nat) (s : State) :
  quiet s (on_world (null_group f i) s) [].
Proof.
  apply quiet_frame_step.
  - apply sched_with_frame.
  - apply host_with_frame.
  - eapply assigned_extends, null_group_assigned.
  - eapply assigned_wf, null_group_assigned.
Qed.

Lemma quiet_null_readTasks (f : fid) (s : State) :
  quiet s (on_world (null_readTasks f) s) [].
Proof.
  apply quiet_frame_step.
  - apply sched_with_frame.
  - apply host_with_frame.
  - eapply assigned_extends, null_readTasks_assigned.
  - eapply assigned_wf, null_readTasks_assigned.
Qed.

Lemma quiet_detach_microtasks (s : State) :
  quiet s (on_world detach_microtasks s) [].
Proof.
  pose proof (quiet_step detach_microtasks s []) as H. simpl in H.
  rewrite app_nil_r in H. apply H; auto.
  - eapply assigned_extends, detach_microtasks_assigned.
  - eapply assigned_wf, detach_microtasks_assigned.
Qed.

Lemma quiet_detach_macrotasks (s : State) :
  quiet s (on_world detach_macrotasks s) [].
Proof.
  pose proof (quiet_step detach_macrotasks s []) as H. simpl in H.
  rewrite app_nil_r in H. apply H; auto.
  - eapply assigned_extends, detach_macrotasks_assigned.
  - eapply assigned_wf, detach_macrotasks_assigned.
Qed.

Section QuietLoops.

Variable behaviour : task -> State -> list action.

Lemma for_each_quietly (fuel : nat) (k : slot)
    (run : loc -> nat -> task -> State -> outcome) (a : loc) (i : nat) (s : State) :
  runner behaviour k run -> quietly s (for_each fuel run a i s).
Proof.
  intros R s' Hf. pose proof (for_each_spec behaviour fuel k run a i s R) as H.
  destruct (for_each fuel run a i s) as [s1|s1|]; simpl in Hf; [| |discriminate];
    injection Hf as <-.
  - destruct H as (d & L & _). exists d. eapply loop_run_quiet; eauto.
  - destruct H as (d & n & L & _). exists d. eapply loop_run_quiet; eauto.
Qed.

Lemma micro_waves_quietly (fuel : nat) (tasks : loc) (s : State) :
  quietly s (micro_waves behaviour fuel tasks s).
Proof.
  revert tasks s. induction fuel as [|fuel IH]; intros tasks s; simpl;
    [intros s' [=]|].
  destruct (0 <? _)%nat; [|apply quietly_done].
  eapply quietly_after; [apply quiet_log|].
  eapply quietly_after; [apply quiet_detach_microtasks|].
  apply quietly_bind; [eapply for_each_quietly, runner_call|].
  intros s1 _. apply IH.
Qed.

Lemma prio_groups_quietly (fuel : nat) (f : fid) (i : nat) (s : State) :
  quietly s (prio_groups behaviour fuel f i s).
Proof.
  revert i s. induction fuel as [|fuel IH]; intros i s; simpl; [intros s' [=]|].
  destruct (_ !! i) as [[group|]|]; [| apply IH | apply quietly_done].
  eapply quietly_after; [apply quiet_null_group|].
  apply quietly_bind; [eapply for_each_quietly, runner_dispatch|].
  intros s1 _. apply IH.
Qed.

Lemma write_prio_quietly (fuel : nat) (f : fid) (s : State) :
  quietly s (write_prio behaviour fuel f s).
Proof.
  unfold write_prio. destruct (flag_test _ _); [|apply quietly_done].
  eapply quietly_after; [apply quiet_clear_frame_flag | apply prio_groups_quietly].
Qed.

Lemma write_plain_quietly (fuel : nat) (f : fid) (s : State) :
  quietly s (write_plain behaviour fuel f s).
Proof.
  unfold write_plain. destruct (flag_test _ _); [|apply quietly_done].
  eapply quietly_after; [apply quiet_clear_frame_flag|].
  destruct (writeTasks _); [eapply for_each_quietly, runner_dispatch | apply quietly_raised].
Qed.

Lemma write_while_quietly (fuel : nat) (f : fid) (s : State) :
  quietly s (write_while behaviour fuel f s).
Proof.
  revert s. induction fuel as [|fuel IH]; intros s; simpl; [intros s' [=]|].
  destruct (flag_test _ _); [|apply quietly_done].
  apply quietly_bind; [apply write_prio_quietly|]. intros s1 _.
  apply quietly_bind; [apply write_plain_quietly|]. intros s2 _. apply IH.
Qed.

Lemma read_while_quietly (fuel : nat) (f : fid) (s : State) :
  quietly s (read_while behaviour fuel f s).
Proof.
  revert s. induction fuel as [|fuel IH]; intros s; simpl; [intros s' [=]|].
  destruct (flag_test _ _); [|apply quietly_done].
  eapply quietly_after; [apply quiet_clear_frame_flag|].
  eapply quietly_after; [apply quiet_null_readTasks|].
  destruct (readTasks _); [|apply quietly_raised].
  apply quietly_bind; [eapply for_each_quietly, runner_call|].
  intros s1 _. apply IH.
Qed.

Lemma alternation_quietly (fuel : nat) (f : fid) (s : State) :
  quietly s (alternation behaviour fuel f s).
Proof.
  revert s. induction fuel as [|fuel IH]; intros s; simpl; [intros s' [=]|].
  eapply quietly_after; [apply (quiet_log PhWrite)|].
  apply quietly_bind; [apply write_while_quietly|]. intros s1 _.
  eapply quietly_after; [apply (quiet_log PhRead)|].
  apply quietly_bind; [apply read_while_quietly|]. intros s2 _.
  destruct (flag_test _ _); [apply IH | apply quietly_done].
Qed.

Lemma after_while_quietly (fuel : nat) (f : fid) (s : State) :
  quietly s (after_while behaviour fuel f s).
Proof.
  revert s. induction fuel as [|fuel IH]; intros s; simpl; [intros s' [=]|].
  destruct (flag_test _ _); [|apply quietly_done].
  eapply quietly_after; [apply quiet_clear_frame_flag|].
  destruct (afterTasks _); [|apply quietly_raised].
  apply quietly_bind; [eapply for_each_quietly, runner_call|].
  intros s1 _. apply IH.
Qed.

End QuietLoops.

(** ** The three flush routines as a whole *)

(** What a flush does to the registers before its first task runs and after
    its last. *)
Definition flush_begin (dm : domain) (w : World) : World :=
  match dm with
  | Microtask => set_sched_flag SchedulerFlags.RUNNING w
  | Macrotask => set_sched_flag SchedulerFlags.RUNNING
                   (clear_sched_flag SchedulerFlags.MACROTASK_PENDING w)
  | Frametask => frame_begin w
  end.

Definition flush_end (dm : domain) (w : World) : World :=
  match dm with
  | Microtask => clear_sched_flag
                   (Z.lor SchedulerFlags.MICROTASK_PENDING SchedulerFlags.RUNNING) (tick w)
  | Macrotask => clear_sched_flag SchedulerFlags.RUNNING (tick w)
  | Frametask => clear_sched_flag SchedulerFlags.RUNNING (tick w)
  end.

Section Flushes.

Variable behaviour : task -> State -> list action.

Definition flush (dm : domain) (fuel : nat) (s : State) : outcome :=
  match dm with
  | Microtask => _microtaskScheduler behaviour fuel s
  | Macrotask => _macrotaskScheduler behaviour fuel s
  | Frametask => _handleAnimationFrame behaviour fuel s
  end.

(** A flush is its opening bookkeeping, a quiet stretch in which the tasks
    run, and, unless a task raised, its closing bookkeeping. *)
Lemma flush_cases (dm : domain) (fuel : nat) (s : State) :
  match flush dm fuel s with
  | Done s' => exists s2 d, quiet (on_world (flush_begin dm) s) s2 d /\
                            s' = on_world (flush_end dm) s2
  | Raised s' => exists d, quiet (on_world (flush_begin dm) s) s' d
  | OutOfFuel => True
  end.
Proof.
  destruct dm; simpl.
  - unfold _microtaskScheduler.
    pose proof (micro_waves_quietly behaviour fuel
                  (_microtasks (sched (world (on_world (set_sched_flag SchedulerFlags.RUNNING) s))))
                  (on_world (set_sched_flag SchedulerFlags.RUNNING) s)) as H.
    destruct (micro_waves _ _ _ _) as [s1|s1|]; simpl; [| |exact I].
    + destruct (H s1 eq_refl) as [d Q]. eauto.
    + apply H. reflexivity.
  - unfold _macrotaskScheduler.
    set (s0 := on_world _ s).
    assert (H : quietly s0
      (if (0 <? length (array_at (world s0) (_macrotasks (sched (world s0)))))%nat
       then for_each fuel (call behaviour InMacro)
              (_macrotasks (sched (world s0))) 0 (on_world detach_macrotasks s0)
       else Done s0)).
    { destruct (0 <? _)%nat; [|apply quietly_done].
      eapply quietly_after; [apply quiet_detach_macrotasks|].
      eapply for_each_quietly, runner_call. }
    revert H. set (r := if (0 <? _)%nat then _ else _). intros H.
    destruct r as [s1|s1|]; simpl; [| |exact I].
    + destruct (H s1 eq_refl) as [d Q]. eauto.
    + apply H. reflexivity.
  - unfold _handleAnimationFrame.
    set (s0 := on_world frame_begin s).
    set (frame := _currentFrame (sched (world s0))).
    assert (H : quietly s0
      (let* s1 := alternation behaviour fuel frame s0 in
       after_while behaviour fuel frame (log (EvPhase PhAfter) s1))).
    { apply quietly_bind; [apply alternation_quietly|]. intros s1 _.
      eapply quietly_after; [apply quiet_log | apply after_while_quietly]. }
    revert H. simpl.
    destruct (alternation behaviour fuel frame s0) as [s1|s1|]; simpl; intros H;
      [| apply H; reflexivity | exact I].
    destruct (after_while _ _ _ _) as [s2|s2|]; simpl; [| |exact I].
    + destruct (H s2 eq_refl) as [d Q]. eauto.
    + apply H. reflexivity.
Qed.

(** One step of the system: code outside the flush routines calls the API,
    or the host runs a flush, which returns or raises. *)
Inductive step : State -> State -> Prop :=
| step_api (a : action) (s : State) : step s (do_action a s)
| step_flush (dm : domain) (fuel : nat) (s s' : State) :
    final (flush dm fuel s) = Some s' -> step s s'.

Inductive reachable : State -> Prop :=
| reach_init : reachable init
| reach_step (s s' : State) : reachable s -> step s s' -> reachable s'.

End Flushes.

Lemma clock_flush_begin (dm : domain) (w : World) :
  clock (sched (flush_begin dm w)) = clock (sched w).
Proof. destruct dm; reflexivity. Qed.

Lemma clock_flush_end (dm : domain) (w : World) :
  clock (sched (flush_end dm w)) = js_incr (clock (sched w)).
Proof. destruct dm; reflexivity. Qed.

Lemma flags_flush_begin (dm : domain) (w : World) (c : Z) :
  Z.land (Z.lor PENDING_MASK SchedulerFlags.RUNNING) c = 0 ->
  flag_test (flags (sched (flush_begin dm w))) c = flag_test (flags (sched w)) c.
Proof.
  intros H.
  assert (Hr : Z.land SchedulerFlags.RUNNING c = 0).
  { apply Z.bits_inj'. intros n Hn.
    assert (Hb : Z.testbit (Z.land (Z.lor PENDING_MASK SchedulerFlags.RUNNING) c) n = false)
      by (rewrite H; apply Z.bits_0).
    rewrite Z.land_spec, Z.lor_spec in Hb. rewrite Z.land_spec, Z.bits_0.
    destruct (Z.testbit SchedulerFlags.RUNNING n), (Z.testbit c n),
      (Z.testbit PENDING_MASK n); simpl in *; congruence. }
  assert (Hp : forall dm', Z.land (pending_bit dm') c = 0).
  { intros dm'. apply Z.bits_inj'. intros n Hn.
    assert (Hb : Z.testbit (Z.land (Z.lor PENDING_MASK SchedulerFlags.RUNNING) c) n = false)
      by (rewrite H; apply Z.bits_0).
    assert (Hm : Z.land (pending_bit dm') PENDING_MASK = pending_bit dm')
      by (destruct dm'; reflexivity).
    assert (Hmb : Z.testbit (pending_bit dm') n = true -> Z.testbit PENDING_MASK n = true).
    { intros Ht. rewrite <- Hm, Z.land_spec in Ht. apply andb_true_iff in Ht. tauto. }
    rewrite Z.land_spec, Z.lor_spec in Hb. rewrite Z.land_spec, Z.bits_0.
    destruct (Z.testbit (pending_bit dm') n), (Z.testbit c n); simpl in *; auto.
    rewrite Hmb in Hb by reflexivity. simpl in Hb. discriminate. }
  destruct dm; simpl.
  - rewrite flag_test_set. unfold flag_test at 2. rewrite Hr. apply orb_false_r.
  - rewrite flag_test_set. unfold flag_test at 2. rewrite Hr, orb_false_r.
    apply flag_test_clear_other. apply (Hp Macrotask).
  - rewrite flag_test_set. unfold flag_test at 2. rewrite Hr, orb_false_r.
    apply flag_test_clear_other. apply (Hp Frametask).
Qed.

(** [nextFrame()] called [n] times in a row: the frames returned and the
    world afterwards. *)
Fixpoint nextFrame_times (n : nat) (w : World) : list fid * World :=
  match n with
  | O => ([], w)
  | S n' =>
      let '(f, w1) := nextFrame w in
      let '(fs, w2) := nextFrame_times n' w1 in
      (f :: fs, w2)
  end.

Lemma nextFrame_times_apis (n : nat) (w : World) :
  nextFrame_times n w =
  (replicate n (_nextFrame (sched w)), apply_apis (replicate n ApiNextFrame) w).
Proof.
  revert w. induction n as [|n IH]; intros w; [reflexivity|].
  cbn [nextFrame_times replicate].
  destruct (nextFrame w) as [f w1] eqn:E.
  assert (Hw1 : w1 = api_effect ApiNextFrame w)
    by (change (api_effect ApiNextFrame w) with (snd (nextFrame w));
        rewrite E; reflexivity).
  assert (Hf : f = _nextFrame (sched w)).
  { unfold nextFrame in E. injection E as <- _.
    destruct (flag_test _ _); reflexivity. }
  rewrite IH, Hw1, Hf.
  rewrite (proj2 (api_effect_frames ApiNextFrame w)). reflexivity.
Qed.

(** The per-domain RUNNING bits of the flag enum. *)
Definition domain_running_bits : list Z :=
  [SchedulerFlags.MICROTASK_RUNNING; SchedulerFlags.MACROTASK_RUNNING;
   SchedulerFlags.FRAMETASK_RUNNING].

Lemma domain_running_bits_masked (c : Z) :
  c ∈ domain_running_bits ->
  Z.land (Z.lor PENDING_MASK SchedulerFlags.RUNNING) c = 0 /\
  Z.land PENDING_MASK c = 0.
Proof.
  unfold domain_running_bits. intros H.
  repeat (apply elem_of_cons in H; destruct H as [->|H]; [split; reflexivity|]).
  inversion H.
Qed.

Lemma flags_flush_end (dm : domain) (w : World) (c : Z) :
  c ∈ domain_running_bits ->
  flag_test (flags (sched (flush_end dm w))) c = flag_test (flags (sched w)) c.
Proof.
  unfold domain_running_bits. intros H.
  repeat (apply elem_of_cons in H; destruct H as [->|H];
          [destruct dm; simpl; apply flag_test_clear_other; reflexivity|]).
  inversion H.
Qed.

Lemma running_flush_begin (dm : domain) (w : World) :
  flag_test (flags (sched (flush_begin dm w))) SchedulerFlags.RUNNING = true.
Proof.
  destruct dm; simpl; rewrite flag_test_set; apply orb_true_r.
Qed.

Section Registers.

Variable behaviour : task -> State -> list action.

(** A completed flush: the tasks all ran at the clock value the flush
    started with, and the clock has been incremented once at the end. *)
Lemma flush_done_clock (dm : domain) (fuel : nat) (s s' : State) :
  flush behaviour dm fuel s = Done s' ->
  clock (sched (world s')) = js_incr (clock (sched (world s))) /\
  exists d, trace s' = trace s ++ d /\
    Forall (fun e => match e with
                     | EvRun _ _ _ _ w => clock (sched w) = clock (sched (world s))
                     | _ => True
                     end) d.
Proof.
  intros H. pose proof (flush_cases behaviour dm fuel s) as Hc. rewrite H in Hc.
  destruct Hc as (s2 & d & Q & ->). simpl. split.
  - rewrite clock_flush_end, (q_clock _ _ _ Q). simpl.
    rewrite clock_flush_begin. reflexivity.
  - exists d. split; [apply (q_trace _ _ _ Q)|].
    eapply Forall_impl; [apply (q_snap _ _ _ Q)|].
    intros [p|k a i t w|c]; simpl; auto.
    intros (Hw & _). rewrite Hw. apply clock_flush_begin.
Qed.

Lemma flush_raised_clock (dm : domain) (fuel : nat) (s s' : State) :
  flush behaviour dm fuel s = Raised s' ->
  clock (sched (world s')) = clock (sched (world s)).
Proof.
  intros H. pose proof (flush_cases behaviour dm fuel s) as Hc. rewrite H in Hc.
  destruct Hc as (d & Q). rewrite (q_clock _ _ _ Q). simpl. apply clock_flush_begin.
Qed.

Lemma do_action_clock (a : action) (s : State) :
  clock (sched (world (do_action a s))) = clock (sched (world s)).
Proof.
  destruct (do_action_spec a s) as [cs ->]. simpl. apply apply_apis_clock.
Qed.

(** The clock stays among the values of a counter started at 1. *)
Lemma step_clock (s s' : State) :
  step behaviour s s' ->
  1 <= clock (sched (world s)) <= 2 ^ 53 ->
  clock (sched (world s)) <= clock (sched (world s')) <= 2 ^ 53.
Proof.
  intros Hstep Hc. destruct Hstep as [a s|dm fuel s s' Hf].
  - rewrite do_action_clock. lia.
  - destruct (flush behaviour dm fuel s) as [s1|s1|] eqn:E; simpl in Hf;
      [| |discriminate]; injection Hf as <-.
    + destruct (flush_done_clock _ _ _ _ E) as [-> _].
      apply (js_incr_counter _ Hc).
    + rewrite (flush_raised_clock _ _ _ _ E). lia.
Qed.

Lemma reachable_clock (s : State) :
  reachable behaviour s -> 1 <= clock (sched (world s)) <= 2 ^ 53.
Proof.
  induction 1 as [|s s' _ IH Hstep]; [simpl; lia|].
  pose proof (step_clock s s' Hstep IH). lia.
Qed.

(** C3, as the code has it: the clock starts at 1, and in every state in
    which it holds a value from 1 to 2^53 (every reachable state is one) no
    step of the system, be it an API call, a flush that returns or a flush
    that raises, decreases it or takes it beyond 2^53.  A completed flush
    of any one domain increments it once, every task of that flush having
    run at the old value, however many tasks there were: the clock is one
    more afterwards as long as it was below 2^53, and it stays what it was
    at 2^53, from where a JavaScript number no longer counts in steps of
    one. *)
Theorem clock_advances_once_per_flush (s s' : State) :
  step behaviour s s' ->
  1 <= clock (sched (world s)) <= 2 ^ 53 ->
  clock (sched (world init)) = 1 /\
  (forall s0, reachable behaviour s0 -> 1 <= clock (sched (world s0)) <= 2 ^ 53) /\
  clock (sched (world s)) <= clock (sched (world s')) <= 2 ^ 53 /\
  forall dm fuel, flush behaviour dm fuel s = Done s' ->
    (clock (sched (world s)) < 2 ^ 53 ->
     clock (sched (world s')) = clock (sched (world s)) + 1) /\
    (clock (sched (world s)) = 2 ^ 53 ->
     clock (sched (world s')) = clock (sched (world s))) /\
    exists d, trace s' = trace s ++ d /\
      Forall (fun e => match e with
                       | EvRun _ _ _ _ w => clock (sched w) = clock (sched (world s))
                       | _ => True
                       end) d.
Proof.
  intros Hstep Hc. split; [reflexivity|].
  split; [exact reachable_clock|].
  split; [apply step_clock; assumption|].
  intros dm fuel Hf. destruct (flush_done_clock _ _ _ _ Hf) as [Hclk Hd].
  destruct (js_incr_counter _ Hc) as (_ & Hlt & Heq).
  split; [intros H; rewrite Hclk; apply Hlt, H|].
  split; [intros H; rewrite Hclk; apply Heq, H | exact Hd].
Qed.

(** No step sets or clears a per-domain RUNNING bit, and every task a flush
    runs sees RUNNING set. *)
Lemma step_domain_running_bits (s s' : State) :
  step behaviour s s' ->
  (forall c, c ∈ domain_running_bits ->
     flag_test (flags (sched (world s'))) c = flag_test (flags (sched (world s))) c) /\
  exists d, trace s' = trace s ++ d /\
    Forall (fun e => match e with
                     | EvRun _ _ _ _ w =>
                         flag_test (flags (sched w)) SchedulerFlags.RUNNING = true /\
                         forall c, c ∈ domain_running_bits ->
                           flag_test (flags (sched w)) c =
                           flag_test (flags (sched (world s))) c
                     | _ => True
                     end) d.
Proof.
  intros [a s0|dm fuel s0 s1 Hf].
  - destruct (do_action_spec a s0) as [cs ->]. simpl. split.
    + intros c Hc. rewrite apply_apis_flags.
      rewrite existsb_arm_bit_masked by (apply domain_running_bits_masked, Hc).
      apply orb_false_r.
    + exists (map EvApi cs). split; [reflexivity|].
      induction cs; simpl; constructor; auto.
  - pose proof (flush_cases behaviour dm fuel s0) as Hc.
    assert (Hsnap : forall d, Forall (snap_regs (flush_begin dm (world s0))) d ->
      Forall (fun e => match e with
                       | EvRun _ _ _ _ w =>
                           flag_test (flags (sched w)) SchedulerFlags.RUNNING = true /\
                           forall c, c ∈ domain_running_bits ->
                             flag_test (flags (sched w)) c =
                             flag_test (flags (sched (world s0))) c
                       | _ => True
                       end) d).
    { intros d Hd. eapply Forall_impl; [exact Hd|].
      intros [p|k a i t w|c]; simpl; auto. intros (_ & Hother & Hmono). split.
      - apply Hmono, running_flush_begin.
      - intros c Hc'. rewrite Hother by (apply domain_running_bits_masked, Hc').
        apply flags_flush_begin. apply domain_running_bits_masked, Hc'. }
    assert (Hq : forall s2 d c, quiet (on_world (flush_begin dm) s0) s2 d ->
      c ∈ domain_running_bits ->
      flag_test (flags (sched (world s2))) c = flag_test (flags (sched (world s0))) c).
    { intros s2 d c Q Hc'. rewrite (q_flags _ _ _ Q).
      rewrite existsb_arm_bit_masked by (apply domain_running_bits_masked, Hc').
      rewrite orb_false_r. simpl.
      apply flags_flush_begin. apply domain_running_bits_masked, Hc'. }
    destruct (flush behaviour dm fuel s0) as [s2|s2|]; simpl in Hf;
      [| |discriminate]; injection Hf as <-.
    + destruct Hc as (s3 & d & Q & ->). split.
      * intros c Hc'. simpl. rewrite flags_flush_end by assumption. eauto.
      * exists d. split; [apply (q_trace _ _ _ Q) | apply Hsnap, (q_snap _ _ _ Q)].
    + destruct Hc as (d & Q). split.
      * intros c Hc'. eauto.
      * exists d. split; [apply (q_trace _ _ _ Q) | apply Hsnap, (q_snap _ _ _ Q)].
Qed.

(** C10: in every reachable state the three per-domain RUNNING bits are
    clear, and every task that any flush of any domain has run saw the
    generic RUNNING bit set and the three per-domain bits clear: the flags
    never tell which domain is running. *)
Theorem only_generic_running_bit (s : State) :
  reachable behaviour s ->
  (forall c, c ∈ domain_running_bits -> flag_test (flags (sched (world s))) c = false) /\
  Forall (fun e => match e with
                   | EvRun _ _ _ _ w =>
                       flag_test (flags (sched w)) SchedulerFlags.RUNNING = true /\
                       forall c, c ∈ domain_running_bits ->
                         flag_test (flags (sched w)) c = false
                   | _ => True
                   end) (trace s).
Proof.
  induction 1 as [|s s' _ [IHf IHt] Hstep].
  - split; [|constructor]. unfold domain_running_bits. intros c H.
    repeat (apply elem_of_cons in H; destruct H as [->|H]; [reflexivity|]).
    inversion H.
  - destruct (step_domain_running_bits _ _ Hstep) as (Hf & d & Ht & Hd). split.
    + intros c Hc. rewrite Hf by assumption. auto.
    + rewrite Ht. apply Forall_app. split; [exact IHt|].
      eapply Forall_impl; [exact Hd|].
      intros [p|k a i t w|c]; simpl; auto. intros (Hr & Hb). split; [exact Hr|].
      intros c Hc. rewrite Hb by assumption. auto.
Qed.

(** C8, as the code has it: when a task raises during a frame flush the
    error leaves the flush routine at once.  What was done before the first
    task ran stays done (the two frames are swapped, and FRAMETASK_PENDING
    is set afterwards exactly when some task called [nextFrame()] during the
    flush), but the clock is not incremented and RUNNING stays set. *)
Theorem frame_flush_raise_skips_bookkeeping (fuel : nat) (s s' : State) :
  _handleAnimationFrame behaviour fuel s = Raised s' ->
  clock (sched (world s')) = clock (sched (world s)) /\
  flag_test (flags (sched (world s'))) SchedulerFlags.RUNNING = true /\
  _currentFrame (sched (world s')) = _nextFrame (sched (world s)) /\
  _nextFrame (sched (world s')) = _currentFrame (sched (world s)) /\
  exists d, trace s' = trace s ++ d /\
            pending Frametask (world s') = armed Frametask (apis_of d).
Proof.
  intros H. pose proof (flush_cases behaviour Frametask fuel s) as Hc.
  simpl in Hc. rewrite H in Hc. destruct Hc as (d & Q).
  split; [rewrite (q_clock _ _ _ Q); reflexivity|].
  split.
  { rewrite (q_flags _ _ _ Q). simpl. rewrite flag_test_set.
    rewrite orb_true_r. reflexivity. }
  destruct (q_frames _ _ _ Q) as [-> ->].
  split; [reflexivity|]. split; [reflexivity|].
  exists d. split; [apply (q_trace _ _ _ Q)|].
  unfold pending. rewrite (q_flags _ _ _ Q). simpl.
  rewrite flag_test_set.
  rewrite (flag_test_clear_in _ SchedulerFlags.FRAMETASK_PENDING
             SchedulerFlags.FRAMETASK_PENDING) by reflexivity.
  simpl. unfold armed.
  induction (apis_of d) as [|a l IH]; simpl; [reflexivity|].
  rewrite IH. f_equal. apply (flag_test_arm_bit a Frametask).
Qed.

End Registers.

(** C6: however many times [nextFrame()] is called in a row, at least once,
    the host is asked for one animation frame if none was pending and for
    none otherwise; FRAMETASK_PENDING is set afterwards, and every call
    returns the "next" frame. *)
Theorem nextFrame_registers_once (n : nat) (w : World) :
  (1 <= n)%nat ->
  requests Frametask (snd (nextFrame_times n w)) =
    (requests Frametask w + if pending Frametask w then 0 else 1)%nat /\
  pending Frametask (snd (nextFrame_times n w)) = true /\
  fst (nextFrame_times n w) = replicate n (_nextFrame (sched w)).
Proof.
  intros Hn. rewrite nextFrame_times_apis. cbn [fst snd].
  assert (Ha : armed Frametask (replicate n ApiNextFrame) = true).
  { destruct n as [|n]; [lia | reflexivity]. }
  rewrite apply_apis_requests, apply_apis_pending, Ha.
  split; [reflexivity|]. split; [apply orb_true_r | reflexivity].
Qed.

(** ** Queues that are detached before they are run *)



Section Queues.

Variable behaviour : task -> State -> list action.

(** A loop over a detached array ends within as many steps as the array has
    elements left. *)
Lemma for_each_terminates (fuel : nat) (k : slot)
    (run : loc -> nat -> task -> State -> outcome) (a : loc) (i : nat) (s : State) :
  runner behaviour k run -> detached (world s) a ->
  (length (array_at (world s) a) - i < fuel)%nat ->
  for_each fuel run a i s <> OutOfFuel.
Proof.
  intros R. revert i s. induction fuel as [|fuel IH]; intros i s D Hlt; [lia|].
  simpl. destruct (array_at (world s) a !! i) as [t|] eqn:Ht; [|discriminate].
  apply lookup_lt_Some in Ht.
  destruct (runner_spec behaviour k run a i t s R)
    as [(s1 & cs & [->| ->] & L1)| ->]; simpl; [|discriminate..].
  pose proof (loop_run_extends _ _ _ _ _ L1) as E.
  apply IH.
  - eapply detached_extends; eauto.
  - rewrite (ext_detached _ _ E a D). lia.
Qed.




End Queues.

(** ** The waves of the microtask flush *)

(** The events of a flush that consists of the waves [ws]. *)
Definition wave_events (ws : list (list event)) : list event :=
  concat (map (cons (EvPhase PhWave)) ws).

(** Wave after wave: the first wave runs the queue [q], in order, and each
    later wave runs what was scheduled during the wave before it; the waves
    end when a wave has scheduled nothing. *)
Fixpoint wave_chain (q : list task) (ws : list (list event)) : Prop :=
  match ws with
  | [] => q = []
  | w :: ws' =>
      q <> [] /\ ran w = q /\ wave_chain (pushes PMicro (apis_of w)) ws'
  end.

(** The events of a wave: task runs from the microtask loop and their API
    calls, each run at clock [c]. *)
Definition wave_event (c : Z) (e : event) : Prop :=
  match e with
  | EvRun k _ _ _ w => k = InMicro /\ clock (sched w) = c
  | EvApi _ => True
  | EvPhase _ => False
  end.

Lemma wave_chain_next (q : list task) (ws : list (list event)) (n : nat)
    (w : list event) (t : task) :
  wave_chain q ws -> ws !! n = Some w -> t ∈ pushes PMicro (apis_of w) ->
  exists w', ws !! S n = Some w' /\ t ∈ ran w'.
Proof.
  revert q n. induction ws as [|w0 ws IH]; intros q n H Hn Ht; [discriminate|].
  destruct H as (_ & _ & Hc). destruct n as [|n]; simpl in *.
  - injection Hn as ->. destruct ws as [|w1 ws]; simpl in Hc.
    + rewrite Hc in Ht. inversion Ht.
    + exists w1. split; [reflexivity|]. destruct Hc as (_ & -> & _). exact Ht.
  - eapply IH; eauto.
Qed.

Section Waves.

Variable behaviour : task -> State -> list action.

Lemma micro_waves_spec (fuel : nat) (s s' : State) :
  wf (world s) ->
  micro_waves behaviour fuel (_microtasks (sched (world s))) s = Done s' ->
  exists ws,
    trace s' = trace s ++ wave_events ws /\
    wave_chain (contents (world s) PMicro) ws /\
    Forall (Forall (wave_event (clock (sched (world s))))) ws /\
    contents (world s') PMicro = [] /\
    quiet s s' (wave_events ws).
Proof.
  revert s. induction fuel as [|fuel IH]; intros s W; [discriminate|].
  simpl. destruct (0 <? length _)%nat eqn:Hlen.
  - set (a := _microtasks (sched (world s))).
    set (s0 := log (EvPhase PhWave) s).
    set (s1 := on_world detach_microtasks s0).
    pose proof (detach_microtasks_assigned (world s0)) as A.
    assert (W1 : wf (world s1)) by (eapply assigned_wf; eauto).
    assert (D1 : detached (world s1) a)
      by (eapply assigned_detaches; eauto; reflexivity).
    destruct (for_each fuel _ a 0 s1) as [s2|s2|] eqn:E; simpl; [|discriminate..].
    intros H.
    destruct (for_each_detached behaviour _ _ _ _ _ _ (runner_call behaviour InMicro) D1 E)
      as (d & L & K & _ & _).
    assert (W2 : wf (world s2)) by (eapply loop_run_wf; eauto).
    assert (C2 : contents (world s2) PMicro = pushes PMicro (apis_of d)).
    { rewrite (lr_world _ _ _ _ _ L), apply_apis_contents by assumption.
      change (world s1) with (detach_microtasks (world s0)).
      rewrite (assigned_contents _ _ _ _ PMicro A W).
      destruct (decide (PMicro = PMicro)); [reflexivity | congruence]. }
    pose proof (loop_run_quiet _ _ _ _ _ L) as Q12.
    assert (Q02 : quiet s s2 (EvPhase PhWave :: d)).
    { change (EvPhase PhWave :: d) with ([EvPhase PhWave] ++ ([] ++ d)).
      eapply quiet_trans; [apply quiet_log|].
      eapply quiet_trans; [apply quiet_detach_microtasks | exact Q12]. }
    destruct (IH s2 W2 H) as (ws & Ht & Hc & Hw & Hn & Q).
    exists (d :: ws).
    split.
    { rewrite Ht, (q_trace _ _ _ Q02). unfold wave_events. simpl.
      rewrite <- app_assoc. reflexivity. }
    split.
    { simpl. split.
      - intros Hnil. apply Nat.ltb_lt in Hlen.
        change (contents (world s) PMicro)
          with (array_at (world s) (_microtasks (sched (world s)))) in Hnil.
        rewrite Hnil in Hlen. simpl in Hlen. lia.
      - split; [|rewrite <- C2; exact Hc].
        rewrite ran_run_keys, K, map_snd_keys.
        change (world s1) with (detach_microtasks (world s0)).
        rewrite (assigned_array_at _ _ _ _ _ A). reflexivity. }
    split.
    { constructor.
      - pose proof (lr_loop _ _ _ _ _ L) as Hl. pose proof (q_snap _ _ _ Q12) as Hs.
        apply Forall_forall. intros e He.
        rewrite Forall_forall in Hl, Hs. specialize (Hl e He). specialize (Hs e He).
        destruct e as [p|k a' i t w|c]; simpl in *; auto.
        destruct Hl as [-> _]. destruct Hs as (Hclk & _). split; [reflexivity|].
        rewrite Hclk. reflexivity.
      - rewrite <- (q_clock _ _ _ Q02). exact Hw. }
    split; [exact Hn|].
    change (wave_events (d :: ws)) with ((EvPhase PhWave :: d) ++ wave_events ws).
    eapply quiet_trans; eauto.
  - intros [= <-]. exists []. apply Nat.ltb_ge in Hlen.
    assert (Hnil : contents (world s) PMicro = []).
    { unfold contents. simpl. apply nil_length_inv. lia. }
    split; [symmetry; apply app_nil_r|].
    split; [exact Hnil|]. split; [constructor|]. split; [exact Hnil|].
    apply quiet_refl.
Qed.

(** C2: a microtask flush that returns has run wave after wave: the first
    wave ran the queue it found, in arrival order, every later wave ran
    exactly the microtasks scheduled during the wave before it, and the last
    wave scheduled none, so the queue is empty.  A microtask scheduled during
    wave N therefore ran in wave N+1.  Every task of every wave ran at the
    clock value the flush began with; the clock is incremented once at the
    end, and MICROTASK_PENDING is clear. *)
Theorem microtask_fixpoint_waves (fuel : nat) (s s' : State) :
  wf (world s) ->
  _microtaskScheduler behaviour fuel s = Done s' ->
  exists ws,
    trace s' = trace s ++ wave_events ws /\
    wave_chain (contents (world s) PMicro) ws /\
    Forall (Forall (wave_event (clock (sched (world s))))) ws /\
    (forall n w t, ws !! n = Some w -> t ∈ pushes PMicro (apis_of w) ->
                   exists w', ws !! S n = Some w' /\ t ∈ ran w') /\
    contents (world s') PMicro = [] /\
    clock (sched (world s')) = js_incr (clock (sched (world s))) /\
    pending Microtask (world s') = false.
Proof.
  intros W. unfold _microtaskScheduler.
  set (s0 := on_world (set_sched_flag SchedulerFlags.RUNNING) s).
  assert (I0 : inert (world s) (world s0)) by apply inert_set_sched_flag.
  assert (W0 : wf (world s0)) by (eapply inert_wf; eauto).
  destruct (micro_waves _ _ _ s0) as [s1|s1|] eqn:E; simpl; [|discriminate..].
  intros [= <-].
  destruct (micro_waves_spec fuel s0 s1 W0 E) as (ws & Ht & Hc & Hw & Hn & Q).
  exists ws. cbn [on_world world trace].
  set (fin := fun w => clear_sched_flag
                        (Z.lor SchedulerFlags.MICROTASK_PENDING SchedulerFlags.RUNNING)
                        (tick w)).
  assert (Ifin : inert (world s1) (fin (world s1))).
  { subst fin. simpl. eapply inert_trans;
      [apply inert_tick | apply inert_clear_sched_flag]. }
  split; [exact Ht|].
  split; [rewrite <- (inert_contents _ _ _ I0); exact Hc|].
  split; [exact Hw|].
  split; [intros n w t; eapply wave_chain_next; eauto|].
  split; [rewrite (inert_contents _ _ _ Ifin); exact Hn|].
  split.
  { transitivity (js_incr (clock (sched (world s1)))); [reflexivity|].
    rewrite (q_clock _ _ _ Q). reflexivity. }
  unfold pending. subst fin. simpl.
  apply flag_test_clear_in. reflexivity.
Qed.

End Waves.

(** ** The write/read alternation of the frame flush *)

(** One pass of the [do ... while]: a write phase and a read phase. *)
Record round := mk_round {
  r_write : list event;
  r_read : list event
}.

Definition round_events (r : round) : list event :=
  EvPhase PhWrite :: r_write r ++ EvPhase PhRead :: r_read r.

Definition rounds_events (rs : list round) : list event :=
  concat (map round_events rs).

(** Events of a write phase, of a read phase and of the after phase: task
    runs from the loops of that phase, and the API calls of those tasks. *)
Definition write_event (e : event) : Prop :=
  match e with
  | EvRun (InPrio _) _ _ _ _ => True
  | EvRun InWrite _ _ _ _ => True
  | EvApi _ => True
  | _ => False
  end.

Definition read_event (e : event) : Prop :=
  match e with
  | EvRun InRead _ _ _ _ => True
  | EvApi _ => True
  | _ => False
  end.

Definition after_event (e : event) : Prop :=
  match e with
  | EvRun InAfter _ _ _ _ => True
  | EvApi _ => True
  | _ => False
  end.

(** Some API call logged in [d] puts a write task, plain or prioritised,
    into frame [f]. *)
Definition schedules_write (f : fid) (d : list event) : bool :=
  existsb (fun c => flag_test (frame_bit c f) FrameFlags.WRITE_ANY) (apis_of d).

(** A round is followed by another exactly when its read phase scheduled a
    write into the frame. *)
Fixpoint rounds_chain (f : fid) (rs : list round) : Prop :=
  match rs with
  | [] => True
  | r :: rest =>
      (rest <> [] <-> schedules_write f (r_read r) = true) /\ rounds_chain f rest
  end.


Definition frame_flag (w : World) (f : fid) (c : Z) : bool :=
  flag_test (frame_flags (frame_of w f)) c.

Lemma frame_flag_clear (f : fid) (c d : Z) (w : World) :
  frame_flag (clear_frame_flag f c w) f d = flag_test (flag_clear (frame_flags (frame_of w f)) c) d.
Proof. unfold frame_flag, clear_frame_flag. rewrite frame_of_with_frame_eq. reflexivity. Qed.

Lemma frame_flag_null_readTasks (f : fid) (c : Z) (w : World) :
  frame_flag (null_readTasks f w) f c = frame_flag w f c.
Proof. unfold frame_flag, null_readTasks. rewrite frame_of_with_frame_eq. reflexivity. Qed.




(** A stretch of one phase: the events logged and what they are. *)
Definition phase_run (P : event -> Prop) (s s' : State) (d : list event) : Prop :=
  trace s' = trace s ++ d /\ Forall P d.

(** However the computation ends, what it logs are [P] events. *)
Definition traces (P : event -> Prop) (s : State) (r : outcome) : Prop :=
  forall s', final r = Some s' -> exists d, phase_run P s s' d.

Lemma phase_run_nil (P : event -> Prop) (s : State) : phase_run P s s [].
Proof. split; [symmetry; apply app_nil_r | constructor]. Qed.

Lemma phase_run_app (P : event -> Prop) (s1 s2 s3 : State) (d1 d2 : list event) :
  phase_run P s1 s2 d1 -> phase_run P s2 s3 d2 -> phase_run P s1 s3 (d1 ++ d2).
Proof.
  intros [T1 F1] [T2 F2]. split.
  - rewrite T2, T1. symmetry. apply app_assoc.
  - apply Forall_app. auto.
Qed.

Lemma phase_run_weaken (P Q : event -> Prop) (s s' : State) (d : list event) :
  (forall e, P e -> Q e) -> phase_run P s s' d -> phase_run Q s s' d.
Proof. intros H [T F]. split; [exact T | eapply Forall_impl; eauto]. Qed.

Lemma traces_done (P : event -> Prop) (s : State) : traces P s (Done s).
Proof. intros s' [= <-]. exists []. apply phase_run_nil. Qed.

Lemma traces_raised (P : event -> Prop) (s : State) : traces P s (Raised s).
Proof. intros s' [= <-]. exists []. apply phase_run_nil. Qed.

Lemma traces_bind (P : event -> Prop) (s : State) (m : outcome) (k : State -> outcome) :
  traces P s m -> (forall s1, m = Done s1 -> traces P s1 (k s1)) ->
  traces P s (obind m k).
Proof.
  intros Hm Hk s' Hf. destruct m as [s1|s1|]; simpl in Hf.
  - destruct (Hm s1 eq_refl) as [d1 P1]. destruct (Hk s1 eq_refl s' Hf) as [d2 P2].
    exists (d1 ++ d2). eapply phase_run_app; eauto.
  - apply Hm. exact Hf.
  - discriminate.
Qed.

Lemma traces_after (P : event -> Prop) (s s1 : State) (d : list event) (r : outcome) :
  phase_run P s s1 d -> traces P s1 r -> traces P s r.
Proof.
  intros P1 H s' Hf. destruct (H s' Hf) as [d2 P2].
  exists (d ++ d2). eapply phase_run_app; eauto.
Qed.

Lemma traces_weaken (P Q : event -> Prop) (s : State) (r : outcome) :
  (forall e, P e -> Q e) -> traces P s r -> traces Q s r.
Proof.
  intros H Hr s' Hf. destruct (Hr s' Hf) as [d Pd]. exists d.
  eapply phase_run_weaken; eauto.
Qed.

(** A step of the flush routine that logs nothing. *)
Lemma phase_run_on_world (P : event -> Prop) (g : World -> World) (s : State) :
  phase_run P s (on_world g s) [].
Proof. split; [symmetry; apply app_nil_r | constructor]. Qed.


Section Alternation.

Variable behaviour : task -> State -> list action.

Lemma for_each_traces (fuel : nat) (k : slot)
    (run : loc -> nat -> task -> State -> outcome) (a : loc) (i : nat) (s : State) :
  runner behaviour k run -> traces (in_loop k a) s (for_each fuel run a i s).
Proof.
  intros R s' Hf. pose proof (for_each_spec behaviour fuel k run a i s R) as H.
  destruct (for_each fuel run a i s) as [s1|s1|]; simpl in Hf; [| |discriminate];
    injection Hf as <-.
  - destruct H as (d & L & _). exists d.
    split; [apply (lr_trace _ _ _ _ _ L) | apply (lr_loop _ _ _ _ _ L)].
  - destruct H as (d & n & L & _). exists d.
    split; [apply (lr_trace _ _ _ _ _ L) | apply (lr_loop _ _ _ _ _ L)].
Qed.

Lemma in_loop_write (k : slot) (a : loc) :
  (k = InWrite \/ exists i, k = InPrio i) ->
  forall e, in_loop k a e -> write_event e.
Proof.
  intros Hk e. destruct e as [p|k' a' i t w|c]; simpl; auto.
  intros [-> _]. destruct Hk as [->|[j ->]]; exact I.
Qed.

Lemma in_loop_read (a : loc) (e : event) : in_loop InRead a e -> read_event e.
Proof. destruct e as [p|k' a' i t w|c]; simpl; auto. intros [-> _]. exact I. Qed.

Lemma in_loop_after (a : loc) (e : event) : in_loop InAfter a e -> after_event e.
Proof. destruct e as [p|k' a' i t w|c]; simpl; auto. intros [-> _]. exact I. Qed.

Lemma prio_groups_traces (fuel : nat) (f : fid) (i : nat) (s : State) :
  traces write_event s (prio_groups behaviour fuel f i s).
Proof.
  revert i s. induction fuel as [|fuel IH]; intros i s; [intros s' [=]|].
  cbn [prio_groups]. destruct (_ !! i) as [[group|]|]; [| apply IH | apply traces_done].
  eapply traces_after; [apply phase_run_on_world|].
  apply traces_bind; [|intros s1 _; apply IH].
  eapply traces_weaken; [|eapply for_each_traces, runner_dispatch].
  apply in_loop_write. right. eauto.
Qed.

Lemma write_prio_traces (fuel : nat) (f : fid) (s : State) :
  traces write_event s (write_prio behaviour fuel f s).
Proof.
  unfold write_prio. destruct (flag_test _ _); [|apply traces_done].
  eapply traces_after; [apply phase_run_on_world | apply prio_groups_traces].
Qed.

Lemma write_plain_traces (fuel : nat) (f : fid) (s : State) :
  traces write_event s (write_plain behaviour fuel f s).
Proof.
  unfold write_plain. destruct (flag_test _ _); [|apply traces_done].
  eapply traces_after; [apply phase_run_on_world|].
  destruct (writeTasks _); [|apply traces_raised].
  eapply traces_weaken; [|eapply for_each_traces, runner_dispatch].
  apply in_loop_write. left. reflexivity.
Qed.

Lemma write_while_traces (fuel : nat) (f : fid) (s : State) :
  traces write_event s (write_while behaviour fuel f s).
Proof.
  revert s. induction fuel as [|fuel IH]; intros s; [intros s' [=]|].
  cbn [write_while]. destruct (flag_test _ _); [|apply traces_done].
  apply traces_bind; [apply write_prio_traces|]. intros s1 _.
  apply traces_bind; [apply write_plain_traces|]. intros s2 _. apply IH.
Qed.

Lemma read_while_traces (fuel : nat) (f : fid) (s : State) :
  traces read_event s (read_while behaviour fuel f s).
Proof.
  revert s. induction fuel as [|fuel IH]; intros s; [intros s' [=]|].
  cbn [read_while]. destruct (flag_test _ _); [|apply traces_done].
  eapply traces_after; [apply phase_run_on_world|].
  eapply traces_after; [apply phase_run_on_world|].
  destruct (readTasks _); [|apply traces_raised].
  apply traces_bind; [|intros s1 _; apply IH].
  eapply traces_weaken; [|eapply for_each_traces, runner_call].
  apply in_loop_read.
Qed.

Lemma after_while_traces (fuel : nat) (f : fid) (s : State) :
  traces after_event s (after_while behaviour fuel f s).
Proof.
  revert s. induction fuel as [|fuel IH]; intros s; [intros s' [=]|].
  cbn [after_while]. destruct (flag_test _ _); [|apply traces_done].
  eapply traces_after; [apply phase_run_on_world|].
  destruct (afterTasks _); [|apply traces_raised].
  apply traces_bind; [|intros s1 _; apply IH].
  eapply traces_weaken; [|eapply for_each_traces, runner_call].
  apply in_loop_after.
Qed.


(** The write loop ends with no write flag set. *)
Lemma write_while_done (fuel : nat) (f : fid) (s s' : State) :
  write_while behaviour fuel f s = Done s' ->
  frame_flag (world s') f FrameFlags.WRITE_ANY = false.
Proof.
  revert s. induction fuel as [|fuel IH]; intros s; [discriminate|].
  cbn [write_while]. destruct (flag_test _ _) eqn:Hf; [|intros [= <-]; exact Hf].
  destruct (write_prio _ _ _ _) as [s1|s1|]; simpl; [|discriminate..].
  destruct (write_plain _ _ _ _) as [s2|s2|]; simpl; [|discriminate..].
  apply IH.
Qed.

(** The read loop ends with READ clear, and with a write flag set exactly
    when one was set before or a task of the loop scheduled a write. *)
Lemma read_while_spec (fuel : nat) (f : fid) (s s' : State) :
  read_while behaviour fuel f s = Done s' ->
  frame_flag (world s') f FrameFlags.READ = false /\
  exists d, phase_run read_event s s' d /\
    frame_flag (world s') f FrameFlags.WRITE_ANY =
    frame_flag (world s) f FrameFlags.WRITE_ANY || schedules_write f d.
Proof.
  revert s. induction fuel as [|fuel IH]; intros s; simpl; [discriminate|].
  destruct (flag_test _ _) eqn:Hf.
  - set (s1 := on_world (clear_frame_flag f FrameFlags.READ) s).
    set (s2 := on_world (null_readTasks f) s1).
    destruct (readTasks _) as [g|]; [|discriminate].
    pose proof (for_each_spec behaviour fuel InRead (call behaviour InRead)
                  g 0 s2 (runner_call behaviour InRead)) as H.
    destruct (for_each _ _ _ _ _) as [s3|s3|]; simpl; [|discriminate..].
    destruct H as (d1 & L & _). intros H3.
    destruct (IH _ H3) as (Hflag & d2 & P2 & Hw).
    split; [exact Hflag|].
    exists (d1 ++ d2). split.
    + eapply phase_run_app; [|exact P2].
      split; [apply (lr_trace _ _ _ _ _ L)|].
      eapply Forall_impl; [apply (lr_loop _ _ _ _ _ L) | apply in_loop_read].
    + rewrite Hw. unfold frame_flag at 1. rewrite (lr_world _ _ _ _ _ L).
      rewrite apply_apis_frame_flags.
      unfold schedules_write. rewrite apis_of_app, existsb_app, orb_assoc.
      f_equal. f_equal.
      change (flag_test (frame_flags (frame_of (world s2) f)) FrameFlags.WRITE_ANY)
        with (frame_flag (null_readTasks f (clear_frame_flag f FrameFlags.READ (world s)))
                f FrameFlags.WRITE_ANY).
      rewrite frame_flag_null_readTasks, frame_flag_clear.
      apply flag_test_clear_other. reflexivity.
  - intros [= <-]. split; [exact Hf|]. exists []. split; [apply phase_run_nil|].
    unfold schedules_write. simpl. rewrite orb_false_r. reflexivity.
Qed.

End Alternation.

(** ** The priority-write phase *)

(** The run of one group: its rank, the array that was detached from the
    slot, and the events logged while its tasks ran. *)
Record block := mk_block {
  b_rank : nat;
  b_group : loc;
  b_events : list event
}.

Definition blocks_events (bs : list block) : list event :=
  concat (map b_events bs).

(** When the task of a run event was invoked, no field referred to [a]. *)
Definition detached_in (a : loc) (e : event) : Prop :=
  match e with
  | EvRun _ _ _ _ w => detached w a
  | _ => True
  end.

(** The block ran, from the priority loop at its rank, every task of its
    group in index order, the group being detached all the while; [w'] is
    the world at the end of the phase. *)
Definition block_ok (w' : World) (b : block) : Prop :=
  Forall (in_loop (InPrio (b_rank b)) (b_group b)) (b_events b) /\
  run_keys (b_events b) =
    keys (InPrio (b_rank b)) (b_group b) 0 (array_at w' (b_group b)) /\
  Forall (detached_in (b_group b)) (b_events b) /\
  detached w' (b_group b).

Lemma block_ok_extends (w w' : World) (b : block) :
  extends w w' -> block_ok w b -> block_ok w' b.
Proof.
  intros E (Hl & Hk & Hd & D). split; [exact Hl|]. split; [|split].
  - rewrite (ext_detached _ _ E _ D). exact Hk.
  - exact Hd.
  - eapply detached_extends; eauto.
Qed.

(** The same for a block whose run a raising task cut short: it ran the
    first [n] tasks of its group. *)
Definition block_part (w' : World) (b : block) : Prop :=
  Forall (in_loop (InPrio (b_rank b)) (b_group b)) (b_events b) /\
  (exists n, run_keys (b_events b) =
             keys (InPrio (b_rank b)) (b_group b) 0 (take n (array_at w' (b_group b)))) /\
  Forall (detached_in (b_group b)) (b_events b) /\
  detached w' (b_group b).

Lemma block_ok_part (w' : World) (b : block) : block_ok w' b -> block_part w' b.
Proof.
  intros (Hl & Hk & Hd & D). split; [exact Hl|]. split; [|split; assumption].
  exists (length (array_at w' (b_group b))). rewrite firstn_all. exact Hk.
Qed.

Lemma block_part_extends (w w' : World) (b : block) :
  extends w w' -> block_part w b -> block_part w' b.
Proof.
  intros E (Hl & [n Hk] & Hd & D). split; [exact Hl|]. split; [|split].
  - exists n. rewrite (ext_detached _ _ E _ D). exact Hk.
  - exact Hd.
  - eapply detached_extends; eauto.
Qed.

Lemma loc_at_group (w : World) (f : fid) (r : nat) (a : loc) :
  loc_at w (PGroup f r) = Some a <-> writeTaskGroups (frame_of w f) !! r = Some (Some a).
Proof.
  simpl. destruct (_ !! r) as [[b|]|]; simpl; split; intros H; congruence.
Qed.

Section Priority.

Variable behaviour : task -> State -> list action.

Lemma prio_groups_raised (fuel : nat) (f : fid) (i : nat) (s s' : State) :
  wf (world s) ->
  prio_groups behaviour fuel f i s = Raised s' ->
  exists bs,
    trace s' = trace s ++ blocks_events bs /\
    Forall (fun b => (i <= b_rank b)%nat) bs /\
    StronglySorted lt (map b_rank bs) /\
    Forall (block_part (world s')) bs.
Proof.
  revert i s. induction fuel as [|fuel IH]; intros i s W; [discriminate|].
  cbn [prio_groups].
  destruct (writeTaskGroups (frame_of (world s) f) !! i) as [[g|]|] eqn:Hg;
    [| |discriminate].
  - set (s1 := on_world (null_group f i) s).
    pose proof (null_group_assigned f i (world s)) as A.
    assert (Hloc : loc_at (world s) (PGroup f i) = Some g) by (apply loc_at_group, Hg).
    assert (W1 : wf (world s1)) by (eapply assigned_wf; eauto).
    assert (D1 : detached (world s1) g) by (eapply assigned_detaches; eauto).
    assert (Hsnap : forall s2 d, loop_run (InPrio i) g s1 s2 d ->
                                 Forall (detached_in g) d).
    { intros s2 d L. eapply Forall_impl;
        [apply (snapshots_invariant (fun w => detached w g) (world s1) d)|].
      - intros c w0 H0. eapply detached_extends; [apply api_effect_extends | exact H0].
      - exact D1.
      - apply (lr_snap _ _ _ _ _ L).
      - intros [p|k a j t w|c]; simpl; auto. }
    pose proof (for_each_spec behaviour fuel (InPrio i) (dispatch behaviour (InPrio i))
                  g 0 s1 (runner_dispatch behaviour (InPrio i))) as Hfe.
    destruct (for_each fuel _ g 0 s1) as [s2|s2|] eqn:E; simpl; [| |discriminate].
    + intros H. destruct Hfe as (d & L & K).
      assert (W2 : wf (world s2)) by (eapply loop_run_wf; eauto).
      pose proof (loop_run_extends _ _ _ _ _ L) as E12.
      assert (E2' : extends (world s2) (world s')).
      { destruct (prio_groups_quietly behaviour fuel f (S i) s2 s') as [d' Q];
          [rewrite H; reflexivity | apply (q_extends _ _ _ Q)]. }
      destruct (IH (S i) s2 W2 H) as (bs & Ht & Hge & Hsort & Hok).
      exists (mk_block i g d :: bs).
      split.
      { rewrite Ht, (lr_trace _ _ _ _ _ L). unfold blocks_events. simpl.
        rewrite <- app_assoc. reflexivity. }
      split.
      { constructor; [simpl; lia|]. eapply Forall_impl; [exact Hge|].
        simpl. intros b Hb. lia. }
      split.
      { simpl. constructor; [exact Hsort|]. apply Forall_map.
        eapply Forall_impl; [exact Hge|]. simpl. intros b Hb. lia. }
      constructor; [|exact Hok].
      apply (block_part_extends (world s2)); [exact E2'|].
      apply block_ok_part.
      split; [apply (lr_loop _ _ _ _ _ L)|]. split; [|split].
      * simpl. rewrite drop_0 in K. exact K.
      * simpl. eauto.
      * eapply detached_extends; eauto.
    + intros [= <-]. destruct Hfe as (d & n & L & K).
      exists [mk_block i g d].
      split.
      { rewrite (lr_trace _ _ _ _ _ L). unfold blocks_events. simpl.
        rewrite app_nil_r. reflexivity. }
      split; [constructor; [simpl; lia | constructor]|].
      split; [simpl; repeat constructor|].
      constructor; [|constructor].
      split; [apply (lr_loop _ _ _ _ _ L)|]. split; [|split].
      * exists n. simpl. rewrite drop_0 in K. exact K.
      * simpl. eauto.
      * eapply detached_extends; [eapply loop_run_extends; eauto | exact D1].
  - intros H. destruct (IH (S i) s W H) as (bs & Ht & Hge & Hsort & Hok).
    exists bs. split; [exact Ht|].
    split; [eapply Forall_impl; [exact Hge|]; simpl; intros b Hb; lia|].
    split; assumption.
Qed.

End Priority.

(** ** Well-formedness of the reachable worlds *)

Lemma wf_new_Scheduler : wf new_Scheduler.
Proof.
  split.
  - intros p a. destruct p as [| |f|f|f|f r]; try destruct f; simpl;
      rewrite ?lookup_nil; simpl; intros [= <-] || discriminate; lia.
  - intros p q a.
    destruct p as [| |f|f|f|f r]; try destruct f; simpl; rewrite ?lookup_nil; simpl;
      try discriminate;
      destruct q as [| |g|g|g|g r']; try destruct g; simpl; rewrite ?lookup_nil; simpl;
      try discriminate; congruence.
Qed.

Lemma inert_frame_begin (w : World) : inert w (frame_begin w).
Proof.
  unfold frame_begin.
  eapply inert_trans; [apply inert_clear_sched_flag|].
  eapply inert_trans; [apply inert_set_sched_flag|].
  apply inert_with_frames.
Qed.

Lemma inert_flush_begin (dm : domain) (w : World) : inert w (flush_begin dm w).
Proof.
  destruct dm; simpl.
  - apply inert_set_sched_flag.
  - eapply inert_trans; [apply inert_clear_sched_flag | apply inert_set_sched_flag].
  - apply inert_frame_begin.
Qed.

Lemma inert_flush_end (dm : domain) (w : World) : inert w (flush_end dm w).
Proof.
  destruct dm; simpl;
    (eapply inert_trans; [apply inert_tick | apply inert_clear_sched_flag]).
Qed.

Lemma wf_do_action (a : action) (s : State) :
  wf (world s) -> wf (world (do_action a s)).
Proof.
  intros W. destruct (do_action_spec a s) as [cs ->]. simpl.
  apply apply_apis_wf, W.
Qed.

Section Reachable.

Variable behaviour : task -> State -> list action.

Lemma wf_step (s s' : State) :
  step behaviour s s' -> wf (world s) -> wf (world s').
Proof.
  intros [a s0|dm fuel s0 s1 Hf] W.
  - apply wf_do_action, W.
  - pose proof (flush_cases behaviour dm fuel s0) as Hc.
    assert (W0 : wf (world (on_world (flush_begin dm) s0)))
      by (simpl; eapply inert_wf; [apply inert_flush_begin | exact W]).
    destruct (flush behaviour dm fuel s0) as [s2|s2|]; simpl in Hf;
      [| |discriminate]; injection Hf as <-.
    + destruct Hc as (s3 & d & Q & ->). simpl.
      eapply inert_wf; [apply inert_flush_end|]. apply (q_wf _ _ _ Q), W0.
    + destruct Hc as (d & Q). apply (q_wf _ _ _ Q), W0.
Qed.

(** Every reachable world is well formed. *)
Lemma wf_reachable (s : State) : reachable behaviour s -> wf (world s).
Proof.
  induction 1 as [|s s' _ IH Hstep]; [apply wf_new_Scheduler|].
  eapply wf_step; eauto.
Qed.

(** *** The two loops that iterate a live array *)

(** The array whose element the run event ran is, at that moment, the one
    field [p] refers to. *)
Definition live_in (p : path) (e : event) : Prop :=
  match e with
  | EvRun _ a _ _ w => loc_at w p = Some a
  | _ => True
  end.

Lemma loop_run_live_in (k : slot) (a : loc) (p : path) (s s' : State) (d : list event) :
  loop_run k a s s' d -> loc_at (world s) p = Some a -> Forall (live_in p) d.
Proof.
  intros L Hp.
  pose proof (snapshots_invariant (fun w => loc_at w p = Some a) (world s) d
                (fun c w0 H0 => api_effect_persist c w0 p a H0) Hp
                (lr_snap _ _ _ _ _ L)) as Hs.
  pose proof (lr_loop _ _ _ _ _ L) as Hl.
  rewrite Forall_forall in Hs, Hl. apply Forall_forall. intros e He.
  specialize (Hs e He). specialize (Hl e He).
  destruct e as [ph|k' a' i t w|c]; simpl in *; auto.
  destruct Hl as [_ ->]. exact Hs.
Qed.

(** The plain-write loop does not detach [frame.writeTasks]: every task it
    runs is run while the array being iterated is still the one the field
    refers to, so a write task that schedules a plain write into the same
    frame appends to the array under iteration. *)
Lemma write_plain_iterates_live_array (fuel : nat) (f : fid) (s s' : State) :
  final (write_plain behaviour fuel f s) = Some s' ->
  exists d, trace s' = trace s ++ d /\ Forall (live_in (PWrite f)) d.
Proof.
  unfold write_plain. destruct (flag_test _ _).
  - set (s1 := on_world (clear_frame_flag f FrameFlags.WRITE) s).
    destruct (writeTasks (frame_of (world s1) f)) as [g|] eqn:Hg.
    + pose proof (for_each_spec behaviour fuel InWrite (dispatch behaviour InWrite)
                    g 0 s1 (runner_dispatch behaviour InWrite)) as H.
      destruct (for_each _ _ _ _ _) as [s2|s2|]; simpl; [| |discriminate];
        intros [= <-].
      * destruct H as (d & L & _). exists d.
        split; [apply (lr_trace _ _ _ _ _ L)|].
        eapply loop_run_live_in; eauto.
      * destruct H as (d & n & L & _). exists d.
        split; [apply (lr_trace _ _ _ _ _ L)|].
        eapply loop_run_live_in; eauto.
    + simpl. intros [= <-]. exists []. split; [symmetry; apply app_nil_r | constructor].
  - simpl. intros [= <-]. exists []. split; [symmetry; apply app_nil_r | constructor].
Qed.

(** Nor does the after loop detach [frame.afterTasks]. *)
Lemma after_while_iterates_live_array (fuel : nat) (f : fid) (s s' : State) :
  final (after_while behaviour fuel f s) = Some s' ->
  exists d, trace s' = trace s ++ d /\ Forall (live_in (PAfter f)) d.
Proof.
  revert s. induction fuel as [|fuel IH]; intros s; [discriminate|].
  cbn [after_while]. destruct (flag_test _ _).
  - set (s1 := on_world (clear_frame_flag f FrameFlags.AFTER) s).
    destruct (afterTasks (frame_of (world s1) f)) as [g|] eqn:Hg.
    + pose proof (for_each_spec behaviour fuel InAfter (call behaviour InAfter)
                    g 0 s1 (runner_call behaviour InAfter)) as H.
      destruct (for_each _ _ _ _ _) as [s2|s2|]; simpl; [| |discriminate].
      * destruct H as (d & L & _). intros H2.
        destruct (IH _ H2) as (d2 & T2 & F2).
        exists (d ++ d2). split.
        -- rewrite T2, (lr_trace _ _ _ _ _ L). symmetry. apply app_assoc.
        -- apply Forall_app. split; [eapply loop_run_live_in; eauto | exact F2].
      * destruct H as (d & n & L & _). intros [= <-]. exists d.
        split; [apply (lr_trace _ _ _ _ _ L)|].
        eapply loop_run_live_in; eauto.
    + simpl. intros [= <-]. exists []. split; [symmetry; apply app_nil_r | constructor].
  - simpl. intros [= <-]. exists []. split; [symmetry; apply app_nil_r | constructor].
Qed.

End Reachable.

(** ** Fuel

    The loops of the flush routines need not end (a task may reschedule
    itself for ever), so their model counts steps.  The count does not
    matter: a flush that has ended with some fuel ends in the same state
    with any more. *)

Lemma obind_fuel (m : outcome) (k : State -> outcome) :
  obind m k <> OutOfFuel -> m <> OutOfFuel.
Proof. destruct m; simpl; congruence. Qed.

Lemma obind_ext (m m' : outcome) (k k' : State -> outcome) :
  m' = m -> (forall s, m = Done s -> k s <> OutOfFuel -> k' s = k s) ->
  obind m k <> OutOfFuel -> obind m' k' = obind m k.
Proof. intros -> Hk H. destruct m; simpl in *; auto. Qed.

Section Fuel.

Variable behaviour : task -> State -> list action.

Lemma for_each_fuel (fuel fuel' : nat) (run : loc -> nat -> task -> State -> outcome)
    (a : loc) (i : nat) (s : State) :
  (fuel <= fuel')%nat -> for_each fuel run a i s <> OutOfFuel ->
  for_each fuel' run a i s = for_each fuel run a i s.
Proof.
  revert fuel' i s. induction fuel as [|fuel IH]; intros fuel' i s Hle H;
    [simpl in H; congruence|].
  destruct fuel' as [|fuel']; [lia|]. simpl in *.
  destruct (array_at (world s) a !! i); [|reflexivity].
  apply obind_ext; [reflexivity | | exact H].
  intros s1 _ H1. apply IH; [lia | exact H1].
Qed.

Lemma micro_waves_fuel (fuel fuel' : nat) (tasks : loc) (s : State) :
  (fuel <= fuel')%nat -> micro_waves behaviour fuel tasks s <> OutOfFuel ->
  micro_waves behaviour fuel' tasks s = micro_waves behaviour fuel tasks s.
Proof.
  revert fuel' tasks s. induction fuel as [|fuel IH]; intros fuel' tasks s Hle H;
    [simpl in H; congruence|].
  destruct fuel' as [|fuel']; [lia|]. simpl in *.
  destruct (0 <? _)%nat; [|reflexivity].
  apply obind_ext; [| | exact H].
  - apply for_each_fuel; [lia | eapply obind_fuel; exact H].
  - intros s1 _ H1. apply IH; [lia | exact H1].
Qed.

Lemma prio_groups_fuel (fuel fuel' : nat) (f : fid) (i : nat) (s : State) :
  (fuel <= fuel')%nat -> prio_groups behaviour fuel f i s <> OutOfFuel ->
  prio_groups behaviour fuel' f i s = prio_groups behaviour fuel f i s.
Proof.
  revert fuel' i s. induction fuel as [|fuel IH]; intros fuel' i s Hle H;
    [simpl in H; congruence|].
  destruct fuel' as [|fuel']; [lia|]. simpl in *.
  destruct (_ !! i) as [[g|]|]; [| apply IH; [lia | exact H] | reflexivity].
  apply obind_ext; [| | exact H].
  - apply for_each_fuel; [lia | eapply obind_fuel; exact H].
  - intros s1 _ H1. apply IH; [lia | exact H1].
Qed.

Lemma write_prio_fuel (fuel fuel' : nat) (f : fid) (s : State) :
  (fuel <= fuel')%nat -> write_prio behaviour fuel f s <> OutOfFuel ->
  write_prio behaviour fuel' f s = write_prio behaviour fuel f s.
Proof.
  unfold write_prio. intros Hle H. destruct (flag_test _ _); [|reflexivity].
  apply prio_groups_fuel; assumption.
Qed.

Lemma write_plain_fuel (fuel fuel' : nat) (f : fid) (s : State) :
  (fuel <= fuel')%nat -> write_plain behaviour fuel f s <> OutOfFuel ->
  write_plain behaviour fuel' f s = write_plain behaviour fuel f s.
Proof.
  unfold write_plain. intros Hle H. destruct (flag_test _ _); [|reflexivity].
  destruct (writeTasks _); [|reflexivity].
  apply for_each_fuel; assumption.
Qed.

Lemma write_while_fuel (fuel fuel' : nat) (f : fid) (s : State) :
  (fuel <= fuel')%nat -> write_while behaviour fuel f s <> OutOfFuel ->
  write_while behaviour fuel' f s = write_while behaviour fuel f s.
Proof.
  revert fuel' s. induction fuel as [|fuel IH]; intros fuel' s Hle H;
    [simpl in H; congruence|].
  destruct fuel' as [|fuel']; [lia|]. cbn [write_while] in *.
  destruct (flag_test _ _); [|reflexivity].
  apply obind_ext; [| | exact H].
  - apply write_prio_fuel; [lia | eapply obind_fuel; exact H].
  - intros s1 _ H1. apply obind_ext; [| | exact H1].
    + apply write_plain_fuel; [lia | eapply obind_fuel; exact H1].
    + intros s2 _ H2. apply IH; [lia | exact H2].
Qed.

Lemma read_while_fuel (fuel fuel' : nat) (f : fid) (s : State) :
  (fuel <= fuel')%nat -> read_while behaviour fuel f s <> OutOfFuel ->
  read_while behaviour fuel' f s = read_while behaviour fuel f s.
Proof.
  revert fuel' s. induction fuel as [|fuel IH]; intros fuel' s Hle H;
    [simpl in H; congruence|].
  destruct fuel' as [|fuel']; [lia|]. cbn [read_while] in *.
  destruct (flag_test _ _); [|reflexivity].
  destruct (readTasks _); [|reflexivity].
  apply obind_ext; [| | exact H].
  - apply for_each_fuel; [lia | eapply obind_fuel; exact H].
  - intros s1 _ H1. apply IH; [lia | exact H1].
Qed.

Lemma alternation_fuel (fuel fuel' : nat) (f : fid) (s : State) :
  (fuel <= fuel')%nat -> alternation behaviour fuel f s <> OutOfFuel ->
  alternation behaviour fuel' f s = alternation behaviour fuel f s.
Proof.
  revert fuel' s. induction fuel as [|fuel IH]; intros fuel' s Hle H;
    [simpl in H; congruence|].
  destruct fuel' as [|fuel']; [lia|]. cbn [alternation] in *.
  apply obind_ext; [| | exact H].
  - apply write_while_fuel; [lia | eapply obind_fuel; exact H].
  - intros s1 _ H1. apply obind_ext; [| | exact H1].
    + apply read_while_fuel; [lia | eapply obind_fuel; exact H1].
    + intros s2 _ H2. destruct (flag_test _ _); [|reflexivity].
      apply IH; [lia | exact H2].
Qed.

Lemma after_while_fuel (fuel fuel' : nat) (f : fid) (s : State) :
  (fuel <= fuel')%nat -> after_while behaviour fuel f s <> OutOfFuel ->
  after_while behaviour fuel' f s = after_while behaviour fuel f s.
Proof.
  revert fuel' s. induction fuel as [|fuel IH]; intros fuel' s Hle H;
    [simpl in H; congruence|].
  destruct fuel' as [|fuel']; [lia|]. cbn [after_while] in *.
  destruct (flag_test _ _); [|reflexivity].
  destruct (afterTasks _); [|reflexivity].
  apply obind_ext; [| | exact H].
  - apply for_each_fuel; [lia | eapply obind_fuel; exact H].
  - intros s1 _ H1. apply IH; [lia | exact H1].
Qed.

(** More fuel does not change how a flush ends. *)
Lemma flush_fuel (dm : domain) (fuel fuel' : nat) (s : State) :
  (fuel <= fuel')%nat -> flush behaviour dm fuel s <> OutOfFuel ->
  flush behaviour dm fuel' s = flush behaviour dm fuel s.
Proof.
  intros Hle. destruct dm; simpl.
  - unfold _microtaskScheduler. intros H.
    apply obind_ext; [| | exact H].
    + apply micro_waves_fuel; [exact Hle | eapply obind_fuel; exact H].
    + reflexivity.
  - unfold _macrotaskScheduler. intros H.
    apply obind_ext; [| | exact H].
    + destruct (0 <? _)%nat; [|reflexivity].
      apply for_each_fuel; [exact Hle|]. apply obind_fuel in H. exact H.
    + reflexivity.
  - unfold _handleAnimationFrame. intros H.
    apply obind_ext; [| | exact H].
    + apply alternation_fuel; [exact Hle | eapply obind_fuel; exact H].
    + intros s1 _ H1. apply obind_ext; [| | exact H1].
      * apply after_while_fuel; [exact Hle | eapply obind_fuel; exact H1].
      * reflexivity.
Qed.

End Fuel.

(** * Worked runs *)

(** The state a flush ends in, or the state it started from when it runs
    out of fuel. *)
Definition end_state (s : State) (r : outcome) : State :=
  match final r with
  | Some s' => s'
  | None => s
  end.

(** ** Microtasks A, B and C *)

(** Task 0 (A) schedules task 2 (C) as a microtask; no other task does
    anything. *)
Definition abc (t : task) (s : State) : list action :=
  match t with
  | Fn 0 => [ScheduleMicrotask (Fn 2)]
  | _ => []
  end.

(** A and B are scheduled, in that order, from outside any flush. *)
Definition abc_start : State :=
  do_action (ScheduleMicrotask (Fn 1)) (do_action (ScheduleMicrotask (Fn 0)) init).

Definition abc_end : State :=
  Eval vm_compute in end_state abc_start (_microtaskScheduler abc 10 abc_start).

Lemma abc_flush : _microtaskScheduler abc 10 abc_start = Done abc_end.
Proof. vm_compute. reflexivity. Qed.

Lemma abc_start_wf : wf (world abc_start).
Proof. apply wf_do_action, wf_do_action, wf_new_Scheduler. Qed.

(** A and B run in the first wave, from the array that was the queue, C in
    the second, from the array that replaced it; then the clock moves. *)
Example abc_runs :
  trace abc_start =
    [EvApi (ApiMicrotask (Fn 0)); EvApi (ApiMicrotask (Fn 1))] /\
  run_keys (trace abc_end) =
    [(InMicro, 0%nat, 0%nat, Fn 0); (InMicro, 0%nat, 1%nat, Fn 1);
     (InMicro, 2%nat, 0%nat, Fn 2)] /\
  ran (drop 2 (trace abc_end)) = [Fn 0; Fn 1; Fn 2] /\
  clock (sched (world abc_start)) = 1 /\
  clock (sched (world abc_end)) = 2.
Proof. vm_compute. repeat split. Qed.

Lemma microtask_fixpoint_waves_witness :
  wf (world abc_start) /\
  _microtaskScheduler abc 10 abc_start = Done abc_end /\
  exists ws,
    trace abc_end = trace abc_start ++ wave_events ws /\
    wave_chain (contents (world abc_start) PMicro) ws /\
    Forall (Forall (wave_event (clock (sched (world abc_start))))) ws /\
    (forall n w t, ws !! n = Some w -> t ∈ pushes PMicro (apis_of w) ->
                   exists w', ws !! S n = Some w' /\ t ∈ ran w') /\
    contents (world abc_end) PMicro = [] /\
    clock (sched (world abc_end)) = js_incr (clock (sched (world abc_start))) /\
    pending Microtask (world abc_end) = false.
Proof.
  split; [exact abc_start_wf|]. split; [exact abc_flush|].
  exact (microtask_fixpoint_waves abc 10 abc_start abc_end abc_start_wf abc_flush).
Defined.

Lemma abc_step : step abc abc_start abc_end.
Proof. apply (step_flush abc Microtask 10). vm_compute. reflexivity. Qed.

Lemma clock_advances_once_per_flush_witness :
  step abc abc_start abc_end /\
  1 <= clock (sched (world abc_start)) <= 2 ^ 53 /\
  clock (sched (world init)) = 1 /\
  (forall s0, reachable abc s0 -> 1 <= clock (sched (world s0)) <= 2 ^ 53) /\
  clock (sched (world abc_start)) <= clock (sched (world abc_end)) <= 2 ^ 53 /\
  forall dm fuel, flush abc dm fuel abc_start = Done abc_end ->
    (clock (sched (world abc_start)) < 2 ^ 53 ->
     clock (sched (world abc_end)) = clock (sched (world abc_start)) + 1) /\
    (clock (sched (world abc_start)) = 2 ^ 53 ->
     clock (sched (world abc_end)) = clock (sched (world abc_start))) /\
    exists d, trace abc_end = trace abc_start ++ d /\
      Forall (fun e => match e with
                       | EvRun _ _ _ _ w =>
                           clock (sched w) = clock (sched (world abc_start))
                       | _ => True
                       end) d.
Proof.
  assert (Hc : 1 <= clock (sched (world abc_start)) <= 2 ^ 53)
    by (vm_compute; split; discriminate).
  split; [exact abc_step|]. split; [exact Hc|].
  exact (clock_advances_once_per_flush abc abc_start abc_end abc_step Hc).
Defined.

Lemma abc_reachable : reachable abc abc_end.
Proof.
  apply (reach_step abc abc_start); [|exact abc_step].
  apply (reach_step abc (do_action (ScheduleMicrotask (Fn 0)) init));
    [|apply step_api].
  apply (reach_step abc init); [apply reach_init | apply step_api].
Qed.

Lemma only_generic_running_bit_witness :
  reachable abc abc_end /\
  (forall c, c ∈ domain_running_bits ->
     flag_test (flags (sched (world abc_end))) c = false) /\
  Forall (fun e => match e with
                   | EvRun _ _ _ _ w =>
                       flag_test (flags (sched w)) SchedulerFlags.RUNNING = true /\
                       forall c, c ∈ domain_running_bits ->
                         flag_test (flags (sched w)) c = false
                   | _ => True
                   end) (trace abc_end).
Proof.
  split; [exact abc_reachable|].
  exact (only_generic_running_bit abc abc_end abc_reachable).
Defined.

(** ** Three calls of [nextFrame()] *)

Lemma nextFrame_registers_once_witness :
  (1 <= 3)%nat /\
  requests Frametask (snd (nextFrame_times 3 new_Scheduler)) =
    (requests Frametask new_Scheduler +
     if pending Frametask new_Scheduler then 0 else 1)%nat /\
  pending Frametask (snd (nextFrame_times 3 new_Scheduler)) = true /\
  fst (nextFrame_times 3 new_Scheduler) =
    replicate 3 (_nextFrame (sched new_Scheduler)).
Proof.
  split; [lia|].
  apply (nextFrame_registers_once 3 new_Scheduler). lia.
Defined.

Example nextFrame_thrice :
  rafRequests (host (snd (nextFrame_times 3 new_Scheduler))) = 1%nat /\
  fst (nextFrame_times 3 new_Scheduler) = [FrameB; FrameB; FrameB].
Proof. vm_compute. split; reflexivity. Qed.

(** ** A macrotask that schedules a macrotask *)

Definition chain (t : task) (s : State) : list action :=
  match t with
  | Fn 0 => [ScheduleMacrotask (Fn 2)]
  | _ => []
  end.

Definition chain_start : State :=
  do_action (ScheduleMacrotask (Fn 1)) (do_action (ScheduleMacrotask (Fn 0)) init).

Definition chain_end : State :=
  Eval vm_compute in end_state chain_start (_macrotaskScheduler chain 10 chain_start).



(** Tasks 0 and 1 run; task 2 waits in the new queue, with a registration
    of its own (the second one made), and runs in the next flush. *)
Example chain_runs :
  _macrotaskScheduler chain 10 chain_start = Done chain_end /\
  ran (trace chain_end) = [Fn 0; Fn 1] /\
  contents (world chain_end) PMacro = [Fn 2] /\
  pending Macrotask (world chain_end) = true /\
  macroTicks (host (world chain_start)) = 1%nat /\
  macroTicks (host (world chain_end)) = 2%nat /\
  ran (trace (end_state chain_end (_macrotaskScheduler chain 10 chain_end)))
    = [Fn 0; Fn 1; Fn 2].
Proof. vm_compute. repeat split. Qed.


(** ** A read task that schedules a write *)

(** Task 0, a read task, schedules task 1 as a plain write into the frame
    being flushed. *)
Definition reader (t : task) (s : State) : list action :=
  match t with
  | Fn 0 => [OnCurrentFrame [FWrite (Fn 1)]]
  | _ => []
  end.

(** The next frame holds read task 0 and after-task 2. *)
Definition reader_start : State :=
  do_action (OnNextFrame [FRead (Fn 0); FAfter (Fn 2)]) init.

Definition reader_end : State :=
  Eval vm_compute in end_state reader_start (_handleAnimationFrame reader 10 reader_start).

(** The events of the flush with the snapshots left out. *)
Definition outline (e : event) : option (slot * task) + phase :=
  match e with
  | EvPhase p => inr p
  | EvRun k _ _ t _ => inl (Some (k, t))
  | EvApi _ => inl None
  end.

(** A first round in which only the read task runs, a second round in which
    the write it scheduled runs, and only then the after-task. *)
Example reader_runs :
  map outline (drop 3 (trace reader_end)) =
    [inr PhWrite; inr PhRead; inl (Some (InRead, Fn 0)); inl None; inl None;
     inr PhWrite; inl (Some (InWrite, Fn 1)); inr PhRead;
     inr PhAfter; inl (Some (InAfter, Fn 2))].
Proof. vm_compute. reflexivity. Qed.

Lemma reader_final :
  final (_handleAnimationFrame reader 10 reader_start) = Some reader_end.
Proof. vm_compute. reflexivity. Qed.

(** ** Groups at rank 0 and rank 2 *)

Definition idle (t : task) (s : State) : list action := [].

(** Rank 2 holds task 1 and rank 0 holds task 0, a component; the group of
    rank 2 was armed first. *)
Definition ranks_start : State :=
  do_action (OnFrame FrameB [FWritePrio (Fn 1) 2; FWritePrio (Comp 0) 0]) init.

Definition ranks_end : State :=
  Eval vm_compute in end_state ranks_start (write_prio idle 10 FrameB ranks_start).

Lemma ranks_start_wf : wf (world ranks_start).
Proof. apply wf_do_action, wf_new_Scheduler. Qed.

Lemma ranks_start_flag : frame_flag (world ranks_start) FrameB FrameFlags.WRITE_PRIO = true.
Proof. reflexivity. Qed.

(** The task of rank 0 runs before the task of rank 2, and both slots are
    null afterwards. *)
Example ranks_runs :
  writeTaskGroups (frame_of (world ranks_start) FrameB) = [Some 3%nat; None; Some 2%nat] /\
  run_keys (trace ranks_end) =
    [(InPrio 0, 3%nat, 0%nat, Comp 0); (InPrio 2, 2%nat, 0%nat, Fn 1)] /\
  writeTaskGroups (frame_of (world ranks_end) FrameB) = [None; None; None].
Proof. vm_compute. repeat split. Qed.

Lemma ranks_final : final (write_prio idle 10 FrameB ranks_start) = Some ranks_end.
Proof. vm_compute. reflexivity. Qed.

(** ** A task that raises *)

(** Task 0 asks for the next frame and then raises. *)
Definition thrower (t : task) (s : State) : list action :=
  match t with
  | Fn 0 => [OnNextFrame []; Throw]
  | _ => []
  end.

Definition thrower_start : State :=
  do_action (OnNextFrame [FWrite (Fn 0)]) init.

Definition thrower_end : State :=
  Eval vm_compute in
    end_state thrower_start (_handleAnimationFrame thrower 10 thrower_start).

Lemma thrower_flush : _handleAnimationFrame thrower 10 thrower_start = Raised thrower_end.
Proof. vm_compute. reflexivity. Qed.

(** C8 as stated fails on this run: the flush raises with the clock still
    at 1, RUNNING still set and FRAMETASK_PENDING set. *)
Lemma frame_flush_raise_counterexample :
  _handleAnimationFrame thrower 10 thrower_start = Raised thrower_end /\
  clock (sched (world thrower_start)) = 1 /\
  clock (sched (world thrower_end)) = 1 /\
  clock (sched (world thrower_end)) <> clock (sched (world thrower_start)) + 1 /\
  flag_test (flags (sched (world thrower_end))) SchedulerFlags.RUNNING = true /\
  flag_test (flags (sched (world thrower_end))) SchedulerFlags.FRAMETASK_PENDING = true.
Proof. vm_compute. repeat split; discriminate. Qed.

Lemma frame_flush_raise_skips_bookkeeping_witness :
  _handleAnimationFrame thrower 10 thrower_start = Raised thrower_end /\
  clock (sched (world thrower_end)) = clock (sched (world thrower_start)) /\
  flag_test (flags (sched (world thrower_end))) SchedulerFlags.RUNNING = true /\
  _currentFrame (sched (world thrower_end)) = _nextFrame (sched (world thrower_start)) /\
  _nextFrame (sched (world thrower_end)) = _currentFrame (sched (world thrower_start)) /\
  exists d, trace thrower_end = trace thrower_start ++ d /\
            pending Frametask (world thrower_end) = armed Frametask (apis_of d).
Proof.
  split; [exact thrower_flush|].
  exact (frame_flush_raise_skips_bookkeeping thrower 10 thrower_start thrower_end
           thrower_flush).
Defined.

(** ** A write task that schedules a write, an after-task that schedules an
    after-task *)

(** Task 0 has run before. *)
Definition has_run (s : State) : bool :=
  existsb (fun t => bool_decide (t = Fn 0)) (ran (trace s)).

(** The first time it runs, task 0 schedules task 1 as a plain write into
    the frame being flushed. *)
Definition rewriter (t : task) (s : State) : list action :=
  match t with
  | Fn 0 => if has_run s then [] else [OnCurrentFrame [FWrite (Fn 1)]]
  | _ => []
  end.

Definition rewriter_start : State :=
  do_action (OnNextFrame [FWrite (Fn 0)]) init.

(** C9 fails on this run: the loop over [frame.writeTasks] (array 2) runs
    task 1 in the very pass in which task 0 appended it, at index 1 of the
    same array, and then,
    WRITE being set again, runs both tasks a second time: during each of the
    four runs [frame.writeTasks] is the array being iterated. *)
Theorem write_tasks_iterated_while_live :
  exists s',
    _handleAnimationFrame rewriter 10 rewriter_start = Done s' /\
    run_keys (trace s') =
      [(InWrite, 2%nat, 0%nat, Fn 0); (InWrite, 2%nat, 1%nat, Fn 1);
       (InWrite, 2%nat, 0%nat, Fn 0); (InWrite, 2%nat, 1%nat, Fn 1)] /\
    Forall (live_in (PWrite FrameB)) (trace s').
Proof.
  eexists. split; [vm_compute; reflexivity|]. split; [vm_compute; reflexivity|].
  repeat constructor.
Qed.

(** The first time it runs, task 0 schedules task 1 as an after-task of the
    frame being flushed. *)
Definition reafter (t : task) (s : State) : list action :=
  match t with
  | Fn 0 => if has_run s then [] else [OnCurrentFrame [FAfter (Fn 1)]]
  | _ => []
  end.

Definition reafter_start : State :=
  do_action (OnNextFrame [FAfter (Fn 0)]) init.

(** C7 fails on this run: one frame pass runs each of the two after-tasks
    twice, from the array that [frame.afterTasks] still refers to. *)
Theorem after_tasks_run_twice :
  exists s',
    _handleAnimationFrame reafter 10 reafter_start = Done s' /\
    run_keys (trace s') =
      [(InAfter, 2%nat, 0%nat, Fn 0); (InAfter, 2%nat, 1%nat, Fn 1);
       (InAfter, 2%nat, 0%nat, Fn 0); (InAfter, 2%nat, 1%nat, Fn 1)] /\
    Forall (live_in (PAfter FrameB)) (trace s').
Proof.
  eexists. split; [vm_compute; reflexivity|]. split; [vm_compute; reflexivity|].
  repeat constructor.
Qed.

(** * Further properties of the scheduler *)

(** ** Relations that every loop of a flush respects

    A relation [R s s' d] between the state before, the state after and the
    events logged in between is kept by a loop when it is reflexive,
    composes, holds of every invocation of a task and holds of the steps
    the flush routine takes itself. *)

Section Stretch.

Variable behaviour : task -> State -> list action.
Variable R : State -> State -> list event -> Prop.
Variable f : fid.

Hypothesis R_refl : forall s, R s s [].
Hypothesis R_trans : forall s1 s2 s3 d1 d2,
  R s1 s2 d1 -> R s2 s3 d2 -> R s1 s3 (d1 ++ d2).
Hypothesis R_invoke : forall k a i t s s',
  final (invoke behaviour k a i t s) = Some s' ->
  exists d, R s s' d /\ trace s' = trace s ++ d.
Hypothesis R_log : forall p s, R s (log (EvPhase p) s) [EvPhase p].
Hypothesis R_clear_prio : forall s,
  R s (on_world (clear_frame_flag f FrameFlags.WRITE_PRIO) s) [].
Hypothesis R_clear_write : forall s,
  R s (on_world (clear_frame_flag f FrameFlags.WRITE) s) [].
Hypothesis R_clear_read : forall s,
  R s (on_world (clear_frame_flag f FrameFlags.READ) s) [].
Hypothesis R_clear_after : forall s,
  R s (on_world (clear_frame_flag f FrameFlags.AFTER) s) [].
Hypothesis R_null_group : forall i s, R s (on_world (null_group f i) s) [].
Hypothesis R_null_readTasks : forall s, R s (on_world (null_readTasks f) s) [].
Hypothesis R_detach_microtasks : forall s, R s (on_world detach_microtasks s) [].
Hypothesis R_detach_macrotasks : forall s, R s (on_world detach_macrotasks s) [].

(** However the computation ends, [R] relates its first and last state. *)
Definition keeps (s : State) (r : outcome) : Prop :=
  forall s', final r = Some s' -> exists d, R s s' d /\ trace s' = trace s ++ d.

Lemma keeps_done (s : State) : keeps s (Done s).
Proof. intros s' [= <-]. exists []. split; [apply R_refl | symmetry; apply app_nil_r]. Qed.

Lemma keeps_raised (s : State) : keeps s (Raised s).
Proof. intros s' [= <-]. exists []. split; [apply R_refl | symmetry; apply app_nil_r]. Qed.

Lemma keeps_bind (s : State) (m : outcome) (k : State -> outcome) :
  keeps s m -> (forall s1, m = Done s1 -> keeps s1 (k s1)) -> keeps s (obind m k).
Proof.
  intros Hm Hk s' Hf. destruct m as [s1|s1|]; simpl in Hf.
  - destruct (Hm s1 eq_refl) as (d1 & R1 & T1).
    destruct (Hk s1 eq_refl s' Hf) as (d2 & R2 & T2).
    exists (d1 ++ d2). split; [eapply R_trans; eauto|].
    rewrite T2, T1. symmetry. apply app_assoc.
  - apply Hm. exact Hf.
  - discriminate.
Qed.

Lemma keeps_after (s s1 : State) (d : list event) (r : outcome) :
  R s s1 d -> trace s1 = trace s ++ d -> keeps s1 r -> keeps s r.
Proof.
  intros R1 T1 H s' Hf. destruct (H s' Hf) as (d2 & R2 & T2).
  exists (d ++ d2). split; [eapply R_trans; eauto|].
  rewrite T2, T1. symmetry. apply app_assoc.
Qed.

Lemma keeps_on_world (g : World -> World) (s : State) (r : outcome) :
  R s (on_world g s) [] -> keeps (on_world g s) r -> keeps s r.
Proof. intros H. apply (keeps_after s (on_world g s) []); [exact H|]. symmetry. apply app_nil_r. Qed.

Lemma keeps_log (p : phase) (s : State) (r : outcome) :
  keeps (log (EvPhase p) s) r -> keeps s r.
Proof. apply (keeps_after s (log (EvPhase p) s) [EvPhase p]); [apply R_log | reflexivity]. Qed.

Lemma for_each_keeps (fuel : nat) (k : slot)
    (run : loc -> nat -> task -> State -> outcome) (a : loc) (i : nat) (s : State) :
  runner behaviour k run -> keeps s (for_each fuel run a i s).
Proof.
  intros Hr. revert i s. induction fuel as [|fuel IH]; intros i s; [intros s' [=]|].
  cbn [for_each]. destruct (_ !! i) as [t|]; [|apply keeps_done].
  apply keeps_bind; [|intros s1 _; apply IH].
  destruct (Hr a i t s) as [-> | ->]; [exact (R_invoke k a i t s) | apply keeps_raised].
Qed.

Lemma micro_waves_keeps (fuel : nat) (tasks : loc) (s : State) :
  keeps s (micro_waves behaviour fuel tasks s).
Proof.
  revert tasks s. induction fuel as [|fuel IH]; intros tasks s; [intros s' [=]|].
  cbn [micro_waves]. destruct (0 <? _)%nat; [|apply keeps_done].
  apply (keeps_log PhWave). apply (keeps_on_world detach_microtasks); [apply R_detach_microtasks|].
  apply keeps_bind; [eapply for_each_keeps, runner_call|]. intros s1 _. apply IH.
Qed.

Lemma prio_groups_keeps (fuel : nat) (i : nat) (s : State) :
  keeps s (prio_groups behaviour fuel f i s).
Proof.
  revert i s. induction fuel as [|fuel IH]; intros i s; [intros s' [=]|].
  cbn [prio_groups]. destruct (_ !! i) as [[group|]|]; [| apply IH | apply keeps_done].
  apply (keeps_on_world (null_group f i)); [apply R_null_group|].
  apply keeps_bind; [eapply for_each_keeps, runner_dispatch|]. intros s1 _. apply IH.
Qed.

Lemma write_prio_keeps (fuel : nat) (s : State) :
  keeps s (write_prio behaviour fuel f s).
Proof.
  unfold write_prio. destruct (flag_test _ _); [|apply keeps_done].
  apply (keeps_on_world (clear_frame_flag f FrameFlags.WRITE_PRIO));
    [apply R_clear_prio | apply prio_groups_keeps].
Qed.

Lemma write_plain_keeps (fuel : nat) (s : State) :
  keeps s (write_plain behaviour fuel f s).
Proof.
  unfold write_plain. destruct (flag_test _ _); [|apply keeps_done].
  apply (keeps_on_world (clear_frame_flag f FrameFlags.WRITE)); [apply R_clear_write|].
  destruct (writeTasks _); [eapply for_each_keeps, runner_dispatch | apply keeps_raised].
Qed.

Lemma write_while_keeps (fuel : nat) (s : State) :
  keeps s (write_while behaviour fuel f s).
Proof.
  revert s. induction fuel as [|fuel IH]; intros s; [intros s' [=]|].
  cbn [write_while]. destruct (flag_test _ _); [|apply keeps_done].
  apply keeps_bind; [apply write_prio_keeps|]. intros s1 _.
  apply keeps_bind; [apply write_plain_keeps|]. intros s2 _. apply IH.
Qed.

Lemma read_while_keeps (fuel : nat) (s : State) :
  keeps s (read_while behaviour fuel f s).
Proof.
  revert s. induction fuel as [|fuel IH]; intros s; [intros s' [=]|].
  cbn [read_while]. destruct (flag_test _ _); [|apply keeps_done].
  apply (keeps_on_world (clear_frame_flag f FrameFlags.READ)); [apply R_clear_read|].
  apply (keeps_on_world (null_readTasks f)); [apply R_null_readTasks|].
  destruct (readTasks _); [|apply keeps_raised].
  apply keeps_bind; [eapply for_each_keeps, runner_call|]. intros s1 _. apply IH.
Qed.

Lemma alternation_keeps (fuel : nat) (s : State) :
  keeps s (alternation behaviour fuel f s).
Proof.
  revert s. induction fuel as [|fuel IH]; intros s; [intros s' [=]|].
  cbn [alternation]. apply (keeps_log PhWrite).
  apply keeps_bind; [apply write_while_keeps|]. intros s1 _.
  apply (keeps_log PhRead).
  apply keeps_bind; [apply read_while_keeps|]. intros s2 _.
  destruct (flag_test _ _); [apply IH | apply keeps_done].
Qed.

Lemma after_while_keeps (fuel : nat) (s : State) :
  keeps s (after_while behaviour fuel f s).
Proof.
  revert s. induction fuel as [|fuel IH]; intros s; [intros s' [=]|].
  cbn [after_while]. destruct (flag_test _ _); [|apply keeps_done].
  apply (keeps_on_world (clear_frame_flag f FrameFlags.AFTER)); [apply R_clear_after|].
  destruct (afterTasks _); [|apply keeps_raised].
  apply keeps_bind; [eapply for_each_keeps, runner_call|]. intros s1 _. apply IH.
Qed.

(** A flush is its opening bookkeeping, a stretch that [R] relates, and,
    unless a task raised, its closing bookkeeping. *)
Definition flush_shape (dm : domain) (s : State) (r : outcome) : Prop :=
  match r with
  | Done s' => exists s2 d, R (on_world (flush_begin dm) s) s2 d /\
                            trace s2 = trace s ++ d /\
                            s' = on_world (flush_end dm) s2
  | Raised s' => exists d, R (on_world (flush_begin dm) s) s' d /\
                           trace s' = trace s ++ d
  | OutOfFuel => True
  end.

Lemma microtask_flush_keeps (fuel : nat) (s : State) :
  flush_shape Microtask s (_microtaskScheduler behaviour fuel s).
Proof.
  unfold _microtaskScheduler.
  pose proof (micro_waves_keeps fuel
                (_microtasks (sched (world (on_world (set_sched_flag SchedulerFlags.RUNNING) s))))
                (on_world (set_sched_flag SchedulerFlags.RUNNING) s)) as H.
  destruct (micro_waves _ _ _ _) as [s1|s1|]; simpl; [| |exact I].
  - destruct (H s1 eq_refl) as (d & Rd & T). eauto.
  - apply H. reflexivity.
Qed.

Lemma macrotask_flush_keeps (fuel : nat) (s : State) :
  flush_shape Macrotask s (_macrotaskScheduler behaviour fuel s).
Proof.
  unfold _macrotaskScheduler.
  set (s0 := on_world _ s).
  assert (H : keeps s0
    (if (0 <? length (array_at (world s0) (_macrotasks (sched (world s0)))))%nat
     then for_each fuel (call behaviour InMacro)
            (_macrotasks (sched (world s0))) 0 (on_world detach_macrotasks s0)
     else Done s0)).
  { destruct (0 <? _)%nat; [|apply keeps_done].
    apply (keeps_on_world detach_macrotasks); [apply R_detach_macrotasks|].
    eapply for_each_keeps, runner_call. }
  revert H. set (r := if (0 <? _)%nat then _ else _). intros H.
  destruct r as [s1|s1|]; simpl; [| |exact I].
  - destruct (H s1 eq_refl) as (d & Rd & T). eauto.
  - apply H. reflexivity.
Qed.

Lemma frame_flush_keeps (fuel : nat) (s : State) :
  f = _nextFrame (sched (world s)) ->
  flush_shape Frametask s (_handleAnimationFrame behaviour fuel s).
Proof.
  intros Hf. unfold _handleAnimationFrame.
  set (s0 := on_world frame_begin s).
  change (_currentFrame (sched (world s0))) with (_nextFrame (sched (world s))).
  rewrite <- Hf.
  assert (H : keeps s0
    (let* s1 := alternation behaviour fuel f s0 in
     after_while behaviour fuel f (log (EvPhase PhAfter) s1))).
  { apply keeps_bind; [apply alternation_keeps|]. intros s1 _.
    apply (keeps_log PhAfter). apply after_while_keeps. }
  revert H. simpl.
  destruct (alternation behaviour fuel f s0) as [s1|s1|]; simpl; intros H;
    [| apply H; reflexivity | exact I].
  destruct (after_while _ _ _ _) as [s2|s2|]; simpl; [| |exact I].
  - destruct (H s2 eq_refl) as (d & Rd & T). eauto.
  - apply H. reflexivity.
Qed.

End Stretch.

(** A relation that holds of every run of tasks holds of every invocation. *)
Lemma run_keeps (behaviour : task -> State -> list action)
    (R : State -> State -> list event -> Prop) :
  (forall k a s s' d, loop_run k a s s' d -> R s s' d) ->
  forall k a i t s s',
    final (invoke behaviour k a i t s) = Some s' ->
    exists d, R s s' d /\ trace s' = trace s ++ d.
Proof.
  intros HR k a i t s s' Hf.
  destruct (invoke_spec behaviour k a i t s) as (cs & s1 & [H|H] & L);
    rewrite H in Hf; injection Hf as <-;
    (eexists; split; [eapply HR; exact L | apply (lr_trace _ _ _ _ _ L)]).
Qed.

(** ** What each flush consumes and what it leaves alone *)

(** The fields whose arrays the flush of a domain detaches and runs, [f]
    being the frame that is flushed: the microtask queue, the macrotask
    queue, or the read tasks and the priority groups of the frame. *)
Definition consumed (dm : domain) (f : fid) (p : path) : Prop :=
  match dm, p with
  | Microtask, PMicro => True
  | Macrotask, PMacro => True
  | Frametask, PRead g => g = f
  | Frametask, PGroup g _ => g = f
  | _, _ => False
  end.

(** What is queued behind every field outside [C] is what was queued
    before, followed by what the logged API calls appended. *)
Definition kept (C : path -> Prop) (s s' : State) (d : list event) : Prop :=
  wf (world s) ->
  wf (world s') /\
  forall p, ~ C p -> contents (world s') p = contents (world s) p ++ pushes p (apis_of d).

Lemma kept_refl (C : path -> Prop) (s : State) : kept C s s [].
Proof. intros W. split; [exact W|]. intros p _. simpl. symmetry. apply app_nil_r. Qed.

Lemma kept_trans (C : path -> Prop) (s1 s2 s3 : State) (d1 d2 : list event) :
  kept C s1 s2 d1 -> kept C s2 s3 d2 -> kept C s1 s3 (d1 ++ d2).
Proof.
  intros H1 H2 W1. destruct (H1 W1) as [W2 K1]. destruct (H2 W2) as [W3 K2].
  split; [exact W3|]. intros p Hp.
  rewrite K2, K1, apis_of_app, pushes_app by assumption. symmetry. apply app_assoc.
Qed.

Lemma kept_run (C : path -> Prop) (k : slot) (a : loc) (s s' : State) (d : list event) :
  loop_run k a s s' d -> kept C s s' d.
Proof.
  intros L W. rewrite (lr_world _ _ _ _ _ L).
  split; [apply apply_apis_wf, W|]. intros p _. apply apply_apis_contents, W.
Qed.

Lemma kept_inert (C : path -> Prop) (g : World -> World) (s : State) (d : list event) :
  inert (world s) (g (world s)) -> apis_of d = [] ->
  kept C s (mkState (g (world s)) (trace s ++ d)) d.
Proof.
  intros I Hd W. split; [eapply inert_wf; eauto|]. intros p _.
  rewrite Hd. simpl. rewrite app_nil_r. apply inert_contents, I.
Qed.

Lemma kept_assigned (C : path -> Prop) (g : World -> World) (p : path) (v : option loc)
    (s : State) :
  assigned p v (world s) (g (world s)) -> C p -> kept C s (on_world g s) [].
Proof.
  intros A Hp W. split; [eapply assigned_wf; eauto|]. intros q Hq.
  simpl. rewrite app_nil_r, (assigned_contents _ _ _ _ q A W).
  destruct (decide (q = p)) as [->|]; [contradiction | reflexivity].
Qed.

Lemma kept_begin_end (C : path -> Prop) (dm : domain) (s s2 : State) (d : list event) :
  kept C (on_world (flush_begin dm) s) s2 d ->
  kept C s s2 d /\ kept C s (on_world (flush_end dm) s2) d.
Proof.
  intros K.
  assert (K0 : kept C s s2 d).
  { intros W. destruct K as [W2 K].
    - simpl. eapply inert_wf; [apply inert_flush_begin | exact W].
    - split; [exact W2|]. intros p Hp. rewrite K by assumption. f_equal.
      simpl. apply inert_contents, inert_flush_begin. }
  split; [exact K0|]. intros W. destruct (K0 W) as [W2 K2]. split.
  - simpl. eapply inert_wf; [apply inert_flush_end | exact W2].
  - intros p Hp. rewrite <- K2 by assumption. simpl.
    apply inert_contents, inert_flush_end.
Qed.

Section Ownership.

Variable behaviour : task -> State -> list action.

Lemma flush_kept_shape (dm : domain) (fuel : nat) (s : State) :
  flush_shape (kept (consumed dm (_nextFrame (sched (world s))))) dm s
    (flush behaviour dm fuel s).
Proof.
  set (f := _nextFrame (sched (world s))).
  assert (Hlog : forall C p s0, kept C s0 (log (EvPhase p) s0) [EvPhase p]).
  { intros C p s0. apply (kept_inert C (fun w => w) s0 [EvPhase p]);
      [apply inert_refl | reflexivity]. }
  assert (Hclear : forall C c s0, kept C s0 (on_world (clear_frame_flag f c) s0) []).
  { intros C c s0. pose proof (kept_inert C (clear_frame_flag f c) s0 []) as H.
    simpl in H. rewrite app_nil_r in H. apply H;
      [apply inert_clear_frame_flag | reflexivity]. }
  destruct dm; simpl.
  - apply (microtask_flush_keeps behaviour (kept (consumed Microtask f)));
      try exact (kept_refl _); try exact (kept_trans _);
      try exact (run_keeps _ _ (kept_run _)); try exact (Hlog _).
    intros s0. eapply kept_assigned; [apply detach_microtasks_assigned | exact I].
  - apply (macrotask_flush_keeps behaviour (kept (consumed Macrotask f)));
      try exact (kept_refl _); try exact (kept_trans _);
      try exact (run_keeps _ _ (kept_run _)).
    intros s0. eapply kept_assigned; [apply detach_macrotasks_assigned | exact I].
  - apply (frame_flush_keeps behaviour (kept (consumed Frametask f)) f);
      try exact (kept_refl _); try exact (kept_trans _);
      try exact (run_keeps _ _ (kept_run _)); try exact (Hlog _); try exact (Hclear _ _).
    + intros i s0. eapply kept_assigned; [apply null_group_assigned | reflexivity].
    + intros s0. eapply kept_assigned; [apply null_readTasks_assigned | reflexivity].
    + reflexivity.
Qed.

(** X1: A flush, returning or raising, takes tasks only out of the containers
    of its own domain.  What is queued behind every other field afterwards
    is what was queued before followed by what the tasks of the flush
    scheduled there, in order: the flush removes nothing from it.  For a
    frame flush "every other field" includes [writeTasks] and [afterTasks]
    of the very frame that is flushed: a plain write task or an after-task,
    once scheduled, stays in its array. *)
Theorem flush_consumes_only_its_own (dm : domain) (fuel : nat) (s s' : State) :
  wf (world s) ->
  final (flush behaviour dm fuel s) = Some s' ->
  wf (world s') /\
  exists d, trace s' = trace s ++ d /\
    forall p, ~ consumed dm (_nextFrame (sched (world s))) p ->
      contents (world s') p = contents (world s) p ++ pushes p (apis_of d).
Proof.
  intros W Hf. pose proof (flush_kept_shape dm fuel s) as Hshape.
  set (C := consumed dm (_nextFrame (sched (world s)))) in *.
  destruct (flush behaviour dm fuel s) as [s1|s1|]; simpl in Hf; [| |discriminate];
    injection Hf as <-.
  - destruct Hshape as (s2 & d & K & T & ->).
    destruct (kept_begin_end C dm s s2 d K) as [_ K'].
    destruct (K' W) as [W' Hc]. split; [exact W'|]. exists d. split; [exact T | exact Hc].
  - destruct Hshape as (d & K & T).
    destruct (kept_begin_end C dm s s1 d K) as [K' _].
    destruct (K' W) as [W' Hc]. split; [exact W'|]. exists d. split; [exact T | exact Hc].
Qed.

(** Any number of steps of the system. *)
Inductive reaches : State -> State -> Prop :=
| reaches_refl (s : State) : reaches s s
| reaches_step (s1 s2 s3 : State) :
    reaches s1 s2 -> step behaviour s2 s3 -> reaches s1 s3.

(** X2: The plain write tasks and the after-tasks of a frame are never taken
    out of their arrays.  Along any execution (API calls from outside,
    flushes of any domain that return or raise) what is queued behind
    [writeTasks] and behind [afterTasks] of either frame is what was queued
    at the start followed by everything scheduled there since: the arrays
    only grow, and a task that was run from them is still in them. *)
Theorem write_and_after_tasks_stay_queued (s s' : State) (p : path) :
  wf (world s) -> reaches s s' ->
  (exists f, p = PWrite f \/ p = PAfter f) ->
  wf (world s') /\
  exists d, trace s' = trace s ++ d /\
    contents (world s') p = contents (world s) p ++ pushes p (apis_of d).
Proof.
  intros W Hr Hp. induction Hr as [s1|s1 s2 s3 _ IH Hstep].
  - split; [exact W|]. exists []. simpl. rewrite !app_nil_r. split; reflexivity.
  - destruct (IH W) as (W2 & d1 & T1 & C1).
    assert (Hgo : wf (world s3) /\ exists d2, trace s3 = trace s2 ++ d2 /\
              contents (world s3) p = contents (world s2) p ++ pushes p (apis_of d2)).
    { destruct Hstep as [a s2|dm fuel s2 s3 Hf].
      - destruct (do_action_spec a s2) as [cs ->]. cbn [world trace].
        split; [apply apply_apis_wf, W2|]. exists (map EvApi cs).
        split; [reflexivity|]. rewrite apis_of_map. apply apply_apis_contents, W2.
      - pose proof (flush_kept_shape dm fuel s2) as Hshape.
        assert (Hn : ~ consumed dm (_nextFrame (sched (world s2))) p).
        { destruct Hp as [f [-> | ->]]; destruct dm; simpl; tauto. }
        destruct (flush behaviour dm fuel s2) as [s4|s4|]; simpl in Hf; [| |discriminate];
          injection Hf as <-.
        + destruct Hshape as (s5 & d & K & T & ->).
          destruct (kept_begin_end _ dm s2 s5 d K) as [_ K'].
          destruct (K' W2) as [W' Hc]. split; [exact W'|]. exists d. split; [exact T|].
          apply Hc, Hn.
        + destruct Hshape as (d & K & T).
          destruct (kept_begin_end _ dm s2 s4 d K) as [K' _].
          destruct (K' W2) as [W' Hc]. split; [exact W'|]. exists d. split; [exact T|].
          apply Hc, Hn. }
    destruct Hgo as (W3 & d2 & T2 & C2). split; [exact W3|].
    exists (d1 ++ d2). split; [rewrite T2, T1; symmetry; apply app_assoc|].
    rewrite C2, C1, apis_of_app, pushes_app. symmetry. apply app_assoc.
Qed.

End Ownership.

(** ** Batches of scheduling calls *)

(** [scheduleMicrotask(cb)] called for each [cb] of [cbs] in turn: the
    world afterwards. *)
Definition scheduleMicrotasks (cbs : list task) (w : World) : World :=
  foldl (fun w cb => scheduleMicrotask cb w) w cbs.

(** [scheduleMacrotask(cb)] called for each [cb] of [cbs] in turn: the
    world afterwards. *)
Definition scheduleMacrotasks (cbs : list task) (w : World) : World :=
  foldl (fun w cb => scheduleMacrotask cb w) w cbs.

Lemma scheduleMicrotasks_apis (cbs : list task) (w : World) :
  scheduleMicrotasks cbs w = apply_apis (map ApiMicrotask cbs) w.
Proof.
  unfold scheduleMicrotasks, apply_apis. revert w.
  induction cbs as [|cb cbs IH]; intros w; simpl; [reflexivity | apply IH].
Qed.

Lemma scheduleMacrotasks_apis (cbs : list task) (w : World) :
  scheduleMacrotasks cbs w = apply_apis (map ApiMacrotask cbs) w.
Proof.
  unfold scheduleMacrotasks, apply_apis. revert w.
  induction cbs as [|cb cbs IH]; intros w; simpl; [reflexivity | apply IH].
Qed.

(** The queue of a domain and the API call that appends to it. *)
Definition queue_call (dm : domain) (cb : task) : api :=
  match dm with
  | Microtask => ApiMicrotask cb
  | Macrotask => ApiMacrotask cb
  | Frametask => ApiNextFrame
  end.

Definition queue_path (dm : domain) : path :=
  match dm with
  | Microtask => PMicro
  | Macrotask => PMacro
  | Frametask => PMicro
  end.

Lemma pushes_queue_calls (dm : domain) (cbs : list task) (p : path) :
  dm <> Frametask ->
  pushes p (map (queue_call dm) cbs) = if decide (p = queue_path dm) then cbs else [].
Proof.
  intros Hdm.
  induction cbs as [|cb cbs IH]; [destruct (decide _); reflexivity|].
  change (map (queue_call dm) (cb :: cbs))
    with ([queue_call dm cb] ++ map (queue_call dm) cbs).
  rewrite pushes_app, IH.
  destruct dm; [| |congruence]; destruct p; reflexivity.
Qed.

Lemma armed_queue_calls (dm dm' : domain) (cbs : list task) :
  armed dm' (map (queue_call dm) cbs) =
  bool_decide (dm' = dm) && negb (bool_decide (cbs = [])).
Proof.
  unfold armed. induction cbs as [|cb cbs IH]; simpl.
  - rewrite andb_false_r. reflexivity.
  - rewrite IH. destruct dm, dm'; simpl; try reflexivity;
      destruct (bool_decide (cbs = [])); reflexivity.
Qed.

Lemma frame_bit_queue_calls (dm : domain) (cbs : list task) (f : fid) (c : Z) :
  existsb (fun a => flag_test (frame_bit a f) c) (map (queue_call dm) cbs) = false.
Proof.
  induction cbs as [|cb cbs IH]; simpl; [reflexivity|].
  rewrite IH. destruct dm; reflexivity.
Qed.

(** What a batch of calls that append to the queue of [dm] does. *)
Lemma queue_calls_spec (dm : domain) (cbs : list task) (w : World) :
  dm <> Frametask -> wf w ->
  let w' := apply_apis (map (queue_call dm) cbs) w in
  contents w' (queue_path dm) = contents w (queue_path dm) ++ cbs /\
  (forall p, p <> queue_path dm -> contents w' p = contents w p) /\
  requests dm w' =
    (requests dm w + if pending dm w then 0 else if bool_decide (cbs = []) then 0 else 1)%nat /\
  pending dm w' = pending dm w || negb (bool_decide (cbs = [])) /\
  (forall dm', dm' <> dm ->
     requests dm' w' = requests dm' w /\ pending dm' w' = pending dm' w) /\
  clock (sched w') = clock (sched w) /\
  (forall f c, frame_flag w' f c = frame_flag w f c) /\
  wf w'.
Proof.
  intros Hdm W w'. subst w'.
  split.
  { rewrite apply_apis_contents, pushes_queue_calls by assumption.
    destruct (decide _); [reflexivity | congruence]. }
  split.
  { intros p Hp. rewrite apply_apis_contents, pushes_queue_calls by assumption.
    destruct (decide _); [congruence | apply app_nil_r]. }
  split.
  { rewrite apply_apis_requests, armed_queue_calls.
    rewrite bool_decide_eq_true_2 by reflexivity. simpl.
    destruct (bool_decide (cbs = [])); reflexivity. }
  split.
  { rewrite apply_apis_pending, armed_queue_calls.
    rewrite bool_decide_eq_true_2 by reflexivity. reflexivity. }
  split.
  { intros dm' Hne.
    rewrite apply_apis_requests, apply_apis_pending, armed_queue_calls.
    rewrite bool_decide_eq_false_2 by assumption. simpl.
    rewrite orb_false_r. split; [|reflexivity].
    destruct (pending dm' w); lia. }
  split; [apply apply_apis_clock|].
  split; [|apply apply_apis_wf, W].
  intros f c. unfold frame_flag.
  rewrite apply_apis_frame_flags, frame_bit_queue_calls. apply orb_false_r.
Qed.

(** X3: However many microtasks are scheduled in a row, they are appended to
    the microtask queue in the order of the calls, behind what was queued;
    the host is asked for a tick once, and only if no tick was pending and
    there was at least one call.  Nothing else changes: not the tasks
    behind any other field, not the registrations and PENDING bits of the
    other two domains, not the clock, not a flag of a frame. *)
Theorem scheduleMicrotask_batch (cbs : list task) (w : World) :
  wf w ->
  contents (scheduleMicrotasks cbs w) PMicro = contents w PMicro ++ cbs /\
  (forall p, p <> PMicro -> contents (scheduleMicrotasks cbs w) p = contents w p) /\
  requests Microtask (scheduleMicrotasks cbs w) =
    (requests Microtask w +
     if pending Microtask w then 0 else if bool_decide (cbs = []) then 0 else 1)%nat /\
  pending Microtask (scheduleMicrotasks cbs w) =
    pending Microtask w || negb (bool_decide (cbs = [])) /\
  (forall dm, dm <> Microtask ->
     requests dm (scheduleMicrotasks cbs w) = requests dm w /\
     pending dm (scheduleMicrotasks cbs w) = pending dm w) /\
  clock (sched (scheduleMicrotasks cbs w)) = clock (sched w) /\
  (forall f c, frame_flag (scheduleMicrotasks cbs w) f c = frame_flag w f c) /\
  wf (scheduleMicrotasks cbs w).
Proof.
  intros W. rewrite scheduleMicrotasks_apis.
  apply (queue_calls_spec Microtask cbs w); [discriminate | exact W].
Qed.

(** X4: The same for macrotasks: appended in call order to the macrotask queue,
    one host registration at most, nothing else touched. *)
Theorem scheduleMacrotask_batch (cbs : list task) (w : World) :
  wf w ->
  contents (scheduleMacrotasks cbs w) PMacro = contents w PMacro ++ cbs /\
  (forall p, p <> PMacro -> contents (scheduleMacrotasks cbs w) p = contents w p) /\
  requests Macrotask (scheduleMacrotasks cbs w) =
    (requests Macrotask w +
     if pending Macrotask w then 0 else if bool_decide (cbs = []) then 0 else 1)%nat /\
  pending Macrotask (scheduleMacrotasks cbs w) =
    pending Macrotask w || negb (bool_decide (cbs = [])) /\
  (forall dm, dm <> Macrotask ->
     requests dm (scheduleMacrotasks cbs w) = requests dm w /\
     pending dm (scheduleMacrotasks cbs w) = pending dm w) /\
  clock (sched (scheduleMacrotasks cbs w)) = clock (sched w) /\
  (forall f c, frame_flag (scheduleMacrotasks cbs w) f c = frame_flag w f c) /\
  wf (scheduleMacrotasks cbs w).
Proof.
  intros W. rewrite scheduleMacrotasks_apis.
  apply (queue_calls_spec Macrotask cbs w); [discriminate | exact W].
Qed.

(** ** Which frame is current while tasks run *)

(** [w] has the current and the next frame of [w0]. *)
Definition same_frames (w0 w : World) : Prop :=
  _currentFrame (sched w) = _currentFrame (sched w0) /\
  _nextFrame (sched w) = _nextFrame (sched w0).

Definition snap_frames (w0 : World) (e : event) : Prop :=
  match e with
  | EvRun _ _ _ _ w => same_frames w0 w
  | _ => True
  end.

(** A stretch in which the two frames keep their roles, for the scheduler
    and in every snapshot. *)
Definition steady (s s' : State) (d : list event) : Prop :=
  same_frames (world s) (world s') /\ Forall (snap_frames (world s)) d.

Lemma steady_refl (s : State) : steady s s [].
Proof. split; [split; reflexivity | constructor]. Qed.

Lemma steady_trans (s1 s2 s3 : State) (d1 d2 : list event) :
  steady s1 s2 d1 -> steady s2 s3 d2 -> steady s1 s3 (d1 ++ d2).
Proof.
  intros [[C1 N1] F1] [[C2 N2] F2]. split; [split; congruence|].
  apply Forall_app. split; [exact F1|].
  eapply Forall_impl; [exact F2|].
  intros [p|k a i t w|c]; simpl; auto. intros [C N]. split; congruence.
Qed.

Lemma steady_run (k : slot) (a : loc) (s s' : State) (d : list event) :
  loop_run k a s s' d -> steady s s' d.
Proof.
  intros L. split.
  - rewrite (lr_world _ _ _ _ _ L). apply apply_apis_frames.
  - apply (snapshots_invariant (same_frames (world s)) (world s) d);
      [| split; reflexivity | apply (lr_snap _ _ _ _ _ L)].
    intros c w0 [C N]. destruct (api_effect_frames c w0) as [C' N'].
    split; congruence.
Qed.

Lemma steady_log (p : phase) (s : State) : steady s (log (EvPhase p) s) [EvPhase p].
Proof. split; [split; reflexivity | repeat constructor]. Qed.

Lemma steady_step (g : World -> World) (s : State) :
  same_frames (world s) (g (world s)) -> steady s (on_world g s) [].
Proof. intros H. split; [exact H | constructor]. Qed.

Lemma same_frames_with_frame (w : World) (f : fid) (fr : Frame) :
  same_frames w (with_frame w f fr).
Proof. unfold same_frames. rewrite sched_with_frame. split; reflexivity. Qed.

(** The current and the next frame once the opening bookkeeping of a flush
    is done: a frame flush swaps the two, the other flushes leave them. *)
Definition frames_in_flush (dm : domain) (w : World) : fid * fid :=
  match dm with
  | Frametask => (_nextFrame (sched w), _currentFrame (sched w))
  | _ => (_currentFrame (sched w), _nextFrame (sched w))
  end.

Definition sees_frames (cn : fid * fid) (e : event) : Prop :=
  match e with
  | EvRun _ _ _ _ w => _currentFrame (sched w) = fst cn /\ _nextFrame (sched w) = snd cn
  | _ => True
  end.

Lemma frames_flush_begin (dm : domain) (w : World) :
  (_currentFrame (sched (flush_begin dm w)), _nextFrame (sched (flush_begin dm w))) =
  frames_in_flush dm w.
Proof. destruct dm; reflexivity. Qed.

Lemma frames_flush_end (dm : domain) (w : World) :
  same_frames w (flush_end dm w).
Proof. destruct dm; split; reflexivity. Qed.

Section Frames.

Variable behaviour : task -> State -> list action.

Lemma flush_steady (dm : domain) (fuel : nat) (s s' : State) :
  final (flush behaviour dm fuel s) = Some s' ->
  exists d, trace s' = trace s ++ d /\
    Forall (sees_frames (frames_in_flush dm (world s))) d /\
    _currentFrame (sched (world s')) = fst (frames_in_flush dm (world s)) /\
    _nextFrame (sched (world s')) = snd (frames_in_flush dm (world s)).
Proof.
  intros Hf.
  assert (Hclear : forall f c s0, steady s0 (on_world (clear_frame_flag f c) s0) []).
  { intros f c s0. apply steady_step, same_frames_with_frame. }
  assert (Hshape : flush_shape steady dm s (flush behaviour dm fuel s)).
  { destruct dm; simpl.
    - apply microtask_flush_keeps;
        first [ exact steady_refl | exact steady_trans | exact (run_keeps _ _ steady_run)
              | exact steady_log
              | intros s0; apply steady_step; split; reflexivity ].
    - apply macrotask_flush_keeps;
        first [ exact steady_refl | exact steady_trans | exact (run_keeps _ _ steady_run)
              | intros s0; apply steady_step; split; reflexivity ].
    - apply (frame_flush_keeps behaviour steady (_nextFrame (sched (world s))));
        first [ exact steady_refl | exact steady_trans | exact (run_keeps _ _ steady_run)
              | exact steady_log | exact (Hclear _ _) | reflexivity
              | intros; apply steady_step, same_frames_with_frame ]. }
  pose proof (frames_flush_begin dm (world s)) as Hb.
  assert (Hgo : forall s2 d, steady (on_world (flush_begin dm) s) s2 d ->
    Forall (sees_frames (frames_in_flush dm (world s))) d /\
    _currentFrame (sched (world s2)) = fst (frames_in_flush dm (world s)) /\
    _nextFrame (sched (world s2)) = snd (frames_in_flush dm (world s))).
  { intros s2 d [[C N] F]. rewrite <- Hb. cbn [fst snd]. split; [|split; assumption].
    eapply Forall_impl; [exact F|]. intros [p|k a i t w|c]; simpl; auto. }
  destruct (flush behaviour dm fuel s) as [s1|s1|]; simpl in Hf; [| |discriminate];
    injection Hf as <-.
  - destruct Hshape as (s2 & d & St & T & ->). exists d. split; [exact T|].
    destruct (Hgo _ _ St) as (F & C & N). split; [exact F|].
    destruct (frames_flush_end dm (world s2)) as [C' N']. simpl.
    split; congruence.
  - destruct Hshape as (d & St & T). exists d. split; [exact T|]. apply (Hgo _ _ St).
Qed.

(** X5: Every task that a frame flush runs finds the frame that is being
    flushed as the current frame, and the frame that was current before the
    flush as the next frame; and that is how the flush leaves the two, when
    it returns and when a task raises.  A microtask or macrotask flush
    leaves the two frames in their roles, for its tasks and afterwards. *)
Theorem frame_flush_swaps_frames_first (dm : domain) (fuel : nat) (s s' : State) :
  final (flush behaviour dm fuel s) = Some s' ->
  exists d, trace s' = trace s ++ d /\
    Forall (fun e => match e with
                     | EvRun _ _ _ _ w =>
                         currentFrame w =
                           (if decide (dm = Frametask) then _nextFrame (sched (world s))
                            else _currentFrame (sched (world s))) /\
                         fst (nextFrame w) =
                           (if decide (dm = Frametask) then _currentFrame (sched (world s))
                            else _nextFrame (sched (world s)))
                     | _ => True
                     end) d /\
    currentFrame (world s') =
      (if decide (dm = Frametask) then _nextFrame (sched (world s))
       else _currentFrame (sched (world s))) /\
    fst (nextFrame (world s')) =
      (if decide (dm = Frametask) then _currentFrame (sched (world s))
       else _nextFrame (sched (world s))).
Proof.
  intros Hf. destruct (flush_steady dm fuel s s' Hf) as (d & T & F & C & N).
  assert (Hnf : forall w, fst (nextFrame w) = _nextFrame (sched w)).
  { intros w. unfold nextFrame. cbn [fst]. destruct (flag_test _ _); reflexivity. }
  exists d. split; [exact T|]. unfold currentFrame. rewrite Hnf.
  split; [|destruct dm; simpl in *; split; assumption].
  eapply Forall_impl; [exact F|].
  intros [p|k a i t w|c]; try (intros _; exact I).
  intros [C' N']. unfold currentFrame. rewrite Hnf.
  destruct dm; simpl in *; split; assumption.
Qed.

(** X6: The scheduler always has two different frames as the current and the
    next one: in every reachable state, and in every world a task has been
    run in. *)
Theorem frames_stay_distinct (s : State) :
  reachable behaviour s ->
  _currentFrame (sched (world s)) <> _nextFrame (sched (world s)) /\
  Forall (fun e => match e with
                   | EvRun _ _ _ _ w => _currentFrame (sched w) <> _nextFrame (sched w)
                   | _ => True
                   end) (trace s).
Proof.
  induction 1 as [|s s' _ [IHs IHt] Hstep].
  - split; [discriminate | constructor].
  - destruct Hstep as [a s|dm fuel s s' Hf].
    + destruct (do_action_spec a s) as [cs ->]. cbn [world trace].
      destruct (apply_apis_frames cs (world s)) as [-> ->].
      split; [exact IHs|]. apply Forall_app. split; [exact IHt|].
      clear. induction cs; simpl; constructor; simpl; auto.
    + destruct (flush_steady dm fuel s s' Hf) as (d & T & F & C & N).
      assert (Hne : fst (frames_in_flush dm (world s)) <> snd (frames_in_flush dm (world s))).
      { destruct dm; simpl; congruence. }
      split; [congruence|]. rewrite T. apply Forall_app. split; [exact IHt|].
      eapply Forall_impl; [exact F|].
      intros [p|k a i t w|c]; simpl; auto. intros [-> ->]. exact Hne.
Qed.

End Frames.

(** ** Host registrations made during a flush *)

Lemma pending_flush_begin (dm dm' : domain) (w : World) :
  pending dm' (flush_begin dm w) =
  if decide (dm' = dm /\ dm <> Microtask) then false else pending dm' w.
Proof.
  unfold pending.
  destruct dm; simpl.
  - destruct (decide _) as [[_ H]|_]; [congruence|].
    rewrite flag_test_set. destruct dm'; simpl; apply orb_false_r.
  - rewrite flag_test_set.
    destruct dm'; simpl;
      [ rewrite flag_test_clear_other by reflexivity; apply orb_false_r
      | rewrite flag_test_clear_in by reflexivity; reflexivity
      | rewrite flag_test_clear_other by reflexivity; apply orb_false_r ].
  - unfold frame_begin. simpl. rewrite flag_test_set.
    destruct dm'; simpl;
      [ rewrite flag_test_clear_other by reflexivity; apply orb_false_r
      | rewrite flag_test_clear_other by reflexivity; apply orb_false_r
      | rewrite flag_test_clear_in by reflexivity; reflexivity ].
Qed.

Lemma requests_flush_begin (dm dm' : domain) (w : World) :
  requests dm' (flush_begin dm w) = requests dm' w.
Proof. destruct dm, dm'; reflexivity. Qed.

Lemma requests_flush_end (dm dm' : domain) (w : World) :
  requests dm' (flush_end dm w) = requests dm' w.
Proof. destruct dm, dm'; reflexivity. Qed.

Lemma armed_existsb (dm : domain) (cs : list api) :
  existsb (fun a => flag_test (arm_bit a) (pending_bit dm)) cs = armed dm cs.
Proof.
  unfold armed. induction cs as [|a l IH]; simpl; [reflexivity|].
  rewrite IH, flag_test_arm_bit. reflexivity.
Qed.

Section Registrations.

Variable behaviour : task -> State -> list action.

(** X7: During one flush, returning or raising, the host is asked at most once
    for each domain, however many tasks schedule work: for the domain of a
    macrotask or frame flush itself exactly when some task of the flush
    scheduled into it (its PENDING bit is cleared before the first task),
    for any other domain, and for microtasks during a microtask flush,
    exactly when nothing was pending at the start and some task scheduled
    into it. *)
Theorem flush_registers_once_per_domain (dm : domain) (fuel : nat) (s s' : State) :
  final (flush behaviour dm fuel s) = Some s' ->
  exists d, trace s' = trace s ++ d /\
    forall dm',
      requests dm' (world s') =
      (requests dm' (world s) +
       if (if decide (dm' = dm /\ dm <> Microtask) then false else pending dm' (world s))
       then 0
       else if armed dm' (apis_of d) then 1 else 0)%nat.
Proof.
  intros Hf. pose proof (flush_cases behaviour dm fuel s) as Hc.
  assert (Hgo : forall s2 d, quiet (on_world (flush_begin dm) s) s2 d ->
    trace s2 = trace s ++ d /\
    forall dm',
      requests dm' (world s2) =
      (requests dm' (world s) +
       if (if decide (dm' = dm /\ dm <> Microtask) then false else pending dm' (world s))
       then 0
       else if armed dm' (apis_of d) then 1 else 0)%nat).
  { intros s2 d Q. split; [apply (q_trace _ _ _ Q)|]. intros dm'.
    rewrite (q_requests _ _ _ Q). cbn [on_world world].
    rewrite requests_flush_begin, pending_flush_begin. reflexivity. }
  destruct (flush behaviour dm fuel s) as [s1|s1|]; simpl in Hf; [| |discriminate];
    injection Hf as <-.
  - destruct Hc as (s2 & d & Q & ->). exists d.
    destruct (Hgo _ _ Q) as [T R]. split; [exact T|]. intros dm'.
    cbn [on_world world]. rewrite requests_flush_end. apply R.
  - destruct Hc as (d & Q). exists d. apply (Hgo _ _ Q).
Qed.

(** X8: When a microtask raises, MICROTASK_PENDING is never cleared.  A
    microtask flush that began with the bit set (as it is whenever a tick
    was asked for) and raises therefore leaves the bit set with no tick
    outstanding: it asked for none itself, and no sequence of API calls made
    afterwards asks for one, so microtasks scheduled from then on are queued
    but the host is never asked to run them.  The clock has not moved and
    RUNNING is still set. *)
Theorem microtask_raise_blocks_registration (fuel : nat) (s s' : State) :
  pending Microtask (world s) = true ->
  _microtaskScheduler behaviour fuel s = Raised s' ->
  pending Microtask (world s') = true /\
  requests Microtask (world s') = requests Microtask (world s) /\
  (forall cs, requests Microtask (apply_apis cs (world s')) = requests Microtask (world s) /\
              pending Microtask (apply_apis cs (world s')) = true) /\
  clock (sched (world s')) = clock (sched (world s)) /\
  flag_test (flags (sched (world s'))) SchedulerFlags.RUNNING = true.
Proof.
  intros Hp H. pose proof (flush_cases behaviour Microtask fuel s) as Hc.
  simpl in Hc. rewrite H in Hc. destruct Hc as (d & Q).
  assert (P0 : pending Microtask (world (on_world (flush_begin Microtask) s)) = true).
  { cbn [on_world world]. rewrite pending_flush_begin.
    destruct (decide _) as [[_ Hn]|_]; [congruence | exact Hp]. }
  assert (P' : pending Microtask (world s') = true).
  { unfold pending. rewrite (q_flags _ _ _ Q).
    fold (pending Microtask (world (on_world (flush_begin Microtask) s))).
    rewrite P0. reflexivity. }
  assert (R' : requests Microtask (world s') = requests Microtask (world s)).
  { rewrite (q_requests _ _ _ Q), P0. cbn [on_world world].
    rewrite requests_flush_begin. lia. }
  split; [exact P'|]. split; [exact R'|]. split.
  { intros cs. rewrite apply_apis_requests, apply_apis_pending, P', R'.
    split; [lia | reflexivity]. }
  split; [rewrite (q_clock _ _ _ Q); reflexivity|].
  rewrite (q_flags _ _ _ Q). simpl. rewrite flag_test_set, orb_true_r. reflexivity.
Qed.

(** X9: When a macrotask raises, the rest of the batch is lost: the flush had
    taken the whole batch out of the queue before the first task ran, it
    has run a front part of it, and what is queued afterwards is only what
    the tasks that ran scheduled.  MACROTASK_PENDING tells whether that is
    anything, and a host tick was asked for exactly then; the clock has not
    moved and RUNNING is still set. *)
Theorem macrotask_raise_drops_rest_of_batch (fuel : nat) (s s' : State) :
  wf (world s) ->
  _macrotaskScheduler behaviour fuel s = Raised s' ->
  exists d n,
    trace s' = trace s ++ d /\
    ran d = take n (contents (world s) PMacro) /\
    contents (world s') PMacro = pushes PMacro (apis_of d) /\
    pending Macrotask (world s') = negb (bool_decide (pushes PMacro (apis_of d) = [])) /\
    requests Macrotask (world s') =
      (requests Macrotask (world s) +
       if bool_decide (pushes PMacro (apis_of d) = []) then 0 else 1)%nat /\
    clock (sched (world s')) = clock (sched (world s)) /\
    flag_test (flags (sched (world s'))) SchedulerFlags.RUNNING = true /\
    wf (world s').
Proof.
  intros W. unfold _macrotaskScheduler.
  set (begin := fun w => set_sched_flag SchedulerFlags.RUNNING
                  (clear_sched_flag SchedulerFlags.MACROTASK_PENDING w)).
  set (s0 := on_world begin s).
  assert (I0 : inert (world s) (world s0)).
  { subst s0 begin. simpl. eapply inert_trans;
      [apply inert_clear_sched_flag | apply inert_set_sched_flag]. }
  assert (W0 : wf (world s0)) by (eapply inert_wf; eauto).
  assert (P0 : pending Macrotask (world s0) = false).
  { subst s0 begin. unfold pending. simpl. rewrite flag_test_set.
    rewrite flag_test_clear_in by reflexivity. reflexivity. }
  assert (R0 : flag_test (flags (sched (world s0))) SchedulerFlags.RUNNING = true).
  { subst s0 begin. simpl. rewrite flag_test_set. apply orb_true_r. }
  assert (Hm : _macrotasks (sched (world s0)) = _macrotasks (sched (world s)))
    by reflexivity.
  assert (Hq : array_at (world s0) (_macrotasks (sched (world s0))) =
               contents (world s) PMacro).
  { rewrite Hm. apply inert_array_at. exact I0. }
  destruct (0 <? length _)%nat eqn:Hlen; [|discriminate].
  set (s1 := on_world detach_macrotasks s0).
  pose proof (detach_macrotasks_assigned (world s0)) as A.
  assert (W1 : wf (world s1)) by (eapply assigned_wf; eauto).
  assert (D1 : detached (world s1) (_macrotasks (sched (world s0))))
    by (eapply assigned_detaches; eauto; reflexivity).
  pose proof (for_each_spec behaviour fuel InMacro (call behaviour InMacro)
                (_macrotasks (sched (world s0))) 0 s1 (runner_call behaviour InMacro)) as Hs.
  destruct (for_each fuel _ _ 0 s1) as [s2|s2|]; cbn [obind]; [discriminate| |discriminate].
  intros [= <-]. destruct Hs as (d & n & L & K).
  pose proof (loop_run_extends _ _ _ _ _ L) as E.
  rewrite drop_0, (ext_detached _ _ E _ D1) in K.
  assert (Q : quiet s1 s2 d) by (eapply loop_run_quiet; eauto).
  assert (Ha : armed Macrotask (apis_of d) =
               negb (bool_decide (pushes PMacro (apis_of d) = [])))
    by apply (proj2 (armed_pushes (apis_of d))).
  exists d, n.
  split; [apply (lr_trace _ _ _ _ _ L)|].
  split.
  { rewrite ran_run_keys, K, map_snd_keys.
    change (world s1) with (detach_macrotasks (world s0)).
    rewrite (assigned_array_at _ _ _ _ _ A), Hq. reflexivity. }
  split.
  { rewrite (lr_world _ _ _ _ _ L), apply_apis_contents by assumption.
    change (world s1) with (detach_macrotasks (world s0)).
    rewrite (assigned_contents _ _ _ _ PMacro A W0).
    destruct (decide (PMacro = PMacro)); [reflexivity | congruence]. }
  split.
  { rewrite <- Ha, (lr_world _ _ _ _ _ L), apply_apis_pending.
    change (pending Macrotask (world s1)) with (pending Macrotask (world s0)).
    rewrite P0. reflexivity. }
  split.
  { rewrite (lr_world _ _ _ _ _ L), apply_apis_requests.
    change (pending Macrotask (world s1)) with (pending Macrotask (world s0)).
    rewrite P0, Ha. change (requests Macrotask (world s1)) with (requests Macrotask (world s)).
    destruct (bool_decide _); reflexivity. }
  split; [rewrite (q_clock _ _ _ Q); reflexivity|].
  split.
  { rewrite (q_flags _ _ _ Q).
    change (flags (sched (world s1))) with (flags (sched (world s0))).
    rewrite R0. reflexivity. }
  eapply loop_run_wf; eauto.
Qed.

End Registrations.

(** ** No two fields ever share an array *)

Definition snap_wf (e : event) : Prop :=
  match e with
  | EvRun _ _ _ _ w => wf w
  | _ => True
  end.

(** A stretch that keeps the fields apart, at its end and in every world a
    task is run in. *)
Definition sound (s s' : State) (d : list event) : Prop :=
  wf (world s) -> wf (world s') /\ Forall snap_wf d.

Lemma sound_refl (s : State) : sound s s [].
Proof. intros W. split; [exact W | constructor]. Qed.

Lemma sound_trans (s1 s2 s3 : State) (d1 d2 : list event) :
  sound s1 s2 d1 -> sound s2 s3 d2 -> sound s1 s3 (d1 ++ d2).
Proof.
  intros H1 H2 W1. destruct (H1 W1) as [W2 F1]. destruct (H2 W2) as [W3 F2].
  split; [exact W3 | apply Forall_app; split; assumption].
Qed.

Lemma sound_run (k : slot) (a : loc) (s s' : State) (d : list event) :
  loop_run k a s s' d -> sound s s' d.
Proof.
  intros L W. split; [eapply loop_run_wf; eauto|].
  apply (snapshots_invariant wf (world s) d);
    [intros c w0; apply api_effect_wf | exact W | apply (lr_snap _ _ _ _ _ L)].
Qed.

Lemma sound_log (p : phase) (s : State) : sound s (log (EvPhase p) s) [EvPhase p].
Proof. intros W. split; [exact W | repeat constructor]. Qed.

Lemma sound_inert (g : World -> World) (s : State) :
  inert (world s) (g (world s)) -> sound s (on_world g s) [].
Proof. intros I W. split; [eapply inert_wf; eauto | constructor]. Qed.

Lemma sound_assigned (g : World -> World) (p : path) (v : option loc) (s : State) :
  assigned p v (world s) (g (world s)) -> sound s (on_world g s) [].
Proof. intros A W. split; [eapply assigned_wf; eauto | constructor]. Qed.

Section Sound.

Variable behaviour : task -> State -> list action.

Lemma flush_sound (dm : domain) (fuel : nat) (s s' : State) :
  wf (world s) ->
  final (flush behaviour dm fuel s) = Some s' ->
  wf (world s') /\ exists d, trace s' = trace s ++ d /\ Forall snap_wf d.
Proof.
  intros W Hf.
  assert (Hshape : flush_shape sound dm s (flush behaviour dm fuel s)).
  { destruct dm; simpl.
    - apply microtask_flush_keeps;
        first [ exact sound_refl | exact sound_trans | exact (run_keeps _ _ sound_run)
              | exact sound_log
              | intros s0; eapply sound_assigned, detach_microtasks_assigned ].
    - apply macrotask_flush_keeps;
        first [ exact sound_refl | exact sound_trans | exact (run_keeps _ _ sound_run)
              | intros s0; eapply sound_assigned, detach_macrotasks_assigned ].
    - apply (frame_flush_keeps behaviour sound (_nextFrame (sched (world s))));
        first [ exact sound_refl | exact sound_trans | exact (run_keeps _ _ sound_run)
              | exact sound_log | reflexivity
              | intros s0; apply sound_inert, inert_clear_frame_flag
              | intros i s0; eapply sound_assigned, null_group_assigned
              | intros s0; eapply sound_assigned, null_readTasks_assigned ]. }
  assert (W0 : wf (world (on_world (flush_begin dm) s))).
  { simpl. eapply inert_wf; [apply inert_flush_begin | exact W]. }
  destruct (flush behaviour dm fuel s) as [s1|s1|]; simpl in Hf; [| |discriminate];
    injection Hf as <-.
  - destruct Hshape as (s2 & d & So & T & ->). destruct (So W0) as [W2 F]. split.
    + simpl. eapply inert_wf; [apply inert_flush_end | exact W2].
    + exists d. split; assumption.
  - destruct Hshape as (d & So & T). destruct (So W0) as [W2 F].
    split; [exact W2|]. exists d. split; assumption.
Qed.

(** X10: Every field of the scheduler and of its two frames that holds an
    array holds an array of its own: in every reachable state, and in every
    world a task was run in, each non-null field refers to an existing
    array and no two fields (the two queues, and [writeTasks], [readTasks],
    [afterTasks] and the priority groups of either frame) refer to the same
    one.  So a task appended through one field never shows up behind
    another. *)
Theorem fields_never_share_an_array (s : State) :
  reachable behaviour s ->
  wf (world s) /\ Forall snap_wf (trace s).
Proof.
  induction 1 as [|s s' _ [IHs IHt] Hstep].
  - split; [exact wf_new_Scheduler | constructor].
  - destruct Hstep as [a s|dm fuel s s' Hf].
    + split; [apply wf_do_action, IHs|].
      destruct (do_action_spec a s) as [cs ->]. cbn [trace].
      apply Forall_app. split; [exact IHt|].
      clear. induction cs; simpl; constructor; simpl; auto.
    + destruct (flush_sound dm fuel s s' IHs Hf) as (W' & d & T & F).
      split; [exact W'|]. rewrite T. apply Forall_app. split; assumption.
Qed.

End Sound.

(** ** A flush with nothing to do *)

(** Nothing is queued for the flush of [dm]: its queue is empty, or none of
    the flags of the next frame is set. *)
Definition nothing_to_do (dm : domain) (w : World) : Prop :=
  match dm with
  | Microtask => contents w PMicro = []
  | Macrotask => contents w PMacro = []
  | Frametask =>
      frame_flag w (_nextFrame (sched w)) FrameFlags.WRITE_ANY = false /\
      frame_flag w (_nextFrame (sched w)) FrameFlags.READ = false /\
      frame_flag w (_nextFrame (sched w)) FrameFlags.AFTER = false
  end.

(** The phase boundaries a flush passes when it runs no task. *)
Definition idle_marks (dm : domain) : list event :=
  match dm with
  | Frametask => [EvPhase PhWrite; EvPhase PhRead; EvPhase PhAfter]
  | _ => []
  end.

Lemma frame_flag_frame_begin (w : World) (f : fid) (c : Z) :
  frame_flag (frame_begin w) f c = frame_flag w f c.
Proof. unfold frame_flag, frame_begin. destruct f; reflexivity. Qed.

Section Idle.

Variable behaviour : task -> State -> list action.

(** X11: A flush that finds nothing to do still does all its bookkeeping and
    nothing else: it returns, runs no task, and the world afterwards is the
    world before with the opening and the closing bookkeeping applied, so
    the clock has been incremented once (it is one more, unless it had
    reached 2^53, where incrementing a JavaScript number changes nothing)
    and, for a frame flush, the two frames are swapped.  Whether a frame
    flush has something to do is read off the flags of the frame alone:
    tasks still sitting in its arrays are not run when the flags are
    clear. *)
Theorem idle_flush_only_keeps_books (dm : domain) (fuel : nat) (s : State) :
  (2 <= fuel)%nat ->
  nothing_to_do dm (world s) ->
  flush behaviour dm fuel s =
    Done (mkState (flush_end dm (flush_begin dm (world s))) (trace s ++ idle_marks dm)) /\
  ran (idle_marks dm) = [] /\
  clock (sched (flush_end dm (flush_begin dm (world s)))) =
    js_incr (clock (sched (world s))) /\
  (- 2 ^ 53 <= clock (sched (world s)) < 2 ^ 53 ->
   clock (sched (flush_end dm (flush_begin dm (world s)))) = clock (sched (world s)) + 1) /\
  (clock (sched (world s)) = 2 ^ 53 ->
   clock (sched (flush_end dm (flush_begin dm (world s)))) = clock (sched (world s))) /\
  heap (flush_end dm (flush_begin dm (world s))) = heap (world s) /\
  forall p, loc_at (flush_end dm (flush_begin dm (world s))) p = loc_at (world s) p.
Proof.
  intros Hfuel Hidle.
  assert (I : inert (world s) (flush_end dm (flush_begin dm (world s)))).
  { eapply inert_trans; [apply inert_flush_begin | apply inert_flush_end]. }
  assert (Hclk : clock (sched (flush_end dm (flush_begin dm (world s)))) =
                 js_incr (clock (sched (world s))))
    by (rewrite clock_flush_end, clock_flush_begin; reflexivity).
  split; [|split; [destruct dm; reflexivity|
           split; [exact Hclk|
           split; [intros Hc; rewrite Hclk; apply js_incr_exact, Hc|
           split; [intros Hc; rewrite Hclk, Hc; apply js_incr_limit | exact I]]]]].
  destruct fuel as [|[|fuel]]; [lia..|].
  destruct dm; simpl in Hidle.
  - unfold flush, _microtaskScheduler. cbn [micro_waves].
    replace (array_at (world (on_world (set_sched_flag SchedulerFlags.RUNNING) s))
               (_microtasks (sched (world (on_world (set_sched_flag SchedulerFlags.RUNNING) s)))))
      with (@nil task) by (symmetry; exact Hidle).
    simpl. rewrite app_nil_r. reflexivity.
  - unfold flush, _macrotaskScheduler. cbv zeta.
    set (s0 := on_world _ s).
    replace (array_at (world s0) (_macrotasks (sched (world s0))))
      with (@nil task) by (symmetry; exact Hidle).
    simpl. rewrite app_nil_r. reflexivity.
  - destruct Hidle as (Hw & Hr & Ha).
    unfold flush, _handleAnimationFrame.
    set (f := _nextFrame (sched (world s))) in *.
    change (_currentFrame (sched (world (on_world frame_begin s)))) with f.
    assert (Hflag : forall c,
      flag_test (frame_flags (frame_of (frame_begin (world s)) f)) c =
      frame_flag (world s) f c).
    { intros c. apply frame_flag_frame_begin. }
    cbn [alternation write_while read_while after_while log on_world world trace obind].
    repeat (rewrite ?Hflag, ?Hw, ?Hr, ?Ha;
            cbn [alternation write_while read_while after_while log on_world world
                 trace obind]).
    unfold on_world, log. cbn [world trace]. rewrite <- !app_assoc. reflexivity.
Qed.

End Idle.

(** ** The waves of the read loop *)

(** Wave after wave: a wave is run when READ is set ([b]); the first wave
    runs the read tasks [q] of the frame, each later wave runs the read
    tasks that the wave before it scheduled into the frame, and the waves
    end when a wave has scheduled none. *)
Fixpoint read_chain (f : fid) (b : bool) (q : list task) (ws : list (list event)) : Prop :=
  match ws with
  | [] => b = false
  | w :: ws' =>
      b = true /\ ran w = q /\
      read_chain f (negb (bool_decide (pushes (PRead f) (apis_of w) = [])))
                 (pushes (PRead f) (apis_of w)) ws'
  end.

(** READ is among the flags a sequence of API calls sets in frame [f]
    exactly when one of them appends a read task to [f]. *)
Lemma read_bit_push (f : fid) (c : api) :
  flag_test (frame_bit c f) FrameFlags.READ =
  negb (bool_decide (pushes (PRead f) [c] = [])).
Proof.
  destruct c as [cb|cb| | |g [t|t rank|cb|cb]]; try reflexivity;
    unfold pushes; simpl; destruct (decide (g = f)) as [->|Hne]; simpl;
    repeat case_decide; try reflexivity; congruence.
Qed.

Lemma nonempty_app (l1 l2 : list task) :
  negb (bool_decide (l1 ++ l2 = [])) =
  negb (bool_decide (l1 = [])) || negb (bool_decide (l2 = [])).
Proof. destruct l1, l2; reflexivity. Qed.

Lemma read_bit_pushes (f : fid) (cs : list api) :
  existsb (fun c => flag_test (frame_bit c f) FrameFlags.READ) cs =
  negb (bool_decide (pushes (PRead f) cs = [])).
Proof.
  induction cs as [|c cs IH]; [reflexivity|].
  change (c :: cs) with ([c] ++ cs). rewrite pushes_app, nonempty_app, <- IH.
  cbn [app existsb]. rewrite read_bit_push. reflexivity.
Qed.

Section ReadWaves.

Variable behaviour : task -> State -> list action.

(** X12: The read loop of a frame flush, when it returns, has run wave after
    wave.  If READ was clear it ran nothing.  Otherwise the first wave ran
    the read tasks the frame held, in the order they were scheduled, and
    every later wave ran exactly the read tasks that the wave before it
    scheduled into the frame being flushed: a read task scheduled from a
    read task runs in the same flush, after all the read tasks of its wave.
    The last wave scheduled none; no read task is left and READ is clear. *)
Theorem read_tasks_run_in_waves (fuel : nat) (f : fid) (s s' : State) :
  wf (world s) ->
  read_while behaviour fuel f s = Done s' ->
  exists ws,
    trace s' = trace s ++ concat ws /\
    read_chain f (frame_flag (world s) f FrameFlags.READ)
               (contents (world s) (PRead f)) ws /\
    Forall (Forall read_event) ws /\
    (frame_flag (world s) f FrameFlags.READ = true ->
     contents (world s') (PRead f) = []) /\
    frame_flag (world s') f FrameFlags.READ = false /\
    wf (world s').
Proof.
  revert s. induction fuel as [|fuel IH]; intros s W; [discriminate|].
  cbn [read_while]. fold (frame_flag (world s) f FrameFlags.READ).
  destruct (frame_flag (world s) f FrameFlags.READ) eqn:Hflag.
  - set (s1 := on_world (clear_frame_flag f FrameFlags.READ) s).
    set (s2 := on_world (null_readTasks f) s1).
    pose proof (inert_clear_frame_flag f FrameFlags.READ (world s)) as I1.
    assert (W1 : wf (world s1)) by (eapply inert_wf; eauto).
    pose proof (null_readTasks_assigned f (world s1)) as A.
    assert (W2 : wf (world s2)) by (eapply assigned_wf; eauto).
    assert (F2 : frame_flag (world s2) f FrameFlags.READ = false).
    { subst s2 s1. cbn [on_world world].
      rewrite frame_flag_null_readTasks, frame_flag_clear.
      apply flag_test_clear_in. reflexivity. }
    assert (C2 : contents (world s2) (PRead f) = []).
    { change (world s2) with (null_readTasks f (world s1)).
      rewrite (assigned_contents _ _ _ _ (PRead f) A W1).
      destruct (decide (PRead f = PRead f)); [reflexivity | congruence]. }
    destruct (readTasks (frame_of (world s1) f)) as [g|] eqn:Hg; [|discriminate].
    assert (D2 : detached (world s2) g) by (eapply assigned_detaches; eauto).
    assert (Hq : array_at (world s2) g = contents (world s) (PRead f)).
    { change (world s2) with (null_readTasks f (world s1)).
      rewrite (assigned_array_at _ _ _ _ _ A).
      rewrite <- (inert_contents _ _ (PRead f) I1).
      unfold contents. change (loc_at (clear_frame_flag f FrameFlags.READ (world s)) (PRead f))
        with (readTasks (frame_of (world s1) f)). rewrite Hg. reflexivity. }
    destruct (for_each fuel _ g 0 s2) as [s3|s3|] eqn:E; cbn [obind]; [|discriminate..].
    intros H.
    destruct (for_each_detached behaviour _ _ _ _ _ _ (runner_call behaviour InRead) D2 E)
      as (d & L & K & _ & _).
    assert (W3 : wf (world s3)) by (eapply loop_run_wf; eauto).
    assert (C3 : contents (world s3) (PRead f) = pushes (PRead f) (apis_of d)).
    { rewrite (lr_world _ _ _ _ _ L), apply_apis_contents, C2 by assumption.
      reflexivity. }
    assert (F3 : frame_flag (world s3) f FrameFlags.READ =
                 negb (bool_decide (pushes (PRead f) (apis_of d) = []))).
    { unfold frame_flag. rewrite (lr_world _ _ _ _ _ L), apply_apis_frame_flags.
      fold (frame_flag (world s2) f FrameFlags.READ). rewrite F2. simpl.
      apply read_bit_pushes. }
    destruct (IH s3 W3 H) as (ws & Ht & Hc & Hw & Hn & Hf & W').
    exists (d :: ws).
    split.
    { rewrite Ht, (lr_trace _ _ _ _ _ L). simpl. rewrite <- app_assoc. reflexivity. }
    split.
    { simpl. split; [reflexivity|]. split.
      - rewrite ran_run_keys, K, map_snd_keys. exact Hq.
      - rewrite <- F3, <- C3. exact Hc. }
    split.
    { constructor; [|exact Hw].
      eapply Forall_impl; [apply (lr_loop _ _ _ _ _ L) | apply in_loop_read]. }
    split.
    { intros _. destruct (frame_flag (world s3) f FrameFlags.READ) eqn:F3'.
      - apply Hn. reflexivity.
      - destruct ws as [|w ws]; [|destruct Hc as [Hc _]; discriminate].
        simpl in Ht. rewrite app_nil_r in Ht.
        symmetry in F3. apply negb_false_iff, bool_decide_eq_true in F3.
        assert (Hs : s' = s3).
        { destruct fuel as [|fuel']; [discriminate|].
          cbn [read_while] in H. fold (frame_flag (world s3) f FrameFlags.READ) in H.
          rewrite F3' in H. congruence. }
        subst s'. rewrite C3. exact F3. }
    split; [exact Hf | exact W'].
  - intros [= <-]. exists [].
    split; [symmetry; apply app_nil_r|]. split; [reflexivity|].
    split; [constructor|]. split; [discriminate|]. split; [exact Hflag | exact W].
Qed.

End ReadWaves.

(** ** Tasks that leave the frame being flushed alone *)

(** The task schedules microtasks, macrotasks and work for the next frame,
    or raises; it does not reach for the current frame or for a frame it
    holds a reference to. *)
Definition defers (a : action) : Prop :=
  match a with
  | OnCurrentFrame _ => False
  | OnFrame _ _ => False
  | _ => True
  end.

(** The API call does not schedule into frame [f]. *)
Definition misses (f : fid) (c : api) : Prop :=
  match c with
  | ApiFrame g _ => g <> f
  | _ => True
  end.

(** The frame a field belongs to. *)
Definition path_frame (p : path) : option fid :=
  match p with
  | PMicro => None
  | PMacro => None
  | PWrite f => Some f
  | PRead f => Some f
  | PAfter f => Some f
  | PGroup f _ => Some f
  end.

Lemma api_effect_misses (f : fid) (c : api) (w : World) :
  misses f c -> frame_of (api_effect c w) f = frame_of w f.
Proof.
  destruct c as [cb|cb| | |g op]; cbn [api_effect misses]; intros H.
  - unfold scheduleMicrotask. rewrite frame_of_push.
    destruct (flag_test _ _); [reflexivity|].
    rewrite frame_of_with_host. apply frame_of_with_sched.
  - unfold scheduleMacrotask. rewrite frame_of_push.
    destruct (flag_test _ _); [reflexivity|].
    rewrite frame_of_with_host. apply frame_of_with_sched.
  - unfold nextFrame. cbn [snd]. destruct (flag_test _ _); [reflexivity|].
    rewrite frame_of_with_host. apply frame_of_with_sched.
  - reflexivity.
  - destruct f, g; try congruence;
      destruct op as [t|t rank|cb|cb]; cbn [frame_apply];
      unfold frame_write, frame_write_prio, frame_read, frame_after.
    all: try (destruct (writeTasks _); reflexivity).
    all: try (destruct (readTasks _); reflexivity).
    all: try (destruct (afterTasks _); reflexivity).
    all: destruct (_ !! rank) as [[a|]|]; reflexivity.
Qed.

Lemma apply_apis_misses (f : fid) (cs : list api) (w : World) :
  Forall (misses f) cs -> frame_of (apply_apis cs w) f = frame_of w f.
Proof.
  revert w. induction cs as [|c cs IH]; intros w H; [reflexivity|].
  inversion H as [|? ? Hc Hcs]; subst. simpl.
  rewrite IH by assumption. apply api_effect_misses, Hc.
Qed.

Lemma pushes_misses (f : fid) (p : path) (cs : list api) :
  Forall (misses f) cs -> path_frame p = Some f -> pushes p cs = [].
Proof.
  intros H Hp. induction H as [|c cs Hc _ IH]; [reflexivity|].
  change (c :: cs) with ([c] ++ cs). rewrite pushes_app, IH, app_nil_r.
  unfold pushes. simpl.
  destruct c as [cb|cb| | |g [t|t rank|cb|cb]]; simpl in *;
    try reflexivity; case_decide; try reflexivity; subst p; simpl in Hp; congruence.
Qed.

Lemma Forall_misses_apis_of (f : fid) (cs : list api) :
  Forall (misses f) cs -> Forall (misses f) (apis_of (map EvApi cs)).
Proof. rewrite apis_of_map. auto. Qed.

Lemma do_action_defers (f : fid) (a : action) (s : State) :
  defers a -> _nextFrame (sched (world s)) <> f ->
  exists cs, do_action a s =
               mkState (apply_apis cs (world s)) (trace s ++ map EvApi cs) /\
             Forall (misses f) cs.
Proof.
  intros Ha Hn. destruct a as [cb|cb|ops|ops|g ops|]; simpl in Ha; try contradiction;
    simpl.
  - exists [ApiMicrotask cb]. split; [reflexivity | repeat constructor].
  - exists [ApiMacrotask cb]. split; [reflexivity | repeat constructor].
  - exists (ApiNextFrame :: map (ApiFrame (_nextFrame (sched (snd (nextFrame (world s)))))) ops).
    split.
    + unfold nextFrame at 1. simpl. rewrite do_frame_ops_spec. simpl.
      rewrite <- app_assoc. reflexivity.
    + constructor; [exact I|]. apply Forall_map, Forall_forall. intros op _. simpl.
      destruct (api_effect_frames ApiNextFrame (world s)) as [_ E].
      simpl in E. rewrite E. exact Hn.
  - exists []. split; [|constructor]. simpl. rewrite app_nil_r. destruct s; reflexivity.
Qed.

Lemma run_actions_defers (f : fid) (acts : list action) (s : State) :
  Forall defers acts -> _nextFrame (sched (world s)) <> f ->
  exists cs s',
    (run_actions acts s = Done s' \/ run_actions acts s = Raised s') /\
    world s' = apply_apis cs (world s) /\
    trace s' = trace s ++ map EvApi cs /\
    Forall (misses f) cs.
Proof.
  intros Ha. revert s. induction Ha as [|a acts Hd _ IH]; intros s Hn.
  - exists [], s. simpl. rewrite app_nil_r. repeat split; auto.
  - destruct (do_action_defers f a s Hd Hn) as (cs1 & H1 & M1).
    assert (Hn1 : _nextFrame (sched (world (do_action a s))) <> f).
    { rewrite H1. cbn [world].
      destruct (apply_apis_frames cs1 (world s)) as [_ ->]. exact Hn. }
    destruct (IH (do_action a s) Hn1) as (cs2 & s' & Hr & Hw & Ht & M2).
    assert (Hgo : exists cs s',
      (run_actions acts (do_action a s) = Done s' \/
       run_actions acts (do_action a s) = Raised s') /\
      world s' = apply_apis cs (world s) /\ trace s' = trace s ++ map EvApi cs /\
      Forall (misses f) cs).
    { exists (cs1 ++ cs2), s'. split; [exact Hr|].
      rewrite Hw, Ht, H1. simpl.
      rewrite apply_apis_app, map_app, app_assoc.
      repeat split. apply Forall_app. split; assumption. }
    destruct a; try exact Hgo.
    exists [], s. simpl. rewrite app_nil_r. repeat split; auto.
Qed.

Lemma ran_app (d1 d2 : list event) : ran (d1 ++ d2) = ran d1 ++ ran d2.
Proof. apply omap_app. Qed.

Lemma ran_apis (cs : list api) : ran (map EvApi cs) = [].
Proof. rewrite ran_run_keys, run_keys_map. reflexivity. Qed.

(** An array that API calls which miss [f] cannot append to: no field
    refers to it, or a field of [f] does. *)
Definition stable (f : fid) (w : World) (a : loc) : Prop :=
  detached w a \/ exists p, path_frame p = Some f /\ loc_at w p = Some a.

Lemma stable_apply_apis (f : fid) (cs : list api) (w : World) (a : loc) :
  Forall (misses f) cs -> wf w -> stable f w a ->
  stable f (apply_apis cs w) a /\ array_at (apply_apis cs w) a = array_at w a.
Proof.
  intros M W [D|(p & Hp & Hl)].
  - pose proof (apply_apis_extends cs w) as E. split.
    + left. eapply detached_extends; eauto.
    + apply (ext_detached _ _ E a D).
  - pose proof (apply_apis_persist cs w p a Hl) as Hl'. split.
    + right. exists p. split; assumption.
    + pose proof (apply_apis_contents cs w p W) as C.
      unfold contents in C. rewrite Hl', Hl in C.
      rewrite C, (pushes_misses f p cs M Hp). apply app_nil_r.
Qed.

Section Defers.

Variable behaviour : task -> State -> list action.
Variable f : fid.

Hypothesis behaviour_defers : forall t s, Forall defers (behaviour t s).

Lemma invoke_defers (k : slot) (a : loc) (i : nat) (t : task) (s : State) :
  _nextFrame (sched (world s)) <> f ->
  exists cs s',
    (invoke behaviour k a i t s = Done s' \/ invoke behaviour k a i t s = Raised s') /\
    loop_run k a s s' (EvRun k a i t (world s) :: map EvApi cs) /\
    Forall (misses f) cs.
Proof.
  intros Hn. unfold invoke.
  destruct (run_actions_defers f (behaviour t s) (log (EvRun k a i t (world s)) s)
              (behaviour_defers t s) Hn)
    as (cs & s' & Hr & Hw & Ht & M).
  exists cs, s'. split; [exact Hr|]. simpl in Hw, Ht. split; [|exact M]. split.
  - rewrite Ht, <- app_assoc. reflexivity.
  - rewrite Hw. simpl. change (apis_of (EvRun k a i t (world s) :: map EvApi cs))
      with (apis_of (map EvApi cs)). rewrite apis_of_map. reflexivity.
  - simpl. split; [reflexivity | apply snapshots_ok_apis].
  - constructor; [simpl; auto | apply Forall_in_loop_apis].
Qed.

(** The state is one in which running tasks leaves [f] alone. *)
Definition calm (s : State) : Prop :=
  wf (world s) /\ _nextFrame (sched (world s)) <> f.

(** A run of tasks that left [f] alone. *)
Record calm_run (k : slot) (a : loc) (s s' : State) (d : list event) : Prop := {
  cr_run : loop_run k a s s' d;
  cr_misses : Forall (misses f) (apis_of d)
}.

Lemma calm_run_calm (k : slot) (a : loc) (s s' : State) (d : list event) :
  calm_run k a s s' d -> calm s -> calm s'.
Proof.
  intros [L M] [W N]. split; [eapply loop_run_wf; eauto|].
  rewrite (lr_world _ _ _ _ _ L).
  destruct (apply_apis_frames (apis_of d) (world s)) as [_ ->]. exact N.
Qed.

Lemma calm_run_frame (k : slot) (a : loc) (s s' : State) (d : list event) :
  calm_run k a s s' d -> frame_of (world s') f = frame_of (world s) f.
Proof. intros [L M]. rewrite (lr_world _ _ _ _ _ L). apply apply_apis_misses, M. Qed.

Lemma calm_run_stable (k : slot) (a : loc) (s s' : State) (d : list event) (b : loc) :
  calm_run k a s s' d -> wf (world s) -> stable f (world s) b ->
  stable f (world s') b /\ array_at (world s') b = array_at (world s) b.
Proof.
  intros [L M] W S. rewrite (lr_world _ _ _ _ _ L). apply stable_apply_apis; assumption.
Qed.

Lemma calm_run_app (k : slot) (a : loc) (s1 s2 s3 : State) (d1 d2 : list event) :
  calm_run k a s1 s2 d1 -> calm_run k a s2 s3 d2 -> calm_run k a s1 s3 (d1 ++ d2).
Proof.
  intros [L1 M1] [L2 M2]. split; [eapply loop_run_app; eauto|].
  rewrite apis_of_app. apply Forall_app. split; assumption.
Qed.

(** A loop over a stable array ends, having run every element once, in
    order, unless a task raised. *)
Lemma for_each_stable (fuel : nat) (k : slot)
    (run : loc -> nat -> task -> State -> outcome) (a : loc) (i : nat) (s : State) :
  runner behaviour k run -> calm s -> stable f (world s) a ->
  (length (array_at (world s) a) - i < fuel)%nat ->
  exists s' d,
    calm_run k a s s' d /\
    ((for_each fuel run a i s = Done s' /\
      ran d = drop i (array_at (world s) a)) \/
     for_each fuel run a i s = Raised s').
Proof.
  intros R. revert i s. induction fuel as [|fuel IH]; intros i s C St Hlt; [lia|].
  cbn [for_each]. destruct (array_at (world s) a !! i) as [t|] eqn:Ht.
  - pose proof (lookup_lt_Some _ _ _ Ht) as Hi.
    destruct (R a i t s) as [-> | ->].
    + destruct (invoke_defers k a i t s (proj2 C)) as (cs & s1 & Hr & L1 & M1).
      assert (CR1 : calm_run k a s s1 (EvRun k a i t (world s) :: map EvApi cs)).
      { split; [exact L1|]. change (apis_of (EvRun k a i t (world s) :: map EvApi cs))
          with (apis_of (map EvApi cs)). rewrite apis_of_map. exact M1. }
      destruct Hr as [-> | ->]; cbn [obind].
      * destruct (calm_run_stable _ _ _ _ _ a CR1 (proj1 C) St) as [S1 A1].
        destruct (IH (S i) s1 (calm_run_calm _ _ _ _ _ CR1 C) S1) as (s' & d & CR & H).
        { rewrite A1. lia. }
        exists s', ((EvRun k a i t (world s) :: map EvApi cs) ++ d).
        split; [eapply calm_run_app; eauto|].
        destruct H as [[-> Hran] | ->]; [left | right; reflexivity].
        split; [reflexivity|].
        rewrite ran_app. change (ran (EvRun k a i t (world s) :: map EvApi cs))
          with (t :: ran (map EvApi cs)).
        rewrite ran_apis, Hran, A1. symmetry. apply drop_S. exact Ht.
      * exists s1, (EvRun k a i t (world s) :: map EvApi cs). split; [exact CR1|].
        right. reflexivity.
    + exists s, []. split; [split; [apply loop_run_nil | constructor]|].
      right. reflexivity.
  - exists s, []. split; [split; [apply loop_run_nil | constructor]|].
    left. split; [reflexivity|]. rewrite drop_ge; [reflexivity|].
    apply lookup_ge_None. exact Ht.
Qed.

End Defers.

(** ** The loops of the frame flush over a frame that is left alone *)

(** The tasks in the priority groups of [f] from rank [i] on, rank by
    rank. *)
Definition group_tasks (w : World) (f : fid) (i : nat) : list task :=
  concat (map (fun og => match og with Some a => array_at w a | None => [] end)
              (drop i (writeTaskGroups (frame_of w f)))).

(** The computation ends; when it returns, [P] holds of the final state and
    of the events logged. *)
Definition ends (s : State) (r : outcome) (P : State -> list event -> Prop) : Prop :=
  match r with
  | Done s' => exists d, trace s' = trace s ++ d /\ P s' d
  | Raised _ => True
  | OutOfFuel => False
  end.

Lemma ends_bind (s : State) (m : outcome) (k : State -> outcome)
    (P Q : State -> list event -> Prop) :
  ends s m P ->
  (forall s1 d1, trace s1 = trace s ++ d1 -> P s1 d1 ->
     ends s1 (k s1) (fun s2 d2 => Q s2 (d1 ++ d2))) ->
  ends s (obind m k) Q.
Proof.
  destruct m as [s1|s1|]; simpl; [|auto..].
  intros (d1 & T1 & H1) Hk. specialize (Hk s1 d1 T1 H1).
  destruct (k s1) as [s2|s2|]; simpl in *; auto.
  destruct Hk as (d2 & T2 & H2). exists (d1 ++ d2).
  split; [rewrite T2, T1; symmetry; apply app_assoc | exact H2].
Qed.

Lemma ends_weaken (s : State) (r : outcome) (P Q : State -> list event -> Prop) :
  (forall s' d, P s' d -> Q s' d) -> ends s r P -> ends s r Q.
Proof.
  intros H. destruct r as [s'|s'|]; simpl; auto.
  intros (d & T & HP). exists d. auto.
Qed.

Lemma ends_after (s s1 : State) (d1 : list event) (r : outcome)
    (Q : State -> list event -> Prop) :
  trace s1 = trace s ++ d1 ->
  ends s1 r (fun s2 d2 => Q s2 (d1 ++ d2)) -> ends s r Q.
Proof.
  intros T1. destruct r as [s2|s2|]; simpl; auto.
  intros (d2 & T2 & H2). exists (d1 ++ d2).
  split; [rewrite T2, T1; symmetry; apply app_assoc | exact H2].
Qed.

(** The four flags of frame [f]: WRITE_PRIO, WRITE, READ and AFTER. *)
Definition bits (f : fid) (w : World) : bool * bool * bool * bool :=
  (frame_flag w f FrameFlags.WRITE_PRIO, frame_flag w f FrameFlags.WRITE,
   frame_flag w f FrameFlags.READ, frame_flag w f FrameFlags.AFTER).

(** What is queued behind the plain fields of [f]. *)
Definition queued (f : fid) (w : World) : list task * list task * list task :=
  (contents w (PWrite f), contents w (PRead f), contents w (PAfter f)).

Lemma bits_same_flags (f : fid) (w w' : World) :
  frame_flags (frame_of w' f) = frame_flags (frame_of w f) -> bits f w' = bits f w.
Proof. intros H. unfold bits, frame_flag. rewrite H. reflexivity. Qed.

Lemma flag_test_lor (x a b : Z) :
  flag_test x (Z.lor a b) = flag_test x a || flag_test x b.
Proof.
  unfold flag_test. rewrite Z.land_lor_distr_r.
  destruct (Z.eqb_spec (Z.land x a) 0) as [E1|E1];
    destruct (Z.eqb_spec (Z.land x b) 0) as [E2|E2]; simpl;
    destruct (Z.eqb_spec (Z.lor (Z.land x a) (Z.land x b)) 0) as [E|E];
    try reflexivity; exfalso.
  - apply E. apply Z.lor_eq_0_iff. split; assumption.
  - apply Z.lor_eq_0_iff in E. tauto.
  - apply Z.lor_eq_0_iff in E. tauto.
  - apply Z.lor_eq_0_iff in E. tauto.
Qed.

Lemma frame_flag_write_any (f : fid) (w : World) :
  frame_flag w f FrameFlags.WRITE_ANY =
  frame_flag w f FrameFlags.WRITE || frame_flag w f FrameFlags.WRITE_PRIO.
Proof. apply flag_test_lor. Qed.

Lemma bits_clear (f : fid) (c : Z) (w : World) :
  bits f (clear_frame_flag f c w) =
  (flag_test (flag_clear (frame_flags (frame_of w f)) c) FrameFlags.WRITE_PRIO,
   flag_test (flag_clear (frame_flags (frame_of w f)) c) FrameFlags.WRITE,
   flag_test (flag_clear (frame_flags (frame_of w f)) c) FrameFlags.READ,
   flag_test (flag_clear (frame_flags (frame_of w f)) c) FrameFlags.AFTER).
Proof. unfold bits. rewrite !frame_flag_clear. reflexivity. Qed.

Lemma queued_inert (f : fid) (w w' : World) : inert w w' -> queued f w' = queued f w.
Proof. intros I. unfold queued. rewrite !(inert_contents _ _ _ I). reflexivity. Qed.

Lemma queued_null_group (f : fid) (i : nat) (w : World) :
  wf w -> queued f (null_group f i w) = queued f w.
Proof.
  intros W. unfold queued.
  rewrite !(assigned_contents _ _ _ _ _ (null_group_assigned f i w) W).
  repeat case_decide; try discriminate. reflexivity.
Qed.

Lemma flags_null_group (f : fid) (i : nat) (w : World) :
  frame_flags (frame_of (null_group f i w) f) = frame_flags (frame_of w f).
Proof. unfold null_group. rewrite frame_of_with_frame_eq. reflexivity. Qed.

Lemma groups_null_group (f : fid) (i : nat) (w : World) :
  writeTaskGroups (frame_of (null_group f i w) f) =
  <[i := None]> (writeTaskGroups (frame_of w f)).
Proof. unfold null_group. rewrite frame_of_with_frame_eq. reflexivity. Qed.

Lemma next_with_frame (w : World) (f : fid) (fr : Frame) :
  _nextFrame (sched (with_frame w f fr)) = _nextFrame (sched w).
Proof. rewrite sched_with_frame. reflexivity. Qed.

Lemma calm_run_queued (f : fid) (k : slot) (a : loc) (s s' : State) (d : list event) :
  calm_run f k a s s' d -> wf (world s) -> queued f (world s') = queued f (world s).
Proof.
  intros [L M] W. unfold queued. rewrite (lr_world _ _ _ _ _ L).
  rewrite !apply_apis_contents by assumption.
  rewrite !(pushes_misses f _ _ M) by reflexivity. rewrite !app_nil_r. reflexivity.
Qed.

Lemma calm_run_bits (f : fid) (k : slot) (a : loc) (s s' : State) (d : list event) :
  calm_run f k a s s' d -> bits f (world s') = bits f (world s).
Proof. intros CR. apply bits_same_flags. rewrite (calm_run_frame _ _ _ _ _ _ CR). reflexivity. Qed.

Lemma concat_map_ext (F G : option loc -> list task) (l : list (option loc)) :
  Forall (fun og => F og = G og) l -> concat (map F l) = concat (map G l).
Proof. induction 1 as [|og l H _ IH]; simpl; [reflexivity|]. rewrite H, IH. reflexivity. Qed.

Lemma group_tasks_agree (f : fid) (w w' : World) (i : nat) :
  drop i (writeTaskGroups (frame_of w' f)) = drop i (writeTaskGroups (frame_of w f)) ->
  (forall j a, (i <= j)%nat -> writeTaskGroups (frame_of w f) !! j = Some (Some a) ->
               array_at w' a = array_at w a) ->
  group_tasks w' f i = group_tasks w f i.
Proof.
  intros Hd Ha. unfold group_tasks. rewrite Hd. apply concat_map_ext.
  apply Forall_lookup. intros j [a|] Hj; [|reflexivity].
  rewrite lookup_drop in Hj. eapply Ha; [|exact Hj]. lia.
Qed.

Lemma group_tasks_step (f : fid) (w : World) (i : nat) (og : option loc) :
  writeTaskGroups (frame_of w f) !! i = Some og ->
  group_tasks w f i =
  match og with Some a => array_at w a | None => [] end ++ group_tasks w f (S i).
Proof. intros H. unfold group_tasks. rewrite (drop_S _ _ _ H). reflexivity. Qed.

Lemma group_tasks_end (f : fid) (w : World) (i : nat) :
  writeTaskGroups (frame_of w f) !! i = None -> group_tasks w f i = [].
Proof.
  intros H. unfold group_tasks. rewrite drop_ge; [reflexivity|].
  apply lookup_ge_None. exact H.
Qed.

Lemma bits_clear_prio (f : fid) (w : World) :
  bits f (clear_frame_flag f FrameFlags.WRITE_PRIO w) =
  (false, frame_flag w f FrameFlags.WRITE, frame_flag w f FrameFlags.READ,
   frame_flag w f FrameFlags.AFTER).
Proof.
  rewrite bits_clear.
  rewrite (flag_test_clear_in _ FrameFlags.WRITE_PRIO FrameFlags.WRITE_PRIO eq_refl).
  rewrite (flag_test_clear_other _ FrameFlags.WRITE_PRIO FrameFlags.WRITE eq_refl).
  rewrite (flag_test_clear_other _ FrameFlags.WRITE_PRIO FrameFlags.READ eq_refl).
  rewrite (flag_test_clear_other _ FrameFlags.WRITE_PRIO FrameFlags.AFTER eq_refl).
  reflexivity.
Qed.

Lemma bits_clear_write (f : fid) (w : World) :
  bits f (clear_frame_flag f FrameFlags.WRITE w) =
  (frame_flag w f FrameFlags.WRITE_PRIO, false, frame_flag w f FrameFlags.READ,
   frame_flag w f FrameFlags.AFTER).
Proof.
  rewrite bits_clear.
  rewrite (flag_test_clear_in _ FrameFlags.WRITE FrameFlags.WRITE eq_refl).
  rewrite (flag_test_clear_other _ FrameFlags.WRITE FrameFlags.WRITE_PRIO eq_refl).
  rewrite (flag_test_clear_other _ FrameFlags.WRITE FrameFlags.READ eq_refl).
  rewrite (flag_test_clear_other _ FrameFlags.WRITE FrameFlags.AFTER eq_refl).
  reflexivity.
Qed.

Lemma bits_clear_read (f : fid) (w : World) :
  bits f (clear_frame_flag f FrameFlags.READ w) =
  (frame_flag w f FrameFlags.WRITE_PRIO, frame_flag w f FrameFlags.WRITE, false,
   frame_flag w f FrameFlags.AFTER).
Proof.
  rewrite bits_clear.
  rewrite (flag_test_clear_in _ FrameFlags.READ FrameFlags.READ eq_refl).
  rewrite (flag_test_clear_other _ FrameFlags.READ FrameFlags.WRITE_PRIO eq_refl).
  rewrite (flag_test_clear_other _ FrameFlags.READ FrameFlags.WRITE eq_refl).
  rewrite (flag_test_clear_other _ FrameFlags.READ FrameFlags.AFTER eq_refl).
  reflexivity.
Qed.

Lemma bits_clear_after (f : fid) (w : World) :
  bits f (clear_frame_flag f FrameFlags.AFTER w) =
  (frame_flag w f FrameFlags.WRITE_PRIO, frame_flag w f FrameFlags.WRITE,
   frame_flag w f FrameFlags.READ, false).
Proof.
  rewrite bits_clear.
  rewrite (flag_test_clear_in _ FrameFlags.AFTER FrameFlags.AFTER eq_refl).
  rewrite (flag_test_clear_other _ FrameFlags.AFTER FrameFlags.WRITE_PRIO eq_refl).
  rewrite (flag_test_clear_other _ FrameFlags.AFTER FrameFlags.WRITE eq_refl).
  rewrite (flag_test_clear_other _ FrameFlags.AFTER FrameFlags.READ eq_refl).
  reflexivity.
Qed.

Lemma calm_clear_frame_flag (f g : fid) (c : Z) (s : State) :
  calm f s -> calm f (on_world (clear_frame_flag g c) s).
Proof.
  intros [W N]. split.
  - eapply inert_wf; [apply inert_clear_frame_flag | exact W].
  - cbn [on_world world]. unfold clear_frame_flag. rewrite next_with_frame. exact N.
Qed.

Lemma calm_log (f : fid) (e : event) (s : State) : calm f s -> calm f (log e s).
Proof. intros C. exact C. Qed.

Lemma groups_clear_frame_flag (f : fid) (c : Z) (w : World) :
  writeTaskGroups (frame_of (clear_frame_flag f c w) f) = writeTaskGroups (frame_of w f).
Proof. unfold clear_frame_flag. rewrite frame_of_with_frame_eq. reflexivity. Qed.

Lemma group_tasks_clear_frame_flag (f : fid) (c : Z) (w : World) (i : nat) :
  group_tasks (clear_frame_flag f c w) f i = group_tasks w f i.
Proof.
  apply group_tasks_agree; [rewrite groups_clear_frame_flag; reflexivity|].
  intros j a _ _. apply inert_array_at, inert_clear_frame_flag.
Qed.

Lemma on_world_trace (g : World -> World) (s : State) : trace (on_world g s) = trace s ++ [].
Proof. symmetry. apply app_nil_r. Qed.


Section CalmLoops.

Variable behaviour : task -> State -> list action.
Variable f : fid.

Hypothesis behaviour_defers : forall t s, Forall defers (behaviour t s).

(** The priority groups from rank [i] on. *)
Lemma prio_groups_calm (fuel : nat) (i : nat) (s : State) :
  calm f s ->
  (length (writeTaskGroups (frame_of (world s) f)) - i +
   length (group_tasks (world s) f i) < fuel)%nat ->
  ends s (prio_groups behaviour fuel f i s)
    (fun s' d => calm f s' /\ bits f (world s') = bits f (world s) /\
                 queued f (world s') = queued f (world s) /\
                 ran d = group_tasks (world s) f i).
Proof.
  revert i s. induction fuel as [|fuel IH]; intros i s C Hlt; [lia|].
  cbn [prio_groups].
  destruct (writeTaskGroups (frame_of (world s) f) !! i) as [[g|]|] eqn:Hi.
  - pose proof (lookup_lt_Some _ _ _ Hi) as Hlen.
    pose proof (group_tasks_step f (world s) i _ Hi) as Hstep. cbn beta iota in Hstep.
    set (s1 := on_world (null_group f i) s).
    pose proof (null_group_assigned f i (world s)) as A.
    assert (Hloc : loc_at (world s) (PGroup f i) = Some g).
    { simpl. rewrite Hi. reflexivity. }
    assert (C1 : calm f s1).
    { split; [eapply assigned_wf; [exact A | apply C]|].
      subst s1. cbn [on_world world]. unfold null_group. rewrite next_with_frame.
      apply C. }
    assert (D1 : detached (world s1) g)
      by (eapply assigned_detaches; [exact A | apply C | exact Hloc]).
    assert (A1 : forall b, array_at (world s1) b = array_at (world s) b)
      by (intros b; apply (assigned_array_at _ _ _ _ b A)).
    destruct (for_each_stable behaviour f behaviour_defers fuel (InPrio i)
                (dispatch behaviour (InPrio i)) g 0 s1
                (runner_dispatch behaviour (InPrio i)) C1 (or_introl D1))
      as (s2 & d1 & CR & H).
    { rewrite A1. rewrite Hstep, length_app in Hlt. lia. }
    destruct H as [[-> Hran] | ->]; cbn [obind]; [|exact I].
    rewrite drop_0, A1 in Hran.
    pose proof (calm_run_calm _ _ _ _ _ _ CR C1) as C2.
    pose proof (calm_run_frame _ _ _ _ _ _ CR) as F2.
    assert (G2 : writeTaskGroups (frame_of (world s2) f) =
                 <[i := None]> (writeTaskGroups (frame_of (world s) f))).
    { rewrite F2. apply groups_null_group. }
    assert (T2 : group_tasks (world s2) f (S i) = group_tasks (world s) f (S i)).
    { apply group_tasks_agree.
      - rewrite G2. apply drop_insert_lt. lia.
      - intros j a Hj Hja.
        assert (St : stable f (world s1) a).
        { right. exists (PGroup f j). split; [reflexivity|].
          subst s1. cbn [on_world world loc_at]. rewrite groups_null_group.
          rewrite list_lookup_insert_ne by lia. rewrite Hja. reflexivity. }
        destruct (calm_run_stable _ _ _ _ _ _ a CR (proj1 C1) St) as [_ ->].
        apply A1. }
    eapply ends_after; [apply (lr_trace _ _ _ _ _ (cr_run _ _ _ _ _ _ CR))|].
    eapply ends_weaken; [|apply (IH (S i) s2 C2)].
    + intros s' d2 (C' & B' & Q' & R'). split; [exact C'|].
      split.
      { rewrite B', (calm_run_bits _ _ _ _ _ _ CR). apply bits_same_flags.
        apply flags_null_group. }
      split.
      { rewrite Q', (calm_run_queued _ _ _ _ _ _ CR (proj1 C1)).
        apply queued_null_group, C. }
      rewrite ran_app, Hran, R', T2, Hstep. reflexivity.
    + rewrite G2, length_insert, T2. rewrite Hstep, length_app in Hlt. lia.
  - pose proof (lookup_lt_Some _ _ _ Hi) as Hlen.
    pose proof (group_tasks_step f (world s) i _ Hi) as Hstep. cbn beta iota in Hstep.
    eapply ends_weaken; [|apply (IH (S i) s C)].
    + intros s' d (C' & B' & Q' & R'). rewrite Hstep. auto.
    + rewrite Hstep in Hlt. simpl in Hlt. lia.
  - exists []. split; [symmetry; apply app_nil_r|].
    rewrite (group_tasks_end f (world s) i Hi). auto.
Qed.

Lemma write_prio_calm (fuel : nat) (s : State) :
  calm f s ->
  (length (writeTaskGroups (frame_of (world s) f)) +
   length (group_tasks (world s) f 0) < fuel)%nat ->
  ends s (write_prio behaviour fuel f s)
    (fun s' d =>
       calm f s' /\
       bits f (world s') =
         (false, frame_flag (world s) f FrameFlags.WRITE,
          frame_flag (world s) f FrameFlags.READ, frame_flag (world s) f FrameFlags.AFTER) /\
       queued f (world s') = queued f (world s) /\
       ran d = if frame_flag (world s) f FrameFlags.WRITE_PRIO
               then group_tasks (world s) f 0 else []).
Proof.
  intros C Hlt. unfold write_prio. fold (frame_flag (world s) f FrameFlags.WRITE_PRIO).
  destruct (frame_flag (world s) f FrameFlags.WRITE_PRIO) eqn:Hp.
  - set (s1 := on_world (clear_frame_flag f FrameFlags.WRITE_PRIO) s).
    apply (ends_after s s1 []); [apply on_world_trace|].
    eapply ends_weaken; [|apply (prio_groups_calm fuel 0 s1)].
    + intros s' d (C' & B' & Q' & R'). split; [exact C'|].
      split; [rewrite B'; apply bits_clear_prio|].
      split; [rewrite Q'; apply queued_inert, inert_clear_frame_flag|].
      rewrite app_nil_l, R'. apply group_tasks_clear_frame_flag.
    + apply calm_clear_frame_flag, C.
    + subst s1. cbn [on_world world].
      rewrite groups_clear_frame_flag, group_tasks_clear_frame_flag. lia.
  - exists []. split; [symmetry; apply app_nil_r|].
    split; [exact C|]. split; [unfold bits; rewrite Hp; reflexivity|].
    split; reflexivity.
Qed.

Lemma write_plain_calm (fuel : nat) (s : State) :
  calm f s ->
  (length (contents (world s) (PWrite f)) < fuel)%nat ->
  ends s (write_plain behaviour fuel f s)
    (fun s' d =>
       calm f s' /\
       bits f (world s') =
         (frame_flag (world s) f FrameFlags.WRITE_PRIO, false,
          frame_flag (world s) f FrameFlags.READ, frame_flag (world s) f FrameFlags.AFTER) /\
       queued f (world s') = queued f (world s) /\
       ran d = if frame_flag (world s) f FrameFlags.WRITE
               then contents (world s) (PWrite f) else []).
Proof.
  intros C Hlt. unfold write_plain. fold (frame_flag (world s) f FrameFlags.WRITE).
  destruct (frame_flag (world s) f FrameFlags.WRITE) eqn:Hw.
  - set (s1 := on_world (clear_frame_flag f FrameFlags.WRITE) s).
    pose proof (inert_clear_frame_flag f FrameFlags.WRITE (world s)) as I1.
    assert (C1 : calm f s1) by apply calm_clear_frame_flag, C.
    destruct (writeTasks (frame_of (world s1) f)) as [g|] eqn:Hg; [|exact I].
    assert (Hc : array_at (world s1) g = contents (world s) (PWrite f)).
    { rewrite <- (inert_contents _ _ (PWrite f) I1).
      unfold contents. change (loc_at (clear_frame_flag f FrameFlags.WRITE (world s)) (PWrite f))
        with (writeTasks (frame_of (world s1) f)). rewrite Hg. reflexivity. }
    destruct (for_each_stable behaviour f behaviour_defers fuel InWrite
                (dispatch behaviour InWrite) g 0 s1
                (runner_dispatch behaviour InWrite) C1)
      as (s2 & d & CR & H).
    { right. exists (PWrite f). split; [reflexivity | exact Hg]. }
    { rewrite Hc. lia. }
    destruct H as [[-> Hran] | ->]; [|exact I].
    exists d. split; [rewrite (lr_trace _ _ _ _ _ (cr_run _ _ _ _ _ _ CR)); reflexivity|].
    split; [apply (calm_run_calm _ _ _ _ _ _ CR C1)|].
    split; [rewrite (calm_run_bits _ _ _ _ _ _ CR); apply bits_clear_write|].
    split.
    { rewrite (calm_run_queued _ _ _ _ _ _ CR (proj1 C1)). apply queued_inert, I1. }
    rewrite Hran, drop_0. exact Hc.
  - exists []. split; [symmetry; apply app_nil_r|].
    split; [exact C|]. split; [unfold bits; rewrite Hw; reflexivity|].
    split; reflexivity.
Qed.

Lemma write_while_calm (fuel : nat) (s : State) :
  calm f s ->
  (length (writeTaskGroups (frame_of (world s) f)) +
   length (group_tasks (world s) f 0) +
   length (contents (world s) (PWrite f)) + 1 < fuel)%nat ->
  ends s (write_while behaviour fuel f s)
    (fun s' d =>
       calm f s' /\
       bits f (world s') =
         (false, false,
          frame_flag (world s) f FrameFlags.READ, frame_flag (world s) f FrameFlags.AFTER) /\
       queued f (world s') = queued f (world s) /\
       exists dp dw, d = dp ++ dw /\
         ran dp = (if frame_flag (world s) f FrameFlags.WRITE_PRIO
                   then group_tasks (world s) f 0 else []) /\
         ran dw = (if frame_flag (world s) f FrameFlags.WRITE
                   then contents (world s) (PWrite f) else [])).
Proof.
  intros C Hlt. destruct fuel as [|[|fuel]]; [lia..|].
  cbn [write_while]. fold (frame_flag (world s) f FrameFlags.WRITE_ANY).
  rewrite frame_flag_write_any.
  destruct (frame_flag (world s) f FrameFlags.WRITE ||
            frame_flag (world s) f FrameFlags.WRITE_PRIO) eqn:Hany.
  - eapply ends_bind; [apply write_prio_calm; [exact C | lia]|].
    intros s1 dp T1 (C1 & B1 & Q1 & R1).
    pose proof Q1 as Q1'. unfold queued in Q1'. injection Q1' as Qw _ _.
    pose proof B1 as B1'. unfold bits in B1'. injection B1' as Bp Bw Br Ba.
    eapply ends_bind; [apply write_plain_calm; [exact C1 | rewrite Qw; lia]|].
    intros s2 dw T2 (C2 & B2 & Q2 & R2).
    pose proof B2 as B2'. unfold bits in B2'. injection B2' as Bp2 Bw2 Br2 Ba2.
    fold (frame_flag (world s2) f FrameFlags.WRITE_ANY).
    rewrite frame_flag_write_any, Bp2, Bw2, Bp. cbn [orb].
    exists []. split; [symmetry; apply app_nil_r|].
    split; [exact C2|].
    split; [rewrite B2, Bp, Br, Ba; reflexivity|].
    split; [rewrite Q2; exact Q1|].
    exists dp, dw. split; [rewrite app_nil_r; reflexivity|].
    split; [exact R1|]. rewrite R2, Bw, Qw. reflexivity.
  - apply orb_false_elim in Hany. destruct Hany as [Hw Hp].
    exists []. split; [symmetry; apply app_nil_r|].
    split; [exact C|]. split; [unfold bits; rewrite Hw, Hp; reflexivity|].
    split; [reflexivity|].
    exists [], []. rewrite Hw, Hp. repeat split.
Qed.

Lemma calm_null_readTasks (s : State) :
  calm f s -> calm f (on_world (null_readTasks f) s).
Proof.
  intros [W N]. split.
  - eapply assigned_wf; [apply null_readTasks_assigned | exact W].
  - cbn [on_world world]. unfold null_readTasks. rewrite next_with_frame. exact N.
Qed.

Lemma read_while_calm (fuel : nat) (s : State) :
  calm f s ->
  (length (contents (world s) (PRead f)) + 1 < fuel)%nat ->
  ends s (read_while behaviour fuel f s)
    (fun s' d =>
       calm f s' /\
       bits f (world s') =
         (frame_flag (world s) f FrameFlags.WRITE_PRIO,
          frame_flag (world s) f FrameFlags.WRITE, false,
          frame_flag (world s) f FrameFlags.AFTER) /\
       contents (world s') (PWrite f) = contents (world s) (PWrite f) /\
       contents (world s') (PAfter f) = contents (world s) (PAfter f) /\
       ran d = if frame_flag (world s) f FrameFlags.READ
               then contents (world s) (PRead f) else []).
Proof.
  intros C Hlt. destruct fuel as [|[|fuel]]; [lia..|].
  cbn [read_while]. fold (frame_flag (world s) f FrameFlags.READ).
  destruct (frame_flag (world s) f FrameFlags.READ) eqn:Hr.
  - set (s1 := on_world (clear_frame_flag f FrameFlags.READ) s).
    set (s2 := on_world (null_readTasks f) s1).
    pose proof (inert_clear_frame_flag f FrameFlags.READ (world s)) as I1.
    assert (C1 : calm f s1) by apply calm_clear_frame_flag, C.
    assert (C2 : calm f s2) by apply calm_null_readTasks, C1.
    pose proof (null_readTasks_assigned f (world s1)) as A.
    assert (B2 : bits f (world s2) = bits f (world s1)).
    { apply bits_same_flags. subst s2. cbn [on_world world]. unfold null_readTasks.
      rewrite frame_of_with_frame_eq. reflexivity. }
    assert (Q2 : forall q, q <> PRead f ->
                 contents (world s2) q = contents (world s) q).
    { intros q Hq. change (world s2) with (null_readTasks f (world s1)).
      rewrite (assigned_contents _ _ _ _ q A (proj1 C1)).
      destruct (decide (q = PRead f)); [contradiction|].
      apply inert_contents, I1. }
    destruct (readTasks (frame_of (world s1) f)) as [g|] eqn:Hg; [|exact I].
    assert (D2 : detached (world s2) g)
      by (eapply assigned_detaches; [exact A | apply C1 | exact Hg]).
    assert (Hc : array_at (world s2) g = contents (world s) (PRead f)).
    { change (world s2) with (null_readTasks f (world s1)).
      rewrite (assigned_array_at _ _ _ _ _ A).
      rewrite <- (inert_contents _ _ (PRead f) I1).
      unfold contents. change (loc_at (clear_frame_flag f FrameFlags.READ (world s)) (PRead f))
        with (readTasks (frame_of (world s1) f)). rewrite Hg. reflexivity. }
    destruct (for_each_stable behaviour f behaviour_defers (S fuel) InRead
                (call behaviour InRead) g 0 s2
                (runner_call behaviour InRead) C2 (or_introl D2))
      as (s3 & d & CR & H).
    { rewrite Hc. lia. }
    destruct H as [[-> Hran] | ->]; cbn [obind]; [|exact I].
    assert (B3 : bits f (world s3) =
                 (frame_flag (world s) f FrameFlags.WRITE_PRIO,
                  frame_flag (world s) f FrameFlags.WRITE, false,
                  frame_flag (world s) f FrameFlags.AFTER)).
    { rewrite (calm_run_bits _ _ _ _ _ _ CR), B2. apply bits_clear_read. }
    pose proof B3 as B3'. unfold bits in B3'. injection B3' as _ _ Br3 _.
    cbn [read_while]. fold (frame_flag (world s3) f FrameFlags.READ). rewrite Br3.
    exists d. split; [rewrite (lr_trace _ _ _ _ _ (cr_run _ _ _ _ _ _ CR)); reflexivity|].
    split; [apply (calm_run_calm _ _ _ _ _ _ CR C2)|].
    split; [exact B3|].
    pose proof (calm_run_queued _ _ _ _ _ _ CR (proj1 C2)) as Q3.
    unfold queued in Q3. injection Q3 as Qw _ Qa.
    split; [rewrite Qw; apply Q2; discriminate|].
    split; [rewrite Qa; apply Q2; discriminate|].
    rewrite Hran, drop_0. exact Hc.
  - exists []. split; [symmetry; apply app_nil_r|].
    split; [exact C|]. split; [unfold bits; rewrite Hr; reflexivity|].
    repeat split.
Qed.

Lemma after_while_calm (fuel : nat) (s : State) :
  calm f s ->
  (length (contents (world s) (PAfter f)) + 1 < fuel)%nat ->
  ends s (after_while behaviour fuel f s)
    (fun s' d =>
       calm f s' /\
       bits f (world s') =
         (frame_flag (world s) f FrameFlags.WRITE_PRIO,
          frame_flag (world s) f FrameFlags.WRITE,
          frame_flag (world s) f FrameFlags.READ, false) /\
       queued f (world s') = queued f (world s) /\
       ran d = if frame_flag (world s) f FrameFlags.AFTER
               then contents (world s) (PAfter f) else []).
Proof.
  intros C Hlt. destruct fuel as [|[|fuel]]; [lia..|].
  cbn [after_while]. fold (frame_flag (world s) f FrameFlags.AFTER).
  destruct (frame_flag (world s) f FrameFlags.AFTER) eqn:Ha.
  - set (s1 := on_world (clear_frame_flag f FrameFlags.AFTER) s).
    pose proof (inert_clear_frame_flag f FrameFlags.AFTER (world s)) as I1.
    assert (C1 : calm f s1) by apply calm_clear_frame_flag, C.
    destruct (afterTasks (frame_of (world s1) f)) as [g|] eqn:Hg; [|exact I].
    assert (Hc : array_at (world s1) g = contents (world s) (PAfter f)).
    { rewrite <- (inert_contents _ _ (PAfter f) I1).
      unfold contents. change (loc_at (clear_frame_flag f FrameFlags.AFTER (world s)) (PAfter f))
        with (afterTasks (frame_of (world s1) f)). rewrite Hg. reflexivity. }
    destruct (for_each_stable behaviour f behaviour_defers (S fuel) InAfter
                (call behaviour InAfter) g 0 s1
                (runner_call behaviour InAfter) C1)
      as (s2 & d & CR & H).
    { right. exists (PAfter f). split; [reflexivity | exact Hg]. }
    { rewrite Hc. lia. }
    destruct H as [[-> Hran] | ->]; cbn [obind]; [|exact I].
    assert (B2 : bits f (world s2) =
                 (frame_flag (world s) f FrameFlags.WRITE_PRIO,
                  frame_flag (world s) f FrameFlags.WRITE,
                  frame_flag (world s) f FrameFlags.READ, false)).
    { rewrite (calm_run_bits _ _ _ _ _ _ CR). apply bits_clear_after. }
    pose proof B2 as B2'. unfold bits in B2'. injection B2' as _ _ _ Ba2.
    cbn [after_while]. fold (frame_flag (world s2) f FrameFlags.AFTER). rewrite Ba2.
    exists d. split; [rewrite (lr_trace _ _ _ _ _ (cr_run _ _ _ _ _ _ CR)); reflexivity|].
    split; [apply (calm_run_calm _ _ _ _ _ _ CR C1)|].
    split; [exact B2|].
    split.
    { rewrite (calm_run_queued _ _ _ _ _ _ CR (proj1 C1)). apply queued_inert, I1. }
    rewrite Hran, drop_0. exact Hc.
  - exists []. split; [symmetry; apply app_nil_r|].
    split; [exact C|]. split; [unfold bits; rewrite Ha; reflexivity|].
    repeat split.
Qed.

Lemma alternation_calm (fuel : nat) (s : State) :
  calm f s ->
  (length (writeTaskGroups (frame_of (world s) f)) +
   length (group_tasks (world s) f 0) +
   length (contents (world s) (PWrite f)) +
   length (contents (world s) (PRead f)) + 2 < fuel)%nat ->
  ends s (alternation behaviour fuel f s)
    (fun s' d =>
       calm f s' /\
       bits f (world s') = (false, false, false, frame_flag (world s) f FrameFlags.AFTER) /\
       contents (world s') (PAfter f) = contents (world s) (PAfter f) /\
       exists dp dw dr,
         d = EvPhase PhWrite :: dp ++ dw ++ EvPhase PhRead :: dr /\
         ran dp = (if frame_flag (world s) f FrameFlags.WRITE_PRIO
                   then group_tasks (world s) f 0 else []) /\
         ran dw = (if frame_flag (world s) f FrameFlags.WRITE
                   then contents (world s) (PWrite f) else []) /\
         ran dr = (if frame_flag (world s) f FrameFlags.READ
                   then contents (world s) (PRead f) else [])).
Proof.
  intros C Hlt. destruct fuel as [|fuel]; [lia|].
  cbn [alternation].
  apply (ends_after s (log (EvPhase PhWrite) s) [EvPhase PhWrite]); [reflexivity|].
  eapply ends_bind.
  { apply write_while_calm; [apply calm_log, C | cbn [log world]; lia]. }
  cbn [log world]. intros s1 d1 T1 (C1 & B1 & Q1 & dp & dw & -> & Rp & Rw).
  pose proof Q1 as Q1'. unfold queued in Q1'. injection Q1' as Qw Qr Qa.
  pose proof B1 as B1'. unfold bits in B1'. injection B1' as Bp Bw Br Ba.
  apply (ends_after s1 (log (EvPhase PhRead) s1) [EvPhase PhRead]); [reflexivity|].
  eapply ends_bind.
  { apply read_while_calm; [apply calm_log, C1 | cbn [log world]; rewrite Qr; lia]. }
  cbn [log world]. intros s2 dr T2 (C2 & B2 & Qw2 & Qa2 & Rr).
  pose proof B2 as B2'. unfold bits in B2'. injection B2' as Bp2 Bw2 Br2 Ba2.
  fold (frame_flag (world s2) f FrameFlags.WRITE_ANY).
  rewrite frame_flag_write_any, Bp2, Bw2, Bp, Bw. cbn [orb].
  exists []. split; [symmetry; apply app_nil_r|].
  split; [exact C2|].
  split; [rewrite B2, Bp, Bw, Ba; reflexivity|].
  split; [rewrite Qa2; exact Qa|].
  exists dp, dw, dr. split.
  { rewrite app_nil_r. cbn [app]. rewrite <- app_assoc. reflexivity. }
  split; [exact Rp|]. split; [exact Rw|]. rewrite Rr, Br, Qr. reflexivity.
Qed.

End CalmLoops.

(** The number of rank slots of frame [f] and of tasks in its arrays. *)
Definition frame_load (w : World) (f : fid) : nat :=
  length (writeTaskGroups (frame_of w f)) + length (group_tasks w f 0) +
  length (contents w (PWrite f)) + length (contents w (PRead f)) +
  length (contents w (PAfter f)).

Lemma frame_of_frame_begin (w : World) (f : fid) :
  frame_of (frame_begin w) f = frame_of w f.
Proof. destruct f; reflexivity. Qed.

Lemma group_tasks_frame_begin (w : World) (f : fid) (i : nat) :
  group_tasks (frame_begin w) f i = group_tasks w f i.
Proof.
  apply group_tasks_agree; [rewrite frame_of_frame_begin; reflexivity|].
  intros j a _ _. apply inert_array_at, inert_frame_begin.
Qed.

Section CalmFlush.

Variable behaviour : task -> State -> list action.

Lemma frame_flush_calm (fuel : nat) (s : State) :
  (forall t s0, Forall defers (behaviour t s0)) ->
  wf (world s) ->
  _currentFrame (sched (world s)) <> _nextFrame (sched (world s)) ->
  (frame_load (world s) (_nextFrame (sched (world s))) + 3 < fuel)%nat ->
  ends s (_handleAnimationFrame behaviour fuel s)
    (fun s' d =>
       exists dp dw dr da,
         d = EvPhase PhWrite :: dp ++ dw ++ EvPhase PhRead :: dr ++ EvPhase PhAfter :: da /\
         ran dp = (if frame_flag (world s) (_nextFrame (sched (world s))) FrameFlags.WRITE_PRIO
                   then group_tasks (world s) (_nextFrame (sched (world s))) 0 else []) /\
         ran dw = (if frame_flag (world s) (_nextFrame (sched (world s))) FrameFlags.WRITE
                   then contents (world s) (PWrite (_nextFrame (sched (world s)))) else []) /\
         ran dr = (if frame_flag (world s) (_nextFrame (sched (world s))) FrameFlags.READ
                   then contents (world s) (PRead (_nextFrame (sched (world s)))) else []) /\
         ran da = (if frame_flag (world s) (_nextFrame (sched (world s))) FrameFlags.AFTER
                   then contents (world s) (PAfter (_nextFrame (sched (world s)))) else []) /\
         bits (_nextFrame (sched (world s))) (world s') = (false, false, false, false)).
Proof.
  intros Hdef W Hne Hlt. set (f := _nextFrame (sched (world s))) in *.
  unfold _handleAnimationFrame.
  set (s0 := on_world frame_begin s).
  change (_currentFrame (sched (world s0))) with f.
  pose proof (inert_frame_begin (world s)) as I0.
  assert (C0 : calm f s0).
  { split; [eapply inert_wf; eauto|]. subst s0 f. cbn. congruence. }
  assert (F0 : forall c, frame_flag (world s0) f c = frame_flag (world s) f c).
  { intros c. apply frame_flag_frame_begin. }
  assert (Q0 : forall p, contents (world s0) p = contents (world s) p).
  { intros p. apply inert_contents, I0. }
  assert (G0 : group_tasks (world s0) f 0 = group_tasks (world s) f 0)
    by apply group_tasks_frame_begin.
  assert (L0 : writeTaskGroups (frame_of (world s0) f) =
               writeTaskGroups (frame_of (world s) f)).
  { subst s0. cbn [on_world world]. rewrite frame_of_frame_begin. reflexivity. }
  unfold frame_load in Hlt.
  pose proof (alternation_calm behaviour f Hdef fuel s0 C0) as H1.
  rewrite L0, G0, !Q0 in H1. specialize (H1 ltac:(lia)).
  destruct (alternation behaviour fuel f s0) as [s1|s1|]; cbn [obind];
    [| exact I | contradiction].
  destruct H1 as (d1 & T1 & C1 & B1 & Qa1 & dp & dw & dr & -> & Rp & Rw & Rr).
  rewrite F0 in Rp, Rw, Rr, B1.
  pose proof (after_while_calm behaviour f Hdef fuel (log (EvPhase PhAfter) s1)
                (calm_log f _ s1 C1)) as H2.
  cbn [log world] in H2. rewrite Qa1 in H2. specialize (H2 ltac:(lia)).
  destruct (after_while behaviour fuel f (log (EvPhase PhAfter) s1)) as [s2|s2|];
    cbn [obind]; [| exact I | contradiction].
  destruct H2 as (da & T2 & C2 & B2 & Q2 & Ra).
  pose proof B1 as B1'. unfold bits in B1'. injection B1' as Bp Bw Br Ba.
  exists (EvPhase PhWrite :: dp ++ dw ++ EvPhase PhRead :: dr ++ EvPhase PhAfter :: da).
  split.
  { cbn [on_world trace]. rewrite T2. cbn [log trace]. rewrite T1. cbn [on_world trace].
    rewrite <- !app_assoc. cbn [app]. rewrite <- !app_assoc. reflexivity. }
  exists dp, dw, dr, da. cbn [on_world world].
  split; [reflexivity|].
  split; [exact Rp|]. split; [exact Rw|]. split; [exact Rr|].
  split; [rewrite Ra, Ba; reflexivity|].
  transitivity (bits f (world s2)).
  { apply bits_same_flags. unfold clear_sched_flag, tick.
    rewrite !frame_of_with_sched. reflexivity. }
  rewrite B2, Bp, Bw, Br. reflexivity.
Qed.

(** X13: A frame flush whose tasks leave its frame alone makes one pass.  If no
    task schedules into the current frame or into a frame it holds (tasks
    may schedule microtasks, macrotasks and work for the next frame, and may
    raise), the two frames are different objects and the fuel exceeds the
    size of the frame, then the flush ends; and when it returns it has run,
    in this order and each exactly once: the tasks of the priority groups,
    rank by rank, if WRITE_PRIO was set; the tasks of [writeTasks] if WRITE
    was set; the tasks of [readTasks] if READ was set; the tasks of
    [afterTasks] if AFTER was set, with the phase boundaries in between.
    All four flags of the frame are clear afterwards. *)
Theorem deferring_tasks_get_one_pass (fuel : nat) (s : State) :
  (forall t s0, Forall defers (behaviour t s0)) ->
  wf (world s) ->
  _currentFrame (sched (world s)) <> _nextFrame (sched (world s)) ->
  (frame_load (world s) (_nextFrame (sched (world s))) + 3 < fuel)%nat ->
  _handleAnimationFrame behaviour fuel s <> OutOfFuel /\
  forall s', _handleAnimationFrame behaviour fuel s = Done s' ->
    exists dp dw dr da,
      trace s' = trace s ++ EvPhase PhWrite :: dp ++ dw ++
                            EvPhase PhRead :: dr ++ EvPhase PhAfter :: da /\
      ran dp = (if frame_flag (world s) (_nextFrame (sched (world s))) FrameFlags.WRITE_PRIO
                then group_tasks (world s) (_nextFrame (sched (world s))) 0 else []) /\
      ran dw = (if frame_flag (world s) (_nextFrame (sched (world s))) FrameFlags.WRITE
                then contents (world s) (PWrite (_nextFrame (sched (world s)))) else []) /\
      ran dr = (if frame_flag (world s) (_nextFrame (sched (world s))) FrameFlags.READ
                then contents (world s) (PRead (_nextFrame (sched (world s)))) else []) /\
      ran da = (if frame_flag (world s) (_nextFrame (sched (world s))) FrameFlags.AFTER
                then contents (world s) (PAfter (_nextFrame (sched (world s)))) else []) /\
      bits (_nextFrame (sched (world s))) (world s') = (false, false, false, false).
Proof.
  intros Hdef W Hne Hlt.
  pose proof (frame_flush_calm fuel s Hdef W Hne Hlt) as H.
  destruct (_handleAnimationFrame behaviour fuel s) as [s1|s1|]; simpl in H.
  - split; [discriminate|]. intros s' [= <-].
    destruct H as (d & T & dp & dw & dr & da & -> & R).
    exists dp, dw, dr, da. split; [exact T | exact R].
  - split; [discriminate | intros s' [=]].
  - contradiction.
Qed.

End CalmFlush.

(** ** A microtask flush whose tasks schedule no microtask *)

(** The task schedules no microtask. *)
Definition no_microtask (a : action) : Prop :=
  match a with
  | ScheduleMicrotask _ => False
  | _ => True
  end.

Definition not_micro (c : api) : Prop :=
  match c with
  | ApiMicrotask _ => False
  | _ => True
  end.

Lemma pushes_not_micro (cs : list api) : Forall not_micro cs -> pushes PMicro cs = [].
Proof.
  induction 1 as [|c cs Hc _ IH]; [reflexivity|].
  change (c :: cs) with ([c] ++ cs). rewrite pushes_app, IH, app_nil_r.
  destruct c as [cb|cb| | |g [t|t rank|cb|cb]]; simpl in Hc; try contradiction;
    reflexivity.
Qed.

Lemma Forall_not_micro_frame (g : fid) (ops : list frame_op) :
  Forall not_micro (map (ApiFrame g) ops).
Proof. apply Forall_map, Forall_forall. intros op _. exact I. Qed.

Lemma do_action_no_microtask (a : action) (s : State) :
  no_microtask a ->
  exists cs, do_action a s =
               mkState (apply_apis cs (world s)) (trace s ++ map EvApi cs) /\
             Forall not_micro cs.
Proof.
  intros Ha. destruct a as [cb|cb|ops|ops|g ops|]; simpl in Ha; try contradiction;
    simpl.
  - exists [ApiMacrotask cb]. split; [reflexivity | repeat constructor].
  - exists (ApiNextFrame :: map (ApiFrame (_nextFrame (sched (snd (nextFrame (world s)))))) ops).
    split.
    + unfold nextFrame at 1. simpl. rewrite do_frame_ops_spec. simpl.
      rewrite <- app_assoc. reflexivity.
    + constructor; [exact I | apply Forall_not_micro_frame].
  - exists (ApiCurrentFrame :: map (ApiFrame (currentFrame (world s))) ops). split.
    + rewrite do_frame_ops_spec. simpl. rewrite <- app_assoc. reflexivity.
    + constructor; [exact I | apply Forall_not_micro_frame].
  - exists (map (ApiFrame g) ops). split; [apply do_frame_ops_spec|].
    apply Forall_not_micro_frame.
  - exists []. split; [|constructor]. simpl. rewrite app_nil_r. destruct s; reflexivity.
Qed.

Lemma run_actions_no_microtask (acts : list action) (s : State) :
  Forall no_microtask acts ->
  forall s', final (run_actions acts s) = Some s' ->
  exists cs, trace s' = trace s ++ map EvApi cs /\ Forall not_micro cs.
Proof.
  intros Ha. revert s. induction Ha as [|a acts Hd _ IH]; intros s s' Hf.
  - simpl in Hf. injection Hf as <-. exists []. simpl. rewrite app_nil_r. auto.
  - destruct (do_action_no_microtask a s Hd) as (cs1 & H1 & M1).
    assert (Hgo : final (run_actions acts (do_action a s)) = Some s' ->
                  exists cs, trace s' = trace s ++ map EvApi cs /\ Forall not_micro cs).
    { intros Hf'. destruct (IH _ _ Hf') as (cs2 & T2 & M2).
      exists (cs1 ++ cs2). rewrite T2, H1. cbn [trace].
      rewrite map_app, app_assoc. split; [reflexivity|].
      apply Forall_app. split; assumption. }
    destruct a; try (apply Hgo; exact Hf).
    simpl in Hf. injection Hf as <-. exists []. simpl. rewrite app_nil_r. auto.
Qed.

(** A stretch in which no microtask was scheduled. *)
Definition micro_free (s s' : State) (d : list event) : Prop :=
  Forall not_micro (apis_of d).

Lemma micro_free_refl (s : State) : micro_free s s [].
Proof. constructor. Qed.

Lemma micro_free_trans (s1 s2 s3 : State) (d1 d2 : list event) :
  micro_free s1 s2 d1 -> micro_free s2 s3 d2 -> micro_free s1 s3 (d1 ++ d2).
Proof.
  unfold micro_free. intros H1 H2. rewrite apis_of_app. apply Forall_app. split; assumption.
Qed.

Section SingleWave.

Variable behaviour : task -> State -> list action.

Hypothesis behaviour_no_microtask : forall t s, Forall no_microtask (behaviour t s).

Lemma invoke_micro_free (k : slot) (a : loc) (i : nat) (t : task) (s s' : State) :
  final (invoke behaviour k a i t s) = Some s' ->
  exists d, micro_free s s' d /\ trace s' = trace s ++ d.
Proof.
  unfold invoke. intros Hf.
  destruct (run_actions_no_microtask _ _ (behaviour_no_microtask t s) s' Hf)
    as (cs & T & M).
  exists (EvRun k a i t (world s) :: map EvApi cs). split.
  - unfold micro_free. change (apis_of (EvRun k a i t (world s) :: map EvApi cs))
      with (apis_of (map EvApi cs)). rewrite apis_of_map. exact M.
  - rewrite T. cbn [log trace]. rewrite <- app_assoc. reflexivity.
Qed.

(** X14: A microtask flush whose tasks schedule no microtask is a single wave.
    With fuel for the queue it ends; and when it returns it has run the
    queue it found, once and in arrival order, in one wave, and the queue
    is empty and MICROTASK_PENDING clear afterwards. *)
Theorem microtask_flush_single_wave (fuel : nat) (s : State) :
  wf (world s) ->
  (length (contents (world s) PMicro) + 1 < fuel)%nat ->
  _microtaskScheduler behaviour fuel s <> OutOfFuel /\
  forall s', _microtaskScheduler behaviour fuel s = Done s' ->
    exists d,
      trace s' =
        trace s ++ (if decide (contents (world s) PMicro = []) then []
                    else EvPhase PhWave :: d) /\
      Forall (in_loop InMicro (_microtasks (sched (world s)))) d /\
      ran d = contents (world s) PMicro /\
      contents (world s') PMicro = [] /\
      pending Microtask (world s') = false.
Proof.
  intros W Hlt. destruct fuel as [|[|fuel]]; [lia..|].
  unfold _microtaskScheduler.
  set (s0 := on_world (set_sched_flag SchedulerFlags.RUNNING) s).
  assert (I0 : inert (world s) (world s0)) by apply inert_set_sched_flag.
  assert (W0 : wf (world s0)) by (eapply inert_wf; eauto).
  set (a := _microtasks (sched (world s0))).
  assert (Hq : array_at (world s0) a = contents (world s) PMicro).
  { subst a. apply (inert_array_at _ _ _ I0). }
  set (fin := fun w => clear_sched_flag
                        (Z.lor SchedulerFlags.MICROTASK_PENDING SchedulerFlags.RUNNING)
                        (tick w)).
  assert (Ifin : forall w, inert w (fin w)).
  { intros w. subst fin. simpl. eapply inert_trans;
      [apply inert_tick | apply inert_clear_sched_flag]. }
  assert (Pfin : forall w, pending Microtask (fin w) = false).
  { intros w. unfold pending. subst fin. simpl. apply flag_test_clear_in. reflexivity. }
  cbn [micro_waves]. rewrite Hq.
  destruct (contents (world s) PMicro) as [|t0 q] eqn:Hc.
  - cbn [length Nat.ltb Nat.leb obind]. split; [discriminate|].
    intros s' [= <-]. exists []. cbn [on_world world trace].
    rewrite decide_True by reflexivity.
    split; [symmetry; apply app_nil_r|]. split; [constructor|]. split; [reflexivity|].
    split; [|apply Pfin].
    rewrite (inert_contents _ _ _ (Ifin _)), (inert_contents _ _ _ I0). exact Hc.
  - cbn [length Nat.ltb Nat.leb].
    set (s1 := on_world detach_microtasks (log (EvPhase PhWave) s0)).
    pose proof (detach_microtasks_assigned (world (log (EvPhase PhWave) s0))) as A.
    assert (W1 : wf (world s1)) by (eapply assigned_wf; eauto).
    assert (D1 : detached (world s1) a)
      by (eapply assigned_detaches; eauto; reflexivity).
    assert (A1 : array_at (world s1) a = t0 :: q).
    { change (world s1) with (detach_microtasks (world (log (EvPhase PhWave) s0))).
      rewrite (assigned_array_at _ _ _ _ _ A). exact Hq. }
    pose proof (for_each_terminates behaviour (S fuel) InMicro (call behaviour InMicro)
                  a 0 s1 (runner_call behaviour InMicro) D1) as Hterm.
    pose proof (for_each_keeps behaviour micro_free micro_free_refl micro_free_trans
                  invoke_micro_free (S fuel) InMicro (call behaviour InMicro) a 0 s1
                  (runner_call behaviour InMicro)) as Hfree.
    destruct (for_each (S fuel) (call behaviour InMicro) a 0 s1) as [s2|s2|] eqn:E;
      cbn [obind].
    + destruct (for_each_detached behaviour _ _ _ _ _ _ (runner_call behaviour InMicro) D1 E)
        as (d & L & K & _ & _).
      destruct (Hfree s2 eq_refl) as (d' & M & T').
      assert (d' = d).
      { rewrite (lr_trace _ _ _ _ _ L) in T'. apply app_inv_head in T'. auto. }
      subst d'.
      assert (W2 : wf (world s2)) by (eapply loop_run_wf; eauto).
      assert (C2 : contents (world s2) PMicro = []).
      { rewrite (lr_world _ _ _ _ _ L), apply_apis_contents by assumption.
        change (world s1) with (detach_microtasks (world (log (EvPhase PhWave) s0))).
        rewrite (assigned_contents _ _ _ _ PMicro A W0).
        destruct (decide (PMicro = PMicro)); [|congruence].
        rewrite (pushes_not_micro _ M). reflexivity. }
      cbn [micro_waves].
      change (array_at (world s2) (_microtasks (sched (world s2))))
        with (contents (world s2) PMicro). rewrite C2.
      cbn [length Nat.ltb Nat.leb obind]. split; [discriminate|].
      intros s' [= <-]. exists d. cbn [on_world world trace].
      rewrite decide_False by discriminate.
      split.
      { rewrite (lr_trace _ _ _ _ _ L). subst s1. cbn [on_world log trace].
        rewrite <- app_assoc. reflexivity. }
      split; [apply (lr_loop _ _ _ _ _ L)|].
      split; [rewrite ran_run_keys, K, map_snd_keys; exact A1|].
      split; [rewrite (inert_contents _ _ _ (Ifin _)); exact C2 | apply Pfin].
    + split; [discriminate | intros s' [=]].
    + exfalso. apply Hterm; [|reflexivity]. rewrite A1.
      simpl in Hlt |- *. lia.
Qed.

End SingleWave.

(** ** The flags of a frame that is not being flushed *)

(** The flags of frame [g] changed only by what the logged API calls set. *)
Definition flags_grow (g : fid) (s s' : State) (d : list event) : Prop :=
  forall c, frame_flag (world s') g c =
            frame_flag (world s) g c ||
            existsb (fun a => flag_test (frame_bit a g) c) (apis_of d).

Lemma flags_grow_refl (g : fid) (s : State) : flags_grow g s s [].
Proof. intros c. simpl. symmetry. apply orb_false_r. Qed.

Lemma flags_grow_trans (g : fid) (s1 s2 s3 : State) (d1 d2 : list event) :
  flags_grow g s1 s2 d1 -> flags_grow g s2 s3 d2 -> flags_grow g s1 s3 (d1 ++ d2).
Proof.
  intros H1 H2 c. rewrite H2, H1, apis_of_app, existsb_app. symmetry. apply orb_assoc.
Qed.

Lemma flags_grow_run (g : fid) (k : slot) (a : loc) (s s' : State) (d : list event) :
  loop_run k a s s' d -> flags_grow g s s' d.
Proof.
  intros L c. unfold frame_flag. rewrite (lr_world _ _ _ _ _ L).
  apply apply_apis_frame_flags.
Qed.

Lemma flags_grow_log (g : fid) (p : phase) (s : State) :
  flags_grow g s (log (EvPhase p) s) [EvPhase p].
Proof. intros c. simpl. symmetry. apply orb_false_r. Qed.

Lemma flags_grow_step (g : fid) (h : World -> World) (s : State) :
  frame_of (h (world s)) g = frame_of (world s) g -> flags_grow g s (on_world h s) [].
Proof.
  intros H c. unfold frame_flag. cbn [on_world world]. rewrite H. simpl.
  symmetry. apply orb_false_r.
Qed.

Lemma frame_of_with_frame_ne (w : World) (f g : fid) (fr : Frame) :
  f <> g -> frame_of (with_frame w f fr) g = frame_of w g.
Proof. intros H. rewrite frame_of_with_frame. destruct (decide (f = g)); [contradiction | reflexivity]. Qed.

Lemma frame_of_flush_begin (dm : domain) (w : World) (g : fid) :
  frame_of (flush_begin dm w) g = frame_of w g.
Proof. destruct dm, g; reflexivity. Qed.

Lemma frame_of_flush_end (dm : domain) (w : World) (g : fid) :
  frame_of (flush_end dm w) g = frame_of w g.
Proof. destruct dm, g; reflexivity. Qed.

Lemma flags_grow_begin_end (g : fid) (dm : domain) (s s2 : State) (d : list event) :
  flags_grow g (on_world (flush_begin dm) s) s2 d ->
  flags_grow g s s2 d /\ flags_grow g s (on_world (flush_end dm) s2) d.
Proof.
  intros H.
  assert (H0 : flags_grow g s s2 d).
  { intros c. rewrite H. unfold frame_flag. cbn [on_world world].
    rewrite frame_of_flush_begin. reflexivity. }
  split; [exact H0|]. intros c. rewrite <- (H0 c). unfold frame_flag.
  cbn [on_world world]. rewrite frame_of_flush_end. reflexivity.
Qed.

Section OtherFrame.

Variable behaviour : task -> State -> list action.

Lemma flush_flags_grow_shape (dm : domain) (fuel : nat) (s : State) (g : fid) :
  (dm = Frametask -> g <> _nextFrame (sched (world s))) ->
  flush_shape (flags_grow g) dm s (flush behaviour dm fuel s).
Proof.
  intros Hg. destruct dm; simpl.
  - apply microtask_flush_keeps;
      first [ exact (flags_grow_refl g) | exact (flags_grow_trans g)
            | exact (run_keeps _ _ (flags_grow_run g)) | exact (flags_grow_log g)
            | intros s0; apply flags_grow_step; destruct g; reflexivity ].
  - apply macrotask_flush_keeps;
      first [ exact (flags_grow_refl g) | exact (flags_grow_trans g)
            | exact (run_keeps _ _ (flags_grow_run g))
            | intros s0; apply flags_grow_step; destruct g; reflexivity ].
  - specialize (Hg eq_refl).
    apply (frame_flush_keeps behaviour (flags_grow g) (_nextFrame (sched (world s))));
      first [ exact (flags_grow_refl g) | exact (flags_grow_trans g)
            | exact (run_keeps _ _ (flags_grow_run g)) | exact (flags_grow_log g)
            | reflexivity
            | intros; apply flags_grow_step;
              unfold clear_frame_flag, null_group, null_readTasks;
              apply frame_of_with_frame_ne; congruence ].
Qed.

(** X15: No flush clears a flag of a frame it is not flushing.  After a
    microtask or macrotask flush, for either frame, and after a frame flush,
    for the frame other than the one it flushed, a flag is set exactly when
    it was set before or a task of the flush scheduled work of that kind
    into that frame; this holds when the flush returns and when a task
    raises. *)
Theorem flush_only_sets_flags_of_other_frame (dm : domain) (fuel : nat) (s s' : State)
    (g : fid) :
  (dm = Frametask -> g <> _nextFrame (sched (world s))) ->
  final (flush behaviour dm fuel s) = Some s' ->
  exists d, trace s' = trace s ++ d /\
    forall c, frame_flag (world s') g c =
              frame_flag (world s) g c ||
              existsb (fun a => flag_test (frame_bit a g) c) (apis_of d).
Proof.
  intros Hg Hf. pose proof (flush_flags_grow_shape dm fuel s g Hg) as Hshape.
  destruct (flush behaviour dm fuel s) as [s1|s1|]; simpl in Hf; [| |discriminate];
    injection Hf as <-.
  - destruct Hshape as (s2 & d & H & T & ->). exists d. split; [exact T|].
    apply (flags_grow_begin_end g dm s s2 d H).
  - destruct Hshape as (d & H & T). exists d. split; [exact T|].
    apply (flags_grow_begin_end g dm s s1 d H).
Qed.

End OtherFrame.

(** ** Work that is due

    A frame flush decides by the flags of the frame what it runs.  A task
    is due when it is queued behind a field of the frame and the flag of
    that field is set.  The loops of the flush run what is due to them, and
    carry along, untouched, what is due to the loops that follow. *)

(** The flag that scheduling through a field of a frame sets. *)
Definition path_bit (p : path) : Z :=
  match p with
  | PWrite _ => FrameFlags.WRITE
  | PRead _ => FrameFlags.READ
  | PAfter _ => FrameFlags.AFTER
  | PGroup _ _ => FrameFlags.WRITE_PRIO
  | _ => 0
  end.

(** The fields of frame [f] that hold write tasks: [writeTasks] and the
    priority groups. *)
Definition write_path (f : fid) (p : path) : Prop :=
  p = PWrite f \/ exists rank, p = PGroup f rank.

(** Task [t] is due in frame [f] through field [p]. *)
Definition due (w : World) (f : fid) (p : path) (t : task) : Prop :=
  frame_flag w f (path_bit p) = true /\ t ∈ contents w p.

Lemma elem_of_pushes (p : path) (t : task) (cs : list api) :
  t ∈ pushes p cs -> exists c, c ∈ cs /\ target c = Some (p, t).
Proof.
  unfold pushes. intros H. apply list_elem_of_omap in H. destruct H as (c & Hc & Ht).
  exists c. split; [exact Hc|].
  destruct (target c) as [[q t']|]; [|discriminate].
  destruct (decide (q = p)) as [->|]; [|discriminate]. congruence.
Qed.

Lemma pushes_set_flag (g : fid) (p : path) (t : task) (cs : list api) :
  path_frame p = Some g -> t ∈ pushes p cs ->
  existsb (fun a => flag_test (frame_bit a g) (path_bit p)) cs = true.
Proof.
  intros Hp Ht. destruct (elem_of_pushes p t cs Ht) as (c & Hc & Hc').
  apply existsb_exists. exists c. split; [apply list_elem_of_In, Hc|].
  destruct c as [cb|cb| | |g' [t'|t' rank|cb|cb]]; simpl in Hc'; try discriminate;
    injection Hc' as <- _; simpl in Hp; try discriminate; injection Hp as ->; simpl;
    destruct (decide (g = g)); try congruence; reflexivity.
Qed.

Lemma pushes_flag (g : fid) (p : path) (t : task) (cs : list api) (c : Z) :
  path_frame p = Some g -> path_bit p = c -> t ∈ pushes p cs ->
  existsb (fun a => flag_test (frame_bit a g) c) cs = true.
Proof. intros Hp <-. apply pushes_set_flag, Hp. Qed.

Lemma write_path_frame (f : fid) (p : path) : write_path f p -> path_frame p = Some f.
Proof. intros [-> | [k ->]]; reflexivity. Qed.

(** Two descriptions of what was logged between the same two states. *)
Lemma stretch_unique (s s' : State) (d d' : list event) :
  trace s' = trace s ++ d -> trace s' = trace s ++ d' -> d = d'.
Proof. intros H H'. apply (app_inv_head (trace s)). congruence. Qed.

Lemma land_within (x m c : Z) : Z.land x m = x -> Z.land m c = 0 -> Z.land x c = 0.
Proof. intros Hx Hm. rewrite <- Hx, <- Z.land_assoc, Hm. apply Z.land_0_r. Qed.

(** What a stretch of a flush of frame [f] carries along when it detaches
    only fields in [C] and clears only flags within [M]: behind every other
    field the tasks queued before, followed by what was scheduled there;
    and every other flag set exactly when it was set before or something
    was scheduled under it. *)
Definition carried (f : fid) (C : path -> Prop) (M : Z) (s s' : State) (d : list event)
  : Prop :=
  wf (world s) ->
  wf (world s') /\
  (forall p, ~ C p -> contents (world s') p = contents (world s) p ++ pushes p (apis_of d)) /\
  (forall c, Z.land M c = 0 ->
     frame_flag (world s') f c =
     frame_flag (world s) f c || existsb (fun a => flag_test (frame_bit a f) c) (apis_of d)).

Lemma carried_refl (f : fid) (C : path -> Prop) (M : Z) (s : State) : carried f C M s s [].
Proof.
  intros W. split; [exact W|]. split.
  - intros p _. simpl. symmetry. apply app_nil_r.
  - intros c _. simpl. symmetry. apply orb_false_r.
Qed.

Lemma carried_trans (f : fid) (C : path -> Prop) (M : Z) (s1 s2 s3 : State)
    (d1 d2 : list event) :
  carried f C M s1 s2 d1 -> carried f C M s2 s3 d2 -> carried f C M s1 s3 (d1 ++ d2).
Proof.
  intros H1 H2 W1. destruct (H1 W1) as (W2 & K1 & F1). destruct (H2 W2) as (W3 & K2 & F2).
  split; [exact W3|]. split.
  - intros p Hp. rewrite K2, K1, apis_of_app, pushes_app by assumption.
    symmetry. apply app_assoc.
  - intros c Hc. rewrite F2, F1, apis_of_app, existsb_app by assumption.
    symmetry. apply orb_assoc.
Qed.

Lemma carried_run (f : fid) (C : path -> Prop) (M : Z) (k : slot) (a : loc)
    (s s' : State) (d : list event) :
  loop_run k a s s' d -> carried f C M s s' d.
Proof.
  intros L W. rewrite (lr_world _ _ _ _ _ L).
  split; [apply apply_apis_wf, W|]. split.
  - intros p _. apply apply_apis_contents, W.
  - intros c _. apply apply_apis_frame_flags.
Qed.

Lemma carried_log (f : fid) (C : path -> Prop) (M : Z) (p : phase) (s : State) :
  carried f C M s (log (EvPhase p) s) [EvPhase p].
Proof.
  intros W. split; [exact W|]. split.
  - intros q _. simpl. symmetry. apply app_nil_r.
  - intros c _. simpl. symmetry. apply orb_false_r.
Qed.

Lemma carried_clear (f : fid) (C : path -> Prop) (M x : Z) (s : State) :
  Z.land x M = x -> carried f C M s (on_world (clear_frame_flag f x) s) [].
Proof.
  intros Hx W. pose proof (inert_clear_frame_flag f x (world s)) as I.
  split; [eapply inert_wf; eauto|]. split.
  - intros p _. simpl. rewrite app_nil_r. apply inert_contents, I.
  - intros c Hc. cbn [on_world world]. rewrite frame_flag_clear. simpl.
    rewrite orb_false_r. apply flag_test_clear_other. eapply land_within; eauto.
Qed.

Lemma carried_assigned (f : fid) (C : path -> Prop) (M : Z) (g : World -> World)
    (p : path) (v : option loc) (s : State) :
  assigned p v (world s) (g (world s)) -> C p ->
  frame_flags (frame_of (g (world s)) f) = frame_flags (frame_of (world s) f) ->
  carried f C M s (on_world g s) [].
Proof.
  intros A Hp Hfl W. split; [eapply assigned_wf; eauto|]. split.
  - intros q Hq. simpl. rewrite app_nil_r, (assigned_contents _ _ _ _ q A W).
    destruct (decide (q = p)) as [->|]; [contradiction | reflexivity].
  - intros c _. unfold frame_flag. cbn [on_world world]. rewrite Hfl. simpl.
    symmetry. apply orb_false_r.
Qed.

(** The fields that the loops of a frame flush detach. *)
Definition groups_of (f : fid) (p : path) : Prop := exists rank, p = PGroup f rank.
Definition reads_of (f : fid) (p : path) : Prop := p = PRead f.
Definition no_path (p : path) : Prop := False.
Definition alternation_paths (f : fid) (p : path) : Prop := groups_of f p \/ reads_of f p.

Section Carried.

Variable behaviour : task -> State -> list action.
Variable f : fid.

Lemma prio_groups_carried (fuel : nat) (i : nat) (s : State) :
  keeps (carried f (groups_of f) 0) s (prio_groups behaviour fuel f i s).
Proof.
  apply (prio_groups_keeps behaviour (carried f (groups_of f) 0) f);
    first [ exact (carried_refl _ _ _) | exact (carried_trans _ _ _)
          | exact (run_keeps _ _ (carried_run _ _ _)) | idtac ].
  intros j s0. eapply carried_assigned;
    [apply null_group_assigned | exists j; reflexivity | apply flags_null_group].
Qed.

Lemma write_prio_carried (fuel : nat) (s : State) :
  keeps (carried f (groups_of f) FrameFlags.WRITE_PRIO) s (write_prio behaviour fuel f s).
Proof.
  apply (write_prio_keeps behaviour (carried f (groups_of f) FrameFlags.WRITE_PRIO) f);
    first [ exact (carried_refl _ _ _) | exact (carried_trans _ _ _)
          | exact (run_keeps _ _ (carried_run _ _ _)) | idtac ].
  - intros s0. apply carried_clear. reflexivity.
  - intros j s0. eapply carried_assigned;
      [apply null_group_assigned | exists j; reflexivity | apply flags_null_group].
Qed.

Lemma write_plain_carried (fuel : nat) (s : State) :
  keeps (carried f no_path FrameFlags.WRITE) s (write_plain behaviour fuel f s).
Proof.
  apply (write_plain_keeps behaviour (carried f no_path FrameFlags.WRITE) f);
    first [ exact (carried_refl _ _ _) | exact (carried_trans _ _ _)
          | exact (run_keeps _ _ (carried_run _ _ _)) | idtac ].
  intros s0. apply carried_clear. reflexivity.
Qed.

Lemma write_while_carried (fuel : nat) (s : State) :
  keeps (carried f (groups_of f) FrameFlags.WRITE_ANY) s (write_while behaviour fuel f s).
Proof.
  apply (write_while_keeps behaviour (carried f (groups_of f) FrameFlags.WRITE_ANY) f);
    first [ exact (carried_refl _ _ _) | exact (carried_trans _ _ _)
          | exact (run_keeps _ _ (carried_run _ _ _)) | idtac ].
  - intros s0. apply carried_clear. reflexivity.
  - intros s0. apply carried_clear. reflexivity.
  - intros j s0. eapply carried_assigned;
      [apply null_group_assigned | exists j; reflexivity | apply flags_null_group].
Qed.

Lemma flags_null_readTasks (w : World) :
  frame_flags (frame_of (null_readTasks f w) f) = frame_flags (frame_of w f).
Proof. unfold null_readTasks. rewrite frame_of_with_frame_eq. reflexivity. Qed.

Lemma read_while_carried (fuel : nat) (s : State) :
  keeps (carried f (reads_of f) FrameFlags.READ) s (read_while behaviour fuel f s).
Proof.
  apply (read_while_keeps behaviour (carried f (reads_of f) FrameFlags.READ) f);
    first [ exact (carried_refl _ _ _) | exact (carried_trans _ _ _)
          | exact (run_keeps _ _ (carried_run _ _ _)) | idtac ].
  - intros s0. apply carried_clear. reflexivity.
  - intros s0. eapply carried_assigned;
      [apply null_readTasks_assigned | reflexivity | apply flags_null_readTasks].
Qed.


Lemma alternation_carried (fuel : nat) (s : State) :
  keeps (carried f (alternation_paths f) (Z.lor FrameFlags.WRITE_ANY FrameFlags.READ)) s
        (alternation behaviour fuel f s).
Proof.
  apply (alternation_keeps behaviour
           (carried f (alternation_paths f) (Z.lor FrameFlags.WRITE_ANY FrameFlags.READ)) f);
    first [ exact (carried_refl _ _ _) | exact (carried_trans _ _ _)
          | exact (run_keeps _ _ (carried_run _ _ _)) | exact (carried_log _ _ _) | idtac ].
  - intros s0. apply carried_clear. reflexivity.
  - intros s0. apply carried_clear. reflexivity.
  - intros s0. apply carried_clear. reflexivity.
  - intros j s0. eapply carried_assigned;
      [apply null_group_assigned | left; exists j; reflexivity | apply flags_null_group].
  - intros s0. eapply carried_assigned;
      [apply null_readTasks_assigned | right; reflexivity | apply flags_null_readTasks].
Qed.

End Carried.

(** ** The loops run what is due *)

Lemma ran_of_keys (d : list event) (k : slot) (a : loc) (i : nat) (l : list task) :
  run_keys d = keys k a i l -> ran d = l.
Proof. intros H. rewrite ran_run_keys, H. apply map_snd_keys. Qed.

Lemma stretch_nil (s : State) (d : list event) : trace s = trace s ++ d -> d = [].
Proof.
  intros H. symmetry. apply (stretch_unique s s [] d); [symmetry; apply app_nil_r | exact H].
Qed.

(** Each write phase runs the write tasks that the read phase before it
    and the write phase itself scheduled into the frame; each read phase
    runs the read tasks that the write phase of its round and the read phase
    itself scheduled.  [prev] is what was logged in the read phase before
    the first of the rounds. *)
Fixpoint rounds_served (f : fid) (prev : list event) (rs : list round) : Prop :=
  match rs with
  | [] => True
  | r :: rest =>
      (forall p t, write_path f p ->
         t ∈ pushes p (apis_of (prev ++ r_write r)) -> t ∈ ran (r_write r)) /\
      (forall t, t ∈ pushes (PRead f) (apis_of (r_write r ++ r_read r)) ->
         t ∈ ran (r_read r)) /\
      rounds_served f (r_read r) rest
  end.



Section Serve.

Variable behaviour : task -> State -> list action.
Variable f : fid.

(** One scan of the priority groups from rank [i] on: it runs every task
    that is in a group at rank [i] or above when it starts; a task that is
    scheduled into a group during the scan is run by the scan or is in its
    group afterwards; and the groups below [i] are not touched. *)
Lemma prio_groups_serves (fuel : nat) (i : nat) (s s' : State) (d : list event) :
  wf (world s) ->
  prio_groups behaviour fuel f i s = Done s' ->
  trace s' = trace s ++ d ->
  (forall k t, (i <= k)%nat -> t ∈ contents (world s) (PGroup f k) -> t ∈ ran d) /\
  (forall k t, t ∈ pushes (PGroup f k) (apis_of d) ->
     t ∈ ran d \/ t ∈ contents (world s') (PGroup f k)) /\
  (forall k t, (k < i)%nat -> t ∈ contents (world s) (PGroup f k) ->
     t ∈ contents (world s') (PGroup f k)).
Proof.
  revert i s d. induction fuel as [|fuel IH]; intros i s d W; [discriminate|].
  cbn [prio_groups].
  destruct (writeTaskGroups (frame_of (world s) f) !! i) as [[g|]|] eqn:Hg.
  - set (s1 := on_world (null_group f i) s).
    pose proof (null_group_assigned f i (world s)) as A.
    assert (Hloc : loc_at (world s) (PGroup f i) = Some g) by (apply loc_at_group, Hg).
    assert (W1 : wf (world s1)) by (eapply assigned_wf; eauto).
    assert (D1 : detached (world s1) g) by (eapply assigned_detaches; eauto).
    destruct (for_each fuel _ g 0 s1) as [s2|s2|] eqn:E; simpl; [|discriminate..].
    intros H T.
    destruct (for_each_detached behaviour _ _ _ _ _ _
                (runner_dispatch behaviour (InPrio i)) D1 E) as (d1 & L & K & _ & _).
    assert (W2 : wf (world s2)) by (eapply loop_run_wf; eauto).
    destruct (prio_groups_traces behaviour fuel f (S i) s2 s') as (d2 & T2 & _);
      [rewrite H; reflexivity|].
    assert (Hd : d = d1 ++ d2).
    { eapply stretch_unique; [exact T|].
      rewrite T2, (lr_trace _ _ _ _ _ L). simpl. symmetry. apply app_assoc. }
    subst d.
    destruct (IH (S i) s2 d2 W2 H T2) as (I1 & I2 & I3).
    assert (Hran1 : ran d1 = array_at (world s) g).
    { rewrite (ran_of_keys _ _ _ _ _ K). apply (assigned_array_at _ _ _ _ g A). }
    assert (Hc1 : forall k, k <> i ->
              contents (world s1) (PGroup f k) = contents (world s) (PGroup f k)).
    { intros k Hk. change (world s1) with (null_group f i (world s)).
      rewrite (assigned_contents _ _ _ _ (PGroup f k) A W).
      destruct (decide (PGroup f k = PGroup f i)) as [e|]; [congruence | reflexivity]. }
    assert (Hc2 : forall p,
              contents (world s2) p = contents (world s1) p ++ pushes p (apis_of d1)).
    { intros p. rewrite (lr_world _ _ _ _ _ L). apply apply_apis_contents, W1. }
    split; [|split].
    + intros k t Hk Ht. rewrite ran_app, elem_of_app.
      destruct (decide (k = i)) as [->|Hne].
      * left. rewrite Hran1. unfold contents in Ht. rewrite Hloc in Ht. exact Ht.
      * right. apply (I1 k t); [lia|].
        rewrite Hc2, elem_of_app, Hc1 by assumption. left. exact Ht.
    + intros k t Ht. rewrite apis_of_app, pushes_app, elem_of_app in Ht.
      rewrite ran_app, elem_of_app.
      destruct Ht as [Ht|Ht].
      * assert (Hin : t ∈ contents (world s2) (PGroup f k))
          by (rewrite Hc2, elem_of_app; right; exact Ht).
        destruct (le_lt_dec (S i) k) as [Hk|Hk].
        -- left. right. apply (I1 k t Hk Hin).
        -- right. apply (I3 k t); [lia | exact Hin].
      * destruct (I2 k t Ht) as [Hr|Hc]; [left; right; exact Hr | right; exact Hc].
    + intros k t Hk Ht. apply (I3 k t); [lia|].
      rewrite Hc2, elem_of_app, Hc1 by lia. left. exact Ht.
  - intros H T. destruct (IH (S i) s d W H T) as (I1 & I2 & I3).
    split; [|split].
    + intros k t Hk Ht. destruct (decide (k = i)) as [->|Hne].
      * unfold contents in Ht. cbn [loc_at] in Ht. rewrite Hg in Ht.
        apply elem_of_nil in Ht. contradiction.
      * apply (I1 k t); [lia | exact Ht].
    + exact I2.
    + intros k t Hk. apply I3. lia.
  - intros [= <-] T. apply stretch_nil in T. subst d.
    split; [|split].
    + intros k t Hk Ht. unfold contents in Ht. cbn [loc_at] in Ht.
      rewrite (proj2 (lookup_ge_None _ k)) in Ht.
      * apply elem_of_nil in Ht. contradiction.
      * apply lookup_ge_None in Hg. lia.
    + intros k t Ht. apply elem_of_nil in Ht. contradiction.
    + intros k t _ Ht. exact Ht.
Qed.

Lemma write_prio_serves (fuel : nat) (s s' : State) (d : list event) :
  wf (world s) ->
  write_prio behaviour fuel f s = Done s' ->
  trace s' = trace s ++ d ->
  (forall k t, due (world s) f (PGroup f k) t -> t ∈ ran d) /\
  (forall k t, t ∈ pushes (PGroup f k) (apis_of d) ->
     t ∈ ran d \/ due (world s') f (PGroup f k) t).
Proof.
  intros W. unfold write_prio. destruct (flag_test _ _) eqn:Hf.
  - set (s0 := on_world (clear_frame_flag f FrameFlags.WRITE_PRIO) s). intros H T.
    assert (I0 : inert (world s) (world s0)) by apply inert_clear_frame_flag.
    assert (W0 : wf (world s0)) by (eapply inert_wf; eauto).
    destruct (prio_groups_serves fuel 0 s0 s' d W0 H T) as (I1 & I2 & _).
    split.
    + intros k t [_ Ht]. apply (I1 k t); [lia|].
      rewrite (inert_contents _ _ _ I0). exact Ht.
    + intros k t Ht. destruct (I2 k t Ht) as [Hr|Hc]; [left; exact Hr|].
      right. split; [|exact Hc].
      destruct (prio_groups_carried behaviour f fuel 0 s0 s') as (d' & Cd & T');
        [rewrite H; reflexivity|].
      assert (d' = d) by (eapply stretch_unique; eauto). subst d'.
      destruct (Cd W0) as (_ & _ & Fl). cbn [path_bit].
      rewrite (Fl FrameFlags.WRITE_PRIO eq_refl).
      rewrite (pushes_flag f (PGroup f k) t _ FrameFlags.WRITE_PRIO eq_refl eq_refl Ht).
      apply orb_true_r.
  - intros [= <-] T. apply stretch_nil in T. subst d. split.
    + intros k t [Hfl _]. unfold frame_flag in Hfl. cbn [path_bit] in Hfl. congruence.
    + intros k t Ht. apply elem_of_nil in Ht. contradiction.
Qed.

Lemma write_plain_serves (fuel : nat) (s s' : State) (d : list event) :
  wf (world s) ->
  write_plain behaviour fuel f s = Done s' ->
  trace s' = trace s ++ d ->
  forall t, due (world s) f (PWrite f) t \/ t ∈ pushes (PWrite f) (apis_of d) -> t ∈ ran d.
Proof.
  intros W. unfold write_plain. destruct (flag_test _ _) eqn:Hf.
  - set (s0 := on_world (clear_frame_flag f FrameFlags.WRITE) s).
    assert (I0 : inert (world s) (world s0)) by apply inert_clear_frame_flag.
    assert (W0 : wf (world s0)) by (eapply inert_wf; eauto).
    destruct (writeTasks (frame_of (world s0) f)) as [g|] eqn:Hg; [|discriminate].
    intros H T.
    pose proof (for_each_spec behaviour fuel InWrite (dispatch behaviour InWrite)
                  g 0 s0 (runner_dispatch behaviour InWrite)) as Hs.
    rewrite H in Hs. destruct Hs as (d0 & L & K).
    assert (d0 = d) by (eapply stretch_unique; [apply (lr_trace _ _ _ _ _ L) | exact T]).
    subst d0. rewrite drop_0 in K.
    assert (Hloc' : loc_at (world s') (PWrite f) = Some g).
    { rewrite (lr_world _ _ _ _ _ L). apply apply_apis_persist. exact Hg. }
    assert (Hran : ran d = contents (world s') (PWrite f)).
    { rewrite (ran_of_keys _ _ _ _ _ K). unfold contents. rewrite Hloc'. reflexivity. }
    assert (Hc : contents (world s') (PWrite f) =
                 contents (world s) (PWrite f) ++ pushes (PWrite f) (apis_of d)).
    { rewrite (lr_world _ _ _ _ _ L), apply_apis_contents by exact W0.
      f_equal. apply inert_contents, I0. }
    intros t Ht. rewrite Hran, Hc, elem_of_app.
    destruct Ht as [[_ Ht]|Ht]; [left | right]; exact Ht.
  - intros [= <-] T. apply stretch_nil in T. subst d.
    intros t [[Hfl _]|Ht].
    + unfold frame_flag in Hfl. cbn [path_bit] in Hfl. congruence.
    + apply elem_of_nil in Ht. contradiction.
Qed.

(** The write loop, when it returns, has run every write task, plain or
    prioritised, that was due when it began or was scheduled into the frame
    while it ran. *)
Lemma write_while_serves (fuel : nat) (s s' : State) (d : list event) :
  wf (world s) ->
  write_while behaviour fuel f s = Done s' ->
  trace s' = trace s ++ d ->
  forall p t, write_path f p ->
    due (world s) f p t \/ t ∈ pushes p (apis_of d) -> t ∈ ran d.
Proof.
  revert s d. induction fuel as [|fuel IH]; intros s d W; [discriminate|].
  cbn [write_while]. destruct (flag_test _ _) eqn:Hany.
  - destruct (write_prio behaviour fuel f s) as [s1|s1|] eqn:E1; simpl; [|discriminate..].
    destruct (write_plain behaviour fuel f s1) as [s2|s2|] eqn:E2; simpl; [|discriminate..].
    intros H T.
    destruct (write_prio_carried behaviour f fuel s s1) as (d1 & C1 & T1);
      [rewrite E1; reflexivity|].
    destruct (C1 W) as (W1 & K1 & F1).
    destruct (write_plain_carried behaviour f fuel s1 s2) as (d2 & C2 & T2);
      [rewrite E2; reflexivity|].
    destruct (C2 W1) as (W2 & K2 & F2).
    destruct (write_while_traces behaviour fuel f s2 s') as (d3 & T3 & _);
      [rewrite H; reflexivity|].
    assert (Hd : d = d1 ++ d2 ++ d3).
    { eapply stretch_unique; [exact T|]. rewrite T3, T2, T1, <- !app_assoc. reflexivity. }
    subst d.
    destruct (write_prio_serves fuel s s1 d1 W E1 T1) as (P1 & P2).
    pose proof (write_plain_serves fuel s1 s2 d2 W1 E2 T2) as Q.
    pose proof (IH s2 d3 W2 H T3) as R3.
    assert (Hnp : forall q, ~ no_path q) by (intros q Hq; exact Hq).
    intros p t Hp Ht. rewrite !ran_app, !elem_of_app.
    rewrite !apis_of_app, !pushes_app, !elem_of_app in Ht.
    destruct Hp as [-> | [k ->]].
    + assert (Hng : ~ groups_of f (PWrite f)) by (intros [k' Hk']; discriminate).
      destruct Ht as [[Hfl Hin] | [Ht | [Ht | Ht]]].
      * right. left. apply Q. left. split.
        -- cbn [path_bit] in *. rewrite (F1 FrameFlags.WRITE eq_refl), Hfl. reflexivity.
        -- rewrite (K1 _ Hng). apply elem_of_app. left. exact Hin.
      * right. left. apply Q. left. split.
        -- cbn [path_bit]. rewrite (F1 FrameFlags.WRITE eq_refl).
           rewrite (pushes_flag f (PWrite f) t _ FrameFlags.WRITE eq_refl eq_refl Ht).
           apply orb_true_r.
        -- rewrite (K1 _ Hng). apply elem_of_app. right. exact Ht.
      * right. left. apply Q. right. exact Ht.
      * right. right. apply (R3 (PWrite f) t); [left; reflexivity | right; exact Ht].
    + assert (Hcarry : forall t0,
        due (world s1) f (PGroup f k) t0 \/ t0 ∈ pushes (PGroup f k) (apis_of d2) ->
        due (world s2) f (PGroup f k) t0).
      { intros t0 [[Hfl Hin]|Hp2]; split.
        - cbn [path_bit] in *. rewrite (F2 FrameFlags.WRITE_PRIO eq_refl), Hfl. reflexivity.
        - rewrite (K2 _ (Hnp _)). apply elem_of_app. left. exact Hin.
        - cbn [path_bit]. rewrite (F2 FrameFlags.WRITE_PRIO eq_refl).
          rewrite (pushes_flag f (PGroup f k) t0 _ FrameFlags.WRITE_PRIO eq_refl eq_refl Hp2).
          apply orb_true_r.
        - rewrite (K2 _ (Hnp _)). apply elem_of_app. right. exact Hp2. }
      assert (Hwp : write_path f (PGroup f k)) by (right; exists k; reflexivity).
      destruct Ht as [Hdue | [Ht | [Ht | Ht]]].
      * left. apply (P1 k t Hdue).
      * destruct (P2 k t Ht) as [Hr|Hdue1]; [left; exact Hr|].
        right. right. apply (R3 (PGroup f k) t Hwp). left. apply Hcarry. left. exact Hdue1.
      * right. right. apply (R3 (PGroup f k) t Hwp). left. apply Hcarry. right. exact Ht.
      * right. right. apply (R3 (PGroup f k) t Hwp). right. exact Ht.
  - intros [= <-] T. apply stretch_nil in T. subst d.
    intros p t Hp [[Hfl _]|Ht].
    + exfalso. fold (frame_flag (world s) f FrameFlags.WRITE_ANY) in Hany.
      rewrite frame_flag_write_any in Hany. apply orb_false_iff in Hany as [Hw Hpr].
      destruct Hp as [-> | [k ->]]; cbn [path_bit] in Hfl; congruence.
    + apply elem_of_nil in Ht. contradiction.
Qed.

(** The read loop, when it returns, has run every read task that was due
    when it began or was scheduled into the frame while it ran. *)
Lemma read_while_serves (fuel : nat) (s s' : State) (d : list event) :
  wf (world s) ->
  read_while behaviour fuel f s = Done s' ->
  trace s' = trace s ++ d ->
  forall t, due (world s) f (PRead f) t \/ t ∈ pushes (PRead f) (apis_of d) -> t ∈ ran d.
Proof.
  revert s d. induction fuel as [|fuel IH]; intros s d W; [discriminate|].
  cbn [read_while]. destruct (flag_test _ _) eqn:Hf.
  - set (s1 := on_world (clear_frame_flag f FrameFlags.READ) s).
    set (s2 := on_world (null_readTasks f) s1).
    assert (I1 : inert (world s) (world s1)) by apply inert_clear_frame_flag.
    assert (W1 : wf (world s1)) by (eapply inert_wf; eauto).
    pose proof (null_readTasks_assigned f (world s1)) as A.
    assert (W2 : wf (world s2)) by (eapply assigned_wf; eauto).
    destruct (readTasks (frame_of (world s1) f)) as [g|] eqn:Hg; [|discriminate].
    assert (Hloc1 : loc_at (world s1) (PRead f) = Some g) by exact Hg.
    assert (D2 : detached (world s2) g) by (eapply assigned_detaches; eauto).
    destruct (for_each fuel _ g 0 s2) as [s3|s3|] eqn:E; simpl; [|discriminate..].
    intros H T.
    destruct (for_each_detached behaviour _ _ _ _ _ _
                (runner_call behaviour InRead) D2 E) as (d1 & L & K & _ & _).
    assert (W3 : wf (world s3)) by (eapply loop_run_wf; eauto).
    destruct (read_while_traces behaviour fuel f s3 s') as (d2 & T2 & _);
      [rewrite H; reflexivity|].
    assert (Hd : d = d1 ++ d2).
    { eapply stretch_unique; [exact T|].
      rewrite T2, (lr_trace _ _ _ _ _ L). simpl. symmetry. apply app_assoc. }
    subst d.
    assert (Hran1 : ran d1 = contents (world s) (PRead f)).
    { rewrite (ran_of_keys _ _ _ _ _ K).
      change (world s2) with (null_readTasks f (world s1)).
      rewrite (assigned_array_at _ _ _ _ g A), (inert_array_at _ _ g I1).
      unfold contents. rewrite <- (proj2 I1 (PRead f)), Hloc1. reflexivity. }
    assert (Hc3 : contents (world s3) (PRead f) = pushes (PRead f) (apis_of d1)).
    { rewrite (lr_world _ _ _ _ _ L), apply_apis_contents by exact W2.
      change (world s2) with (null_readTasks f (world s1)).
      rewrite (assigned_contents _ _ _ _ (PRead f) A W1).
      destruct (decide (PRead f = PRead f)); [reflexivity | congruence]. }
    assert (Hf3 : forall t, t ∈ pushes (PRead f) (apis_of d1) ->
                            frame_flag (world s3) f FrameFlags.READ = true).
    { intros t Ht. unfold frame_flag.
      rewrite (lr_world _ _ _ _ _ L), apply_apis_frame_flags.
      rewrite (pushes_flag f (PRead f) t _ FrameFlags.READ eq_refl eq_refl Ht).
      apply orb_true_r. }
    pose proof (IH s3 d2 W3 H T2) as R.
    intros t Ht. rewrite ran_app, elem_of_app.
    rewrite apis_of_app, pushes_app, elem_of_app in Ht.
    destruct Ht as [[_ Hin] | [Ht|Ht]].
    + left. rewrite Hran1. exact Hin.
    + right. apply R. left. split; [apply (Hf3 t Ht) | rewrite Hc3; exact Ht].
    + right. apply R. right. exact Ht.
  - intros [= <-] T. apply stretch_nil in T. subst d.
    intros t [[Hfl _]|Ht].
    + unfold frame_flag in Hfl. cbn [path_bit] in Hfl. congruence.
    + apply elem_of_nil in Ht. contradiction.
Qed.

(** The after loop, when it returns, has run every after-task that was due
    when it began or was scheduled into the frame while it ran. *)
Lemma after_while_serves (fuel : nat) (s s' : State) (d : list event) :
  wf (world s) ->
  after_while behaviour fuel f s = Done s' ->
  trace s' = trace s ++ d ->
  forall t, due (world s) f (PAfter f) t \/ t ∈ pushes (PAfter f) (apis_of d) -> t ∈ ran d.
Proof.
  revert s d. induction fuel as [|fuel IH]; intros s d W; [discriminate|].
  cbn [after_while]. destruct (flag_test _ _) eqn:Hf.
  - set (s1 := on_world (clear_frame_flag f FrameFlags.AFTER) s).
    assert (I1 : inert (world s) (world s1)) by apply inert_clear_frame_flag.
    assert (W1 : wf (world s1)) by (eapply inert_wf; eauto).
    destruct (afterTasks (frame_of (world s1) f)) as [g|] eqn:Hg; [|discriminate].
    pose proof (for_each_spec behaviour fuel InAfter (call behaviour InAfter)
                  g 0 s1 (runner_call behaviour InAfter)) as Hs.
    destruct (for_each fuel _ g 0 s1) as [s2|s2|] eqn:E; simpl; [|discriminate..].
    intros H T. destruct Hs as (d1 & L & K). rewrite drop_0 in K.
    assert (W2 : wf (world s2)) by (eapply loop_run_wf; eauto).
    destruct (after_while_traces behaviour fuel f s2 s') as (d2 & T2 & _);
      [rewrite H; reflexivity|].
    assert (Hd : d = d1 ++ d2).
    { eapply stretch_unique; [exact T|].
      rewrite T2, (lr_trace _ _ _ _ _ L). simpl. symmetry. apply app_assoc. }
    subst d.
    assert (Hloc2 : loc_at (world s2) (PAfter f) = Some g).
    { rewrite (lr_world _ _ _ _ _ L). apply apply_apis_persist. exact Hg. }
    assert (Hran1 : ran d1 = contents (world s2) (PAfter f)).
    { rewrite (ran_of_keys _ _ _ _ _ K). unfold contents. rewrite Hloc2. reflexivity. }
    assert (Hc : contents (world s2) (PAfter f) =
                 contents (world s) (PAfter f) ++ pushes (PAfter f) (apis_of d1)).
    { rewrite (lr_world _ _ _ _ _ L), apply_apis_contents by exact W1.
      f_equal. apply inert_contents, I1. }
    pose proof (IH s2 d2 W2 H T2) as R.
    intros t Ht. rewrite ran_app, elem_of_app.
    rewrite apis_of_app, pushes_app, elem_of_app in Ht.
    destruct Ht as [[_ Hin] | [Ht|Ht]].
    + left. rewrite Hran1, Hc, elem_of_app. left. exact Hin.
    + left. rewrite Hran1, Hc, elem_of_app. right. exact Ht.
    + right. apply R. right. exact Ht.
  - intros [= <-] T. apply stretch_nil in T. subst d.
    intros t [[Hfl _]|Ht].
    + unfold frame_flag in Hfl. cbn [path_bit] in Hfl. congruence.
    + apply elem_of_nil in Ht. contradiction.
Qed.

End Serve.

(** ** The rounds of the alternation run what is due *)

Lemma ran_round_events (r : round) :
  ran (round_events r) = ran (r_write r) ++ ran (r_read r).
Proof.
  unfold round_events.
  change (EvPhase PhWrite :: r_write r ++ EvPhase PhRead :: r_read r)
    with ([EvPhase PhWrite] ++ r_write r ++ [EvPhase PhRead] ++ r_read r).
  rewrite !ran_app. reflexivity.
Qed.

Lemma ran_rounds_events (r : round) (rs : list round) :
  ran (rounds_events (r :: rs)) = ran (r_write r) ++ ran (r_read r) ++ ran (rounds_events rs).
Proof.
  unfold rounds_events. cbn [map concat]. rewrite ran_app, ran_round_events.
  symmetry. apply app_assoc.
Qed.

Lemma due_log (f : fid) (e : event) (s : State) (p : path) (t : task) :
  due (world (log e s)) f p t <-> due (world s) f p t.
Proof. reflexivity. Qed.

Section ServeRounds.

Variable behaviour : task -> State -> list action.
Variable f : fid.

(** The alternation, when it returns: the rounds it ran, a round being
    followed by another exactly when its read phase scheduled a write, and
    what each of their phases ran.  [prev] stands for a read phase before
    the first round whose writes are due. *)
Lemma alternation_serves (fuel : nat) (s s' : State) (prev : list event) :
  wf (world s) ->
  alternation behaviour fuel f s = Done s' ->
  (forall p t, write_path f p -> t ∈ pushes p (apis_of prev) -> due (world s) f p t) ->
  exists rs,
    trace s' = trace s ++ rounds_events rs /\
    rs <> [] /\
    Forall (fun r => Forall write_event (r_write r) /\ Forall read_event (r_read r)) rs /\
    rounds_chain f rs /\
    frame_flag (world s') f FrameFlags.WRITE_ANY = false /\
    frame_flag (world s') f FrameFlags.READ = false /\
    rounds_served f prev rs /\
    (forall r rest, rs = r :: rest ->
       (forall p t, write_path f p -> due (world s) f p t -> t ∈ ran (r_write r)) /\
       (forall t, due (world s) f (PRead f) t -> t ∈ ran (r_read r))) /\
    wf (world s').
Proof.
  revert s prev. induction fuel as [|fuel IH]; intros s prev W; simpl; [discriminate|].
  destruct (write_while behaviour fuel f (log (EvPhase PhWrite) s)) as [s1|s1|] eqn:E1;
    simpl; [|discriminate..].
  pose proof (write_while_done behaviour _ _ _ _ E1) as Hw1.
  destruct (write_while_traces behaviour fuel f (log (EvPhase PhWrite) s) s1)
    as (dw & Tw & Fw); [rewrite E1; reflexivity|].
  destruct (write_while_carried behaviour f fuel (log (EvPhase PhWrite) s) s1)
    as (dw' & Cw & Tw'); [rewrite E1; reflexivity|].
  assert (dw' = dw) by (eapply stretch_unique; eauto). subst dw'.
  destruct (Cw W) as (W1 & Kw & Flw).
  pose proof (write_while_serves behaviour f fuel (log (EvPhase PhWrite) s) s1 dw W E1 Tw)
    as Sw.
  destruct (read_while behaviour fuel f (log (EvPhase PhRead) s1)) as [s2|s2|] eqn:E2;
    simpl; [|discriminate..].
  destruct (read_while_spec behaviour _ _ _ _ E2) as (Hr2 & dr & [Tr Fr] & Hw2).
  destruct (read_while_carried behaviour f fuel (log (EvPhase PhRead) s1) s2)
    as (dr' & Cr & Tr'); [rewrite E2; reflexivity|].
  assert (dr' = dr) by (eapply stretch_unique; eauto). subst dr'.
  destruct (Cr W1) as (W2 & Kr & Flr).
  pose proof (read_while_serves behaviour f fuel (log (EvPhase PhRead) s1) s2 dr W1 E2 Tr)
    as Sr.
  cbn [log world] in Kw, Flw, Kr, Flr, Sw, Sr.
  change (frame_flag (world (log (EvPhase PhRead) s1)) f FrameFlags.WRITE_ANY)
    with (frame_flag (world s1) f FrameFlags.WRITE_ANY) in Hw2.
  rewrite Hw1 in Hw2. simpl in Hw2.
  assert (Ht : trace s2 = trace s ++ round_events (mk_round dw dr)).
  { rewrite Tr. simpl. rewrite Tw. simpl. unfold round_events. simpl.
    rewrite <- !app_assoc. reflexivity. }
  intros Hfin Hprev.
  assert (Hng : forall p, p = PRead f \/ p = PAfter f -> ~ groups_of f p).
  { intros p [-> | ->] [k Hk]; discriminate. }
  assert (Sv1 : forall p t, write_path f p ->
            t ∈ pushes p (apis_of (prev ++ dw)) -> t ∈ ran dw).
  { intros p t Hp Hin. rewrite apis_of_app, pushes_app, elem_of_app in Hin.
    apply (Sw p t Hp). destruct Hin as [Hpv|Hd]; [left; apply (Hprev p t Hp Hpv) | right; exact Hd]. }
  assert (Hdr : forall t, due (world s) f (PRead f) t \/ t ∈ pushes (PRead f) (apis_of dw) ->
            due (world s1) f (PRead f) t).
  { intros t [[Hfl Hin]|Hp]; split.
    - cbn [path_bit] in *. rewrite (Flw FrameFlags.READ eq_refl), Hfl. reflexivity.
    - rewrite (Kw _ (Hng _ (or_introl eq_refl))). apply elem_of_app. left. exact Hin.
    - cbn [path_bit]. rewrite (Flw FrameFlags.READ eq_refl).
      rewrite (pushes_flag f (PRead f) t _ FrameFlags.READ eq_refl eq_refl Hp).
      apply orb_true_r.
    - rewrite (Kw _ (Hng _ (or_introl eq_refl))). apply elem_of_app. right. exact Hp. }
  assert (Sv2 : forall t, t ∈ pushes (PRead f) (apis_of (dw ++ dr)) -> t ∈ ran dr).
  { intros t Hin. rewrite apis_of_app, pushes_app, elem_of_app in Hin. apply Sr.
    destruct Hin as [Hd|Hd]; [left; apply Hdr; right; exact Hd | right; exact Hd]. }
  assert (Hnext : forall p t, write_path f p -> t ∈ pushes p (apis_of dr) ->
            due (world s2) f p t).
  { intros p t Hp Hin. split.
    - rewrite (Flr (path_bit p)) by (destruct Hp as [-> | [k ->]]; reflexivity).
      rewrite (pushes_set_flag f p t _ (write_path_frame f p Hp) Hin). apply orb_true_r.
    - rewrite (Kr p) by (intros Hrp; destruct Hp as [-> | [k ->]]; discriminate).
      apply elem_of_app. right. exact Hin. }
  assert (Hinit : (forall p t, write_path f p -> due (world s) f p t -> t ∈ ran dw) /\
                  (forall t, due (world s) f (PRead f) t -> t ∈ ran dr)).
  { split.
    - intros p t Hp Hd. apply (Sw p t Hp). left. exact Hd.
    - intros t Hd. apply Sr. left. apply Hdr. left. exact Hd. }
  fold (frame_flag (world s2) f FrameFlags.WRITE_ANY) in Hfin.
  destruct (frame_flag (world s2) f FrameFlags.WRITE_ANY) eqn:Hany.
  - destruct (IH s2 dr W2 Hfin Hnext)
      as (rs & Hts & Hne & Hok & Hch & Hf1 & Hf2 & Hsv & _ & W').
    exists (mk_round dw dr :: rs).
    split; [rewrite Hts, Ht; unfold rounds_events; cbn [map concat];
            rewrite <- app_assoc; reflexivity|].
    split; [discriminate|].
    split; [constructor; [split; assumption | exact Hok]|].
    split; [simpl; split; [rewrite <- Hw2; tauto | exact Hch]|].
    split; [exact Hf1|]. split; [exact Hf2|].
    split; [cbn [rounds_served r_write r_read]; split; [exact Sv1|]; split; [exact Sv2 | exact Hsv]|].
    split; [|exact W'].
    intros r rest [= <- <-]. exact Hinit.
  - injection Hfin as <-. exists [mk_round dw dr].
    split; [rewrite Ht; unfold rounds_events; cbn [map concat];
            rewrite app_nil_r; reflexivity|].
    split; [discriminate|].
    split; [constructor; [split; assumption | constructor]|].
    split; [simpl; split; [rewrite <- Hw2; split; [congruence | discriminate] | exact I]|].
    split; [exact Hany|]. split; [exact Hr2|].
    split; [cbn [rounds_served r_write r_read]; split; [exact Sv1|]; split; [exact Sv2 | exact I]|].
    split; [|exact W2].
    intros r rest [= <- <-]. exact Hinit.
Qed.

End ServeRounds.

Lemma due_frame_begin (w : World) (f : fid) (p : path) (t : task) :
  due (frame_begin w) f p t <-> due w f p t.
Proof.
  unfold due. rewrite frame_flag_frame_begin.
  rewrite (inert_contents _ _ p (inert_frame_begin w)). reflexivity.
Qed.

Section ServeFlush.

Variable behaviour : task -> State -> list action.

(** A frame flush that returns has run every task that was due in the
    frame it flushed. *)
Lemma frame_flush_serves (fuel : nat) (s s' : State) :
  wf (world s) ->
  _handleAnimationFrame behaviour fuel s = Done s' ->
  exists d, trace s' = trace s ++ d /\
    forall p t, path_frame p = Some (_nextFrame (sched (world s))) ->
      due (world s) (_nextFrame (sched (world s))) p t -> t ∈ ran d.
Proof.
  intros W. unfold _handleAnimationFrame.
  change (_currentFrame (sched (world (on_world frame_begin s))))
    with (_nextFrame (sched (world s))).
  set (f := _nextFrame (sched (world s))).
  set (s0 := on_world frame_begin s).
  assert (W0 : wf (world s0)) by (eapply inert_wf; [apply inert_frame_begin | exact W]).
  destruct (alternation behaviour fuel f s0) as [s1|s1|] eqn:E1; simpl; [|discriminate..].
  destruct (after_while behaviour fuel f (log (EvPhase PhAfter) s1)) as [s2|s2|] eqn:E2;
    simpl; [|discriminate..].
  intros [= <-].
  destruct (alternation_serves behaviour f fuel s0 s1 [] W0 E1)
    as (rs & Ht & Hne & _ & _ & _ & _ & _ & Hinit & W1).
  { intros p t _ Hin. apply elem_of_nil in Hin. contradiction. }
  destruct (alternation_carried behaviour f fuel s0 s1) as (da & Ca & Ta);
    [rewrite E1; reflexivity|].
  destruct (Ca W0) as (_ & Ka & Fla).
  destruct (after_while_traces behaviour fuel f (log (EvPhase PhAfter) s1) s2)
    as (dz & Tz & _); [rewrite E2; reflexivity|].
  pose proof (after_while_serves behaviour f fuel (log (EvPhase PhAfter) s1) s2 dz W1 E2 Tz)
    as Sz.
  exists (rounds_events rs ++ EvPhase PhAfter :: dz).
  split.
  { cbn [on_world trace]. rewrite Tz. cbn [log trace]. rewrite Ht.
    cbn [on_world trace]. rewrite <- !app_assoc. reflexivity. }
  intros p t Hp Hdue. apply (due_frame_begin (world s) f p t) in Hdue.
  change (rounds_events rs ++ EvPhase PhAfter :: dz)
    with (rounds_events rs ++ [EvPhase PhAfter] ++ dz).
  rewrite !ran_app, !elem_of_app.
  destruct rs as [|r rest]; [congruence|].
  destruct (Hinit r rest eq_refl) as [Hiw Hir].
  rewrite ran_rounds_events, !elem_of_app.
  destruct p as [| |g|g|g|g k]; simpl in Hp; try discriminate; injection Hp as ->.
  - left. left. apply (Hiw (PWrite f) t); [left; reflexivity | exact Hdue].
  - left. right. left. apply (Hir t Hdue).
  - right. right. apply Sz. left. destruct Hdue as [Hfl Hin]. split.
    + cbn [path_bit log world] in *. rewrite (Fla FrameFlags.AFTER eq_refl).
      change (world s0) with (frame_begin (world s)). rewrite Hfl. reflexivity.
    + cbn [log world]. rewrite Ka.
      * apply elem_of_app. left. exact Hin.
      * intros [[k Hk]|Hk]; discriminate.
  - left. left. apply (Hiw (PGroup f k) t); [right; exists k; reflexivity | exact Hdue].
Qed.

End ServeFlush.

(** ** Work deferred to the next frame *)

Section Deferred.

Variable behaviour : task -> State -> list action.

(** What a frame flush, returning or raising, hands over to the next one:
    the frames are swapped, and the frame that was current holds what it
    held and what the tasks scheduled into it, with the flags to match. *)
Lemma frame_flush_hands_over (fuel : nat) (s s1 : State) :
  wf (world s) ->
  _currentFrame (sched (world s)) <> _nextFrame (sched (world s)) ->
  final (_handleAnimationFrame behaviour fuel s) = Some s1 ->
  wf (world s1) /\
  _currentFrame (sched (world s1)) = _nextFrame (sched (world s)) /\
  _nextFrame (sched (world s1)) = _currentFrame (sched (world s)) /\
  exists d1, trace s1 = trace s ++ d1 /\
    (forall p, path_frame p = Some (_currentFrame (sched (world s))) ->
       contents (world s1) p = contents (world s) p ++ pushes p (apis_of d1)) /\
    (forall c, frame_flag (world s1) (_currentFrame (sched (world s))) c =
               frame_flag (world s) (_currentFrame (sched (world s))) c ||
               existsb (fun a => flag_test (frame_bit a (_currentFrame (sched (world s)))) c)
                       (apis_of d1)).
Proof.
  intros W Hne Hf. set (g := _currentFrame (sched (world s))) in *.
  change (_handleAnimationFrame behaviour fuel s)
    with (flush behaviour Frametask fuel s) in Hf.
  destruct (flush_steady behaviour Frametask fuel s s1 Hf) as (d0 & T0 & _ & Cur & Nxt).
  pose proof (flush_kept_shape behaviour Frametask fuel s) as K.
  pose proof (flush_flags_grow_shape behaviour Frametask fuel s g (fun _ => Hne)) as Fl.
  assert (Hnc : forall p, path_frame p = Some g ->
                ~ consumed Frametask (_nextFrame (sched (world s))) p).
  { intros p Hp Hc. destruct p; simpl in *; try contradiction; congruence. }
  assert (Hgo : exists d1, trace s1 = trace s ++ d1 /\
                  kept (consumed Frametask (_nextFrame (sched (world s)))) s s1 d1 /\
                  flags_grow g s s1 d1).
  { destruct (flush behaviour Frametask fuel s) as [s2|s2|]; simpl in Hf;
      [| |discriminate]; injection Hf as <-.
    - destruct K as (sa & da & Ka & Ta & Ea). destruct Fl as (sb & db & Fb & Tb & Eb).
      assert (da = db).
      { apply (app_inv_head (trace s)). rewrite <- Ta, <- Tb.
        transitivity (trace s2); [rewrite Ea | rewrite Eb]; reflexivity. }
      subst db. exists da. split; [rewrite Ea; exact Ta|].
      split.
      + rewrite Ea. apply (kept_begin_end _ Frametask s sa da Ka).
      + rewrite Eb. apply (flags_grow_begin_end g Frametask s sb da Fb).
    - destruct K as (da & Ka & Ta). destruct Fl as (db & Fb & Tb).
      assert (da = db) by (apply (app_inv_head (trace s)); congruence).
      subst db. exists da. split; [exact Ta|]. split.
      + apply (kept_begin_end _ Frametask s s2 da Ka).
      + apply (flags_grow_begin_end g Frametask s s2 da Fb). }
  destruct Hgo as (d1 & T1 & K1 & F1). destruct (K1 W) as [W1 C1].
  split; [exact W1|]. split; [exact Cur|]. split; [exact Nxt|].
  exists d1. split; [exact T1|]. split; [|exact F1].
  intros p Hp. apply C1, Hnc, Hp.
Qed.

(** X16: Work scheduled for the next frame is run by the next frame flush.
    Whatever a frame flush did, and whether it returned or raised: every
    task that was scheduled during it into the frame that comes next (a
    plain or prioritised write, a read or an after-task) is run by the frame
    flush that follows, when that one returns.  Nothing is asked of the
    tasks of either flush: they may schedule into any frame. *)
Theorem next_frame_work_runs_in_next_flush (fuel1 fuel2 : nat) (s s1 s2 : State) :
  wf (world s) ->
  _currentFrame (sched (world s)) <> _nextFrame (sched (world s)) ->
  final (_handleAnimationFrame behaviour fuel1 s) = Some s1 ->
  _handleAnimationFrame behaviour fuel2 s1 = Done s2 ->
  exists d1 d2,
    trace s1 = trace s ++ d1 /\
    trace s2 = trace s1 ++ d2 /\
    forall p t, path_frame p = Some (fst (nextFrame (world s1))) ->
                t ∈ pushes p (apis_of d1) -> t ∈ ran d2.
Proof.
  intros W Hne H1 H2.
  destruct (frame_flush_hands_over fuel1 s s1 W Hne H1)
    as (W1 & Cur1 & Nxt1 & d1 & T1 & C1 & F1).
  destruct (frame_flush_serves behaviour fuel2 s1 s2 W1 H2) as (d2 & T2 & S2).
  exists d1, d2. split; [exact T1|]. split; [exact T2|].
  assert (Hnf : fst (nextFrame (world s1)) = _currentFrame (sched (world s))).
  { unfold nextFrame. cbn [fst]. destruct (flag_test _ _); exact Nxt1. }
  rewrite Hnf. rewrite Nxt1 in S2.
  set (g := _currentFrame (sched (world s))) in *.
  intros p t Hp Ht. apply (S2 p t Hp). split.
  - rewrite F1, (pushes_set_flag g p t _ Hp Ht). apply orb_true_r.
  - rewrite (C1 p Hp). apply elem_of_app. right. exact Ht.
Qed.

End Deferred.

(** ** The frame flush, phase by phase *)










Section Rounds.

Variable behaviour : task -> State -> list action.


End Rounds.

(** ** One scan of the priority groups *)

Lemma Forall_ranks (P : nat -> Prop) (bs : list block) :
  Forall P (map b_rank bs) -> forall b, b ∈ bs -> P (b_rank b).
Proof.
  induction bs as [|b0 bs IH]; cbn [map]; intros HF b Hb.
  - apply elem_of_nil in Hb. contradiction.
  - inversion HF; subst. apply elem_of_cons in Hb as [->|Hb]; auto.
Qed.

Lemma sorted_after (pre : list block) (b : block) (post : list block) :
  StronglySorted lt (map b_rank (pre ++ b :: post)) ->
  forall b', b' ∈ post -> (b_rank b < b_rank b')%nat.
Proof.
  induction pre as [|b0 pre IH]; cbn [app map]; intros H.
  - apply StronglySorted_inv in H as [_ HF]. apply Forall_ranks, HF.
  - apply StronglySorted_inv in H as [H _]. apply IH, H.
Qed.

Section Scan.

Variable behaviour : task -> State -> list action.

(** A scan that returns.  Besides the blocks it ran, in ascending rank and
    each the whole of its group: a task scheduled into a group while the
    block of a lower rank ran is in the group that a later block of the scan
    ran; a task scheduled into the group of the rank that was being run, or
    of a lower rank, is in its group when the scan ends. *)
Lemma prio_groups_spec (fuel : nat) (f : fid) (i : nat) (s s' : State) :
  wf (world s) ->
  prio_groups behaviour fuel f i s = Done s' ->
  exists bs,
    trace s' = trace s ++ blocks_events bs /\
    Forall (fun b => (i <= b_rank b)%nat) bs /\
    StronglySorted lt (map b_rank bs) /\
    Forall (block_ok (world s')) bs /\
    (forall r a, (i <= r)%nat -> loc_at (world s) (PGroup f r) = Some a ->
       exists b, b ∈ bs /\ b_rank b = r /\ b_group b = a) /\
    wf (world s') /\
    extends (world s) (world s') /\
    (forall pre b post, bs = pre ++ b :: post ->
       forall r t, t ∈ pushes (PGroup f r) (apis_of (b_events b)) ->
         ((b_rank b < r)%nat ->
          exists b', b' ∈ post /\ b_rank b' = r /\ t ∈ array_at (world s') (b_group b')) /\
         ((r <= b_rank b)%nat -> t ∈ contents (world s') (PGroup f r))).
Proof.
  revert i s. induction fuel as [|fuel IH]; intros i s W; [discriminate|].
  simpl. destruct (writeTaskGroups (frame_of (world s) f) !! i) as [[g|]|] eqn:Hg.
  - set (s1 := on_world (null_group f i) s).
    pose proof (null_group_assigned f i (world s)) as A.
    assert (Hloc : loc_at (world s) (PGroup f i) = Some g) by (apply loc_at_group, Hg).
    assert (W1 : wf (world s1)) by (eapply assigned_wf; eauto).
    assert (D1 : detached (world s1) g) by (eapply assigned_detaches; eauto).
    destruct (for_each fuel _ g 0 s1) as [s2|s2|] eqn:E; simpl; [|discriminate..].
    intros H.
    destruct (for_each_detached behaviour _ _ _ _ _ _
                (runner_dispatch behaviour (InPrio i)) D1 E)
      as (d & L & K & D2 & Harr).
    assert (W2 : wf (world s2)) by (eapply loop_run_wf; eauto).
    pose proof (loop_run_extends _ _ _ _ _ L) as E12.
    destruct (IH (S i) s2 W2 H) as (bs & Ht & Hge & Hsort & Hok & Hcov & W' & E2' & Hnew).
    destruct (prio_groups_serves behaviour f fuel (S i) s2 s' (blocks_events bs) W2 H Ht)
      as (_ & _ & Hkeep).
    exists (mk_block i g d :: bs).
    split.
    { rewrite Ht, (lr_trace _ _ _ _ _ L). unfold blocks_events. simpl.
      rewrite <- app_assoc. reflexivity. }
    split.
    { constructor; [simpl; lia|]. eapply Forall_impl; [exact Hge|].
      simpl. intros b Hb. lia. }
    split.
    { simpl. constructor; [exact Hsort|]. apply Forall_map.
      eapply Forall_impl; [exact Hge|]. simpl. intros b Hb. lia. }
    split.
    { constructor; [|exact Hok].
      apply (block_ok_extends (world s2)); [exact E2'|].
      split; [apply (lr_loop _ _ _ _ _ L)|]. split; [|split].
      - simpl. rewrite Harr. exact K.
      - simpl. eapply Forall_impl;
          [apply (snapshots_invariant (fun w => detached w g) (world s1) d)|].
        + intros c w0 H0. eapply detached_extends; [apply api_effect_extends | exact H0].
        + exact D1.
        + apply (lr_snap _ _ _ _ _ L).
        + intros [p|k a j t w|c]; simpl; auto.
      - exact D2. }
    split.
    { intros r a Hr Ha. destruct (decide (r = i)) as [->|Hne].
      - exists (mk_block i g d). split; [apply elem_of_cons; left; reflexivity|].
        split; [reflexivity|]. simpl in *. rewrite Hg in Ha. simpl in Ha. congruence.
      - destruct (Hcov r a) as (b & Hb & Hrank & Hgroup); [lia| |].
        + rewrite (lr_world _ _ _ _ _ L). apply apply_apis_persist.
          change (world s1) with (null_group f i (world s)).
          rewrite (proj1 (proj2 A)) by congruence. exact Ha.
        + exists b. split; [apply elem_of_cons; right; exact Hb | auto]. }
    split; [exact W'|].
    split.
    { eapply extends_trans; [eapply assigned_extends; eauto|].
      eapply extends_trans; [exact E12 | exact E2']. }
    intros pre b post Hbs r t Hin.
    destruct pre as [|b0 pre]; cbn [app] in Hbs; injection Hbs as <- ->.
    + cbn [b_events b_rank] in *.
      assert (Hin2 : t ∈ contents (world s2) (PGroup f r)).
      { rewrite (lr_world _ _ _ _ _ L), apply_apis_contents by exact W1.
        apply elem_of_app. right. exact Hin. }
      split.
      * intros Hr. unfold contents in Hin2.
        destruct (loc_at (world s2) (PGroup f r)) as [a|] eqn:Ha;
          [|apply elem_of_nil in Hin2; contradiction].
        destruct (Hcov r a) as (b' & Hb' & Hrank & Hgroup); [lia | exact Ha|].
        exists b'. split; [exact Hb'|]. split; [exact Hrank|].
        rewrite Hgroup. destruct (ext_grow _ _ E2' a) as [suf ->].
        apply elem_of_app. left. exact Hin2.
      * intros Hr. apply (Hkeep r t); [lia | exact Hin2].
    + apply (Hnew pre b post eq_refl r t Hin).
  - intros H. destruct (IH (S i) s W H) as (bs & Ht & Hge & Hsort & Hok & Hcov & W' & E' & Hnew).
    exists bs. split; [exact Ht|].
    split; [eapply Forall_impl; [exact Hge|]; simpl; intros b Hb; lia|].
    split; [exact Hsort|]. split; [exact Hok|].
    split; [|split; [exact W' | split; [exact E' | exact Hnew]]].
    intros r a Hr Ha. destruct (decide (r = i)) as [->|Hne].
    + apply loc_at_group in Ha. congruence.
    + apply Hcov; [lia | exact Ha].
  - intros [= <-]. exists [].
    split; [symmetry; apply app_nil_r|].
    split; [constructor|]. split; [constructor|]. split; [constructor|].
    split; [|split; [exact W | split; [apply extends_refl|]]].
    + intros r a Hr Ha. apply loc_at_group in Ha.
      apply lookup_ge_None in Hg. apply lookup_lt_Some in Ha. lia.
    + intros pre b post Hbs. destruct pre; discriminate.
Qed.

(** C4, as the code has it: one scan of the priority groups, returning or
    raising, runs the groups one after the other in strictly ascending
    rank: the trace of the scan is a sequence of blocks, one per group, each
    holding the runs of tasks of its group in arrival order, the group
    having been detached from its slot before its first task ran.  When
    the scan returns, each block holds the runs of all the tasks of its
    group, and every group that was in a slot when the scan began has its
    block, with the tasks it held then at its front: of two groups armed
    before the scan, the one of lower rank has run completely before the
    first task of the other starts.  A task that is scheduled into a group
    during the scan is run by a later block of the same scan when its rank
    is above the rank being run; when its rank is the one being run or a
    lower one, no later block of the scan has that rank, and the task is
    still due, in its slot and with WRITE_PRIO set again, when the scan
    ends: a later scan runs it, after the higher ranks of this one. *)
Theorem priority_groups_in_rank_order (fuel : nat) (f : fid) (s s' : State) :
  wf (world s) ->
  frame_flag (world s) f FrameFlags.WRITE_PRIO = true ->
  final (write_prio behaviour fuel f s) = Some s' ->
  exists bs,
    trace s' = trace s ++ blocks_events bs /\
    StronglySorted lt (map b_rank bs) /\
    Forall (block_part (world s')) bs /\
    (write_prio behaviour fuel f s = Done s' ->
     Forall (block_ok (world s')) bs /\
     (forall r a, writeTaskGroups (frame_of (world s) f) !! r = Some (Some a) ->
        exists b, b ∈ bs /\ b_rank b = r /\ b_group b = a /\
                  array_at (world s) a `prefix_of` array_at (world s') a) /\
     (forall pre b post, bs = pre ++ b :: post ->
        forall r t, t ∈ pushes (PGroup f r) (apis_of (b_events b)) ->
          ((b_rank b < r)%nat ->
           exists b', b' ∈ post /\ b_rank b' = r /\ t ∈ ran (b_events b')) /\
          ((r <= b_rank b)%nat ->
           (forall b', b' ∈ post -> b_rank b' <> r) /\
           due (world s') f (PGroup f r) t))).
Proof.
  intros W Hflag Hfin.
  pose proof (write_prio_carried behaviour f fuel s s' Hfin) as (d0 & Cd & T0).
  revert Hfin. unfold write_prio. unfold frame_flag in Hflag. rewrite Hflag.
  set (s0 := on_world (clear_frame_flag f FrameFlags.WRITE_PRIO) s).
  assert (I0 : inert (world s) (world s0)) by apply inert_clear_frame_flag.
  assert (W0 : wf (world s0)) by (eapply inert_wf; eauto).
  destruct (prio_groups behaviour fuel f 0 s0) as [s1|s1|] eqn:E; simpl;
    [| |discriminate]; intros [= <-].
  - destruct (prio_groups_spec fuel f 0 s0 s1 W0 E)
      as (bs & Ht & _ & Hsort & Hok & Hcov & _ & Ex & Hnew).
    exists bs. split; [exact Ht|]. split; [exact Hsort|].
    split; [eapply Forall_impl; [exact Hok | apply block_ok_part]|].
    intros _. split; [exact Hok|]. split.
    + intros r a Ha. destruct (Hcov r a) as (b & Hb & Hr & Hg); [lia| |].
      * rewrite (proj2 I0). apply loc_at_group, Ha.
      * exists b. repeat (split; [assumption|]).
        destruct (ext_grow _ _ Ex a) as [suf Hsuf].
        exists suf. rewrite Hsuf, (inert_array_at _ _ _ I0). reflexivity.
    + intros pre b post Hbs r t Hin.
      destruct (Hnew pre b post Hbs r t Hin) as [Hup Hdown]. split.
      * intros Hr. destruct (Hup Hr) as (b' & Hb' & Hrank & Harr).
        exists b'. split; [exact Hb'|]. split; [exact Hrank|].
        assert (Hb'' : b' ∈ bs) by (rewrite Hbs, elem_of_app, elem_of_cons; auto).
        destruct (proj1 (Forall_forall _ _) Hok b' Hb'') as (_ & Hk & _ & _).
        rewrite (ran_of_keys _ _ _ _ _ Hk). exact Harr.
      * intros Hr. split.
        -- intros b' Hb' Heq. rewrite Hbs in Hsort.
           pose proof (sorted_after pre b post Hsort b' Hb'). lia.
        -- split; [|apply Hdown, Hr].
           assert (d0 = blocks_events bs) by (eapply stretch_unique; eauto). subst d0.
           destruct (Cd W) as (_ & _ & Fl). cbn [path_bit].
           assert (Hall : t ∈ pushes (PGroup f r) (apis_of (blocks_events bs))).
           { rewrite Hbs. unfold blocks_events. rewrite map_app, concat_app. cbn [map concat].
             rewrite !apis_of_app, !pushes_app, !elem_of_app. right. left. exact Hin. }
           destruct (prio_groups_carried behaviour f fuel 0 s0 s1) as (d1 & C1 & T1);
             [rewrite E; reflexivity|].
           assert (d1 = blocks_events bs) by (eapply stretch_unique; eauto). subst d1.
           destruct (C1 W0) as (_ & _ & Fl1).
           rewrite (Fl1 FrameFlags.WRITE_PRIO eq_refl).
           rewrite (pushes_flag f (PGroup f r) t _ FrameFlags.WRITE_PRIO eq_refl eq_refl Hall).
           apply orb_true_r.
  - destruct (prio_groups_raised behaviour fuel f 0 s0 s1 W0 E) as (bs & Ht & _ & Hsort & Hok).
    exists bs. split; [exact Ht|]. split; [exact Hsort|]. split; [exact Hok|].
    discriminate.
Qed.

End Scan.

(** ** Flushes that do not raise *)

(** The task is a function, so that [task()] can call it. *)
Definition is_fn (t : task) : Prop :=
  match t with
  | Fn _ => True
  | Comp _ => False
  end.

(** Read tasks and after-tasks are called directly. *)
Definition polite_op (op : frame_op) : Prop :=
  match op with
  | FRead cb => is_fn cb
  | FAfter cb => is_fn cb
  | _ => True
  end.

(** The caller does not raise, and every callback it hands over for a
    direct call is a function. *)
Definition polite (a : action) : Prop :=
  match a with
  | ScheduleMicrotask cb => is_fn cb
  | ScheduleMacrotask cb => is_fn cb
  | OnNextFrame ops => Forall polite_op ops
  | OnCurrentFrame ops => Forall polite_op ops
  | OnFrame _ ops => Forall polite_op ops
  | Throw => False
  end.

Definition polite_api (c : api) : Prop :=
  match c with
  | ApiMicrotask cb => is_fn cb
  | ApiMacrotask cb => is_fn cb
  | ApiFrame _ op => polite_op op
  | _ => True
  end.

(** The fields whose tasks are called directly. *)
Definition call_path (p : path) : Prop :=
  match p with
  | PMicro => True
  | PMacro => True
  | PRead _ => True
  | PAfter _ => True
  | _ => False
  end.

(** The fields of a frame that are null or one array. *)
Definition plain (p : path) : Prop :=
  match p with
  | PWrite _ => True
  | PRead _ => True
  | PAfter _ => True
  | _ => False
  end.

(** The scheduler is in order: no two fields share an array; where WRITE,
    READ or AFTER is set in a frame the array of that kind is there; and
    every task that will be called directly is a function. *)
Record tidy (w : World) : Prop := mk_tidy {
  tidy_wf : wf w;
  tidy_flags : forall p f, plain p -> path_frame p = Some f ->
                 frame_flag w f (path_bit p) = true -> loc_at w p <> None;
  tidy_call : forall p, call_path p -> Forall is_fn (contents w p)
}.

Lemma tidy_new_Scheduler : tidy new_Scheduler.
Proof.
  split; [exact wf_new_Scheduler | |].
  - intros p f Hp Hf. destruct p, f; simpl in Hp; try contradiction; discriminate.
  - intros p Hp. destruct p as [| |f|f|f|f r]; simpl in Hp; try contradiction;
      try destruct f; constructor.
Qed.

Lemma flag_test_clear_le (x c d : Z) :
  flag_test (flag_clear x c) d = true -> flag_test x d = true.
Proof.
  unfold flag_test, flag_clear.
  rewrite <- Z.land_assoc, (Z.land_comm (Z.lnot c) d), Z.land_assoc.
  destruct (Z.eqb_spec (Z.land x d) 0) as [E|E]; [|reflexivity].
  rewrite E, Z.land_0_l. discriminate.
Qed.

Lemma plain_bit_target (c : api) (p : path) (f : fid) :
  plain p -> path_frame p = Some f ->
  flag_test (frame_bit c f) (path_bit p) = true ->
  exists t, target c = Some (p, t).
Proof.
  intros Hp Hf.
  destruct c as [cb|cb| | |g [t|t rank|cb|cb]]; simpl; try discriminate;
    destruct (decide (g = f)) as [->|]; try discriminate;
    destruct p as [| |f'|f'|f'|f' r]; simpl in Hp, Hf; try contradiction;
    injection Hf as ->; simpl; try discriminate; eauto.
Qed.

Lemma contents_nonempty_loc (w : World) (p : path) :
  contents w p <> [] -> loc_at w p <> None.
Proof. unfold contents. destruct (loc_at w p); [discriminate | congruence]. Qed.

Lemma pushes_polite (c : api) (p : path) :
  polite_api c -> call_path p -> Forall is_fn (pushes p [c]).
Proof.
  intros Hc Hp. unfold pushes. simpl.
  destruct c as [cb|cb| | |g [t|t rank|cb|cb]]; simpl in *; try constructor;
    case_decide; try constructor; subst p; simpl in Hp; try contradiction;
    try exact Hc; constructor.
Qed.

Lemma api_effect_tidy (c : api) (w : World) :
  polite_api c -> tidy w -> tidy (api_effect c w).
Proof.
  intros Hc [W F C]. split.
  - apply api_effect_wf, W.
  - intros p f Hp Hf Hflag. unfold frame_flag in Hflag.
    rewrite api_effect_frame_flags, flag_test_set in Hflag.
    apply orb_true_iff in Hflag. destruct Hflag as [H|H].
    + specialize (F p f Hp Hf H). destruct (loc_at w p) as [b|] eqn:Hb; [|congruence].
      rewrite (api_effect_persist c w p b Hb). discriminate.
    + destruct (plain_bit_target c p f Hp Hf H) as [t Ht].
      apply contents_nonempty_loc. rewrite (api_effect_contents c w p W).
      unfold pushes. simpl. rewrite Ht.
      destruct (decide (p = p)); [|congruence]. simpl.
      intros E. apply app_eq_nil in E. destruct E as [_ E]. discriminate.
  - intros p Hp. rewrite (api_effect_contents c w p W).
    apply Forall_app. split; [apply C, Hp | apply pushes_polite; assumption].
Qed.

Lemma apply_apis_tidy (cs : list api) (w : World) :
  Forall polite_api cs -> tidy w -> tidy (apply_apis cs w).
Proof.
  intros H. revert w. induction H as [|c cs Hc _ IH]; intros w T; [exact T|].
  simpl. apply IH, api_effect_tidy; assumption.
Qed.

Lemma Forall_polite_frame (g : fid) (ops : list frame_op) :
  Forall polite_op ops -> Forall polite_api (map (ApiFrame g) ops).
Proof. intros H. apply Forall_map. eapply Forall_impl; [exact H|]. auto. Qed.

Lemma do_action_polite (a : action) (s : State) :
  polite a ->
  exists cs, do_action a s =
               mkState (apply_apis cs (world s)) (trace s ++ map EvApi cs) /\
             Forall polite_api cs.
Proof.
  intros Ha. destruct a as [cb|cb|ops|ops|g ops|]; simpl in Ha; try contradiction;
    simpl.
  - exists [ApiMicrotask cb]. split; [reflexivity | repeat constructor; exact Ha].
  - exists [ApiMacrotask cb]. split; [reflexivity | repeat constructor; exact Ha].
  - exists (ApiNextFrame :: map (ApiFrame (_nextFrame (sched (snd (nextFrame (world s)))))) ops).
    split.
    + unfold nextFrame at 1. simpl. rewrite do_frame_ops_spec. simpl.
      rewrite <- app_assoc. reflexivity.
    + constructor; [exact I | apply Forall_polite_frame, Ha].
  - exists (ApiCurrentFrame :: map (ApiFrame (currentFrame (world s))) ops). split.
    + rewrite do_frame_ops_spec. simpl. rewrite <- app_assoc. reflexivity.
    + constructor; [exact I | apply Forall_polite_frame, Ha].
  - exists (map (ApiFrame g) ops). split; [apply do_frame_ops_spec|].
    apply Forall_polite_frame, Ha.
Qed.

Lemma run_actions_polite (acts : list action) (s : State) :
  Forall polite acts ->
  exists cs, run_actions acts s =
               Done (mkState (apply_apis cs (world s)) (trace s ++ map EvApi cs)) /\
             Forall polite_api cs.
Proof.
  intros Ha. revert s. induction Ha as [|a acts Hd _ IH]; intros s.
  - exists []. simpl. rewrite app_nil_r. destruct s. split; [reflexivity | constructor].
  - destruct (do_action_polite a s Hd) as (cs1 & H1 & M1).
    destruct (IH (do_action a s)) as (cs2 & H2 & M2).
    exists (cs1 ++ cs2). split; [|apply Forall_app; split; assumption].
    assert (Hrun : run_actions (a :: acts) s = run_actions acts (do_action a s)).
    { destruct a; try reflexivity. simpl in Hd. contradiction. }
    rewrite Hrun, H2, H1. cbn [world trace].
    rewrite apply_apis_app, map_app, app_assoc. reflexivity.
Qed.

(** The outcome is not a raise; when the computation returns, [Q] holds. *)
Definition safe (r : outcome) (Q : State -> Prop) : Prop :=
  match r with
  | Done s' => Q s'
  | Raised _ => False
  | OutOfFuel => True
  end.

Lemma safe_bind (m : outcome) (k : State -> outcome) (P Q : State -> Prop) :
  safe m P -> (forall s1, P s1 -> safe (k s1) Q) -> safe (obind m k) Q.
Proof. destruct m as [s1|s1|]; simpl; auto. Qed.

Lemma safe_weaken (r : outcome) (P Q : State -> Prop) :
  (forall s, P s -> Q s) -> safe r P -> safe r Q.
Proof. destruct r; simpl; auto. Qed.

(** The tasks of the array at [a] can all be called, and stay so. *)
Definition callable_at (w : World) (a : loc) : Prop :=
  (detached w a /\ Forall is_fn (array_at w a)) \/
  exists p, call_path p /\ loc_at w p = Some a.

Lemma callable_at_lookup (w : World) (a : loc) (i : nat) (t : task) :
  tidy w -> callable_at w a -> array_at w a !! i = Some t -> is_fn t.
Proof.
  intros T [[_ H]|(p & Hp & Hl)] Hi.
  - eapply Forall_lookup in H; eauto.
  - pose proof (tidy_call w T p Hp) as H. unfold contents in H. rewrite Hl in H.
    eapply Forall_lookup in H; eauto.
Qed.

Lemma callable_at_apply_apis (cs : list api) (w : World) (a : loc) :
  callable_at w a -> callable_at (apply_apis cs w) a.
Proof.
  intros [[D H]|(p & Hp & Hl)].
  - left. pose proof (apply_apis_extends cs w) as E. split.
    + eapply detached_extends; eauto.
    + rewrite (ext_detached _ _ E a D). exact H.
  - right. exists p. split; [exact Hp | apply apply_apis_persist, Hl].
Qed.

Section Safe.

Variable behaviour : task -> State -> list action.

Hypothesis behaviour_polite : forall t s, Forall polite (behaviour t s).

Lemma invoke_polite (k : slot) (a : loc) (i : nat) (t : task) (s : State) :
  exists cs s', invoke behaviour k a i t s = Done s' /\
                world s' = apply_apis cs (world s) /\ Forall polite_api cs.
Proof.
  unfold invoke.
  destruct (run_actions_polite (behaviour t s) (log (EvRun k a i t (world s)) s)
              (behaviour_polite t s)) as (cs & H & M).
  exists cs. eexists. split; [exact H|]. split; [reflexivity | exact M].
Qed.

Lemma for_each_dispatch_safe (fuel : nat) (k : slot) (a : loc) (i : nat) (s : State) :
  tidy (world s) ->
  safe (for_each fuel (dispatch behaviour k) a i s) (fun s' => tidy (world s')).
Proof.
  revert i s. induction fuel as [|fuel IH]; intros i s T; [exact I|].
  cbn [for_each]. destruct (array_at (world s) a !! i) as [t|]; [|exact T].
  assert (Hd : dispatch behaviour k a i t s = invoke behaviour k a i t s)
    by (destruct t; reflexivity).
  rewrite Hd. destruct (invoke_polite k a i t s) as (cs & s1 & -> & Hw & M).
  cbn [obind]. apply IH. rewrite Hw. apply apply_apis_tidy; assumption.
Qed.

Lemma for_each_call_safe (fuel : nat) (k : slot) (a : loc) (i : nat) (s : State) :
  tidy (world s) -> callable_at (world s) a ->
  safe (for_each fuel (call behaviour k) a i s) (fun s' => tidy (world s')).
Proof.
  revert i s. induction fuel as [|fuel IH]; intros i s T Ca; [exact I|].
  cbn [for_each]. destruct (array_at (world s) a !! i) as [t|] eqn:Hi; [|exact T].
  pose proof (callable_at_lookup _ _ _ _ T Ca Hi) as Hfn.
  assert (Hd : call behaviour k a i t s = invoke behaviour k a i t s)
    by (destruct t; [contradiction | reflexivity]).
  rewrite Hd. destruct (invoke_polite k a i t s) as (cs & s1 & -> & Hw & M).
  cbn [obind]. apply IH; rewrite Hw.
  - apply apply_apis_tidy; assumption.
  - apply callable_at_apply_apis, Ca.
Qed.

End Safe.

Lemma tidy_frames_same (w w' : World) :
  inert w w' ->
  (forall g, frame_flags (frame_of w' g) = frame_flags (frame_of w g)) ->
  tidy w -> tidy w'.
Proof.
  intros I Hfl [W F C]. split.
  - eapply inert_wf; eauto.
  - intros p f Hp Hf Hflag. rewrite (proj2 I p). apply (F p f Hp Hf).
    unfold frame_flag in *. rewrite <- Hfl. exact Hflag.
  - intros p Hp. rewrite (inert_contents _ _ p I). apply C, Hp.
Qed.

Lemma tidy_flush_begin (dm : domain) (w : World) : tidy w -> tidy (flush_begin dm w).
Proof.
  apply tidy_frames_same; [apply inert_flush_begin|].
  intros g. rewrite frame_of_flush_begin. reflexivity.
Qed.

Lemma tidy_flush_end (dm : domain) (w : World) : tidy w -> tidy (flush_end dm w).
Proof.
  apply tidy_frames_same; [apply inert_flush_end|].
  intros g. rewrite frame_of_flush_end. reflexivity.
Qed.

Lemma frame_flag_clear_le (f g : fid) (c d : Z) (w : World) :
  frame_flag (clear_frame_flag f c w) g d = true -> frame_flag w g d = true.
Proof.
  destruct (decide (f = g)) as [->|Hne].
  - rewrite frame_flag_clear. apply flag_test_clear_le.
  - unfold frame_flag, clear_frame_flag. rewrite frame_of_with_frame_ne by assumption.
    auto.
Qed.

Lemma tidy_clear_frame_flag (f : fid) (c : Z) (w : World) :
  tidy w -> tidy (clear_frame_flag f c w).
Proof.
  intros [W F C]. pose proof (inert_clear_frame_flag f c w) as I. split.
  - eapply inert_wf; eauto.
  - intros p g Hp Hg Hflag. rewrite (proj2 I p). apply (F p g Hp Hg).
    eapply frame_flag_clear_le. exact Hflag.
  - intros p Hp. rewrite (inert_contents _ _ p I). apply C, Hp.
Qed.

Lemma tidy_assigned (p : path) (v : option loc) (w w' : World) :
  assigned p v w w' ->
  (forall g, frame_flags (frame_of w' g) = frame_flags (frame_of w g)) ->
  (plain p -> v = None ->
   forall f, path_frame p = Some f -> frame_flag w f (path_bit p) = false) ->
  tidy w -> tidy w'.
Proof.
  intros A Hfl Hnull [W F C]. split.
  - eapply assigned_wf; eauto.
  - intros q f Hq Hf Hflag.
    assert (Hflag' : frame_flag w f (path_bit q) = true).
    { unfold frame_flag in *. rewrite <- Hfl. exact Hflag. }
    destruct A as (Hp & Hother & _).
    destruct (decide (q = p)) as [->|Hne].
    + rewrite Hp. destruct v as [b|]; [discriminate|].
      rewrite (Hnull Hq eq_refl f Hf) in Hflag'. discriminate.
    + rewrite (Hother q Hne). apply (F q f Hq Hf Hflag').
  - intros q Hq. rewrite (assigned_contents _ _ _ _ q A W).
    destruct (decide (q = p)); [constructor | apply C, Hq].
Qed.

Lemma tidy_detach_microtasks (w : World) : tidy w -> tidy (detach_microtasks w).
Proof.
  apply (tidy_assigned _ _ _ _ (detach_microtasks_assigned w)).
  - intros g. destruct g; reflexivity.
  - intros Hp. simpl in Hp. contradiction.
Qed.

Lemma tidy_detach_macrotasks (w : World) : tidy w -> tidy (detach_macrotasks w).
Proof.
  apply (tidy_assigned _ _ _ _ (detach_macrotasks_assigned w)).
  - intros g. destruct g; reflexivity.
  - intros Hp. simpl in Hp. contradiction.
Qed.

Lemma tidy_null_group (f : fid) (i : nat) (w : World) : tidy w -> tidy (null_group f i w).
Proof.
  apply (tidy_assigned _ _ _ _ (null_group_assigned f i w)).
  - intros g. unfold null_group. destruct (decide (f = g)) as [->|Hne].
    + rewrite frame_of_with_frame_eq. reflexivity.
    + rewrite frame_of_with_frame_ne by assumption. reflexivity.
  - intros Hp. simpl in Hp. contradiction.
Qed.

Lemma tidy_null_readTasks (f : fid) (w : World) :
  frame_flag w f FrameFlags.READ = false -> tidy w -> tidy (null_readTasks f w).
Proof.
  intros Hr. apply (tidy_assigned _ _ _ _ (null_readTasks_assigned f w)).
  - intros g. unfold null_readTasks. destruct (decide (f = g)) as [->|Hne].
    + rewrite frame_of_with_frame_eq. reflexivity.
    + rewrite frame_of_with_frame_ne by assumption. reflexivity.
  - intros _ _ g Hg. simpl in Hg. injection Hg as <-. exact Hr.
Qed.

Section SafeLoops.

Variable behaviour : task -> State -> list action.

Hypothesis behaviour_polite : forall t s, Forall polite (behaviour t s).

Lemma micro_waves_safe (fuel : nat) (s : State) :
  tidy (world s) ->
  safe (micro_waves behaviour fuel (_microtasks (sched (world s))) s)
       (fun s' => tidy (world s')).
Proof.
  revert s. induction fuel as [|fuel IH]; intros s T; [exact I|].
  cbn [micro_waves]. destruct (0 <? _)%nat; [|exact T].
  set (a := _microtasks (sched (world s))).
  set (s1 := on_world detach_microtasks (log (EvPhase PhWave) s)).
  pose proof (detach_microtasks_assigned (world s)) as A.
  assert (T1 : tidy (world s1)) by apply tidy_detach_microtasks, T.
  assert (C1 : callable_at (world s1) a).
  { left. split.
    - eapply assigned_detaches; [exact A | apply T | reflexivity].
    - change (world s1) with (detach_microtasks (world s)).
      rewrite (assigned_array_at _ _ _ _ _ A).
      apply (tidy_call _ T PMicro I). }
  eapply safe_bind; [apply (for_each_call_safe behaviour behaviour_polite); assumption|].
  intros s2 T2. apply IH, T2.
Qed.

Lemma prio_groups_safe (fuel : nat) (f : fid) (i : nat) (s : State) :
  tidy (world s) ->
  safe (prio_groups behaviour fuel f i s) (fun s' => tidy (world s')).
Proof.
  revert i s. induction fuel as [|fuel IH]; intros i s T; [exact I|].
  cbn [prio_groups].
  destruct (writeTaskGroups (frame_of (world s) f) !! i) as [[g|]|];
    [| apply IH, T | exact T].
  eapply safe_bind.
  - apply (for_each_dispatch_safe behaviour behaviour_polite).
    apply tidy_null_group, T.
  - intros s2 T2. apply IH, T2.
Qed.

Lemma write_prio_safe (fuel : nat) (f : fid) (s : State) :
  tidy (world s) ->
  safe (write_prio behaviour fuel f s) (fun s' => tidy (world s')).
Proof.
  intros T. unfold write_prio. destruct (flag_test _ _); [|exact T].
  apply prio_groups_safe. apply tidy_clear_frame_flag, T.
Qed.

Lemma write_plain_safe (fuel : nat) (f : fid) (s : State) :
  tidy (world s) ->
  safe (write_plain behaviour fuel f s) (fun s' => tidy (world s')).
Proof.
  intros T. unfold write_plain.
  fold (frame_flag (world s) f FrameFlags.WRITE).
  destruct (frame_flag (world s) f FrameFlags.WRITE) eqn:Hw; [|exact T].
  pose proof (tidy_flags _ T (PWrite f) f I eq_refl Hw) as Hloc.
  pose proof (inert_clear_frame_flag f FrameFlags.WRITE (world s)) as I1.
  change (writeTasks (frame_of (world (on_world (clear_frame_flag f FrameFlags.WRITE) s)) f))
    with (loc_at (clear_frame_flag f FrameFlags.WRITE (world s)) (PWrite f)).
  rewrite (proj2 I1 (PWrite f)).
  destruct (loc_at (world s) (PWrite f)) as [g|]; [|congruence].
  apply (for_each_dispatch_safe behaviour behaviour_polite).
  apply tidy_clear_frame_flag, T.
Qed.

Lemma write_while_safe (fuel : nat) (f : fid) (s : State) :
  tidy (world s) ->
  safe (write_while behaviour fuel f s) (fun s' => tidy (world s')).
Proof.
  revert s. induction fuel as [|fuel IH]; intros s T; [exact I|].
  cbn [write_while]. destruct (flag_test _ _); [|exact T].
  eapply safe_bind; [apply write_prio_safe, T|]. intros s1 T1.
  eapply safe_bind; [apply write_plain_safe, T1|]. intros s2 T2.
  apply IH, T2.
Qed.

Lemma read_while_safe (fuel : nat) (f : fid) (s : State) :
  tidy (world s) ->
  safe (read_while behaviour fuel f s) (fun s' => tidy (world s')).
Proof.
  revert s. induction fuel as [|fuel IH]; intros s T; [exact I|].
  cbn [read_while]. fold (frame_flag (world s) f FrameFlags.READ).
  destruct (frame_flag (world s) f FrameFlags.READ) eqn:Hr; [|exact T].
  pose proof (tidy_flags _ T (PRead f) f I eq_refl Hr) as Hloc.
  set (s1 := on_world (clear_frame_flag f FrameFlags.READ) s).
  set (s2 := on_world (null_readTasks f) s1).
  pose proof (inert_clear_frame_flag f FrameFlags.READ (world s)) as I1.
  assert (T1 : tidy (world s1)) by apply tidy_clear_frame_flag, T.
  assert (F1 : frame_flag (world s1) f FrameFlags.READ = false).
  { subst s1. cbn [on_world world]. rewrite frame_flag_clear.
    apply flag_test_clear_in. reflexivity. }
  assert (T2 : tidy (world s2)) by apply (tidy_null_readTasks f _ F1 T1).
  pose proof (null_readTasks_assigned f (world s1)) as A.
  change (readTasks (frame_of (world s1) f)) with (loc_at (world s1) (PRead f)).
  destruct (loc_at (world s1) (PRead f)) as [g|] eqn:Hg.
  2:{ change (world s1) with (clear_frame_flag f FrameFlags.READ (world s)) in Hg.
      rewrite (proj2 I1 (PRead f)) in Hg. congruence. }
  assert (C2 : callable_at (world s2) g).
  { left. split.
    - eapply assigned_detaches; [exact A | apply T1 | exact Hg].
    - change (world s2) with (null_readTasks f (world s1)).
      rewrite (assigned_array_at _ _ _ _ _ A).
      pose proof (tidy_call _ T1 (PRead f) I) as H. unfold contents in H.
      rewrite Hg in H. exact H. }
  eapply safe_bind; [apply (for_each_call_safe behaviour behaviour_polite); assumption|].
  intros s3 T3. apply IH, T3.
Qed.

Lemma alternation_safe (fuel : nat) (f : fid) (s : State) :
  tidy (world s) ->
  safe (alternation behaviour fuel f s) (fun s' => tidy (world s')).
Proof.
  revert s. induction fuel as [|fuel IH]; intros s T; [exact I|].
  cbn [alternation].
  eapply safe_bind; [apply write_while_safe; exact T|]. intros s1 T1.
  eapply safe_bind; [apply read_while_safe; exact T1|]. intros s2 T2.
  destruct (flag_test _ _); [apply IH, T2 | exact T2].
Qed.

Lemma after_while_safe (fuel : nat) (f : fid) (s : State) :
  tidy (world s) ->
  safe (after_while behaviour fuel f s) (fun s' => tidy (world s')).
Proof.
  revert s. induction fuel as [|fuel IH]; intros s T; [exact I|].
  cbn [after_while]. fold (frame_flag (world s) f FrameFlags.AFTER).
  destruct (frame_flag (world s) f FrameFlags.AFTER) eqn:Ha; [|exact T].
  pose proof (tidy_flags _ T (PAfter f) f I eq_refl Ha) as Hloc.
  set (s1 := on_world (clear_frame_flag f FrameFlags.AFTER) s).
  pose proof (inert_clear_frame_flag f FrameFlags.AFTER (world s)) as I1.
  assert (T1 : tidy (world s1)) by apply tidy_clear_frame_flag, T.
  change (afterTasks (frame_of (world s1) f)) with (loc_at (world s1) (PAfter f)).
  destruct (loc_at (world s1) (PAfter f)) as [g|] eqn:Hg.
  2:{ change (world s1) with (clear_frame_flag f FrameFlags.AFTER (world s)) in Hg.
      rewrite (proj2 I1 (PAfter f)) in Hg. congruence. }
  eapply safe_bind.
  - apply (for_each_call_safe behaviour behaviour_polite); [exact T1|].
    right. exists (PAfter f). split; [exact I | exact Hg].
  - intros s2 T2. apply IH, T2.
Qed.

Lemma flush_safe (dm : domain) (fuel : nat) (s : State) :
  tidy (world s) ->
  safe (flush behaviour dm fuel s) (fun s' => tidy (world s')).
Proof.
  intros T. pose proof (tidy_flush_begin dm _ T) as T0.
  destruct dm; cbn [flush].
  - unfold _microtaskScheduler.
    eapply safe_bind; [apply (micro_waves_safe fuel (on_world _ s)); exact T0|].
    intros s1 T1. apply (tidy_flush_end Microtask _ T1).
  - unfold _macrotaskScheduler.
    set (s0 := on_world _ s).
    eapply safe_bind with (P := fun s' => tidy (world s')).
    + destruct (0 <? _)%nat; [|exact T0].
      pose proof (detach_macrotasks_assigned (world s0)) as A.
      apply (for_each_call_safe behaviour behaviour_polite).
      * apply tidy_detach_macrotasks, T0.
      * left. split.
        -- eapply assigned_detaches; [exact A | apply T0 | reflexivity].
        -- cbn [on_world world]. rewrite (assigned_array_at _ _ _ _ _ A).
           apply (tidy_call _ T0 PMacro I).
    + intros s1 T1. apply (tidy_flush_end Macrotask _ T1).
  - unfold _handleAnimationFrame.
    eapply safe_bind; [apply alternation_safe; exact T0|]. intros s1 T1.
    eapply safe_bind; [apply after_while_safe; exact T1|]. intros s2 T2.
    apply (tidy_flush_end Frametask _ T2).
Qed.

(** X17: The scheduler does not raise by itself.  Call the scheduler tidy when
    no two fields share an array, the array of a kind is there wherever
    WRITE, READ or AFTER is set, and every queued microtask, macrotask, read
    task and after-task is a function.  A new scheduler is tidy.  As long as
    callers and tasks are polite (they do not raise, and the callbacks they
    schedule for a direct call are functions) it stays tidy: API calls
    from outside keep it tidy, and a flush of any domain started in a tidy
    state never raises (it never finds null where it expects a task array,
    and never calls what is not a function) and leaves the scheduler
    tidy. *)
Theorem polite_tasks_never_make_a_flush_raise :
  tidy (world init) /\
  (forall a s, polite a -> tidy (world s) -> tidy (world (do_action a s))) /\
  (forall dm fuel s, tidy (world s) ->
     (forall s', flush behaviour dm fuel s <> Raised s') /\
     (forall s', flush behaviour dm fuel s = Done s' -> tidy (world s'))).
Proof.
  split; [exact tidy_new_Scheduler|]. split.
  - intros a s Ha T. destruct (do_action_polite a s Ha) as (cs & -> & M).
    cbn [world]. apply apply_apis_tidy; assumption.
  - intros dm fuel s T. pose proof (flush_safe dm fuel s T) as H.
    destruct (flush behaviour dm fuel s) as [s1|s1|]; simpl in H.
    + split; [discriminate|]. intros s' [= <-]. exact H.
    + contradiction.
    + split; discriminate.
Qed.

End SafeLoops.

(** ** Microtasks that always schedule a microtask *)




Section Starvation.

Variable behaviour : task -> State -> list action.

Hypothesis behaviour_reschedules :
  forall t s, exists cb rest, behaviour t s = ScheduleMicrotask cb :: rest.




End Starvation.

(** * Further worked runs *)

(** ** The run of the read task, field by field *)

Lemma reader_start_wf : wf (world reader_start).
Proof. apply wf_do_action, wf_new_Scheduler. Qed.

Lemma flush_consumes_only_its_own_witness :
  wf (world reader_start) /\
  final (flush reader Frametask 10 reader_start) = Some reader_end /\
  wf (world reader_end) /\
  exists d, trace reader_end = trace reader_start ++ d /\
    forall p, ~ consumed Frametask (_nextFrame (sched (world reader_start))) p ->
      contents (world reader_end) p =
      contents (world reader_start) p ++ pushes p (apis_of d).
Proof.
  split; [exact reader_start_wf|]. split; [exact reader_final|].
  exact (flush_consumes_only_its_own reader Frametask 10 reader_start reader_end
           reader_start_wf reader_final).
Defined.

(** After the flush the after-task and the write task are still in the
    arrays of the frame that was flushed. *)
Example reader_leftovers :
  contents (world reader_end) (PAfter FrameB) = [Fn 2] /\
  contents (world reader_end) (PWrite FrameB) = [Fn 1] /\
  contents (world reader_end) (PRead FrameB) = [].
Proof. vm_compute. repeat split. Qed.

(** ** The read task that schedules a write, phase by phase *)


(** ** A task of rank 1 that arms rank 0 and rank 2 *)

(** Task 1 schedules task 0 at rank 0 and task 2 at rank 2 of the frame
    being flushed. *)
Definition climber (t : task) (s : State) : list action :=
  match t with
  | Fn 1 => [OnCurrentFrame [FWritePrio (Fn 0) 0; FWritePrio (Fn 2) 2]]
  | _ => []
  end.

(** The next frame holds task 1 at rank 1. *)
Definition climber_start : State :=
  do_action (OnNextFrame [FWritePrio (Fn 1) 1]) init.

Definition climber_end : State :=
  Eval vm_compute in end_state climber_start (_handleAnimationFrame climber 10 climber_start).

(** C4 as stated fails on this run: the groups of rank 0 and of rank 2 are
    armed in the same pass, by the same task and rank 0 first, and in the one
    write phase of the flush the task of rank 2 runs before the task of
    rank 0.  The scan was at rank 1 when both were armed: it went on to
    rank 2, and the group of rank 0 had to wait for the next scan. *)
Lemma priority_rank_order_counterexample :
  _handleAnimationFrame climber 10 climber_start = Done climber_end /\
  map outline (drop 2 (trace climber_end)) =
    [inr PhWrite; inl (Some (InPrio 1, Fn 1)); inl None; inl None; inl None;
     inl (Some (InPrio 2, Fn 2)); inl (Some (InPrio 0, Fn 0)); inr PhRead; inr PhAfter] /\
  apis_of (drop 2 (trace climber_end)) =
    [ApiCurrentFrame; ApiFrame FrameB (FWritePrio (Fn 0) 0);
     ApiFrame FrameB (FWritePrio (Fn 2) 2)] /\
  run_keys (trace climber_end) =
    [(InPrio 1, 2%nat, 0%nat, Fn 1); (InPrio 2, 4%nat, 0%nat, Fn 2);
     (InPrio 0, 3%nat, 0%nat, Fn 0)].
Proof. vm_compute. repeat split. Qed.

(** The first scan of that flush. *)
Definition scan_start : State := on_world frame_begin climber_start.

Definition scan_end : State :=
  Eval vm_compute in end_state scan_start (write_prio climber 10 FrameB scan_start).

Lemma scan_start_wf : wf (world scan_start).
Proof.
  eapply inert_wf; [apply inert_frame_begin|]. apply wf_do_action, wf_new_Scheduler.
Qed.

Lemma scan_start_flag : frame_flag (world scan_start) FrameB FrameFlags.WRITE_PRIO = true.
Proof. reflexivity. Qed.

Lemma scan_final : final (write_prio climber 10 FrameB scan_start) = Some scan_end.
Proof. vm_compute. reflexivity. Qed.

(** The scan runs rank 1 and then rank 2; the group of rank 0 is in its
    slot afterwards. *)
Example scan_runs :
  run_keys (trace scan_end) =
    [(InPrio 1, 2%nat, 0%nat, Fn 1); (InPrio 2, 4%nat, 0%nat, Fn 2)] /\
  writeTaskGroups (frame_of (world scan_end) FrameB) = [Some 3%nat; None; None] /\
  contents (world scan_end) (PGroup FrameB 0) = [Fn 0] /\
  frame_flag (world scan_end) FrameB FrameFlags.WRITE_PRIO = true.
Proof. vm_compute. repeat split. Qed.

Lemma priority_groups_in_rank_order_witness :
  wf (world scan_start) /\
  frame_flag (world scan_start) FrameB FrameFlags.WRITE_PRIO = true /\
  final (write_prio climber 10 FrameB scan_start) = Some scan_end /\
  exists bs,
    trace scan_end = trace scan_start ++ blocks_events bs /\
    StronglySorted lt (map b_rank bs) /\
    Forall (block_part (world scan_end)) bs /\
    (write_prio climber 10 FrameB scan_start = Done scan_end ->
     Forall (block_ok (world scan_end)) bs /\
     (forall r a, writeTaskGroups (frame_of (world scan_start) FrameB) !! r = Some (Some a) ->
        exists b, b ∈ bs /\ b_rank b = r /\ b_group b = a /\
                  array_at (world scan_start) a `prefix_of` array_at (world scan_end) a) /\
     (forall pre b post, bs = pre ++ b :: post ->
        forall r t, t ∈ pushes (PGroup FrameB r) (apis_of (b_events b)) ->
          ((b_rank b < r)%nat ->
           exists b', b' ∈ post /\ b_rank b' = r /\ t ∈ ran (b_events b')) /\
          ((r <= b_rank b)%nat ->
           (forall b', b' ∈ post -> b_rank b' <> r) /\
           due (world scan_end) FrameB (PGroup FrameB r) t))).
Proof.
  split; [exact scan_start_wf|]. split; [exact scan_start_flag|].
  split; [exact scan_final|].
  exact (priority_groups_in_rank_order climber 10 FrameB scan_start scan_end
           scan_start_wf scan_start_flag scan_final).
Defined.

(** ** A clock that has reached 2^53 *)

(** A new scheduler whose clock shows [c]. *)
Definition clocked (c : Z) : State :=
  mkState (with_sched new_Scheduler (with_clock (sched new_Scheduler) c)) [].

(** A macrotask flush with nothing queued only increments the clock. *)
Lemma clocked_flush (c : Z) :
  _macrotaskScheduler idle 1 (clocked c) = Done (clocked (js_incr c)).
Proof. reflexivity. Qed.

(** Flush after flush, the clock of a scheduler that is otherwise left
    alone gets to every value up to 2^53. *)
Lemma clocked_reachable (c : Z) : 1 <= c <= 2 ^ 53 -> reachable idle (clocked c).
Proof.
  intros Hc. replace c with (1 + (c - 1)) by lia.
  assert (H0 : 0 <= c - 1) by lia. assert (Hlt : c - 1 < 2 ^ 53) by lia.
  revert Hlt. generalize (c - 1) H0. clear c Hc H0.
  apply (natlike_ind (fun x => x < 2 ^ 53 -> reachable idle (clocked (1 + x)))).
  - intros _. apply reach_init.
  - intros x Hx IH Hlt. apply (reach_step idle (clocked (1 + x))); [apply IH; lia|].
    apply (step_flush idle Macrotask 1). cbn [flush].
    rewrite clocked_flush, js_incr_exact by lia. cbn [final].
    replace (1 + Z.succ x) with (1 + x + 1) by lia. reflexivity.
Qed.

(** The scheduler after 2^53 - 1 flushes. *)
Definition late : State := clocked (2 ^ 53).

(** C3 as stated fails on this run: the scheduler is in a reachable state,
    the flush is completed, and the clock is what it was, not one more. *)
Lemma clock_stalls_counterexample :
  reachable idle late /\
  clock (sched (world late)) = 2 ^ 53 /\
  exists s',
    flush idle Macrotask 1 late = Done s' /\
    clock (sched (world s')) = clock (sched (world late)) /\
    clock (sched (world s')) <> clock (sched (world late)) + 1.
Proof.
  split; [apply clocked_reachable; lia|]. split; [reflexivity|].
  exists late. split; [vm_compute; reflexivity|]. split; [reflexivity|].
  vm_compute. discriminate.
Qed.

(** ** Two more microtasks behind A and B *)

Lemma scheduleMicrotask_batch_witness :
  wf (world abc_start) /\
  contents (scheduleMicrotasks [Fn 3; Fn 4] (world abc_start)) PMicro =
    contents (world abc_start) PMicro ++ [Fn 3; Fn 4] /\
  (forall p, p <> PMicro ->
     contents (scheduleMicrotasks [Fn 3; Fn 4] (world abc_start)) p =
     contents (world abc_start) p) /\
  requests Microtask (scheduleMicrotasks [Fn 3; Fn 4] (world abc_start)) =
    (requests Microtask (world abc_start) +
     if pending Microtask (world abc_start) then 0
     else if bool_decide ([Fn 3; Fn 4] = []) then 0 else 1)%nat /\
  pending Microtask (scheduleMicrotasks [Fn 3; Fn 4] (world abc_start)) =
    pending Microtask (world abc_start) || negb (bool_decide ([Fn 3; Fn 4] = [])) /\
  (forall dm, dm <> Microtask ->
     requests dm (scheduleMicrotasks [Fn 3; Fn 4] (world abc_start)) =
       requests dm (world abc_start) /\
     pending dm (scheduleMicrotasks [Fn 3; Fn 4] (world abc_start)) =
       pending dm (world abc_start)) /\
  clock (sched (scheduleMicrotasks [Fn 3; Fn 4] (world abc_start))) =
    clock (sched (world abc_start)) /\
  (forall f c, frame_flag (scheduleMicrotasks [Fn 3; Fn 4] (world abc_start)) f c =
               frame_flag (world abc_start) f c) /\
  wf (scheduleMicrotasks [Fn 3; Fn 4] (world abc_start)).
Proof.
  split; [exact abc_start_wf|].
  exact (scheduleMicrotask_batch [Fn 3; Fn 4] (world abc_start) abc_start_wf).
Defined.

(** The queue is then A, B and the two new tasks, and still one tick has
    been asked for. *)
Example abc_batch :
  contents (scheduleMicrotasks [Fn 3; Fn 4] (world abc_start)) PMicro =
    [Fn 0; Fn 1; Fn 3; Fn 4] /\
  requests Microtask (scheduleMicrotasks [Fn 3; Fn 4] (world abc_start)) = 1%nat.
Proof. vm_compute. split; reflexivity. Qed.

(** ** Three macrotasks on a new scheduler *)

Lemma scheduleMacrotask_batch_witness :
  wf new_Scheduler /\
  contents (scheduleMacrotasks [Fn 0; Fn 1; Fn 2] new_Scheduler) PMacro =
    contents new_Scheduler PMacro ++ [Fn 0; Fn 1; Fn 2] /\
  (forall p, p <> PMacro ->
     contents (scheduleMacrotasks [Fn 0; Fn 1; Fn 2] new_Scheduler) p =
     contents new_Scheduler p) /\
  requests Macrotask (scheduleMacrotasks [Fn 0; Fn 1; Fn 2] new_Scheduler) =
    (requests Macrotask new_Scheduler +
     if pending Macrotask new_Scheduler then 0
     else if bool_decide ([Fn 0; Fn 1; Fn 2] = []) then 0 else 1)%nat /\
  pending Macrotask (scheduleMacrotasks [Fn 0; Fn 1; Fn 2] new_Scheduler) =
    pending Macrotask new_Scheduler || negb (bool_decide ([Fn 0; Fn 1; Fn 2] = [])) /\
  (forall dm, dm <> Macrotask ->
     requests dm (scheduleMacrotasks [Fn 0; Fn 1; Fn 2] new_Scheduler) =
       requests dm new_Scheduler /\
     pending dm (scheduleMacrotasks [Fn 0; Fn 1; Fn 2] new_Scheduler) =
       pending dm new_Scheduler) /\
  clock (sched (scheduleMacrotasks [Fn 0; Fn 1; Fn 2] new_Scheduler)) =
    clock (sched new_Scheduler) /\
  (forall f c, frame_flag (scheduleMacrotasks [Fn 0; Fn 1; Fn 2] new_Scheduler) f c =
               frame_flag new_Scheduler f c) /\
  wf (scheduleMacrotasks [Fn 0; Fn 1; Fn 2] new_Scheduler).
Proof.
  split; [exact wf_new_Scheduler|].
  exact (scheduleMacrotask_batch [Fn 0; Fn 1; Fn 2] new_Scheduler wf_new_Scheduler).
Defined.

Example macro_batch :
  contents (scheduleMacrotasks [Fn 0; Fn 1; Fn 2] new_Scheduler) PMacro =
    [Fn 0; Fn 1; Fn 2] /\
  requests Macrotask (scheduleMacrotasks [Fn 0; Fn 1; Fn 2] new_Scheduler) = 1%nat.
Proof. vm_compute. split; reflexivity. Qed.

(** ** The frames during the run of the read task *)

Lemma frame_flush_swaps_frames_first_witness :
  final (flush reader Frametask 10 reader_start) = Some reader_end /\
  exists d, trace reader_end = trace reader_start ++ d /\
    Forall (fun e => match e with
                     | EvRun _ _ _ _ w =>
                         currentFrame w =
                           (if decide (Frametask = Frametask)
                            then _nextFrame (sched (world reader_start))
                            else _currentFrame (sched (world reader_start))) /\
                         fst (nextFrame w) =
                           (if decide (Frametask = Frametask)
                            then _currentFrame (sched (world reader_start))
                            else _nextFrame (sched (world reader_start)))
                     | _ => True
                     end) d /\
    currentFrame (world reader_end) =
      (if decide (Frametask = Frametask) then _nextFrame (sched (world reader_start))
       else _currentFrame (sched (world reader_start))) /\
    fst (nextFrame (world reader_end)) =
      (if decide (Frametask = Frametask) then _currentFrame (sched (world reader_start))
       else _nextFrame (sched (world reader_start))).
Proof.
  split; [exact reader_final|].
  exact (frame_flush_swaps_frames_first reader Frametask 10 reader_start reader_end
           reader_final).
Defined.

Example reader_frames :
  currentFrame (world reader_start) = FrameA /\
  currentFrame (world reader_end) = FrameB /\
  fst (nextFrame (world reader_end)) = FrameA.
Proof. vm_compute. repeat split. Qed.

Lemma frames_stay_distinct_witness :
  reachable abc abc_end /\
  _currentFrame (sched (world abc_end)) <> _nextFrame (sched (world abc_end)) /\
  Forall (fun e => match e with
                   | EvRun _ _ _ _ w => _currentFrame (sched w) <> _nextFrame (sched w)
                   | _ => True
                   end) (trace abc_end).
Proof.
  split; [exact abc_reachable|].
  exact (frames_stay_distinct abc abc_end abc_reachable).
Defined.

(** ** Registrations during the flush that raises *)

Lemma thrower_final :
  final (flush thrower Frametask 10 thrower_start) = Some thrower_end.
Proof. vm_compute. reflexivity. Qed.

Lemma flush_registers_once_per_domain_witness :
  final (flush thrower Frametask 10 thrower_start) = Some thrower_end /\
  exists d, trace thrower_end = trace thrower_start ++ d /\
    forall dm',
      requests dm' (world thrower_end) =
      (requests dm' (world thrower_start) +
       if (if decide (dm' = Frametask /\ Frametask <> Microtask) then false
           else pending dm' (world thrower_start))
       then 0
       else if armed dm' (apis_of d) then 1 else 0)%nat.
Proof.
  split; [exact thrower_final|].
  exact (flush_registers_once_per_domain thrower Frametask 10 thrower_start thrower_end
           thrower_final).
Defined.

(** One animation frame was asked for before the flush and one during it. *)
Example thrower_requests :
  requests Frametask (world thrower_start) = 1%nat /\
  requests Frametask (world thrower_end) = 2%nat.
Proof. vm_compute. split; reflexivity. Qed.

(** ** A microtask that raises *)

(** The raising task 0 is the only microtask. *)
Definition micro_thrower_start : State :=
  do_action (ScheduleMicrotask (Fn 0)) init.

Definition micro_thrower_end : State :=
  Eval vm_compute in
    end_state micro_thrower_start (_microtaskScheduler thrower 10 micro_thrower_start).

Lemma micro_thrower_pending : pending Microtask (world micro_thrower_start) = true.
Proof. vm_compute. reflexivity. Qed.

Lemma micro_thrower_flush :
  _microtaskScheduler thrower 10 micro_thrower_start = Raised micro_thrower_end.
Proof. vm_compute. reflexivity. Qed.

Lemma microtask_raise_blocks_registration_witness :
  pending Microtask (world micro_thrower_start) = true /\
  _microtaskScheduler thrower 10 micro_thrower_start = Raised micro_thrower_end /\
  pending Microtask (world micro_thrower_end) = true /\
  requests Microtask (world micro_thrower_end) =
    requests Microtask (world micro_thrower_start) /\
  (forall cs,
     requests Microtask (apply_apis cs (world micro_thrower_end)) =
       requests Microtask (world micro_thrower_start) /\
     pending Microtask (apply_apis cs (world micro_thrower_end)) = true) /\
  clock (sched (world micro_thrower_end)) = clock (sched (world micro_thrower_start)) /\
  flag_test (flags (sched (world micro_thrower_end))) SchedulerFlags.RUNNING = true.
Proof.
  split; [exact micro_thrower_pending|]. split; [exact micro_thrower_flush|].
  exact (microtask_raise_blocks_registration thrower 10 micro_thrower_start
           micro_thrower_end micro_thrower_pending micro_thrower_flush).
Defined.

(** A microtask scheduled after the raise is queued without a tick being
    asked for. *)
Example micro_thrower_stuck :
  contents (scheduleMicrotask (Fn 5) (world micro_thrower_end)) PMicro = [Fn 5] /\
  requests Microtask (scheduleMicrotask (Fn 5) (world micro_thrower_end)) = 1%nat /\
  requests Microtask (world micro_thrower_start) = 1%nat.
Proof. vm_compute. repeat split. Qed.

(** ** A macrotask that raises *)

(** The raising task 0 is queued before task 1. *)
Definition macro_thrower_start : State :=
  do_action (ScheduleMacrotask (Fn 1)) (do_action (ScheduleMacrotask (Fn 0)) init).

Definition macro_thrower_end : State :=
  Eval vm_compute in
    end_state macro_thrower_start (_macrotaskScheduler thrower 10 macro_thrower_start).

Lemma macro_thrower_wf : wf (world macro_thrower_start).
Proof. apply wf_do_action, wf_do_action, wf_new_Scheduler. Qed.

Lemma macro_thrower_flush :
  _macrotaskScheduler thrower 10 macro_thrower_start = Raised macro_thrower_end.
Proof. vm_compute. reflexivity. Qed.

Lemma macrotask_raise_drops_rest_of_batch_witness :
  wf (world macro_thrower_start) /\
  _macrotaskScheduler thrower 10 macro_thrower_start = Raised macro_thrower_end /\
  exists d n,
    trace macro_thrower_end = trace macro_thrower_start ++ d /\
    ran d = take n (contents (world macro_thrower_start) PMacro) /\
    contents (world macro_thrower_end) PMacro = pushes PMacro (apis_of d) /\
    pending Macrotask (world macro_thrower_end) =
      negb (bool_decide (pushes PMacro (apis_of d) = [])) /\
    requests Macrotask (world macro_thrower_end) =
      (requests Macrotask (world macro_thrower_start) +
       if bool_decide (pushes PMacro (apis_of d) = []) then 0 else 1)%nat /\
    clock (sched (world macro_thrower_end)) = clock (sched (world macro_thrower_start)) /\
    flag_test (flags (sched (world macro_thrower_end))) SchedulerFlags.RUNNING = true /\
    wf (world macro_thrower_end).
Proof.
  split; [exact macro_thrower_wf|]. split; [exact macro_thrower_flush|].
  exact (macrotask_raise_drops_rest_of_batch thrower 10 macro_thrower_start
           macro_thrower_end macro_thrower_wf macro_thrower_flush).
Defined.

(** Task 1 was in the batch, has not run and is in no queue. *)
Example macro_thrower_lost :
  contents (world macro_thrower_start) PMacro = [Fn 0; Fn 1] /\
  ran (drop 2 (trace macro_thrower_end)) = [Fn 0] /\
  contents (world macro_thrower_end) PMacro = [] /\
  pending Macrotask (world macro_thrower_end) = false.
Proof. vm_compute. repeat split. Qed.

(** ** The fields after the microtask run *)

Lemma fields_never_share_an_array_witness :
  reachable abc abc_end /\
  wf (world abc_end) /\ Forall snap_wf (trace abc_end).
Proof.
  split; [exact abc_reachable|].
  exact (fields_never_share_an_array abc abc_end abc_reachable).
Defined.

(** ** A frame with stale tasks and no flag *)

(** The state one idle frame flush after the run of the read task: the
    frame that run flushed is the next frame again, its flags are clear,
    and its write task and its after-task are still in its arrays. *)
Definition stale_start : State :=
  Eval vm_compute in end_state reader_end (_handleAnimationFrame reader 10 reader_end).

Example stale_tasks :
  _nextFrame (sched (world stale_start)) = FrameB /\
  contents (world stale_start) (PWrite FrameB) = [Fn 1] /\
  contents (world stale_start) (PAfter FrameB) = [Fn 2].
Proof. vm_compute. repeat split. Qed.

Lemma stale_nothing_to_do : nothing_to_do Frametask (world stale_start).
Proof. vm_compute. repeat split. Qed.

Lemma idle_flush_only_keeps_books_witness :
  (2 <= 2)%nat /\
  nothing_to_do Frametask (world stale_start) /\
  flush reader Frametask 2 stale_start =
    Done (mkState (flush_end Frametask (flush_begin Frametask (world stale_start)))
                  (trace stale_start ++ idle_marks Frametask)) /\
  ran (idle_marks Frametask) = [] /\
  clock (sched (flush_end Frametask (flush_begin Frametask (world stale_start)))) =
    js_incr (clock (sched (world stale_start))) /\
  (- 2 ^ 53 <= clock (sched (world stale_start)) < 2 ^ 53 ->
   clock (sched (flush_end Frametask (flush_begin Frametask (world stale_start)))) =
     clock (sched (world stale_start)) + 1) /\
  (clock (sched (world stale_start)) = 2 ^ 53 ->
   clock (sched (flush_end Frametask (flush_begin Frametask (world stale_start)))) =
     clock (sched (world stale_start))) /\
  heap (flush_end Frametask (flush_begin Frametask (world stale_start))) =
    heap (world stale_start) /\
  forall p, loc_at (flush_end Frametask (flush_begin Frametask (world stale_start))) p =
            loc_at (world stale_start) p.
Proof.
  split; [lia|]. split; [exact stale_nothing_to_do|].
  apply (idle_flush_only_keeps_books reader Frametask 2 stale_start);
    [lia | exact stale_nothing_to_do].
Defined.

(** ** A read task that schedules a read task *)

(** Task 0 schedules task 1 as a read task of the frame being flushed. *)
Definition rereader (t : task) (s : State) : list action :=
  match t with
  | Fn 0 => [OnCurrentFrame [FRead (Fn 1)]]
  | _ => []
  end.

(** Read tasks 0 and 2 are in the frame whose flush has just begun. *)
Definition rereader_start : State :=
  on_world frame_begin (do_action (OnNextFrame [FRead (Fn 0); FRead (Fn 2)]) init).

Definition rereader_end : State :=
  Eval vm_compute in end_state rereader_start (read_while rereader 10 FrameB rereader_start).

Lemma rereader_start_wf : wf (world rereader_start).
Proof.
  eapply inert_wf; [apply inert_frame_begin|]. apply wf_do_action, wf_new_Scheduler.
Qed.

Lemma rereader_loop : read_while rereader 10 FrameB rereader_start = Done rereader_end.
Proof. vm_compute. reflexivity. Qed.

(** Tasks 0 and 2 run in the first wave, task 1 in the second. *)
Example rereader_runs :
  ran (drop 3 (trace rereader_end)) = [Fn 0; Fn 2; Fn 1].
Proof. vm_compute. reflexivity. Qed.

Lemma read_tasks_run_in_waves_witness :
  wf (world rereader_start) /\
  read_while rereader 10 FrameB rereader_start = Done rereader_end /\
  exists ws,
    trace rereader_end = trace rereader_start ++ concat ws /\
    read_chain FrameB (frame_flag (world rereader_start) FrameB FrameFlags.READ)
               (contents (world rereader_start) (PRead FrameB)) ws /\
    Forall (Forall read_event) ws /\
    (frame_flag (world rereader_start) FrameB FrameFlags.READ = true ->
     contents (world rereader_end) (PRead FrameB) = []) /\
    frame_flag (world rereader_end) FrameB FrameFlags.READ = false /\
    wf (world rereader_end).
Proof.
  split; [exact rereader_start_wf|]. split; [exact rereader_loop|].
  exact (read_tasks_run_in_waves rereader 10 FrameB rereader_start rereader_end
           rereader_start_wf rereader_loop).
Defined.

(** ** The after-task across two flushes *)

Lemma stale_reaches : reaches reader reader_start stale_start.
Proof.
  apply (reaches_step reader reader_start reader_end stale_start).
  - apply (reaches_step reader reader_start reader_start reader_end);
      [apply reaches_refl|].
    apply (step_flush reader Frametask 10). exact reader_final.
  - apply (step_flush reader Frametask 10). vm_compute. reflexivity.
Qed.

Lemma write_and_after_tasks_stay_queued_witness :
  wf (world reader_start) /\
  reaches reader reader_start stale_start /\
  (exists f, PAfter FrameB = PWrite f \/ PAfter FrameB = PAfter f) /\
  wf (world stale_start) /\
  exists d, trace stale_start = trace reader_start ++ d /\
    contents (world stale_start) (PAfter FrameB) =
    contents (world reader_start) (PAfter FrameB) ++ pushes (PAfter FrameB) (apis_of d).
Proof.
  split; [exact reader_start_wf|]. split; [exact stale_reaches|].
  split; [exists FrameB; right; reflexivity|].
  apply (write_and_after_tasks_stay_queued reader reader_start stale_start (PAfter FrameB)
           reader_start_wf stale_reaches).
  exists FrameB. right. reflexivity.
Defined.

(** ** Microtasks that schedule no microtask *)

Lemma reader_no_microtask (t : task) (s : State) : Forall no_microtask (reader t s).
Proof. destruct t as [c|[|n]]; simpl; repeat constructor. Qed.

Lemma abc_fuel : (length (contents (world abc_start) PMicro) + 1 < 10)%nat.
Proof. vm_compute. lia. Qed.

Lemma microtask_flush_single_wave_witness :
  (forall t s, Forall no_microtask (reader t s)) /\
  wf (world abc_start) /\
  (length (contents (world abc_start) PMicro) + 1 < 10)%nat /\
  _microtaskScheduler reader 10 abc_start <> OutOfFuel /\
  forall s', _microtaskScheduler reader 10 abc_start = Done s' ->
    exists d,
      trace s' =
        trace abc_start ++ (if decide (contents (world abc_start) PMicro = []) then []
                            else EvPhase PhWave :: d) /\
      Forall (in_loop InMicro (_microtasks (sched (world abc_start)))) d /\
      ran d = contents (world abc_start) PMicro /\
      contents (world s') PMicro = [] /\
      pending Microtask (world s') = false.
Proof.
  split; [exact reader_no_microtask|]. split; [exact abc_start_wf|].
  split; [exact abc_fuel|].
  exact (microtask_flush_single_wave reader reader_no_microtask 10 abc_start
           abc_start_wf abc_fuel).
Defined.

Example abc_single_wave :
  exists s', _microtaskScheduler reader 10 abc_start = Done s' /\
             ran (drop 2 (trace s')) = [Fn 0; Fn 1].
Proof. eexists. split; vm_compute; reflexivity. Qed.

(** ** A frame whose tasks all defer *)

(** Task 0 schedules itself as a write task of the next frame and task 9 as
    a microtask; no other task does anything. *)
Definition deferrer (t : task) (s : State) : list action :=
  match t with
  | Fn 0 => [OnNextFrame [FWrite (Fn 0)]; ScheduleMicrotask (Fn 9)]
  | _ => []
  end.

Lemma deferrer_defers (t : task) (s : State) : Forall defers (deferrer t s).
Proof. destruct t as [c|[|n]]; simpl; repeat constructor. Qed.

(** The next frame holds task 1 at rank 2, task 0 at rank 0, the plain
    write task 2, the read task 3 and the after-task 4. *)
Definition deferrer_start : State :=
  do_action (OnNextFrame [FWritePrio (Fn 1) 2; FWritePrio (Fn 0) 0; FWrite (Fn 2);
                          FRead (Fn 3); FAfter (Fn 4)]) init.

Definition deferrer_end : State :=
  Eval vm_compute in
    end_state deferrer_start (_handleAnimationFrame deferrer 20 deferrer_start).

Lemma deferrer_start_wf : wf (world deferrer_start).
Proof. apply wf_do_action, wf_new_Scheduler. Qed.

Lemma deferrer_frames :
  _currentFrame (sched (world deferrer_start)) <> _nextFrame (sched (world deferrer_start)).
Proof. vm_compute. discriminate. Qed.

Lemma deferrer_fuel :
  (frame_load (world deferrer_start) (_nextFrame (sched (world deferrer_start))) + 3 < 20)%nat.
Proof. vm_compute. lia. Qed.

(** Rank 0, rank 2, the plain write, the read and the after-task, in that
    order; what task 0 scheduled is waiting in the other frame and in the
    microtask queue. *)
Example deferrer_runs :
  _handleAnimationFrame deferrer 20 deferrer_start = Done deferrer_end /\
  ran (drop 6 (trace deferrer_end)) = [Fn 0; Fn 1; Fn 2; Fn 3; Fn 4] /\
  contents (world deferrer_end) (PWrite FrameA) = [Fn 0] /\
  contents (world deferrer_end) PMicro = [Fn 9].
Proof. vm_compute. repeat split. Qed.

Lemma deferring_tasks_get_one_pass_witness :
  (forall t s0, Forall defers (deferrer t s0)) /\
  wf (world deferrer_start) /\
  _currentFrame (sched (world deferrer_start)) <> _nextFrame (sched (world deferrer_start)) /\
  (frame_load (world deferrer_start) (_nextFrame (sched (world deferrer_start))) + 3 < 20)%nat /\
  _handleAnimationFrame deferrer 20 deferrer_start <> OutOfFuel /\
  forall s', _handleAnimationFrame deferrer 20 deferrer_start = Done s' ->
    exists dp dw dr da,
      trace s' = trace deferrer_start ++ EvPhase PhWrite :: dp ++ dw ++
                   EvPhase PhRead :: dr ++ EvPhase PhAfter :: da /\
      ran dp = (if frame_flag (world deferrer_start)
                     (_nextFrame (sched (world deferrer_start))) FrameFlags.WRITE_PRIO
                then group_tasks (world deferrer_start)
                       (_nextFrame (sched (world deferrer_start))) 0 else []) /\
      ran dw = (if frame_flag (world deferrer_start)
                     (_nextFrame (sched (world deferrer_start))) FrameFlags.WRITE
                then contents (world deferrer_start)
                       (PWrite (_nextFrame (sched (world deferrer_start)))) else []) /\
      ran dr = (if frame_flag (world deferrer_start)
                     (_nextFrame (sched (world deferrer_start))) FrameFlags.READ
                then contents (world deferrer_start)
                       (PRead (_nextFrame (sched (world deferrer_start)))) else []) /\
      ran da = (if frame_flag (world deferrer_start)
                     (_nextFrame (sched (world deferrer_start))) FrameFlags.AFTER
                then contents (world deferrer_start)
                       (PAfter (_nextFrame (sched (world deferrer_start)))) else []) /\
      bits (_nextFrame (sched (world deferrer_start))) (world s') =
        (false, false, false, false).
Proof.
  split; [exact deferrer_defers|]. split; [exact deferrer_start_wf|].
  split; [exact deferrer_frames|]. split; [exact deferrer_fuel|].
  exact (deferring_tasks_get_one_pass deferrer 20 deferrer_start
           deferrer_defers deferrer_start_wf deferrer_frames deferrer_fuel).
Defined.

(** ** The frame after the deferring one *)

Lemma deferrer_final :
  final (flush deferrer Frametask 20 deferrer_start) = Some deferrer_end.
Proof. vm_compute. reflexivity. Qed.

Lemma deferrer_other_frame :
  Frametask = Frametask -> FrameA <> _nextFrame (sched (world deferrer_start)).
Proof. intros _. vm_compute. discriminate. Qed.

Lemma flush_only_sets_flags_of_other_frame_witness :
  (Frametask = Frametask -> FrameA <> _nextFrame (sched (world deferrer_start))) /\
  final (flush deferrer Frametask 20 deferrer_start) = Some deferrer_end /\
  exists d, trace deferrer_end = trace deferrer_start ++ d /\
    forall c, frame_flag (world deferrer_end) FrameA c =
              frame_flag (world deferrer_start) FrameA c ||
              existsb (fun a => flag_test (frame_bit a FrameA) c) (apis_of d).
Proof.
  split; [exact deferrer_other_frame|]. split; [exact deferrer_final|].
  exact (flush_only_sets_flags_of_other_frame deferrer Frametask 20 deferrer_start
           deferrer_end FrameA deferrer_other_frame deferrer_final).
Defined.

(** WRITE is set in the other frame after the flush, by task 0. *)
Example deferrer_other_flags :
  frame_flag (world deferrer_start) FrameA FrameFlags.WRITE = false /\
  frame_flag (world deferrer_end) FrameA FrameFlags.WRITE = true.
Proof. vm_compute. split; reflexivity. Qed.

(** ** Work for the next frame, scheduled while the current one is served *)

(** Task 0 schedules task 1 as a write into the frame being flushed and
    task 2 as a read task of the next frame; task 2 schedules task 3 as a
    write into the frame being flushed. *)
Definition mixer (t : task) (s : State) : list action :=
  match t with
  | Fn 0 => [OnCurrentFrame [FWrite (Fn 1)]; OnNextFrame [FRead (Fn 2)]]
  | Fn 2 => [OnCurrentFrame [FWrite (Fn 3)]]
  | _ => []
  end.

(** The next frame holds the read task 0. *)
Definition mixer_start : State := do_action (OnNextFrame [FRead (Fn 0)]) init.

Definition mixer_end : State :=
  Eval vm_compute in end_state mixer_start (_handleAnimationFrame mixer 10 mixer_start).

Definition mixer_end2 : State :=
  Eval vm_compute in end_state mixer_end (_handleAnimationFrame mixer 10 mixer_end).

Lemma mixer_start_wf : wf (world mixer_start).
Proof. apply wf_do_action, wf_new_Scheduler. Qed.

Lemma mixer_frames :
  _currentFrame (sched (world mixer_start)) <> _nextFrame (sched (world mixer_start)).
Proof. vm_compute. discriminate. Qed.

Lemma mixer_final :
  final (_handleAnimationFrame mixer 10 mixer_start) = Some mixer_end.
Proof. vm_compute. reflexivity. Qed.

Lemma mixer_flush2 : _handleAnimationFrame mixer 10 mixer_end = Done mixer_end2.
Proof. vm_compute. reflexivity. Qed.

Lemma next_frame_work_runs_in_next_flush_witness :
  wf (world mixer_start) /\
  _currentFrame (sched (world mixer_start)) <> _nextFrame (sched (world mixer_start)) /\
  final (_handleAnimationFrame mixer 10 mixer_start) = Some mixer_end /\
  _handleAnimationFrame mixer 10 mixer_end = Done mixer_end2 /\
  exists d1 d2,
    trace mixer_end = trace mixer_start ++ d1 /\
    trace mixer_end2 = trace mixer_end ++ d2 /\
    forall p t, path_frame p = Some (fst (nextFrame (world mixer_end))) ->
                t ∈ pushes p (apis_of d1) -> t ∈ ran d2.
Proof.
  split; [exact mixer_start_wf|]. split; [exact mixer_frames|].
  split; [exact mixer_final|]. split; [exact mixer_flush2|].
  exact (next_frame_work_runs_in_next_flush mixer 10 10 mixer_start mixer_end mixer_end2
           mixer_start_wf mixer_frames mixer_final mixer_flush2).
Defined.

(** The first flush runs task 0 and, in a second round, task 1, which task 0
    put into the frame being flushed; the second flush runs task 2, which
    task 0 put into the next frame, and then task 3. *)
Example mixer_runs :
  ran (drop (length (trace mixer_start)) (trace mixer_end)) = [Fn 0; Fn 1] /\
  ran (drop (length (trace mixer_end)) (trace mixer_end2)) = [Fn 2; Fn 3].
Proof. vm_compute. split; reflexivity. Qed.

(** ** The deferring tasks are polite *)

Lemma deferrer_polite (t : task) (s : State) : Forall polite (deferrer t s).
Proof. destruct t as [c|[|n]]; simpl; repeat constructor. Qed.

Lemma polite_tasks_never_make_a_flush_raise_witness :
  (forall t s, Forall polite (deferrer t s)) /\
  tidy (world init) /\
  (forall a s, polite a -> tidy (world s) -> tidy (world (do_action a s))) /\
  (forall dm fuel s, tidy (world s) ->
     (forall s', flush deferrer dm fuel s <> Raised s') /\
     (forall s', flush deferrer dm fuel s = Done s' -> tidy (world s'))).
Proof.
  split; [exact deferrer_polite|].
  exact (polite_tasks_never_make_a_flush_raise deferrer deferrer_polite).
Defined.

(** ** Microtasks that schedule themselves *)

(** Every task schedules itself as a microtask. *)
Definition spinner (t : task) (s : State) : list action := [ScheduleMicrotask t].




(** With fuel 10 the flush is still running waves when the fuel is spent. *)
Example spinner_runs : _microtaskScheduler spinner 10 abc_start = OutOfFuel.
Proof. vm_compute. reflexivity. Qed.
